(** * Velo-Share: relay service, handshake coordinator and transfer engines

    A shallow embedding of the room server ([server.js], the first 244
    lines of [src/unnamed/part_001]), the WebRTC handshake module
    ([src/public/js/webrtc.js]), the framed transfer manager
    ([src/public/js/transfer.js]) and the raw-stream transfer engine of
    [VeloApp] with its queue and lock ([src/unnamed/part_002]; the
    receiving functions are the same in [src/public/js/velo-app.js]),
    together with the properties of the design document that concern
    them.  Beside these: the relaying handlers of the server, the sending
    helpers of the handshake module, the adaptive chunk loop of
    [src/public/js/velo-app.js], the theme switch, the history of
    transfers and the client's part in joining a room, with properties
    read off the code. *)

From Stdlib Require Import Ascii String QArith Qround.
From Stdlib.Strings Require Import Byte.
From stdpp Require Import gmap strings list fin_maps.

Local Open Scope string_scope.
Local Open Scope list_scope.

(** ** JavaScript helpers *)

Module Js.

(** [s.charAt(i)]: the one-character string at index [i], the empty string
    when [i] is out of range. *)
Definition charAt (s : string) (i : Z) : string :=
  if (i <? 0)%Z then ""
  else match String.get (Z.to_nat i) s with
       | Some c => String c ""
       | None => ""
       end.

(** Truthiness of a value that is [null] or a string. *)
Definition truthy (v : option string) : bool :=
  match v with
  | None => false
  | Some s => negb (String.eqb s "")
  end.

(** An insertion-ordered [Map] with string keys, as an association list:
    [set] overwrites in place or appends, [delete] removes, iteration
    follows the list. *)
Section OrderedMap.
Context {V : Type}.

Fixpoint map_set (k : string) (v : V) (m : list (string * V)) : list (string * V) :=
  match m with
  | [] => [(k, v)]
  | (k', v') :: m' =>
      if String.eqb k k' then (k, v) :: m' else (k', v') :: map_set k v m'
  end.

Fixpoint map_delete (k : string) (m : list (string * V)) : list (string * V) :=
  match m with
  | [] => []
  | (k', v') :: m' =>
      if String.eqb k k' then map_delete k m' else (k', v') :: map_delete k m'
  end.

Fixpoint map_get (k : string) (m : list (string * V)) : option V :=
  match m with
  | [] => None
  | (k', v') :: m' => if String.eqb k k' then Some v' else map_get k m'
  end.

Definition map_values (m : list (string * V)) : list V := map snd m.
End OrderedMap.

(** [blob.slice(start, end)]: both ends are clamped to the blob, a negative
    end point counts from the end of the blob. *)
Definition slice (data : list byte) (start stop : Z) : list byte :=
  let size := Z.of_nat (length data) in
  let relStart := if (start <? 0)%Z then Z.max (size + start) 0 else Z.min start size in
  let relEnd := if (stop <? 0)%Z then Z.max (size + stop) 0 else Z.min stop size in
  take (Z.to_nat (Z.max (relEnd - relStart) 0)) (drop (Z.to_nat relStart) data).

(** [new Blob(chunks)]: the concatenation of the parts in order. *)
Definition Blob (parts : list (list byte)) : list byte := concat parts.

End Js.

(** ** The rendezvous / relay service ([server.js], in [src/unnamed/part_001]) *)

Module Relay.

Definition UserId := string.

(** A room's entry for one user, [{ ws, username, userId }]; the socket is
    identified with the id the server generated for it. *)
Record Member := { m_username : string; m_userId : UserId }.

(** The objects of the list sent to clients, [{ id, username }]. *)
Record UserInfo := { id : UserId; username : string }.

Record Room := {
  code : string;
  users : list (UserId * Member)    (* a Map in insertion order *)
}.

(** The fields the server keeps on a socket. *)
Record Socket := { roomCode : option string; ws_username : option string }.

Inductive Msg :=
| Connected (userId : UserId)
| RoomCreated (roomCode : string) (users : list UserInfo)
| RoomJoined (roomCode : string) (users : list UserInfo)
| UserJoined (user : UserInfo) (users : list UserInfo)
| UserLeft (userId : UserId) (users : list UserInfo)
| Error (message : string).

(** Room objects live in a store and the room table maps a code to a
    reference, so that a handler holding a room keeps seeing the mutations
    made through the table and the other way round. [sent] logs every
    [ws.send] as (recipient, message), oldest first; [draws] counts the
    calls of [Math.random] made so far by [generateRoomCode]. *)
Record State := {
  rooms : gmap string nat;
  store : gmap nat Room;
  nextRef : nat;
  sockets : gmap UserId Socket;
  draws : nat;
  sent : list (UserId * Msg)
}.

Definition initial : State :=
  {| rooms := ∅; store := ∅; nextRef := 0; sockets := ∅; draws := 0; sent := [] |}.

Definition chars : string := "ABCDEFGHJKLMNPQRSTUVWXYZ23456789".

Definition send (to : UserId) (m : Msg) (st : State) : State :=
  {| rooms := rooms st; store := store st; nextRef := nextRef st;
     sockets := sockets st; draws := draws st; sent := sent st ++ [(to, m)] |}.

Definition setSocket (u : UserId) (s : Socket) (st : State) : State :=
  {| rooms := rooms st; store := store st; nextRef := nextRef st;
     sockets := <[u := s]> (sockets st); draws := draws st; sent := sent st |}.

Definition setRoom (r : nat) (room : Room) (st : State) : State :=
  {| rooms := rooms st; store := <[r := room]> (store st); nextRef := nextRef st;
     sockets := sockets st; draws := draws st; sent := sent st |}.

Definition userList (room : Room) : list UserInfo :=
  map (fun u => {| id := m_userId u; username := m_username u |})
      (Js.map_values (users room)).

Section Server.
(** [random n] is the value of the [n]-th call of [Math.random], a
    rational since every double is one; [toUpperCase] is the string
    method of that name. *)
Variable random : nat -> Q.
Variable toUpperCase : string -> string.

(** The loop of [generateRoomCode] with [n] characters to go. *)
Fixpoint generateLoop (n pos : nat) (code : string) : string :=
  match n with
  | O => code
  | S n' =>
      let k := Qfloor (random pos * inject_Z (Z.of_nat (String.length chars))) in
      generateLoop n' (S pos) (code +:+ Js.charAt chars k)
  end.

Definition generateRoomCode (pos : nat) : string := generateLoop 6 pos "".

(** [while (rooms.has(roomCode)) roomCode = generateRoomCode()], with
    [fuel] bounding the number of further draws; [None] when it runs out.
    Returns the code and the number of calls of [Math.random] made. *)
Fixpoint freshCode (fuel : nat) (table : gmap string nat) (roomCode : string)
    (pos : nat) : option (string * nat) :=
  match table !! roomCode with
  | None => Some (roomCode, pos)
  | Some _ =>
      match fuel with
      | O => None
      | S fuel' => freshCode fuel' table (generateRoomCode pos) (pos + 6)
      end
  end.

Definition createRoom (fuel : nat) (u : UserId) (name : string) (st : State)
    : option State :=
  match freshCode fuel (rooms st) (generateRoomCode (draws st)) (draws st + 6) with
  | None => None
  | Some (roomCode, pos) =>
      let room := {| code := roomCode;
                     users := [(u, {| m_username := name; m_userId := u |})] |} in
      let st1 :=
        {| rooms := <[roomCode := nextRef st]> (rooms st);
           store := <[nextRef st := room]> (store st);
           nextRef := S (nextRef st);
           sockets := <[u := {| roomCode := Some roomCode; ws_username := Some name |}]>
                        (sockets st);
           draws := pos;
           sent := sent st |} in
      Some (send u (RoomCreated roomCode [{| id := u; username := name |}]) st1)
  end.

Definition socketOf (u : UserId) (st : State) : Socket :=
  default {| roomCode := None; ws_username := None |} (sockets st !! u).

Definition leaveRoom (u : UserId) (st : State) : State :=
  let ws := socketOf u st in
  if negb (Js.truthy (roomCode ws)) then st
  else
    let rc := default "" (roomCode ws) in
    match rooms st !! rc with
    | None => st
    | Some r =>
        match store st !! r with
        | None => st
        | Some room =>
            let room' := {| code := code room; users := Js.map_delete u (users room) |} in
            let st1 := setRoom r room' st in
            let ul := userList room' in
            let st2 :=
              foldl (fun s user => send (m_userId user) (UserLeft u ul) s) st1
                    (Js.map_values (users room')) in
            let st3 :=
              if Nat.eqb (length (users room')) 0
              then {| rooms := delete rc (rooms st2); store := store st2;
                      nextRef := nextRef st2; sockets := sockets st2;
                      draws := draws st2; sent := sent st2 |}
              else st2 in
            setSocket u {| roomCode := None; ws_username := ws_username ws |} st3
        end
    end.

Definition joinRoom (u : UserId) (rc : string) (name : string) (st : State) : State :=
  match rooms st !! toUpperCase rc with
  | None => send u (Error "Room not found") st
  | Some r =>
      let st1 := if Js.truthy (roomCode (socketOf u st)) then leaveRoom u st else st in
      match store st1 !! r with
      | None => st1
      | Some room =>
          let room' :=
            {| code := code room;
               users := Js.map_set u {| m_username := name; m_userId := u |} (users room) |} in
          let st2 := setRoom r room' st1 in
          let st3 :=
            setSocket u {| roomCode := Some (toUpperCase rc); ws_username := Some name |} st2 in
          let ul := userList room' in
          let st4 := send u (RoomJoined (toUpperCase rc) ul) st3 in
          foldl (fun s user =>
                   if negb (String.eqb (m_userId user) u)
                   then send (m_userId user)
                             (UserJoined {| id := u; username := name |} ul) s
                   else s)
                st4 (Js.map_values (users room'))
      end
  end.

(** A new connection: the socket starts with [roomCode = null] and is
    sent its id. *)
Definition connect (u : UserId) (st : State) : State :=
  send u (Connected u) (setSocket u {| roomCode := None; ws_username := None |} st).

(** The [close] handler runs [leaveRoom]; the socket is gone afterwards. *)
Definition disconnect (u : UserId) (st : State) : State :=
  let st1 := leaveRoom u st in
  {| rooms := rooms st1; store := store st1; nextRef := nextRef st1;
     sockets := delete u (sockets st1); draws := draws st1; sent := sent st1 |}.

(** States the server can be in: sockets connect under ids not in use,
    and every request comes from a connected socket. *)
Inductive reachable : State -> Prop :=
| reach_initial : reachable initial
| reach_connect st u :
    reachable st -> sockets st !! u = None -> reachable (connect u st)
| reach_create st u name fuel st' :
    reachable st -> is_Some (sockets st !! u) ->
    createRoom fuel u name st = Some st' -> reachable st'
| reach_join st u rc name :
    reachable st -> is_Some (sockets st !! u) -> reachable (joinRoom u rc name st)
| reach_leave st u :
    reachable st -> is_Some (sockets st !! u) -> reachable (leaveRoom u st)
| reach_disconnect st u :
    reachable st -> is_Some (sockets st !! u) -> reachable (disconnect u st).

(** The states reached when [create-room] only comes from sockets that
    are in no room. *)
Inductive reachableApart : State -> Prop :=
| apart_initial : reachableApart initial
| apart_connect st u :
    reachableApart st -> sockets st !! u = None -> reachableApart (connect u st)
| apart_create st u name fuel st' :
    reachableApart st -> is_Some (sockets st !! u) ->
    roomCode (socketOf u st) = None ->
    createRoom fuel u name st = Some st' -> reachableApart st'
| apart_join st u rc name :
    reachableApart st -> is_Some (sockets st !! u) -> reachableApart (joinRoom u rc name st)
| apart_leave st u :
    reachableApart st -> is_Some (sockets st !! u) -> reachableApart (leaveRoom u st)
| apart_disconnect st u :
    reachableApart st -> is_Some (sockets st !! u) -> reachableApart (disconnect u st).

End Server.

(** A live room is a room of the room table. *)
Definition live (st : State) (r : nat) (room : Room) : Prop :=
  exists k, rooms st !! k = Some r /\ store st !! r = Some room.

Definition isMember (u : UserId) (room : Room) : bool :=
  match Js.map_get u (users room) with Some _ => true | None => false end.

(** Uppercase Latin letters and the digits 2 to 9, without [I] and [O]. *)
Definition unambiguous (c : ascii) : bool :=
  let n := nat_of_ascii c in
  ((65 <=? n) && (n <=? 90) && negb (n =? 73) && negb (n =? 79)
   || (50 <=? n) && (n <=? 57))%nat.

Definition confusable : list ascii := ["0"; "O"; "1"; "I"]%char.

(** Consistency of the table with the store: a listed reference holds a
    room carrying the code it is listed under, and references are
    allocated below [nextRef]. *)
Record consistent (st : State) : Prop := {
  table_code : forall k r, rooms st !! k = Some r ->
                 exists room, store st !! r = Some room /\ code room = k;
  store_bound : forall r room, store st !! r = Some room -> r < nextRef st
}.

(** The members of a listed room are the sockets whose [roomCode] is the
    code the room is listed under, and no room is listed under the empty
    code. *)
Record housed (st : State) : Prop := {
  members_here : forall k r room u,
    rooms st !! k = Some r -> store st !! r = Some room -> isMember u room = true ->
    roomCode (socketOf u st) = Some k;
  keys_nonempty : forall r, rooms st !! "" = Some r -> False
}.

Definition leftRoom (u : UserId) (room : Room) : Room :=
  {| code := code room; users := Js.map_delete u (users room) |}.

Definition joinedRoom (u : UserId) (name : string) (room : Room) : Room :=
  {| code := code room;
     users := Js.map_set u {| m_username := name; m_userId := u |} (users room) |}.

Definition leftNotices (u : UserId) (room : Room) : list (UserId * Msg) :=
  map (fun m => (m_userId m, UserLeft u (userList room))) (Js.map_values (users room)).

Definition joinNotices (u : UserId) (name : string) (c : string) (room : Room)
    : list (UserId * Msg) :=
  (u, RoomJoined c (userList room))
  :: map (fun m => (m_userId m, UserJoined {| id := u; username := name |} (userList room)))
         (List.filter (fun m => negb (String.eqb (m_userId m) u))
                      (Js.map_values (users room))).

Definition afterLeave (u : UserId) (rc : string) (r : nat) (room : Room) (st : State)
    : State :=
  {| rooms := if Nat.eqb (length (users (leftRoom u room))) 0
              then delete rc (rooms st) else rooms st;
     store := <[r := leftRoom u room]> (store st);
     nextRef := nextRef st;
     sockets := <[u := {| roomCode := None;
                          ws_username := ws_username (socketOf u st) |}]> (sockets st);
     draws := draws st;
     sent := sent st ++ leftNotices u (leftRoom u room) |}.

(** A run of [Math.random] whose first six values select [A] and all later
    ones [B]. *)
Definition rnd (n : nat) : Q := if (n <? 6)%nat then 0 else 1 # 32.

Definition upper (s : string) : string := s.

Definition oneRoom : State :=
  default initial (createRoom rnd 0 "a" "Ann" (connect "a" initial)).

(** *** Relaying *)

(** A JSON value as [JSON.parse] returns it. An object is given by its
    properties in enumeration order. *)
#[local] Unset Elimination Schemes.
Inductive Json :=
| JNull
| JBool (b : bool)
| JNumber (n : Q)
| JString (s : string)
| JArray (items : list Json)
| JObject (fields : list (string * Json)).
#[local] Set Elimination Schemes.

Definition Obj := list (string * Json).

(** [rooms.get(ws.roomCode)] *)
Definition roomOf (u : UserId) (st : State) : option Room :=
  match roomCode (socketOf u st) with
  | None => None
  | Some rc =>
      match rooms st !! rc with
      | Some r => store st !! r
      | None => None
      end
  end.

(** [room.users.get(message.targetId)]: the keys of [users] are strings,
    so only a string finds an entry. *)
Definition targetOf (message : Obj) (room : Room) : option Member :=
  match Js.map_get "targetId" message with
  | Some (JString targetId) => Js.map_get targetId (users room)
  | _ => None
  end.

(** [{ ...message, senderId: ws.userId }] *)
Definition withSenderId (u : UserId) (message : Obj) : Obj :=
  Js.map_set "senderId" (JString u) message.

(** [{ ...message, senderId: ws.userId, senderName: ws.username }] as
    [JSON.stringify] writes it: a property that is [undefined] is left
    out. *)
Definition withSender (u : UserId) (name : option string) (message : Obj) : Obj :=
  match name with
  | Some n => Js.map_set "senderName" (JString n) (withSenderId u message)
  | None => Js.map_delete "senderName" (withSenderId u message)
  end.

(** The three relaying handlers read the state and send; each is given
    by the messages it sends, as (recipient, object), in order. *)
Definition relaySignaling (u : UserId) (message : Obj) (st : State) : list (UserId * Obj) :=
  match roomOf u st with
  | None => []
  | Some room =>
      match targetOf message room with
      | Some targetUser =>
          [(m_userId targetUser, withSender u (ws_username (socketOf u st)) message)]
      | None => []
      end
  end.

Definition broadcastToRoom (u : UserId) (message : Obj) (st : State) : list (UserId * Obj) :=
  match roomOf u st with
  | None => []
  | Some room =>
      map (fun user => (m_userId user, withSender u (ws_username (socketOf u st)) message))
          (List.filter (fun user => negb (String.eqb (m_userId user) u))
                       (Js.map_values (users room)))
  end.

Definition relayToUser (u : UserId) (message : Obj) (st : State) : list (UserId * Obj) :=
  match roomOf u st with
  | None => []
  | Some room =>
      match targetOf message room with
      | Some targetUser => [(m_userId targetUser, withSenderId u message)]
      | None => []
      end
  end.

(** Every entry of a room's [users] is filed under the id it carries, and
    no id is filed twice. *)
Definition indexed (room : Room) : Prop :=
  List.NoDup (map fst (users room)) /\
  Forall (fun e => m_userId e.2 = e.1) (users room).

(** The messages of a list that are addressed to [v]. *)
Definition addressedTo (v : UserId) (out : list (UserId * Obj)) : list (UserId * Obj) :=
  List.filter (fun e => String.eqb e.1 v) out.

(** Ann has created a room and Bob has joined it. *)
Definition twoInRoom : State :=
  joinRoom upper "b" "AAAAAA" "Bob" (connect "b" oneRoom).

(** An offer for Bob, carrying a sender id of the client's own making. *)
Definition offer : Obj :=
  [("type", JString "offer"); ("targetId", JString "b");
   ("senderId", JString "b"); ("sdp", JObject [("type", JString "offer")])].

(** A run of [Math.random] whose first twelve values select [A]: the
    second code generated repeats the first. *)
Definition rndTwice (n : nat) : Q := if (n <? 12)%nat then 0 else 1 # 32.

Definition firstRoom : State :=
  default initial (createRoom rndTwice 0 "a" "Ann" (connect "a" initial)).

Section Later.
Variable random : nat -> Q.
Variable toUpperCase : string -> string.

(** The states that follow [st0] as long as no [create-room] is given
    the code [k]. *)
Inductive follows (k : string) (st0 : State) : State -> Prop :=
| follows_refl : follows k st0 st0
| follows_connect st u : follows k st0 st -> follows k st0 (connect u st)
| follows_create st u name fuel st' :
    follows k st0 st -> createRoom random fuel u name st = Some st' ->
    roomCode (socketOf u st') <> Some k -> follows k st0 st'
| follows_join st u rc name :
    follows k st0 st -> follows k st0 (joinRoom toUpperCase u rc name st)
| follows_leave st u : follows k st0 st -> follows k st0 (leaveRoom u st)
| follows_disconnect st u : follows k st0 st -> follows k st0 (disconnect u st).

End Later.

(** The messages of the log that went to [v], oldest first. *)
Definition toldTo (v : UserId) (log : list (UserId * Msg)) : list Msg :=
  map snd (List.filter (fun e => String.eqb e.1 v) log).

(** Ann, in her room with Bob, creates a second room and then closes her
    socket; Cy connects and joins the first room. *)
Definition annElsewhere : State := default initial (createRoom rnd 0 "a" "Ann" twoInRoom).

Definition annGone : State := disconnect "a" annElsewhere.

Definition cyJoins : State := joinRoom upper "c" "AAAAAA" "Cy" (connect "c" annGone).

End Relay.

(** ** The raw-stream transfer engine ([VeloApp], in [src/unnamed/part_002]) *)

Module Velo.

Definition PeerId := string.

Record File := { f_name : string; f_bytes : list byte }.

Definition f_size (f : File) : Z := Z.of_nat (length (f_bytes f)).

(** What travels over a data connection: raw binary chunks and the control
    objects, discriminated by their [type]. *)
Inductive Data :=
| Binary (bytes : list byte)
| Handshake (username : string)
| FileStart (id : Z) (name : string) (size : Z)
| FileEnd (id : Z).

(** The bytes a message adds to the outstanding-bytes counter of the data
    channel it is sent on: the payload of a raw chunk. The few bytes of a
    control envelope are left out; counting them could only make the
    backpressure check fail more often, so every bound on the chunk bytes
    shown with this counter holds with the larger one as well. *)
Definition wireBytes (d : Data) : Z :=
  match d with
  | Binary bytes => Z.of_nat (length bytes)
  | _ => 0
  end.

(** A data connection: everything sent on it, oldest first, and the
    [bufferedAmount] of its data channel when it has one. *)
Record Conn := { sentData : list Data; dataChannel : option Z }.

(** An entry of [connections]: [{ conn, username, receivingId }]. *)
Record PeerInfo := { conn : Conn; username : string; receivingId : option Z }.

(** An entry of [transfers], made by [receiveFileStart]. *)
Record Incoming := { name : string; size : Z; chunks : list (list byte); received : Z }.

(** An entry of [activeTransfers], without its clock readings. *)
Record Active := { a_size : Z; transferred : Z }.

(** The closure of one running [sendFile]: its [id], [file] and [offset],
    and whether it waits for the timer that re-runs [sendNextChunk] or for
    its [FileReader]. *)
Inductive Phase := AwaitCheck | Reading.
Record Stream := { s_id : Z; s_file : File; s_offset : Z; s_phase : Phase }.

Record App := {
  myUsername : string;
  connections : list (PeerId * PeerInfo);      (* a Map in insertion order *)
  transfers : gmap Z Incoming;
  activeTransfers : gmap Z Active;
  transferId : Z;
  totalBytesTransferred : Z;
  isSending : bool;
  sendingQueue : list File;
  streams : list Stream;
  downloads : list (string * list byte)          (* the blobs handed to the browser *)
}.

Definition initial (me : string) : App :=
  {| myUsername := me; connections := []; transfers := ∅; activeTransfers := ∅;
     transferId := 0; totalBytesTransferred := 0; isSending := false;
     sendingQueue := []; streams := []; downloads := [] |}.

Definition chunkSize : Z := 512 * 1024.
Definition bufferThreshold : Z := 8 * 1024 * 1024.
Definition retryDelay : Z := 10.

(** Truthiness of a transfer id that is [null] or a number. *)
Definition truthyId (v : option Z) : bool :=
  match v with
  | None => false
  | Some n => negb (n =? 0)%Z
  end.

(** [conn.send(d)] *)
Definition connSend (d : Data) (c : Conn) : Conn :=
  {| sentData := sentData c ++ [d];
     dataChannel := (fun b => b + wireBytes d)%Z <$> dataChannel c |}.

Definition sendTo (d : Data) (info : PeerInfo) : PeerInfo :=
  {| conn := connSend d (conn info); username := username info;
     receivingId := receivingId info |}.

(** [this.connections.forEach(({ conn }) => conn.send(d))] *)
Definition sendAll (d : Data) (cs : list (PeerId * PeerInfo)) : list (PeerId * PeerInfo) :=
  map (fun e => (e.1, sendTo d e.2)) cs.

(** The sum computed by the backpressure check. *)
Definition totalBuffered (cs : list (PeerId * PeerInfo)) : Z :=
  foldl (fun total e => total + default 0 (dataChannel (conn e.2)))%Z 0%Z cs.

Definition setConnections (cs : list (PeerId * PeerInfo)) (app : App) : App :=
  {| myUsername := myUsername app; connections := cs; transfers := transfers app;
     activeTransfers := activeTransfers app; transferId := transferId app;
     totalBytesTransferred := totalBytesTransferred app; isSending := isSending app;
     sendingQueue := sendingQueue app; streams := streams app;
     downloads := downloads app |}.

Definition setStreams (ss : list Stream) (app : App) : App :=
  {| myUsername := myUsername app; connections := connections app;
     transfers := transfers app; activeTransfers := activeTransfers app;
     transferId := transferId app; totalBytesTransferred := totalBytesTransferred app;
     isSending := isSending app; sendingQueue := sendingQueue app; streams := ss;
     downloads := downloads app |}.

Definition findStream (id : Z) (ss : list Stream) : option Stream :=
  List.find (fun s => (s_id s =? id)%Z) ss.

Definition putStream (s : Stream) (ss : list Stream) : list Stream :=
  map (fun s' => if (s_id s' =? s_id s)%Z then s else s') ss.

Definition dropStream (id : Z) (ss : list Stream) : list Stream :=
  List.filter (fun s => negb (s_id s =? id)%Z) ss.

(** ** Sending *)

(** [sendNextChunk] of the stream [s]: over the threshold it re-arms itself
    after [retryDelay] milliseconds and sends nothing, otherwise it starts
    reading the next slice. *)
Definition sendNextChunk (s : Stream) (app : App) : App :=
  let phase :=
    if (bufferThreshold <? totalBuffered (connections app))%Z then AwaitCheck else Reading in
  setStreams
    (putStream {| s_id := s_id s; s_file := s_file s; s_offset := s_offset s;
                  s_phase := phase |} (streams app)) app.

(** [sendFile]: takes the lock, announces the file on every connection and
    runs [sendNextChunk] for the first time. *)
Definition sendFile (file : File) (app : App) : App :=
  let id := (transferId app + 1)%Z in
  let s := {| s_id := id; s_file := file; s_offset := 0; s_phase := AwaitCheck |} in
  let app1 :=
    {| myUsername := myUsername app;
       connections := sendAll (FileStart id (f_name file) (f_size file)) (connections app);
       transfers := transfers app;
       activeTransfers :=
         <[id := {| a_size := f_size file; transferred := 0 |}]> (activeTransfers app);
       transferId := id;
       totalBytesTransferred := totalBytesTransferred app;
       isSending := true;
       sendingQueue := sendingQueue app;
       streams := streams app ++ [s];
       downloads := downloads app |} in
  sendNextChunk s app1.

Definition processTransferQueue (app : App) : App :=
  if isSending app then app
  else match sendingQueue app with
       | [] => app
       | file :: rest =>
           sendFile file
             {| myUsername := myUsername app; connections := connections app;
                transfers := transfers app; activeTransfers := activeTransfers app;
                transferId := transferId app;
                totalBytesTransferred := totalBytesTransferred app;
                isSending := isSending app; sendingQueue := rest;
                streams := streams app; downloads := downloads app |}
       end.

Definition queueFileForSending (file : File) (app : App) : App :=
  processTransferQueue
    {| myUsername := myUsername app; connections := connections app;
       transfers := transfers app; activeTransfers := activeTransfers app;
       transferId := transferId app; totalBytesTransferred := totalBytesTransferred app;
       isSending := isSending app; sendingQueue := sendingQueue app ++ [file];
       streams := streams app; downloads := downloads app |}.

(** [reader.onload] of the stream [s]: the chunk read goes out raw on every
    connection; then either the loop goes on, or the footer is sent, the
    lock released and the queue looked at again (the model does so at the
    next [ProcessQueue]). *)
Definition onload (s : Stream) (app : App) : App :=
  let chunk := Js.slice (f_bytes (s_file s)) (s_offset s) (s_offset s + chunkSize) in
  let offset := (s_offset s + Z.of_nat (length chunk))%Z in
  let active :=
    match activeTransfers app !! s_id s with
    | Some a => <[s_id s := {| a_size := a_size a; transferred := offset |}]>
                  (activeTransfers app)
    | None => activeTransfers app
    end in
  let app1 :=
    {| myUsername := myUsername app;
       connections := sendAll (Binary chunk) (connections app);
       transfers := transfers app;
       activeTransfers := active;
       transferId := transferId app;
       totalBytesTransferred := (totalBytesTransferred app + Z.of_nat (length chunk))%Z;
       isSending := isSending app;
       sendingQueue := sendingQueue app;
       streams := streams app;
       downloads := downloads app |} in
  if (offset <? f_size (s_file s))%Z
  then sendNextChunk {| s_id := s_id s; s_file := s_file s; s_offset := offset;
                        s_phase := Reading |} app1
  else
    {| myUsername := myUsername app1;
       connections := sendAll (FileEnd (s_id s)) (connections app1);
       transfers := transfers app1;
       activeTransfers := delete (s_id s) (activeTransfers app1);
       transferId := transferId app1;
       totalBytesTransferred := totalBytesTransferred app1;
       isSending := false;
       sendingQueue := sendingQueue app1;
       streams := dropStream (s_id s) (streams app1);
       downloads := downloads app1 |}.

(** ** Receiving *)

Definition setReceivingId (peerId : PeerId) (v : option Z) (app : App) : App :=
  match Js.map_get peerId (connections app) with
  | Some info =>
      setConnections
        (Js.map_set peerId {| conn := conn info; username := username info;
                              receivingId := v |} (connections app)) app
  | None => app
  end.

Definition receiveFileStart (peerId : PeerId) (id : Z) (nm : string) (sz : Z) (app : App)
    : App :=
  let app1 := setReceivingId peerId (Some id) app in
  {| myUsername := myUsername app1; connections := connections app1;
     transfers := <[id := {| name := nm; size := sz; chunks := []; received := 0 |}]>
                    (transfers app1);
     activeTransfers := <[id := {| a_size := sz; transferred := 0 |}]> (activeTransfers app1);
     transferId := transferId app1; totalBytesTransferred := totalBytesTransferred app1;
     isSending := isSending app1; sendingQueue := sendingQueue app1;
     streams := streams app1; downloads := downloads app1 |}.

Definition receiveFileChunkRaw (peerId : PeerId) (data : list byte) (app : App) : App :=
  match Js.map_get peerId (connections app) with
  | None => app
  | Some peerInfo =>
      if negb (truthyId (receivingId peerInfo)) then app
      else
        let id := default 0%Z (receivingId peerInfo) in
        match transfers app !! id with
        | None => app
        | Some transfer =>
            let received' := (received transfer + Z.of_nat (length data))%Z in
            let transfer' :=
              {| name := name transfer; size := size transfer;
                 chunks := chunks transfer ++ [data]; received := received' |} in
            let active :=
              match activeTransfers app !! id with
              | Some a => <[id := {| a_size := a_size a; transferred := received' |}]>
                            (activeTransfers app)
              | None => activeTransfers app
              end in
            {| myUsername := myUsername app; connections := connections app;
               transfers := <[id := transfer']> (transfers app);
               activeTransfers := active;
               transferId := transferId app;
               totalBytesTransferred :=
                 (totalBytesTransferred app + Z.of_nat (length data))%Z;
               isSending := isSending app; sendingQueue := sendingQueue app;
               streams := streams app; downloads := downloads app |}
        end
  end.

Definition receiveFileEnd (peerId : PeerId) (id : Z) (app : App) : App :=
  let app1 := setReceivingId peerId None app in
  match transfers app1 !! id with
  | None => app1
  | Some transfer =>
      {| myUsername := myUsername app1; connections := connections app1;
         transfers := delete id (transfers app1);
         activeTransfers := delete id (activeTransfers app1);
         transferId := transferId app1; totalBytesTransferred := totalBytesTransferred app1;
         isSending := isSending app1; sendingQueue := sendingQueue app1;
         streams := streams app1;
         downloads := downloads app1 ++ [(name transfer, Js.Blob (chunks transfer))] |}
  end.

Definition handleData (peerId : PeerId) (data : Data) (app : App) : App :=
  match data with
  | Binary bytes => receiveFileChunkRaw peerId bytes app
  | Handshake nm =>
      match Js.map_get peerId (connections app) with
      | Some info =>
          setConnections
            (Js.map_set peerId {| conn := conn info; username := nm;
                                  receivingId := receivingId info |} (connections app)) app
      | None => app
      end
  | FileStart id nm sz => receiveFileStart peerId id nm sz app
  | FileEnd id => receiveFileEnd peerId id app
  end.

(** ** Connections and the event loop *)

(** The [open] handler of a connection. *)
Definition connOpen (peerId : PeerId) (nm : string) (channel : bool) (app : App) : App :=
  let c := connSend (Handshake (myUsername app))
             {| sentData := []; dataChannel := if channel then Some 0%Z else None |} in
  processTransferQueue
    (setConnections
       (Js.map_set peerId {| conn := c; username := nm; receivingId := None |}
                   (connections app)) app).

(** The [close] handler of a connection. *)
Definition connClose (peerId : PeerId) (app : App) : App :=
  setConnections (Js.map_delete peerId (connections app)) app.

(** The data channel of [peerId] hands [n] buffered bytes to the network. *)
Definition flush (peerId : PeerId) (n : Z) (app : App) : App :=
  match Js.map_get peerId (connections app) with
  | Some info =>
      match dataChannel (conn info) with
      | Some b =>
          if ((0 <=? n) && (n <=? b))%Z
          then setConnections
                 (Js.map_set peerId
                    {| conn := {| sentData := sentData (conn info);
                                  dataChannel := Some (b - n)%Z |};
                       username := username info; receivingId := receivingId info |}
                    (connections app)) app
          else app
      | None => app
      end
  | None => app
  end.

(** One turn of the event loop. [Retry id] is the timer re-running
    [sendNextChunk] of stream [id], [Loaded id] its reader finishing;
    [ProcessQueue] is the timer armed when a transfer ends. *)
Inductive Event :=
| Enqueue (file : File)
| ProcessQueue
| Retry (id : Z)
| Loaded (id : Z)
| Flush (peerId : PeerId) (n : Z)
| Open (peerId : PeerId) (username : string) (channel : bool)
| Close (peerId : PeerId)
| Receive (peerId : PeerId) (data : Data).

Definition handle (ev : Event) (app : App) : App :=
  match ev with
  | Enqueue file => queueFileForSending file app
  | ProcessQueue => processTransferQueue app
  | Retry id =>
      match findStream id (streams app) with
      | Some s => match s_phase s with
                  | AwaitCheck => sendNextChunk s app
                  | Reading => app
                  end
      | None => app
      end
  | Loaded id =>
      match findStream id (streams app) with
      | Some s => match s_phase s with
                  | Reading => onload s app
                  | AwaitCheck => app
                  end
      | None => app
      end
  | Flush peerId n => flush peerId n app
  | Open peerId nm channel => connOpen peerId nm channel app
  | Close peerId => connClose peerId app
  | Receive peerId data => handleData peerId data app
  end.

Definition run (evs : list Event) (app : App) : App := foldl (fun a ev => handle ev a) app evs.

(** The lock is held while a chunk loop runs, and at most one runs. *)
Record serial (app : App) : Prop := {
  one_stream : (length (streams app) <= 1)%nat;
  lock_held : streams app <> [] -> isSending app = true;
  ids_issued : (0 <= transferId app)%Z
               /\ Forall (fun s => 0 < s_id s <= transferId app)%Z (streams app)
}.

Definition wireIn (p : PeerId) (cs : list (PeerId * PeerInfo)) : option (list Data) :=
  (fun info => sentData (conn info)) <$> Js.map_get p cs.

Definition wire (p : PeerId) (app : App) : option (list Data) := wireIn p (connections app).

(** Events that neither close nor replace the connection to [p]. *)
Definition keeps (p : PeerId) (ev : Event) : Prop :=
  match ev with
  | Open q _ _ | Close q => q <> p
  | _ => True
  end.

(** How one turn changes the running loop: it stays (same transfer), it
    ends, or a new one starts under the next id. *)
Definition streamsStep (app app' : App) : Prop :=
  (transferId app <= transferId app')%Z /\
  (streams app' = [] \/
   exists s', streams app' = [s'] /\
     ((exists s, streams app = [s] /\ s_id s' = s_id s /\ s_file s' = s_file s) \/
      (streams app = [] /\ s_id s' = (transferId app + 1)%Z))).

Definition inFlight (p : PeerId) (pre : list Data) (f : File) (id : Z) (app : App) : Prop :=
  exists s cs,
    streams app = [s] /\ s_id s = id /\ s_file s = f /\
    wire p app = Some (pre ++ FileStart id (f_name f) (f_size f) :: map Binary cs) /\
    concat cs = take (Z.to_nat (s_offset s)) (f_bytes f) /\
    (0 <= s_offset s <= f_size f)%Z.

Definition finished (p : PeerId) (pre : list Data) (f : File) (id : Z) (app : App) : Prop :=
  exists cs more,
    wire p app = Some (pre ++ FileStart id (f_name f) (f_size f)
                           :: map Binary cs ++ FileEnd id :: more) /\
    concat cs = f_bytes f /\
    Forall (fun s => id < s_id s)%Z (streams app) /\ (id <= transferId app)%Z.

(** The messages of one connection, handled in the order they were sent. *)
Definition deliver (q : PeerId) (ds : list Data) (app : App) : App :=
  foldl (fun a d => handleData q d a) app ds.

(** The transfer that a raw chunk from [q] would be appended to. *)
Definition activeInbound (q : PeerId) (app : App) : option Z :=
  match Js.map_get q (connections app) with
  | Some info =>
      if truthyId (receivingId info)
      then match transfers app !! default 0%Z (receivingId info) with
           | Some _ => receivingId info
           | None => None
           end
      else None
  | None => None
  end.

Definition totalLength (cs : list (list byte)) : Z := Z.of_nat (length (concat cs)).

(** The counter of an inbound transfer is the number of bytes accumulated
    for it. *)
Definition counted (app : App) : Prop :=
  forall id t, transfers app !! id = Some t -> received t = totalLength (chunks t).

Definition buffered (info : PeerInfo) : Z := default 0%Z (dataChannel (conn info)).

Definition sumOver (w : PeerInfo -> Z) (cs : list (PeerId * PeerInfo)) : Z :=
  foldr (fun e acc => w e.2 + acc)%Z 0%Z cs.

(** What a channel holds beyond one chunk. *)
Definition surplus (info : PeerInfo) : Z := Z.max (buffered info - chunkSize) 0.

(** The pacing invariant: no counter is negative, what the channels hold
    beyond one chunk each is within the threshold, and a read is under way
    only if the check before it passed and nothing was sent since. *)
Record paced (app : App) : Prop := {
  counters_nonneg : Forall (fun e => 0 <= buffered e.2)%Z (connections app);
  surplus_bound : (sumOver surplus (connections app) <= bufferThreshold)%Z;
  read_checked : forall s, In s (streams app) -> s_phase s = Reading ->
                   (totalBuffered (connections app) <= bufferThreshold)%Z
}.

(** [width] peers named [p], [pp], [ppp], ... connect, one file of one full
    chunk is queued, and its only chunk is read and sent. *)
Fixpoint peerName (i : nat) : string :=
  match i with
  | O => "p"
  | S j => String "p" (peerName j)
  end.

Definition oneChunk : File :=
  {| f_name := "blob"; f_bytes := replicate (Z.to_nat chunkSize) x00 |}.

Definition fanOut (width : nat) : list Event :=
  map (fun i => Open (peerName i) "peer" true) (seq 0 width)
  ++ [Enqueue oneChunk; Loaded 1].

Definition idlePeer (me : string) : PeerInfo :=
  {| conn := {| sentData := [Handshake me]; dataChannel := Some 0%Z |};
     username := "peer"; receivingId := None |}.

(** The events by which the network takes everything the data channels
    hold. *)
Definition drainAll (cs : list (PeerId * PeerInfo)) : list Event :=
  map (fun e => Flush e.1 (buffered e.2)) cs.

(** [n] rounds of: the buffers empty, the timer of stream [id] fires, its
    reader finishes. *)
Fixpoint rounds (n : nat) (id : Z) (app : App) : list Event :=
  match n with
  | O => []
  | S n' =>
      let evs := drainAll (connections app) ++ [Retry id; Loaded id] in
      evs ++ rounds n' id (run evs app)
  end.

(** No peer has two entries in [connections]. *)
Definition tidy (app : App) : Prop := List.NoDup (map fst (connections app)).

(** A two-byte file. *)
Definition greeting : File := {| f_name := "hello.txt"; f_bytes := [x68; x69] |}.

(** *** The order of transfers *)

(** The transfers announced in what a connection was sent: id, name and
    size of each [file-start], oldest first. *)
Definition announced (ds : list Data) : list (Z * string * Z) :=
  omap (fun d => match d with
                 | FileStart id nm sz => Some (id, nm, sz)
                 | _ => None
                 end) ds.

(** The files handed to [queueFileForSending] by a list of events. *)
Definition enqueued (evs : list Event) : list File :=
  omap (fun ev => match ev with Enqueue file => Some file | _ => None end) evs.

(** What the announcements of [files] say when they go out one after the
    other, the first under [id]. *)
Fixpoint numbered (id : Z) (files : list File) : list (Z * string * Z) :=
  match files with
  | [] => []
  | file :: rest => (id, f_name file, f_size file) :: numbered (id + 1) rest
  end.

(** *** What a receiver is handed *)

(** The raw chunks among the messages received, in order. *)
Definition binaries (evs : list Event) : list (list byte) :=
  omap (fun ev => match ev with Receive _ (Binary bytes) => Some bytes | _ => None end) evs.

(** The number of [file-end] messages received. *)
Definition ends (evs : list Event) : nat :=
  length (List.filter (fun ev => match ev with Receive _ (FileEnd _) => true | _ => false end)
                      evs).

(** *** Peer ids *)

(** [generatePeerId()]: the loop of [generateRoomCode], over the same
    alphabet, started from [VELO-]; [random n] is the value of the [n]-th
    call of [Math.random]. *)
Definition generatePeerId (random : nat -> Q) (pos : nat) : string :=
  Relay.generateLoop random 6 pos "VELO-".

(** A second two-byte file. *)
Definition farewell : File := {| f_name := "bye.txt"; f_bytes := [x62; x79] |}.

(** Both peers are locked to the transfer [id], which stands at [cs]
    under the name [nm]. *)
Definition shared (p q : PeerId) (id : Z) (nm : string) (cs : list (list byte))
    (app : App) : Prop :=
  (exists info, Js.map_get p (connections app) = Some info /\ receivingId info = Some id) /\
  (exists info, Js.map_get q (connections app) = Some info /\ receivingId info = Some id) /\
  exists t, transfers app !! id = Some t /\ name t = nm /\ chunks t = cs.

(** The lock is free when nothing streams, and every offset lies within
    its file. *)
Definition settled (app : App) : Prop :=
  (streams app = [] -> isSending app = false) /\
  Forall (fun s => (0 <= s_offset s <= f_size (s_file s))%Z) (streams app).

(** *** The messages of several peers, interleaved *)

(** The transfer id that the raw chunks of [p] go to, [receivingId] of its
    entry in [connections]; nothing when [p] is not connected. *)
Definition lockIn (p : PeerId) (cs : list (PeerId * PeerInfo)) : option (option Z) :=
  receivingId <$> Js.map_get p cs.

Definition lockOf (p : PeerId) (app : App) : option (option Z) := lockIn p (connections app).

(** The messages received from [q] among the events, in order. *)
Definition fromPeer (q : PeerId) (evs : list Event) : list Data :=
  omap (fun ev => match ev with
                  | Receive p d => if String.eqb p q then Some d else None
                  | _ => None
                  end) evs.

(** Events that neither close nor replace the connection to [q], and by
    which no other peer announces or ends a transfer under [id]. *)
Definition aside (q : PeerId) (id : Z) (ev : Event) : Prop :=
  match ev with
  | Open p _ _ | Close p => p <> q
  | Receive p (FileStart i _ _) | Receive p (FileEnd i) => p = q \/ i <> id
  | _ => True
  end.

(** [q] is connected and no other peer is in the middle of a transfer
    under [id]. *)
Definition apart (q : PeerId) (id : Z) (app : App) : Prop :=
  is_Some (lockOf q app) /\ forall p, p <> q -> lockOf p app <> Some (Some id).

(** The transfer of [q] under [id] is under way, alone under its id, and
    stands at the chunks [cs]. *)
Definition inbound (q : PeerId) (id : Z) (nm : string) (sz : Z) (cs : list (list byte))
    (app : App) : Prop :=
  lockOf q app = Some (Some id) /\
  transfers app !! id
  = Some {| name := nm; size := sz; chunks := cs; received := totalLength cs |} /\
  forall p, p <> q -> lockOf p app <> Some (Some id).

(** Two one-byte files, and the turns by which a receiver connected to
    Ann and to Bob takes the first transfer of each, the messages of the
    two connections alternating. *)
Definition noteA : File := {| f_name := "a.txt"; f_bytes := [x61] |}.
Definition noteB : File := {| f_name := "b.txt"; f_bytes := [x62] |}.

Definition crossed : list Event :=
  [Open "ann" "Ann" true; Open "bob" "Bob" true;
   Receive "ann" (Handshake "Ann"); Receive "bob" (Handshake "Bob");
   Receive "ann" (FileStart 1 "a.txt" 1); Receive "bob" (FileStart 1 "b.txt" 1);
   Receive "ann" (Binary [x61]); Receive "bob" (Binary [x62]);
   Receive "ann" (FileEnd 1); Receive "bob" (FileEnd 1)].

End Velo.

(** ** The handshake coordinator ([public/js/webrtc.js]) *)

Module Handshake.

Definition PeerId := string.
Definition Candidate := string.
Definition Sdp := string.

(** What the manager observes of an [RTCPeerConnection]: its remote
    description, and the candidates handed to [addIceCandidate], oldest
    first. *)
Record PeerConnection := { remoteDescription : option Sdp; added : list Candidate }.

Record Manager := {
  connections : gmap PeerId PeerConnection;
  dataChannels : gset PeerId;
  pendingCandidates : gmap PeerId (list Candidate)
}.

Definition initial : Manager :=
  {| connections := ∅; dataChannels := ∅; pendingCandidates := ∅ |}.

Definition createPeerConnection (peerId : PeerId) (m : Manager) : Manager :=
  match connections m !! peerId with
  | Some _ => m
  | None =>
      {| connections := <[peerId := {| remoteDescription := None; added := [] |}]>
                          (connections m);
         dataChannels := dataChannels m;
         pendingCandidates := <[peerId := []]> (pendingCandidates m) |}
  end.

Definition setupDataChannel (peerId : PeerId) (m : Manager) : Manager :=
  {| connections := connections m;
     dataChannels := {[peerId]} ∪ dataChannels m;
     pendingCandidates := pendingCandidates m |}.

(** [initiateConnection] up to its first [await]. *)
Definition initiateConnection (peerId : PeerId) (m : Manager) : Manager :=
  setupDataChannel peerId (createPeerConnection peerId m).

(** [handleOffer] up to its first [await]: the connection exists, its
    remote description is still being set. *)
Definition handleOffer (peerId : PeerId) (m : Manager) : Manager :=
  createPeerConnection peerId m.

(** [pc.setRemoteDescription(sdp)], started by [handleOffer] or by
    [handleAnswer], takes effect. *)
Definition remoteDescriptionSet (peerId : PeerId) (sdp : Sdp) (m : Manager) : Manager :=
  match connections m !! peerId with
  | Some pc =>
      {| connections := <[peerId := {| remoteDescription := Some sdp; added := added pc |}]>
                          (connections m);
         dataChannels := dataChannels m;
         pendingCandidates := pendingCandidates m |}
  | None => m
  end.

(** [pc.addIceCandidate(candidate)] on the connection of [peerId]. *)
Definition addIceCandidate (peerId : PeerId) (candidate : Candidate) (m : Manager)
    : Manager :=
  match connections m !! peerId with
  | Some pc =>
      {| connections := <[peerId := {| remoteDescription := remoteDescription pc;
                                       added := added pc ++ [candidate] |}]>
                          (connections m);
         dataChannels := dataChannels m;
         pendingCandidates := pendingCandidates m |}
  | None => m
  end.

Definition handleIceCandidate (peerId : PeerId) (candidate : Candidate) (m : Manager)
    : Manager :=
  match connections m !! peerId with
  | None => m
  | Some pc =>
      match remoteDescription pc with
      | Some _ => addIceCandidate peerId candidate m
      | None =>
          let pending := default [] (pendingCandidates m !! peerId) in
          {| connections := connections m;
             dataChannels := dataChannels m;
             pendingCandidates := <[peerId := pending ++ [candidate]]> (pendingCandidates m) |}
      end
  end.

(** The [onopen] handler installed by [setupDataChannel]. *)
Definition onopen (peerId : PeerId) (m : Manager) : Manager :=
  let pending := default [] (pendingCandidates m !! peerId) in
  let m1 := foldl (fun s candidate => addIceCandidate peerId candidate s) m pending in
  {| connections := connections m1;
     dataChannels := dataChannels m1;
     pendingCandidates := <[peerId := []]> (pendingCandidates m1) |}.

Definition closeConnection (peerId : PeerId) (m : Manager) : Manager :=
  {| connections := delete peerId (connections m);
     dataChannels := dataChannels m ∖ {[peerId]};
     pendingCandidates := delete peerId (pendingCandidates m) |}.

(** What reaches the manager. [Answer] only starts [setRemoteDescription],
    which takes effect at [DescriptionSet]. *)
Inductive Event :=
| Initiate (peerId : PeerId)
| Offer (peerId : PeerId)
| Answer (peerId : PeerId)
| DescriptionSet (peerId : PeerId) (sdp : Sdp)
| IceCandidate (peerId : PeerId) (candidate : Candidate)
| DataChannel (peerId : PeerId)
| ChannelOpen (peerId : PeerId)
| CloseConnection (peerId : PeerId).

Definition handle (ev : Event) (m : Manager) : Manager :=
  match ev with
  | Initiate peerId => initiateConnection peerId m
  | Offer peerId => handleOffer peerId m
  | Answer peerId => m
  | DescriptionSet peerId sdp => remoteDescriptionSet peerId sdp m
  | IceCandidate peerId candidate => handleIceCandidate peerId candidate m
  | DataChannel peerId => setupDataChannel peerId m
  | ChannelOpen peerId => onopen peerId m
  | CloseConnection peerId => closeConnection peerId m
  end.

Definition run (evs : list Event) (m : Manager) : Manager :=
  foldl (fun s ev => handle ev s) m evs.

(** A data channel opens only on a connection whose remote description is
    set: this is the one thing assumed of the browser. *)
Definition admissible (ev : Event) (m : Manager) : Prop :=
  match ev with
  | ChannelOpen peerId =>
      forall pc, connections m !! peerId = Some pc -> is_Some (remoteDescription pc)
  | _ => True
  end.

Fixpoint admissibleRun (evs : list Event) (m : Manager) : Prop :=
  match evs with
  | [] => True
  | ev :: evs' => admissible ev m /\ admissibleRun evs' (handle ev m)
  end.

Definition pendingFor (peerId : PeerId) (m : Manager) : list Candidate :=
  default [] (pendingCandidates m !! peerId).

(** The candidates heard for [p] by its present connection: those that
    arrived while a connection existed, since the last close. [hears] is
    what one event adds to them. *)
Definition hears (p : PeerId) (ev : Event) (m : Manager) (acc : list Candidate)
    : list Candidate :=
  match ev with
  | IceCandidate q c =>
      if decide (q = p)
      then match connections m !! p with
           | Some _ => acc ++ [c]
           | None => acc
           end
      else acc
  | CloseConnection q => if decide (q = p) then [] else acc
  | _ => acc
  end.

Fixpoint heard (p : PeerId) (evs : list Event) (m : Manager) (acc : list Candidate)
    : list Candidate :=
  match evs with
  | [] => acc
  | ev :: evs' => heard p evs' (handle ev m) (hears p ev m acc)
  end.

(** Every candidate heard by the present connection of [p] has been handed
    to [addIceCandidate] once or waits in the buffer once; with no
    connection nothing is on record. *)
Definition accounted (p : PeerId) (m : Manager) (acc : list Candidate) : Prop :=
  match connections m !! p with
  | Some pc => acc ≡ₚ added pc ++ pendingFor p m
  | None => acc = []
  end.

(** Candidates are applied only to a connection that knows its remote
    description. *)
Definition appliedLate (p : PeerId) (m : Manager) : Prop :=
  forall pc, connections m !! p = Some pc -> added pc <> [] -> is_Some (remoteDescription pc).

(** A responder's handshake: the offer arrives, a candidate arrives before
    the remote description is set and a second one after, then the data
    channel comes and opens. *)
Definition handshakeRun : list Event :=
  [Offer "peer"; IceCandidate "peer" "c1"; DescriptionSet "peer" "sdp";
   IceCandidate "peer" "c2"; DataChannel "peer"; ChannelOpen "peer"].

(** [closeAll()] *)
Definition closeAll (m : Manager) : Manager :=
  {| connections := ∅; dataChannels := ∅; pendingCandidates := ∅ |}.

(** The peer an event is about. *)
Definition peerOf (ev : Event) : PeerId :=
  match ev with
  | Initiate peerId | Offer peerId | Answer peerId | DescriptionSet peerId _
  | IceCandidate peerId _ | DataChannel peerId | ChannelOpen peerId
  | CloseConnection peerId => peerId
  end.

Definition concerning (p : PeerId) (evs : list Event) : list Event :=
  List.filter (fun ev => String.eqb (peerOf ev) p) evs.

(** What the manager holds about one peer: its entries in the three maps. *)
Definition view (p : PeerId) (m : Manager)
    : option PeerConnection * bool * option (list Candidate) :=
  (connections m !! p, bool_decide (p ∈ dataChannels m), pendingCandidates m !! p).

End Handshake.

(** ** The framed transfer manager ([public/js/transfer.js]) *)

Module Framed.

Definition PeerId := string.
Definition TransferId := string.

Record File := { f_name : string; f_type : string; f_bytes : list byte }.

Definition f_size (f : File) : Z := Z.of_nat (length (f_bytes f)).

Definition CHUNK_SIZE : Z := 16 * 1024.
Definition MAX_BUFFER_SIZE : Z := 16 * 1024 * 1024.
Definition retryDelay : Z := 100.

(** The JSON header put in front of every chunk. *)
Record Header := { h_type : string; h_transferId : TransferId; h_index : Z }.

(** The JSON control messages, as parsed. *)
Inductive Control :=
| FileInfo (transferId : TransferId) (name : string) (size : Z) (fileType : string)
           (chunks : Z)
| FileComplete (transferId : TransferId).

(** A data channel message: a string holding JSON, or an [ArrayBuffer]. *)
Inductive Payload :=
| Text (json : Control)
| Buffer (bytes : list byte).

Definition payloadBytes (d : Payload) : Z :=
  match d with
  | Buffer bytes => Z.of_nat (length bytes)
  | Text _ => 0
  end.

Inductive ReadyState := connecting | open | closing | closed.

Record Channel := { readyState : ReadyState; bufferedAmount : Z; sent : list Payload }.

Inductive Status := sending | receiving | complete.

(** An entry of [transfers]. *)
Record Transfer := {
  t_id : TransferId;
  t_file : File;
  t_chunks : Z;
  sentChunks : Z;
  bytesTransferred : Z;
  recipients : list PeerId;
  t_status : Status
}.

(** An entry of [receivingFiles]. *)
Record Receiving := {
  r_id : TransferId;
  r_name : string;
  r_size : Z;
  r_type : string;
  r_chunks : Z;
  receivedChunks : gmap Z (list byte);
  bytesReceived : Z;
  senderId : PeerId;
  r_status : Status
}.

(** The closure of one [sendChunks]: [offset] and [chunkIndex], and whether
    the next thing to run is [sendNextChunk] from its top or the code after
    [await chunk.arrayBuffer()]. *)
Inductive Phase := AtTop | AwaitingBuffer.
Record Loop := { l_transfer : TransferId; offset : Z; chunkIndex : Z; l_phase : Phase }.

(** The callbacks into the application. *)
Inductive Callback :=
| TransferStart (id : TransferId)
| TransferComplete (id : TransferId)
| TransferError (message : string)
| FileReceived (id : TransferId) (name : string) (blob : list byte).

Record Manager := {
  dataChannels : list (PeerId * Channel);       (* the Map of the WebRTC manager *)
  transfers : gmap TransferId Transfer;
  receivingFiles : gmap TransferId Receiving;
  loops : list Loop;
  calls : list Callback
}.

Definition initial : Manager :=
  {| dataChannels := []; transfers := ∅; receivingFiles := ∅; loops := []; calls := [] |}.

Definition isOpen (c : Channel) : bool :=
  match readyState c with open => true | _ => false end.

Definition channelSend (d : Payload) (c : Channel) : Channel :=
  {| readyState := readyState c; bufferedAmount := (bufferedAmount c + payloadBytes d)%Z;
     sent := sent c ++ [d] |}.

(** [webrtc.broadcast(d)]: every open channel sends [d]. *)
Definition broadcast (d : Payload) (cs : list (PeerId * Channel)) : list (PeerId * Channel) :=
  map (fun e => (e.1, if isOpen e.2 then channelSend d e.2 else e.2)) cs.

Definition getConnectedPeers (cs : list (PeerId * Channel)) : list PeerId :=
  map fst (List.filter (fun e => isOpen e.2) cs).

Definition setLoop (l : Loop) (ls : list Loop) : list Loop :=
  map (fun l' => if String.eqb (l_transfer l') (l_transfer l) then l else l') ls.

Definition findLoop (id : TransferId) (ls : list Loop) : option Loop :=
  List.find (fun l => String.eqb (l_transfer l) id) ls.

(** The backpressure test of [sendNextChunk]: some recipient has a channel
    whose [bufferedAmount] is above [MAX_BUFFER_SIZE]. *)
Definition overBuffer (cs : list (PeerId * Channel)) (peers : list PeerId) : bool :=
  existsb (fun peerId =>
             match Js.map_get peerId cs with
             | Some channel => (MAX_BUFFER_SIZE <? bufferedAmount channel)%Z
             | None => false
             end) peers.

Definition ceilDiv (a b : Z) : Z := ((a + b - 1) / b)%Z.

Section Codec.
(** [stringify h] is the UTF-8 text of [JSON.stringify] of a header,
    [parse] is [JSON.parse] of the decoded text, [None] when it throws. *)
Variable stringify : Header -> list byte.
Variable parse : list byte -> option Header.

Definition newline : byte := x0a.

(** [sendNextChunk] from its top. *)
Definition sendNextChunk (l : Loop) (t : Transfer) (m : Manager) : Manager :=
  if (f_size (t_file t) <=? offset l)%Z then
    {| dataChannels := broadcast (Text (FileComplete (t_id t))) (dataChannels m);
       transfers :=
         <[t_id t := {| t_id := t_id t; t_file := t_file t; t_chunks := t_chunks t;
                        sentChunks := sentChunks t;
                        bytesTransferred := bytesTransferred t;
                        recipients := recipients t; t_status := complete |}]>
           (transfers m);
       receivingFiles := receivingFiles m;
       loops := List.filter (fun l' => negb (String.eqb (l_transfer l') (t_id t)))
                            (loops m);
       calls := calls m ++ [TransferComplete (t_id t)] |}
  else if overBuffer (dataChannels m) (recipients t) then
    {| dataChannels := dataChannels m; transfers := transfers m;
       receivingFiles := receivingFiles m;
       loops := setLoop {| l_transfer := l_transfer l; offset := offset l;
                           chunkIndex := chunkIndex l; l_phase := AtTop |} (loops m);
       calls := calls m |}
  else
    {| dataChannels := dataChannels m; transfers := transfers m;
       receivingFiles := receivingFiles m;
       loops := setLoop {| l_transfer := l_transfer l; offset := offset l;
                           chunkIndex := chunkIndex l; l_phase := AwaitingBuffer |}
                        (loops m);
       calls := calls m |}.

(** [sendNextChunk] after [await chunk.arrayBuffer()]: header and chunk
    go out as one message; the next run is left to the animation frame. *)
Definition afterBuffer (l : Loop) (t : Transfer) (m : Manager) : Manager :=
  let buffer := Js.slice (f_bytes (t_file t)) (offset l) (offset l + CHUNK_SIZE) in
  let header := stringify {| h_type := "file-chunk"; h_transferId := t_id t;
                             h_index := chunkIndex l |} ++ [newline] in
  let combined := header ++ buffer in
  {| dataChannels := broadcast (Buffer combined) (dataChannels m);
     transfers :=
       <[t_id t := {| t_id := t_id t; t_file := t_file t; t_chunks := t_chunks t;
                      sentChunks := (sentChunks t + 1)%Z;
                      bytesTransferred := (offset l + Z.of_nat (length buffer))%Z;
                      recipients := recipients t; t_status := t_status t |}]>
         (transfers m);
     receivingFiles := receivingFiles m;
     loops := setLoop {| l_transfer := l_transfer l;
                         offset := (offset l + CHUNK_SIZE)%Z;
                         chunkIndex := (chunkIndex l + 1)%Z; l_phase := AtTop |} (loops m);
     calls := calls m |}.

(** [sendFile(file)] up to its first [await]; [id] is what
    [generateTransferId] returned. *)
Definition sendFile (id : TransferId) (file : File) (m : Manager) : Manager :=
  let connectedPeers := getConnectedPeers (dataChannels m) in
  match connectedPeers with
  | [] =>
      {| dataChannels := dataChannels m; transfers := transfers m;
         receivingFiles := receivingFiles m; loops := loops m;
         calls := calls m ++ [TransferError "No connected peers"] |}
  | _ =>
      let transfer :=
        {| t_id := id; t_file := file; t_chunks := ceilDiv (f_size file) CHUNK_SIZE;
           sentChunks := 0; bytesTransferred := 0; recipients := connectedPeers;
           t_status := sending |} in
      let l := {| l_transfer := id; offset := 0; chunkIndex := 0; l_phase := AtTop |} in
      let m1 :=
        {| dataChannels :=
             broadcast (Text (FileInfo id (f_name file) (f_size file) (f_type file)
                                       (t_chunks transfer))) (dataChannels m);
           transfers := <[id := transfer]> (transfers m);
           receivingFiles := receivingFiles m;
           loops := loops m ++ [l];
           calls := calls m ++ [TransferStart id] |} in
      sendNextChunk l transfer m1
  end.

(** *** Receiving *)

Definition handleFileInfo (peerId : PeerId) (id : TransferId) (nm : string) (sz : Z)
    (ty : string) (n : Z) (m : Manager) : Manager :=
  {| dataChannels := dataChannels m; transfers := transfers m;
     receivingFiles :=
       <[id := {| r_id := id; r_name := nm; r_size := sz; r_type := ty; r_chunks := n;
                  receivedChunks := ∅; bytesReceived := 0; senderId := peerId;
                  r_status := receiving |}]> (receivingFiles m);
     loops := loops m;
     calls := calls m ++ [TransferStart id] |}.

Definition handleFileChunk (peerId : PeerId) (header : Header) (chunkData : list byte)
    (m : Manager) : Manager :=
  match receivingFiles m !! h_transferId header with
  | None => m
  | Some r =>
      {| dataChannels := dataChannels m; transfers := transfers m;
         receivingFiles :=
           <[h_transferId header :=
               {| r_id := r_id r; r_name := r_name r; r_size := r_size r;
                  r_type := r_type r; r_chunks := r_chunks r;
                  receivedChunks := <[h_index header := chunkData]> (receivedChunks r);
                  bytesReceived := (bytesReceived r + Z.of_nat (length chunkData))%Z;
                  senderId := senderId r; r_status := r_status r |}]>
             (receivingFiles m);
         loops := loops m;
         calls := calls m |}
  end.

(** The parts pushed by the reassembly loop, [i] running below [n]. *)
Definition collect (n : Z) (parts : gmap Z (list byte)) : list (list byte) :=
  omap (fun i => parts !! Z.of_nat i) (seq 0 (Z.to_nat n)).

Definition handleFileComplete (peerId : PeerId) (id : TransferId) (m : Manager) : Manager :=
  match receivingFiles m !! id with
  | None => m
  | Some r =>
      let blob := Js.Blob (collect (r_chunks r) (receivedChunks r)) in
      {| dataChannels := dataChannels m; transfers := transfers m;
         receivingFiles := delete id (receivingFiles m);
         loops := loops m;
         calls := calls m ++ [FileReceived id (r_name r) blob; TransferComplete id] |}
  end.

(** The index of the first newline among the first [min(length, 500)]
    bytes. *)
Fixpoint findNewline (data : list byte) (i limit : nat) : option nat :=
  match limit, data with
  | S limit', b :: data' =>
      if Byte.eqb b newline then Some i else findNewline data' (S i) limit'
  | _, _ => None
  end.

Definition handleBinaryMessage (peerId : PeerId) (data : list byte) (m : Manager)
    : Manager :=
  match findNewline data 0 500 with
  | None => m
  | Some headerEnd =>
      match parse (take headerEnd data) with
      | None => m
      | Some header =>
          if String.eqb (h_type header) "file-chunk"
          then handleFileChunk peerId header (drop (S headerEnd) data) m
          else m
      end
  end.

Definition handleMessage (peerId : PeerId) (data : Payload) (m : Manager) : Manager :=
  match data with
  | Text (FileInfo id nm sz ty n) => handleFileInfo peerId id nm sz ty n m
  | Text (FileComplete id) => handleFileComplete peerId id m
  | Buffer bytes => handleBinaryMessage peerId bytes m
  end.

(** One turn of the event loop. *)
Inductive Event :=
| SendFile (id : TransferId) (file : File)
| Top (id : TransferId)                 (* the timer or animation frame fires *)
| BufferRead (id : TransferId)          (* [chunk.arrayBuffer()] resolves *)
| Drain (peerId : PeerId) (n : Z)
| ChannelOpen (peerId : PeerId)         (* the data channel to a peer opens *)
| Message (peerId : PeerId) (data : Payload).

Definition drain (peerId : PeerId) (n : Z) (m : Manager) : Manager :=
  match Js.map_get peerId (dataChannels m) with
  | Some c =>
      if ((0 <=? n) && (n <=? bufferedAmount c))%Z
      then {| dataChannels :=
                Js.map_set peerId {| readyState := readyState c;
                                     bufferedAmount := (bufferedAmount c - n)%Z;
                                     sent := sent c |} (dataChannels m);
              transfers := transfers m; receivingFiles := receivingFiles m;
              loops := loops m; calls := calls m |}
      else m
  | None => m
  end.

Definition handle (ev : Event) (m : Manager) : Manager :=
  match ev with
  | SendFile id file => sendFile id file m
  | Top id =>
      match findLoop id (loops m), transfers m !! id with
      | Some l, Some t =>
          match l_phase l with AtTop => sendNextChunk l t m | AwaitingBuffer => m end
      | _, _ => m
      end
  | BufferRead id =>
      match findLoop id (loops m), transfers m !! id with
      | Some l, Some t =>
          match l_phase l with AwaitingBuffer => afterBuffer l t m | AtTop => m end
      | _, _ => m
      end
  | Drain peerId n => drain peerId n m
  | ChannelOpen peerId =>
      {| dataChannels :=
           Js.map_set peerId {| readyState := open; bufferedAmount := 0; sent := [] |}
                      (dataChannels m);
         transfers := transfers m; receivingFiles := receivingFiles m;
         loops := loops m; calls := calls m |}
  | Message peerId data => handleMessage peerId data m
  end.

Definition run (evs : list Event) (m : Manager) : Manager :=
  foldl (fun s ev => handle ev s) m evs.

End Codec.

(** *** One transfer on the wire *)

Section Wire.
Variable stringify : Header -> list byte.
Variable parse : list byte -> option Header.

(** A chunk as it travels: the header line, then the data. *)
Definition framed (h : Header) (data : list byte) : list byte :=
  (stringify h ++ [newline]) ++ data.

(** The header that [sendNextChunk] puts in front of chunk [i]. *)
Definition chunkHeader (id : TransferId) (i : Z) : Header :=
  {| h_type := "file-chunk"; h_transferId := id; h_index := i |}.

(** What [handleBinaryMessage] reads out of a binary message: the header
    and the data of a chunk, if it finds them. *)
Definition unframe (data : list byte) : option (Header * list byte) :=
  match findNewline data 0 500 with
  | None => None
  | Some headerEnd =>
      match parse (take headerEnd data) with
      | None => None
      | Some header =>
          if String.eqb (h_type header) "file-chunk"
          then Some (header, drop (S headerEnd) data)
          else None
      end
  end.

(** Whether a message is about the transfer [id]. *)
Definition concerns (id : TransferId) (d : Payload) : bool :=
  match d with
  | Text (FileInfo id' _ _ _ _) => String.eqb id' id
  | Text (FileComplete id') => String.eqb id' id
  | Buffer bytes =>
      match unframe bytes with
      | Some (h, _) => String.eqb (h_transferId h) id
      | None => false
      end
  end.

(** The [i]-th chunk of a file. *)
Definition chunkAt (f : File) (i : nat) : list byte :=
  Js.slice (f_bytes f) (Z.of_nat i * CHUNK_SIZE) (Z.of_nat i * CHUNK_SIZE + CHUNK_SIZE).

(** [Math.ceil(file.size / CHUNK_SIZE)], the number of chunks announced. *)
Definition chunkCount (f : File) : nat := Z.to_nat (ceilDiv (f_size f) CHUNK_SIZE).

(** The messages of one transfer, in the order [sendFile] and its loop
    send them. *)
Definition announcement (id : TransferId) (f : File) : Payload :=
  Text (FileInfo id (f_name f) (f_size f) (f_type f) (ceilDiv (f_size f) CHUNK_SIZE)).

Definition chunkMessage (id : TransferId) (f : File) (i : nat) : Payload :=
  Buffer (framed (chunkHeader id (Z.of_nat i)) (chunkAt f i)).

Definition chunkMessages (id : TransferId) (f : File) (from count : nat) : list Payload :=
  map (chunkMessage id f) (seq from count).

(** Everything sent on the channel to [p], oldest first. *)
Definition sentTo (p : PeerId) (m : Manager) : option (list Payload) :=
  sent <$> Js.map_get p (dataChannels m).

(** Events that neither replace the channel to [p] nor reuse the transfer
    id [id]. *)
Definition leaves (p : PeerId) (id : TransferId) (ev : Event) : Prop :=
  match ev with
  | ChannelOpen q => q <> p
  | SendFile id' _ => id' <> id
  | _ => True
  end.

(** The messages of one channel, handled in the order they were sent. *)
Definition handleAll (q : PeerId) (ds : list Payload) (m : Manager) : Manager :=
  foldl (fun s d => handleMessage parse q d s) m ds.

(** The files handed to the application for the transfer [id]. *)
Definition receivedFor (id : TransferId) (cs : list Callback) : list (string * list byte) :=
  omap (fun c => match c with
                 | FileReceived id' nm blob =>
                     if String.eqb id' id then Some (nm, blob) else None
                 | _ => None
                 end) cs.

(** The transfer [id] of the file [f] is under way: its loop has sent the
    announcement and the first [k] chunks on the channel to [p]. *)
Definition underWay (p : PeerId) (pre : list Payload) (f : File) (id : TransferId)
    (m : Manager) : Prop :=
  exists l t c w k,
    transfers m !! id = Some t /\ t_file t = f /\
    findLoop id (loops m) = Some l /\
    chunkIndex l = Z.of_nat k /\ offset l = (Z.of_nat k * CHUNK_SIZE)%Z /\
    (l_phase l = AwaitingBuffer -> (offset l < f_size f)%Z) /\
    (k = 0%nat \/ ((Z.of_nat k - 1) * CHUNK_SIZE < f_size f)%Z) /\
    Js.map_get p (dataChannels m) = Some c /\ isOpen c = true /\
    sent c = pre ++ w /\
    List.filter (concerns id) w = announcement id f :: chunkMessages id f 0 k.

(** The transfer has been sent whole and its loop is gone: the channel to
    [p] has been sent the announcement, every chunk and the completion
    message. *)
Definition sentWhole (p : PeerId) (pre : list Payload) (f : File) (id : TransferId)
    (m : Manager) : Prop :=
  exists c w,
    findLoop id (loops m) = None /\
    Js.map_get p (dataChannels m) = Some c /\ isOpen c = true /\
    sent c = pre ++ w /\
    List.filter (concerns id) w
    = announcement id f :: chunkMessages id f 0 (chunkCount f)
      ++ [Text (FileComplete id)].

(** [appended p m m' ws]: the channel to [p], if open in [m], is open in
    [m'] and has been sent [ws] in between. *)
Definition appended (p : PeerId) (m m' : Manager) (ws : list Payload) : Prop :=
  forall c, Js.map_get p (dataChannels m) = Some c -> isOpen c = true ->
    exists c', Js.map_get p (dataChannels m') = Some c' /\ isOpen c' = true /\
               sent c' = sent c ++ ws.

(** A turn that is not about the transfer: it leaves the transfer and its
    loop alone and sends nothing about it. *)
Definition quiet (p : PeerId) (id : TransferId) (m m' : Manager) : Prop :=
  transfers m' !! id = transfers m !! id /\
  findLoop id (loops m') = findLoop id (loops m) /\
  exists ws, appended p m m' ws /\ List.filter (concerns id) ws = [].

(** Every transfer is filed under its own id. *)
Definition keyed (m : Manager) : Prop :=
  forall id t, transfers m !! id = Some t -> t_id t = id.

End Wire.

(** *** Schedules *)

Section Schedule.
Variable stringify : Header -> list byte.
Variable parse : list byte -> option Header.

(** The events by which the network takes everything the channels hold. *)
Definition drainChannels (cs : list (PeerId * Channel)) : list Event :=
  map (fun e => Drain e.1 (bufferedAmount e.2)) cs.

(** [n] rounds of: the buffers empty, the loop of [id] runs from its top,
    its chunk is read. *)
Fixpoint turns (n : nat) (id : TransferId) (m : Manager) : list Event :=
  match n with
  | O => []
  | S n' =>
      let evs := drainChannels (dataChannels m) ++ [Top id; BufferRead id] in
      evs ++ turns n' id (run stringify parse evs m)
  end.
End Schedule.

(** No peer has two channels, and no channel owes bytes. *)
Record sound (m : Manager) : Prop := {
  keys_once : List.NoDup (map fst (dataChannels m));
  amounts_nonneg : Forall (fun e => 0 <= bufferedAmount e.2)%Z (dataChannels m)
}.

(** The loop of the transfer [id] stands at [l], sending the file [f]. *)
Definition loopAt (id : TransferId) (f : File) (l : Loop) (m : Manager) : Prop :=
  findLoop id (loops m) = Some l /\
  (exists t, transfers m !! id = Some t /\ t_file t = f) /\
  (l_phase l = AwaitingBuffer -> (offset l < f_size f)%Z).

(** A codec for the examples: it writes the header of the first chunk of
    [transfer_1] as [{}] and knows no other header. *)
Definition tinyStringify (h : Header) : list byte :=
  if String.eqb (h_type h) "file-chunk" && String.eqb (h_transferId h) "transfer_1"
     && (h_index h =? 0)%Z
  then [x7b; x7d] else [].

Definition tinyParse (text : list byte) : option Header :=
  match text with
  | [b1; b2] =>
      if Byte.eqb b1 x7b && Byte.eqb b2 x7d then Some (chunkHeader "transfer_1" 0) else None
  | _ => None
  end.

(** A one-byte file. *)
Definition note : File := {| f_name := "a"; f_type := "text/plain"; f_bytes := [x61] |}.

(** Two files handed to [sendFile] one after the other on an open channel. *)
Definition noText (h : Header) : list byte := [].

Definition noParse (text : list byte) : option Header := None.

Definition twoFiles : list (Event) :=
  [ChannelOpen "peer";
   SendFile "transfer_1" {| f_name := "a"; f_type := "text/plain"; f_bytes := [x61] |};
   SendFile "transfer_2" {| f_name := "b"; f_type := "text/plain"; f_bytes := [x62] |}].

(** *** The other sending functions of the WebRTC manager *)

(** [webrtc.sendToPeer(peerId, d)]: the channels afterwards and the value
    returned. *)
Definition sendToPeer (peerId : PeerId) (d : Payload) (cs : list (PeerId * Channel))
    : list (PeerId * Channel) * bool :=
  match Js.map_get peerId cs with
  | Some channel =>
      if isOpen channel then (Js.map_set peerId (channelSend d channel) cs, true)
      else (cs, false)
  | None => (cs, false)
  end.

(** [webrtc.isConnected(peerId)], as a truth value. *)
Definition isConnected (peerId : PeerId) (cs : list (PeerId * Channel)) : bool :=
  match Js.map_get peerId cs with
  | Some channel => isOpen channel
  | None => false
  end.

(** *** What the application hears of a transfer *)

(** Whether a callback is about the transfer [id]. *)
Definition about (id : TransferId) (c : Callback) : bool :=
  match c with
  | TransferStart id' | TransferComplete id' | FileReceived id' _ _ => String.eqb id' id
  | TransferError _ => false
  end.

(** Whether a message announces the transfer [id]. *)
Definition announces (id : TransferId) (d : Payload) : bool :=
  match d with
  | Text (FileInfo id' _ _ _ _) => String.eqb id' id
  | _ => false
  end.

(** The bytes held in the chunk map of an entry of [receivingFiles]. *)
Definition stored (parts : gmap Z (list byte)) : Z :=
  map_fold (fun _ chunk total => (Z.of_nat (length chunk) + total)%Z) 0%Z parts.

(** A codec for examples with two chunks: the headers of the chunks 0 and
    1 of the transfer [t] are written as the digits [0] and [1]. *)
Definition pairStringify (h : Header) : list byte :=
  if String.eqb (h_type h) "file-chunk" && String.eqb (h_transferId h) "t"
  then if (h_index h =? 0)%Z then [x30]
       else if (h_index h =? 1)%Z then [x31] else []
  else [].

Definition pairParse (text : list byte) : option Header :=
  match text with
  | [b] =>
      if Byte.eqb b x30 then Some (chunkHeader "t" 0)
      else if Byte.eqb b x31 then Some (chunkHeader "t" 1) else None
  | _ => None
  end.

(** A file of one full chunk and one byte more. *)
Definition twoChunks : File :=
  {| f_name := "two"; f_type := "text/plain";
     f_bytes := replicate (Z.to_nat CHUNK_SIZE) x61 ++ [x62] |}.

(** The announcement of [note] and its only chunk twice over. *)
Definition twice : list Event :=
  [Message "peer" (announcement "transfer_1" note);
   Message "peer" (chunkMessage tinyStringify "transfer_1" note 0);
   Message "peer" (chunkMessage tinyStringify "transfer_1" note 0)].

(** Every entry of [receivingFiles] has counted at least the bytes it
    stores. *)
Definition covered (m : Manager) : Prop :=
  forall id r, receivingFiles m !! id = Some r -> (stored (receivedChunks r) <= bytesReceived r)%Z.

End Framed.

(** ** The adaptive sender of [velo-app.js] *)

Module Optimized.

(** The chunk loop of [sendFile] in [src/public/js/velo-app.js], which
    differs from the one of [src/unnamed/part_002] in three places: the
    chunk size follows the measured speed, the threshold of the back
    pressure depends on the number of targets, and the loop looks at the
    queue item for a cancellation before every chunk. *)

Definition minChunkSize : Z := 256 * 1024.
Definition maxChunkSize : Z := 2 * 1024 * 1024.

(** [a > b] and [Math.max(a, b)] on finite numbers. *)
Definition gt (a b : Q) : bool := negb (Qle_bool a b).
Definition max (a b : Q) : Q := if Qle_bool a b then b else a.

(** [calculateOptimalChunkSize()], as a function of [this.measuredSpeed], in
    bytes per second; the third size is the source's [1.5 * 1024 * 1024]. *)
Definition calculateOptimalChunkSize (measuredSpeed : Q) : Z :=
  if gt measuredSpeed (50 * 1024 * 1024) then maxChunkSize
  else if gt measuredSpeed (20 * 1024 * 1024) then 1536 * 1024
  else if gt measuredSpeed (10 * 1024 * 1024) then 1024 * 1024
  else if gt measuredSpeed (5 * 1024 * 1024) then 768 * 1024
  else minChunkSize.

(** [Math.max(2, 4 / targetConnections.length) * 1024 * 1024] *)
Definition bufferThreshold (targets : nat) : Q :=
  max 2 (4 / inject_Z (Z.of_nat targets)) * 1024 * 1024.

(** The receiving functions keep their progress records in the same
    [activeTransfers], under the id the other side chose. What they have
    done to the entry under the id of this transfer: nothing,
    [receiveFileStart] has put its own record there, or [receiveFileEnd]
    has deleted it. *)
Inductive Inbound := Untouched | Replaced | Deleted.

(** What a call of [sendNextChunk] finds outside the transfer: whether the
    queue item reads ['cancelled'], the [bufferedAmount] summed over the
    targets, what has become of the entry since the chunk before and while
    the slice is read and, for the chunk it reads, the speed measured when
    the chunk is loaded: [chunk.byteLength / chunkElapsed], or nothing when
    the clock has not moved ([chunkElapsed > 0] fails). *)
Record Attempt := {
  cancelled : bool;
  totalBuffered : Z;
  before : Inbound;
  reading : Inbound;
  measured : option Q
}.

(** The variables of one [sendFile]: [offset], [this.measuredSpeed], the
    constant [chunkSize], [activeTransfers.get(id)] with its [chunkSize]
    when it has one, what every target has been sent, and the lock. *)
Record Transfer := {
  offset : Z;
  measuredSpeed : Q;
  chunkSize : Z;
  entry : option (option Z);
  sent : list Velo.Data;
  isSending : bool
}.

Definition touch (i : Inbound) (e : option (option Z)) : option (option Z) :=
  match i with
  | Untouched => e
  | Replaced => Some None
  | Deleted => None
  end.

Definition touched (i : Inbound) (t : Transfer) : Transfer :=
  {| offset := offset t; measuredSpeed := measuredSpeed t; chunkSize := chunkSize t;
     entry := touch i (entry t); sent := sent t; isSending := isSending t |}.

(** [this.activeTransfers.get(id)?.chunkSize || chunkSize] *)
Definition currentChunk (t : Transfer) : Z :=
  match entry t with
  | Some (Some size) => if (size =? 0)%Z then chunkSize t else size
  | _ => chunkSize t
  end.

Inductive Phase := Sending | Cancelled | Complete.

(** [reader.onload] for the slice read by [sendNextChunk]. *)
Definition onload (file : Velo.File) (id : Z) (a : Attempt) (t : Transfer) : Transfer * Phase :=
  let chunk := Js.slice (Velo.f_bytes file) (offset t) (offset t + currentChunk t) in
  let offset' := (offset t + Z.of_nat (length chunk))%Z in
  let speed' := default (measuredSpeed t) (measured a) in
  let found := touch (reading a) (entry t) in
  let entry' :=
    match measured a with
    | Some speed =>
        if (offset' mod (5 * 1024 * 1024) <? Z.of_nat (length chunk))%Z
        then match found with
             | Some _ => Some (Some (calculateOptimalChunkSize speed))
             | None => None
             end
        else found
    | None => found
    end in
  if (offset' <? Velo.f_size file)%Z
  then ({| offset := offset'; measuredSpeed := speed'; chunkSize := chunkSize t;
           entry := entry'; sent := sent t ++ [Velo.Binary chunk]; isSending := true |},
        Sending)
  else ({| offset := offset'; measuredSpeed := speed'; chunkSize := chunkSize t;
           entry := None; sent := sent t ++ [Velo.Binary chunk; Velo.FileEnd id];
           isSending := false |},
        Complete).

(** [sendNextChunk]: a cancelled item ends the loop, with the entry deleted
    and the lock released; a buffer above the threshold makes it wait for
    the next attempt; otherwise the next slice is read and sent. *)
Definition sendNextChunk (file : Velo.File) (id : Z) (targets : nat) (a : Attempt)
    (t : Transfer) : Transfer * Phase :=
  let t := touched (before a) t in
  if cancelled a
  then ({| offset := offset t; measuredSpeed := measuredSpeed t; chunkSize := chunkSize t;
           entry := None; sent := sent t; isSending := false |}, Cancelled)
  else if gt (inject_Z (totalBuffered a)) (bufferThreshold targets)
  then (t, Sending)
  else onload file id a t.

(** The calls of [sendNextChunk] one after the other, each with what it
    finds, as long as the transfer goes on. *)
Fixpoint chunkLoop (file : Velo.File) (id : Z) (targets : nat) (attempts : list Attempt)
    (t : Transfer) : Transfer * Phase :=
  match attempts with
  | [] => (t, Sending)
  | a :: attempts' =>
      match sendNextChunk file id targets a t with
      | (t', Sending) => chunkLoop file id targets attempts' t'
      | stopped => stopped
      end
  end.

(** [sendFile(file, queueId)] for the transfer id it draws, the number of
    target connections and the speed left by the transfers before: without
    a target nothing is sent; otherwise the announcement goes out and the
    loop runs through the attempts. *)
Definition sendFile (file : Velo.File) (id : Z) (targets : nat) (speed : Q)
    (attempts : list Attempt) : option (Transfer * Phase) :=
  if (targets =? 0)%nat then None
  else Some (chunkLoop file id targets attempts
               {| offset := 0; measuredSpeed := speed;
                  chunkSize := calculateOptimalChunkSize speed;
                  entry := Some (Some (calculateOptimalChunkSize speed));
                  sent := [Velo.FileStart id (Velo.f_name file) (Velo.f_size file)];
                  isSending := true |}).

(** The five sizes a chunk can be read with. *)
Definition chunkSizes : list Z :=
  [minChunkSize; 768 * 1024; 1024 * 1024; 1536 * 1024; maxChunkSize]%Z.

(** The attempts that read a chunk. *)
Definition reads (targets : nat) (attempts : list Attempt) : nat :=
  length (List.filter (fun a => negb (gt (inject_Z (totalBuffered a)) (bufferThreshold targets)))
            attempts).

(** The state of a transfer that is under way, with the chunks sent so
    far. *)
Definition underway (file : Velo.File) (id : Z) (cs : list (list byte)) (t : Transfer) : Prop :=
  sent t = Velo.FileStart id (Velo.f_name file) (Velo.f_size file) :: map Velo.Binary cs /\
  concat cs = take (Z.to_nat (offset t)) (Velo.f_bytes file) /\
  (0 <= offset t)%Z /\
  ((offset t < Velo.f_size file)%Z \/ cs = [] /\ offset t = 0%Z) /\
  Forall (fun c => In (Z.of_nat (length c)) chunkSizes) cs /\
  isSending t = true /\
  In (chunkSize t) chunkSizes /\
  (forall size, entry t = Some (Some size) -> In size chunkSizes).

(** A short file, and an attempt that finds the buffers empty and the line
    at the given speed. *)
Definition note : Velo.File := {| Velo.f_name := "note.txt"; Velo.f_bytes := [x68; x69] |}.

Definition free (speed : Q) : Attempt :=
  {| cancelled := false; totalBuffered := 0; before := Untouched; reading := Untouched;
     measured := Some speed |}.

(** A receiver with one open connection, to the sender. *)
Definition listener : Velo.App :=
  Velo.run [Velo.Open "alice" "Alice" true] (Velo.initial "bob").

End Optimized.

(** ** The theme switch and the history of transfers *)

Module Theme.

(** [ThemeManager] of [src/unnamed/part_001]: what it reads and writes. *)
Record Page := {
  dataTheme : option string;         (* the [data-theme] attribute of the document *)
  stored : option string;            (* [localStorage.getItem('velo-theme')] *)
  icons : option (string * string);  (* [style.display] of the sun and of the moon,
                                        when both icons are in the page *)
  transition : bool                  (* the class [theme-transition] of the body *)
}.

(** [updateIcons(theme)] *)
Definition updateIcons (theme : string) (p : Page) : Page :=
  match icons p with
  | None => p
  | Some _ =>
      {| dataTheme := dataTheme p; stored := stored p;
         icons := Some (if String.eqb theme "dark" then ("block", "none") else ("none", "block"));
         transition := transition p |}
  end.

(** [setTheme(theme)] *)
Definition setTheme (theme : string) (p : Page) : Page :=
  updateIcons theme
    {| dataTheme := Some theme; stored := Some theme; icons := icons p;
       transition := transition p |}.

(** [init()]: a saved theme is taken as it is, unless it is the empty
    string, which is falsy as a missing one is; otherwise the preference of
    the system decides. *)
Definition init (systemDark : bool) (p : Page) : Page :=
  match stored p with
  | Some savedTheme =>
      if String.eqb savedTheme "" then setTheme (if systemDark then "dark" else "light") p
      else setTheme savedTheme p
  | None => setTheme (if systemDark then "dark" else "light") p
  end.

(** [toggle()], and the timer it sets. *)
Definition toggle (p : Page) : Page :=
  let next :=
    match dataTheme p with
    | Some current => if String.eqb current "dark" then "light" else "dark"
    | None => "dark"
    end in
  setTheme next {| dataTheme := dataTheme p; stored := stored p; icons := icons p;
                   transition := true |}.

Definition timeout (p : Page) : Page :=
  {| dataTheme := dataTheme p; stored := stored p; icons := icons p; transition := false |}.

Inductive Event := Click | Timeout.

Definition handle (ev : Event) (p : Page) : Page :=
  match ev with Click => toggle p | Timeout => timeout p end.

Definition run (evs : list Event) (p : Page) : Page := foldl (fun q ev => handle ev q) p evs.

(** The page as the browser loads it again: the storage is what it was, the
    rest is what the document says. *)
Definition reload (document : Page) (p : Page) : Page :=
  {| dataTheme := dataTheme document; stored := stored p; icons := icons document;
     transition := transition document |}.

Definition clicks (evs : list Event) : nat :=
  length (List.filter (fun ev => match ev with Click => true | Timeout => false end) evs).

End Theme.

Module History.

(** [saveHistory] of [VeloApp] ([src/unnamed/part_002] and
    [src/public/js/velo-app.js]), on the list kept under [velo_history]. *)
Record Item := { name : string; size : Z; date : Z; direction : string; peer : string }.

Definition saveHistory (historyItem : Item) (history : list Item) : list Item :=
  let history := historyItem :: history in
  if (50 <? length history)%nat then removelast history else history.

(** One call for each transfer that ends, in the order of the list. *)
Definition saveAll (items : list Item) (history : list Item) : list Item :=
  foldl (fun h item => saveHistory item h) history items.

End History.

(** ** The client of the room server *)

Module Client.
Import Relay.

(** [PyShareApp] of [src/unnamed/part_001]: what [handleServerMessage]
    makes of the membership messages of the server. *)

(** The peers for which the handler of [room-joined] calls
    [initiateConnection], in the order of the list; [userId] is the id the
    server gave this client in [connected]. *)
Definition initiated (userId : UserId) (users : list UserInfo) : list UserId :=
  map id (List.filter (fun user => negb (String.eqb (id user) userId)) users).

(** The signal that [initiateConnection(peerId, ...)] hands to
    [sendToServer] once its offer is made:
    [{ type: 'offer', targetId: peerId, sdp }]. *)
Definition offerTo (peerId : UserId) (sdp : Json) : Obj :=
  [("type", JString "offer"); ("targetId", JString peerId); ("sdp", sdp)].

(** [room-joined] at the WebRTC manager. *)
Definition roomJoined (userId : UserId) (users : list UserInfo) (m : Handshake.Manager)
    : Handshake.Manager :=
  foldl (fun m' peerId => Handshake.initiateConnection peerId m') m (initiated userId users).

End Client.

(** * Facts about the JavaScript helpers *)

Module JsFacts.
Import Js.

Section OrderedMap.
Context {V : Type}.
Implicit Types (m : list (string * V)) (k : string) (v : V).

Lemma map_get_set_eq k v m : map_get k (map_set k v m) = Some v.
Proof.
  induction m as [|[k' v'] m IH]; simpl; [by rewrite String.eqb_refl|].
  destruct (String.eqb k k') eqn:E; simpl; [by rewrite String.eqb_refl | by rewrite E].
Qed.

Lemma map_get_set_ne k k' v m : k <> k' -> map_get k (map_set k' v m) = map_get k m.
Proof.
  intros Hne. apply String.eqb_neq in Hne.
  induction m as [|[k0 v0] m IH]; simpl; [by rewrite Hne|].
  destruct (String.eqb k' k0) eqn:E; simpl.
  - apply String.eqb_eq in E. subst k0. by rewrite Hne.
  - by rewrite IH.
Qed.

Lemma map_get_delete_eq k m : map_get k (map_delete k m) = None.
Proof.
  induction m as [|[k' v'] m IH]; simpl; [done|].
  destruct (String.eqb k k') eqn:E; [done|]. simpl. by rewrite E.
Qed.

Lemma map_get_delete_ne k k' m : k <> k' -> map_get k (map_delete k' m) = map_get k m.
Proof.
  intros Hne. apply String.eqb_neq in Hne.
  induction m as [|[k0 v0] m IH]; simpl; [done|].
  destruct (String.eqb k' k0) eqn:E; simpl.
  - apply String.eqb_eq in E. subst k0. by rewrite Hne.
  - by rewrite IH.
Qed.

Lemma map_get_map (f : V -> V) k m :
  map_get k (map (fun e => (e.1, f e.2)) m) = f <$> map_get k m.
Proof.
  induction m as [|[k' v'] m IH]; simpl; [done|]. by destruct (String.eqb k k').
Qed.

Lemma length_map_set_present k v v0 m :
  map_get k m = Some v0 -> length (map_set k v m) = length m.
Proof.
  induction m as [|[k' v'] m IH]; simpl; [done|].
  destruct (String.eqb k k'); simpl; [done|]. intros H. by rewrite IH.
Qed.
(** Keys occur once. *)
Lemma map_get_None_keys k m : map_get k m = None -> ~ In k (map fst m).
Proof.
  induction m as [|[k' v'] m IH]; simpl; [tauto|].
  destruct (String.eqb k k') eqn:E; [done|]. apply String.eqb_neq in E.
  intros H [Heq|Hin]; [congruence | by apply IH].
Qed.

Lemma keys_map_set k v m :
  map fst (map_set k v m)
  = match map_get k m with Some _ => map fst m | None => map fst m ++ [k] end.
Proof.
  induction m as [|[k' v'] m IH]; simpl; [done|].
  destruct (String.eqb k k') eqn:E; simpl.
  - apply String.eqb_eq in E. by subst.
  - rewrite IH. by destruct (map_get k m).
Qed.

Lemma NoDup_snoc (ks : list string) k :
  List.NoDup ks -> ~ In k ks -> List.NoDup (ks ++ [k]).
Proof.
  induction ks as [|k' ks IH]; simpl; intros H Hk.
  - constructor; [tauto | constructor].
  - inversion H as [|? ? Hnotin Hrest]; subst. constructor.
    + rewrite in_app_iff. simpl. intros [Hin|[Heq|[]]]; [done | subst; tauto].
    + apply IH; tauto.
Qed.

Lemma NoDup_map_set k v m : List.NoDup (map fst m) -> List.NoDup (map fst (map_set k v m)).
Proof.
  intros H. rewrite keys_map_set. destruct (map_get k m) eqn:E; [done|].
  apply NoDup_snoc; [done|]. by apply map_get_None_keys.
Qed.

Lemma keys_map_delete_incl k m x :
  In x (map fst (map_delete k m)) -> In x (map fst m).
Proof.
  induction m as [|[k' v'] m IH]; simpl; [done|].
  destruct (String.eqb k k'); simpl; [auto|]. intros [H|H]; auto.
Qed.

Lemma NoDup_map_delete k m :
  List.NoDup (map fst m) -> List.NoDup (map fst (map_delete k m)).
Proof.
  induction m as [|[k' v'] m IH]; simpl; [done|].
  intros H. inversion H as [|? ? Hnotin Hrest]; subst.
  destruct (String.eqb k k'); [by apply IH|]. simpl. constructor; [|by apply IH].
  intros Hin. apply Hnotin. by eapply keys_map_delete_incl.
Qed.

Lemma map_set_middle k v v0 (done todo : list (string * V)) :
  ~ In k (map fst done) ->
  map_set k v (done ++ (k, v0) :: todo) = done ++ (k, v) :: todo.
Proof.
  induction done as [|[k' v'] done IH]; simpl; intros H.
  - by rewrite String.eqb_refl.
  - destruct (String.eqb k k') eqn:E; [apply String.eqb_eq in E; subst; tauto|].
    rewrite IH; [done | tauto].
Qed.

Lemma map_get_middle k v0 (done todo : list (string * V)) :
  ~ In k (map fst done) -> map_get k (done ++ (k, v0) :: todo) = Some v0.
Proof.
  induction done as [|[k' v'] done IH]; simpl; intros H.
  - by rewrite String.eqb_refl.
  - destruct (String.eqb k k') eqn:E; [apply String.eqb_eq in E; subst; tauto|].
    apply IH. tauto.
Qed.

Lemma map_get_In k v m : map_get k m = Some v -> In (k, v) m.
Proof.
  induction m as [|[k' v'] m IH]; simpl; [done|].
  destruct (String.eqb k k') eqn:E.
  - apply String.eqb_eq in E. intros [= ->]. left. by subst.
  - intros H. right. by apply IH.
Qed.

Lemma Forall_set (P : string * V -> Prop) k v m :
  P (k, v) -> Forall P m -> Forall P (map_set k v m).
Proof.
  intros Hv. induction 1 as [|[k' v'] m Hx Hm IH]; simpl; [by repeat constructor|].
  destruct (String.eqb k k'); constructor; done.
Qed.
End OrderedMap.

(** Slices that start inside the blob. *)
Lemma slice_inside (data : list byte) (start len : Z) :
  (0 <= start)%Z -> (0 <= len)%Z ->
  slice data start (start + len) = take (Z.to_nat len) (drop (Z.to_nat start) data).
Proof.
  intros Hs Hl. unfold slice.
  destruct (Z.ltb_spec start 0); [lia|]. destruct (Z.ltb_spec (start + len) 0); [lia|].
  remember (Z.of_nat (length data)) as size eqn:Hsize.
  destruct (Z.le_gt_cases size start) as [Hge|Hlt].
  - rewrite (drop_ge data (Z.to_nat start)), (drop_ge data (Z.to_nat (Z.min start size)))
      by lia.
    by rewrite !take_nil.
  - rewrite (Z.min_l start size) by lia.
    destruct (Z.le_gt_cases (start + len) size) as [Hin|Hout].
    + rewrite Z.min_l by lia. f_equal. lia.
    + rewrite Z.min_r by lia. rewrite !take_ge; [done| |]; rewrite length_drop; lia.
Qed.

Lemma length_slice (data : list byte) (start len : Z) :
  (0 <= start)%Z -> (0 <= len)%Z ->
  Z.of_nat (length (slice data start (start + len)))
  = Z.min len (Z.max (Z.of_nat (length data) - start) 0).
Proof.
  intros Hs Hl. rewrite slice_inside by done. rewrite length_take, length_drop. lia.
Qed.

Lemma length_slice_le (data : list byte) (start len : Z) :
  (0 <= len)%Z -> (Z.of_nat (length (slice data start (start + len))) <= len)%Z.
Proof.
  intros Hl. unfold slice. rewrite length_take.
  destruct (Z.ltb_spec start 0); destruct (Z.ltb_spec (start + len) 0); lia.
Qed.

(** Reading on from where the last slice ended extends the prefix read. *)
Lemma take_slice (data : list byte) (start len : Z) :
  (0 <= start)%Z -> (0 <= len)%Z ->
  take (Z.to_nat start) data ++ slice data start (start + len)
  = take (Z.to_nat (start + Z.of_nat (length (slice data start (start + len))))) data.
Proof.
  intros Hs Hl. rewrite slice_inside by done.
  set (x := drop (Z.to_nat start) data).
  assert (Hx : take (Z.to_nat len) x = take (length (take (Z.to_nat len) x)) x).
  { rewrite length_take. destruct (Nat.le_gt_cases (Z.to_nat len) (length x)).
    - by rewrite Nat.min_l.
    - rewrite Nat.min_r by lia. by rewrite !take_ge by lia. }
  rewrite Hx at 1. unfold x. rewrite take_take_drop. f_equal. lia.
Qed.

End JsFacts.

(** * Properties of the relay service *)

Module RelayFacts.
Import Relay.

Lemma sent_foldl_send {A} (f : A -> UserId) (g : A -> Msg) (l : list A) (st : State) :
  foldl (fun s x => send (f x) (g x) s) st l =
  {| rooms := rooms st; store := store st; nextRef := nextRef st;
     sockets := sockets st; draws := draws st;
     sent := sent st ++ map (fun x => (f x, g x)) l |}.
Proof.
  revert st. induction l as [|x l IH]; intros st; simpl.
  - rewrite app_nil_r. by destruct st.
  - rewrite IH. simpl. by rewrite <- app_assoc.
Qed.

Lemma sent_foldl_send_if {A} (p : A -> bool) (f : A -> UserId) (g : A -> Msg)
    (l : list A) (st : State) :
  foldl (fun s x => if p x then send (f x) (g x) s else s) st l =
  {| rooms := rooms st; store := store st; nextRef := nextRef st;
     sockets := sockets st; draws := draws st;
     sent := sent st ++ map (fun x => (f x, g x)) (List.filter p l) |}.
Proof.
  revert st. induction l as [|x l IH]; intros st; simpl.
  - rewrite app_nil_r. by destruct st.
  - rewrite IH. destruct (p x); simpl; [by rewrite <- app_assoc | done].
Qed.

Section Facts.
Variable random : nat -> Q.
Variable toUpperCase : string -> string.

(** *** Shape of a generated code *)

Lemma chars_unambiguous :
  Forall (fun c => unambiguous c = true) (list_ascii_of_string chars).
Proof. repeat constructor. Qed.

Lemma chars_not_confusable :
  Forall (fun c => ~ In c confusable) (list_ascii_of_string chars).
Proof.
  apply Forall_forall. intros c Hc Hbad.
  assert (Hu : unambiguous c = true).
  { pose proof chars_unambiguous as H. rewrite Forall_forall in H. by apply H. }
  simpl in Hbad. destruct Hbad as [<-|[<-|[<-|[<-|[]]]]]; discriminate Hu.
Qed.

Lemma append_cons (a : ascii) (s t : string) :
  String a s +:+ t = String a (s +:+ t).
Proof. reflexivity. Qed.

Lemma append_empty_r (s : string) : s +:+ "" = s.
Proof. induction s as [|a s IH]; [done | by rewrite append_cons, IH]. Qed.

Lemma append_cons_assoc (s t : string) (c : ascii) :
  (s +:+ String c "") +:+ t = s +:+ String c t.
Proof. induction s as [|a s IH]; [done | by rewrite !append_cons, IH]. Qed.

Lemma get_list_ascii (s : string) (n : nat) (c : ascii) :
  String.get n s = Some c -> In c (list_ascii_of_string s).
Proof.
  revert n. induction s as [|a s IH]; intros [|n] H; simpl in *; try discriminate.
  - left. congruence.
  - right. eauto.
Qed.

Lemma get_in_range (s : string) (n : nat) :
  (n < String.length s)%nat -> exists c, String.get n s = Some c.
Proof.
  revert n. induction s as [|a s IH]; intros n H; simpl in *; [lia|].
  destruct n as [|n]; [eauto|]. apply IH. lia.
Qed.

Lemma draw_in_range (q : Q) :
  (0 <= q)%Q -> (q < 1)%Q ->
  (0 <= Qfloor (q * inject_Z (Z.of_nat (String.length chars))) < 32)%Z.
Proof.
  intros H0 H1. change (Z.of_nat (String.length chars)) with 32%Z. split.
  - change 0%Z with (Qfloor 0). apply Qfloor_resp_le.
    apply Qmult_le_0_compat; [done | discriminate].
  - rewrite Zlt_Qlt. eapply Qle_lt_trans; [apply Qfloor_le|].
    change (inject_Z 32) with (1 * inject_Z 32)%Q.
    apply Qmult_lt_compat_r; [reflexivity | done].
Qed.

Section Ranged.
Hypothesis random_range : forall n, (0 <= random n)%Q /\ (random n < 1)%Q.

(** One draw appends exactly one character of [chars]. *)
Lemma draw_char (pos : nat) :
  exists c, Js.charAt chars
              (Qfloor (random pos * inject_Z (Z.of_nat (String.length chars))))
            = String c "" /\ In c (list_ascii_of_string chars).
Proof.
  destruct (random_range pos) as [H0 H1].
  pose proof (draw_in_range _ H0 H1) as [Hlo Hhi].
  set (k := Qfloor _) in *. unfold Js.charAt.
  destruct (Z.ltb_spec k 0); [lia|].
  destruct (get_in_range chars (Z.to_nat k)) as [c Hc].
  { change (String.length chars) with 32%nat. lia. }
  rewrite Hc. exists c. split; [done|]. eapply get_list_ascii, Hc.
Qed.

Lemma generateLoop_shape (n pos : nat) (acc : string) :
  exists suffix,
    generateLoop random n pos acc = acc +:+ suffix /\
    String.length suffix = n /\
    Forall (fun c => In c (list_ascii_of_string chars)) (list_ascii_of_string suffix).
Proof.
  revert pos acc. induction n as [|n IH]; intros pos acc; cbn [generateLoop].
  - exists "". split; [|split; [done | constructor]].
    by rewrite append_empty_r.
  - destruct (draw_char pos) as (c & -> & Hc).
    destruct (IH (S pos) (acc +:+ String c "")) as (suf & -> & Hlen & Hall).
    exists (String c suf). split; [|split].
    + apply append_cons_assoc.
    + simpl. by rewrite Hlen.
    + simpl. by constructor.
Qed.

Lemma generateRoomCode_shape (pos : nat) :
  String.length (generateRoomCode random pos) = 6%nat /\
  Forall (fun c => In c (list_ascii_of_string chars))
         (list_ascii_of_string (generateRoomCode random pos)).
Proof.
  unfold generateRoomCode.
  destruct (generateLoop_shape 6 pos "") as (suf & -> & Hlen & Hall). by simpl.
Qed.

Lemma freshCode_shape (fuel : nat) (table : gmap string nat) (c0 : string) (pos : nat)
    (c : string) (pos' : nat) :
  String.length c0 = 6%nat ->
  Forall (fun a => In a (list_ascii_of_string chars)) (list_ascii_of_string c0) ->
  freshCode random fuel table c0 pos = Some (c, pos') ->
  table !! c = None /\ String.length c = 6%nat /\
  Forall (fun a => In a (list_ascii_of_string chars)) (list_ascii_of_string c).
Proof.
  revert c0 pos. induction fuel as [|fuel IH]; intros c0 pos Hlen Hall; simpl.
  - destruct (table !! c0) eqn:E; [discriminate|]. intros [= <- <-]. done.
  - destruct (table !! c0) eqn:E.
    + apply IH; apply generateRoomCode_shape.
    + intros [= <- <-]. done.
Qed.
End Ranged.

(** *** The handlers in closed form *)

Lemma leaveRoom_in_room (u : UserId) (st : State) (rc : string) (r : nat) (room : Room) :
  roomCode (socketOf u st) = Some rc -> rc <> "" ->
  rooms st !! rc = Some r -> store st !! r = Some room ->
  leaveRoom u st = afterLeave u rc r room st.
Proof.
  intros Hrc Hne Hr Hroom. unfold leaveRoom, afterLeave. rewrite Hrc. simpl.
  apply String.eqb_neq in Hne. rewrite Hne, Hr, Hroom. simpl.
  rewrite sent_foldl_send. unfold leftNotices, leftRoom. simpl.
  by destruct (Nat.eqb _ 0).
Qed.

Lemma leaveRoom_cases (u : UserId) (st : State) :
  leaveRoom u st = st \/
  exists rc r room,
    roomCode (socketOf u st) = Some rc /\
    rooms st !! rc = Some r /\ store st !! r = Some room /\
    leaveRoom u st = afterLeave u rc r room st.
Proof.
  destruct (roomCode (socketOf u st)) as [rc|] eqn:Hrc;
    [|left; unfold leaveRoom; by rewrite Hrc].
  destruct (decide (rc = "")) as [->|Hne]; [left; unfold leaveRoom; by rewrite Hrc|].
  destruct (rooms st !! rc) as [r|] eqn:Hr.
  2: { left. unfold leaveRoom. rewrite Hrc. simpl.
       apply String.eqb_neq in Hne. by rewrite Hne, Hr. }
  destruct (store st !! r) as [room|] eqn:Hroom.
  2: { left. unfold leaveRoom. rewrite Hrc. simpl.
       apply String.eqb_neq in Hne. by rewrite Hne, Hr, Hroom. }
  right. exists rc, r, room. repeat split; try done.
  by apply leaveRoom_in_room.
Qed.

Lemma joinRoom_cases (u : UserId) (rc name : string) (st : State) (r : nat) :
  rooms st !! toUpperCase rc = Some r ->
  let st1 := if Js.truthy (roomCode (socketOf u st)) then leaveRoom u st else st in
  (store st1 !! r = None /\ joinRoom toUpperCase u rc name st = st1) \/
  exists room,
    store st1 !! r = Some room /\
    joinRoom toUpperCase u rc name st =
      {| rooms := rooms st1;
         store := <[r := joinedRoom u name room]> (store st1);
         nextRef := nextRef st1;
         sockets := <[u := {| roomCode := Some (toUpperCase rc);
                              ws_username := Some name |}]> (sockets st1);
         draws := draws st1;
         sent := sent st1 ++ joinNotices u name (toUpperCase rc) (joinedRoom u name room) |}.
Proof.
  intros Hr st1. unfold joinRoom. rewrite Hr. fold st1.
  destruct (store st1 !! r) as [room|] eqn:Hroom; [right | by left].
  exists room. split; [done|].
  rewrite (sent_foldl_send_if (fun m => negb (String.eqb (m_userId m) u))).
  simpl. fold (joinedRoom u name room). by rewrite <- app_assoc.
Qed.

(** *** Consistency of the room table *)

Lemma consistent_initial : consistent initial.
Proof. split; intros ? ? H; simpl in H; by rewrite lookup_empty in H. Qed.

Lemma consistent_update (st st' : State) (r : nat) (room room' : Room) :
  consistent st ->
  store st !! r = Some room -> code room' = code room ->
  (forall k x, rooms st' !! k = Some x -> rooms st !! k = Some x) ->
  store st' = <[r := room']> (store st) ->
  nextRef st' = nextRef st ->
  consistent st'.
Proof.
  intros [Htab Hbound] Hroom Hcode Hsub Hstore Hnext. split.
  - intros k x Hk. apply Hsub in Hk. destruct (Htab _ _ Hk) as (rm & Hrm & Hc).
    rewrite Hstore. destruct (decide (x = r)) as [->|Hne].
    + rewrite lookup_insert_eq. exists room'. split; [done|]. congruence.
    + rewrite lookup_insert_ne by done. eauto.
  - intros x rm. rewrite Hstore, Hnext. destruct (decide (x = r)) as [->|Hne].
    + intros _. eauto.
    + rewrite lookup_insert_ne by done. eauto.
Qed.

Lemma consistent_same (st st' : State) :
  consistent st ->
  rooms st' = rooms st -> store st' = store st -> nextRef st' = nextRef st ->
  consistent st'.
Proof.
  intros [Htab Hbound] Hr Hs Hn. split.
  - intros k x. rewrite Hr, Hs. apply Htab.
  - intros x rm. rewrite Hs, Hn. apply Hbound.
Qed.

Lemma consistent_leaveRoom (u : UserId) (st : State) :
  consistent st -> consistent (leaveRoom u st).
Proof.
  intros Hc. destruct (leaveRoom_cases u st) as [-> | (rc & r & room & _ & Hr & Hroom & ->)];
    [done|].
  eapply (consistent_update st _ r room (leftRoom u room)); eauto; simpl.
  intros k x. destruct (Nat.eqb _ 0); [|done].
  rewrite lookup_delete_Some. tauto.
Qed.

Lemma store_leaveRoom (u : UserId) (st : State) (r : nat) :
  is_Some (store st !! r) -> is_Some (store (leaveRoom u st) !! r).
Proof.
  intros Hr. destruct (leaveRoom_cases u st) as [-> | (rc & r0 & room & _ & _ & _ & ->)];
    [done|].
  simpl. destruct (decide (r = r0)) as [->|Hne];
    [rewrite lookup_insert_eq; eauto | by rewrite lookup_insert_ne].
Qed.

Lemma consistent_joinRoom (u : UserId) (rc name : string) (st : State) :
  consistent st -> consistent (joinRoom toUpperCase u rc name st).
Proof.
  intros Hc. destruct (rooms st !! toUpperCase rc) as [r|] eqn:Hr.
  - assert (Hc1 : consistent (if Js.truthy (roomCode (socketOf u st))
                              then leaveRoom u st else st)).
    { destruct (Js.truthy _); [by apply consistent_leaveRoom | done]. }
    destruct (joinRoom_cases u rc name st r Hr) as [[_ ->] | (room & Hroom & ->)]; [done|].
    eapply (consistent_update _ _ r room (joinedRoom u name room)); eauto.
  - unfold joinRoom. rewrite Hr. by eapply consistent_same.
Qed.

Lemma createRoom_cases (fuel : nat) (u : UserId) (name : string) (st st' : State) :
  createRoom random fuel u name st = Some st' ->
  exists c pos,
    freshCode random fuel (rooms st) (generateRoomCode random (draws st)) (draws st + 6)
      = Some (c, pos) /\
    st' = {| rooms := <[c := nextRef st]> (rooms st);
             store := <[nextRef st :=
                          {| code := c;
                             users := [(u, {| m_username := name; m_userId := u |})] |}]>
                        (store st);
             nextRef := S (nextRef st);
             sockets := <[u := {| roomCode := Some c; ws_username := Some name |}]>
                          (sockets st);
             draws := pos;
             sent := sent st ++ [(u, RoomCreated c [{| id := u; username := name |}])] |}.
Proof.
  unfold createRoom. destruct (freshCode _ _ _ _ _) as [[c pos]|]; [|discriminate].
  intros [= <-]. by exists c, pos.
Qed.

Lemma consistent_createRoom (fuel : nat) (u : UserId) (name : string) (st st' : State) :
  consistent st -> createRoom random fuel u name st = Some st' -> consistent st'.
Proof.
  intros [Htab Hbound] H. destruct (createRoom_cases _ _ _ _ _ H) as (c & pos & _ & ->).
  split; simpl.
  - intros k x. destruct (decide (k = c)) as [->|Hne].
    + rewrite lookup_insert_eq. intros [= <-]. rewrite lookup_insert_eq. eauto.
    + rewrite lookup_insert_ne by done. intros Hk.
      destruct (Htab _ _ Hk) as (rm & Hrm & Hcode).
      rewrite lookup_insert_ne; [eauto|]. apply Hbound in Hrm. lia.
  - intros x rm. destruct (decide (x = nextRef st)) as [->|Hne]; [lia|].
    rewrite lookup_insert_ne by done. intros Hx. apply Hbound in Hx. lia.
Qed.

Lemma reachable_consistent (st : State) :
  reachable random toUpperCase st -> consistent st.
Proof.
  induction 1 as [|st u _ IH _|st u name fuel st' _ IH _ Hc|st u rc name _ IH _
                  |st u _ IH _|st u _ IH _].
  - apply consistent_initial.
  - by eapply consistent_same.
  - by eapply consistent_createRoom.
  - by apply consistent_joinRoom.
  - by apply consistent_leaveRoom.
  - eapply consistent_same; [apply consistent_leaveRoom, IH|done..].
Qed.

(** *** Membership after the two mutations *)

Lemma isMember_leftRoom (u : UserId) (room : Room) : isMember u (leftRoom u room) = false.
Proof. unfold isMember, leftRoom. simpl. by rewrite JsFacts.map_get_delete_eq. Qed.

Lemma isMember_joinedRoom (u : UserId) (name : string) (room : Room) :
  isMember u (joinedRoom u name room) = true.
Proof. unfold isMember, joinedRoom. simpl. by rewrite JsFacts.map_get_set_eq. Qed.

(** [createRoom] returns as soon as one of its attempts is a code not in
    the table: the [i]-th attempt reads the draws from [draws st + 6 * i]. *)
Lemma freshCode_returns (fuel : nat) (table : gmap string nat) (c0 : string) (pos i : nat) :
  (i <= fuel)%nat ->
  table !! (match i with O => c0 | S j => generateRoomCode random (pos + 6 * j) end) = None ->
  is_Some (freshCode random fuel table c0 pos).
Proof.
  revert c0 pos i. induction fuel as [|fuel IH]; intros c0 pos i Hi Hfree; simpl.
  - assert (i = 0)%nat as -> by lia. by rewrite Hfree.
  - destruct (table !! c0) eqn:E; [|eauto]. destruct i as [|i]; [congruence|].
    apply (IH _ _ i); [lia|]. destruct i as [|i].
    + by replace (pos + 6 * 0)%nat with pos in Hfree by lia.
    + by replace (pos + 6 * S i)%nat with (pos + 6 + 6 * i)%nat in Hfree by lia.
Qed.

(** X4. The loop of [createRoom] ends as soon as a code it generates is not in
    the room table: if the code of the [i]-th attempt is unused and the loop
    is given at least [i] further attempts, [createRoom] creates the room. *)
Lemma createRoom_returns (fuel : nat) (u : UserId) (name : string) (st : State) (i : nat) :
  (i <= fuel)%nat ->
  rooms st !! generateRoomCode random (draws st + 6 * i) = None ->
  is_Some (createRoom random fuel u name st).
Proof.
  intros Hi Hfree. unfold createRoom.
  destruct (freshCode_returns fuel (rooms st) (generateRoomCode random (draws st))
              (draws st + 6) i Hi) as [[c pos] ->]; [|done].
  destruct i as [|i]; [by replace (draws st + 6 * 0)%nat with (draws st) in Hfree by lia|].
  by replace (draws st + 6 * S i)%nat with (draws st + 6 + 6 * i)%nat in Hfree by lia.
Qed.

(** *** The properties of the design document *)

(** C5. Every room code returned by [createRoom] is exactly six
    characters long, each an uppercase letter or a digit of the alphabet
    without the confusable [0], [O], [1] and [I]; the code is not the
    code of a room live at that moment, and in every reachable state two
    distinct live rooms carry distinct codes. *)
Theorem room_codes_wellformed_and_unique (st : State) :
  (forall n, (0 <= random n)%Q /\ (random n < 1)%Q) ->
  reachable random toUpperCase st ->
  (forall r1 room1 r2 room2,
      live st r1 room1 -> live st r2 room2 -> r1 <> r2 -> code room1 <> code room2) /\
  (forall fuel u name st',
      createRoom random fuel u name st = Some st' ->
      exists (c : string) (r : nat) (room : Room),
        sent st' = (sent st ++ [(u, RoomCreated c [{| id := u; username := name |}])])%list /\
        String.length c = 6%nat /\
        Forall (fun a => unambiguous a = true /\ ~ In a confusable)
               (list_ascii_of_string c) /\
        rooms st !! c = None /\
        live st' r room /\ code room = c).
Proof.
  intros Hrange Hreach. pose proof (reachable_consistent st Hreach) as [Htab Hbound].
  split.
  - intros r1 room1 r2 room2 (k1 & Hk1 & Hs1) (k2 & Hk2 & Hs2) Hne Hcode.
    destruct (Htab _ _ Hk1) as (rm1 & Hrm1 & Hc1).
    destruct (Htab _ _ Hk2) as (rm2 & Hrm2 & Hc2).
    assert (k1 = k2) by congruence. subst k2. congruence.
  - intros fuel u name st' Hcreate.
    destruct (createRoom_cases _ _ _ _ _ Hcreate) as (c & pos & Hfresh & ->).
    destruct (generateRoomCode_shape Hrange (draws st)) as [Hlen Hall].
    destruct (freshCode_shape Hrange _ _ _ _ _ _ Hlen Hall Hfresh) as (Hnone & Hlen' & Hall').
    exists c, (nextRef st),
      {| code := c; users := [(u, {| m_username := name; m_userId := u |})] |}.
    simpl. repeat split; try done.
    + eapply Forall_impl; [exact Hall'|]. intros a Ha. split.
      * by apply (proj1 (List.Forall_forall _ _) chars_unambiguous).
      * by apply (proj1 (List.Forall_forall _ _) chars_not_confusable).
    + exists c. simpl. by rewrite !lookup_insert_eq.
Qed.

(** C8. A [join-room] whose code names no live room is answered with the
    error "Room not found" sent to the requesting socket alone, and the
    room table, the rooms and the sockets are left as they were. *)
Theorem joinRoom_unknown_code (u : UserId) (rc name : string) (st : State) :
  rooms st !! toUpperCase rc = None ->
  let st' := joinRoom toUpperCase u rc name st in
  sent st' = (sent st ++ [(u, Error "Room not found")])%list /\
  rooms st' = rooms st /\ store st' = store st /\ sockets st' = sockets st.
Proof. intros Hnone. unfold joinRoom. by rewrite Hnone. Qed.

(** The lists sent by the membership-changing handlers are read off the
    [users] map of the room object as it is when they are sent:
    [createRoom] answers with the list of the room just created;
    [leaveRoom], which is also what a disconnect runs, when it finds the
    room of the socket, sends every remaining entry the list of the room
    without the leaver; [joinRoom] sends the joiner and every other entry
    the list of the room with the joiner in it. Whether the entries of the
    map are the sockets in the room is another matter. *)
Lemma lists_sent_are_the_users_map (st : State) :
  reachable random toUpperCase st ->
  (forall fuel u name st',
      createRoom random fuel u name st = Some st' ->
      exists (c : string) (r : nat) (room : Room),
        live st' r room /\ code room = c /\ isMember u room = true /\
        sent st' = (sent st ++ [(u, RoomCreated c (userList room))])%list) /\
  (forall u,
      leaveRoom u st = st \/
      exists (rc : string) (r : nat) (room : Room),
        roomCode (socketOf u st) = Some rc /\ rooms st !! rc = Some r /\
        store (leaveRoom u st) !! r = Some room /\ isMember u room = false /\
        sent (leaveRoom u st) = (sent st ++ leftNotices u room)%list) /\
  (forall u,
      sent (disconnect u st) = sent (leaveRoom u st) /\
      store (disconnect u st) = store (leaveRoom u st)) /\
  (forall u rc name r,
      rooms st !! toUpperCase rc = Some r ->
      let st1 := if Js.truthy (roomCode (socketOf u st)) then leaveRoom u st else st in
      let st' := joinRoom toUpperCase u rc name st in
      exists room : Room,
        store st' !! r = Some room /\ isMember u room = true /\
        sent st' = (sent st1 ++ joinNotices u name (toUpperCase rc) room)%list).
Proof.
  intros Hreach. pose proof (reachable_consistent st Hreach) as Hcons.
  repeat split.
  - intros fuel u name st' Hcreate.
    destruct (createRoom_cases _ _ _ _ _ Hcreate) as (c & pos & _ & ->).
    exists c, (nextRef st),
      {| code := c; users := [(u, {| m_username := name; m_userId := u |})] |}.
    repeat split.
    + exists c. simpl. by rewrite !lookup_insert_eq.
    + unfold isMember. simpl. by rewrite String.eqb_refl.
  - intros u. destruct (leaveRoom_cases u st) as [-> | (rc & r & room & Hrc & Hr & _ & ->)];
      [by left | right].
    exists rc, r, (leftRoom u room). simpl. rewrite lookup_insert_eq.
    repeat split; try done. apply isMember_leftRoom.
  - intros u rc name r Hr st1 st'.
    assert (Hsome : is_Some (store st1 !! r)).
    { destruct Hcons as [Htab _]. destruct (Htab _ _ Hr) as (rm & Hrm & _).
      subst st1. destruct (Js.truthy _); [apply store_leaveRoom|]; eauto. }
    subst st'.
    destruct (joinRoom_cases u rc name st r Hr) as [[Hnone _] | (room & Hroom & ->)].
    { fold st1 in Hnone. rewrite Hnone in Hsome. by destruct Hsome. }
    exists (joinedRoom u name room). simpl. rewrite lookup_insert_eq.
    repeat split; try done. apply isMember_joinedRoom.
Qed.

(** [joinRoom] takes the socket out of the room it was in before it puts
    it into another one. *)
Lemma joinRoom_leaves_previous (u : UserId) (rc name : string) (st : State)
    (rc0 : string) (r0 r : nat) (room0 : Room) :
  roomCode (socketOf u st) = Some rc0 -> rc0 <> "" ->
  rooms st !! rc0 = Some r0 -> store st !! r0 = Some room0 ->
  rooms st !! toUpperCase rc = Some r -> r <> r0 ->
  exists room' : Room,
    store (joinRoom toUpperCase u rc name st) !! r0 = Some room' /\
    isMember u room' = false.
Proof.
  intros Hrc Hne Hr0 Hroom0 Hr Hdiff.
  pose proof (joinRoom_cases u rc name st r Hr) as Hj. cbv zeta in Hj.
  assert (Ht : Js.truthy (roomCode (socketOf u st)) = true).
  { rewrite Hrc. simpl. apply String.eqb_neq in Hne. by rewrite Hne. }
  rewrite Ht, (leaveRoom_in_room u st rc0 r0 room0) in Hj by done.
  exists (leftRoom u room0). split; [|apply isMember_leftRoom].
  destruct Hj as [[_ ->] | (room & _ & ->)]; simpl.
  - by rewrite lookup_insert_eq.
  - rewrite lookup_insert_ne by done. by rewrite lookup_insert_eq.
Qed.

(** The room joined stays in the table unless the socket was already in
    a room under that very code. *)
Lemma joinRoom_room_listed (u : UserId) (rc name : string) (st : State) (r : nat) :
  rooms st !! toUpperCase rc = Some r ->
  roomCode (socketOf u st) <> Some (toUpperCase rc) ->
  rooms (joinRoom toUpperCase u rc name st) !! toUpperCase rc = Some r.
Proof.
  intros Hr Hother.
  assert (H1 : rooms (if Js.truthy (roomCode (socketOf u st))
                      then leaveRoom u st else st) !! toUpperCase rc = Some r).
  { destruct (Js.truthy _); [|done].
    destruct (leaveRoom_cases u st) as [-> | (rc0 & r0 & room & Hrc & _ & _ & ->)]; [done|].
    simpl. destruct (Nat.eqb _ 0); [|done].
    rewrite lookup_delete_ne; [done | congruence]. }
  destruct (joinRoom_cases u rc name st r Hr) as [[_ ->] | (room & _ & ->)]; done.
Qed.

(** *** One room at a time, but for [createRoom] *)

Lemma reachableApart_reachable (st : State) :
  reachableApart random toUpperCase st -> reachable random toUpperCase st.
Proof.
  induction 1 as [|st u _ IH Hu|st u name fuel st' _ IH Hu _ Hc|st u rc name _ IH Hu
                  |st u _ IH Hu|st u _ IH Hu].
  - apply reach_initial.
  - by apply reach_connect.
  - by eapply reach_create.
  - by apply reach_join.
  - by apply reach_leave.
  - by apply reach_disconnect.
Qed.

Lemma socketOf_other (u u' : UserId) (s : Socket) (st : State) :
  u' <> u -> socketOf u' (setSocket u s st) = socketOf u' st.
Proof. intros Hne. unfold socketOf, setSocket. simpl. by rewrite lookup_insert_ne. Qed.

Lemma isMember_leftRoom_other (u u' : UserId) (room : Room) :
  isMember u' (leftRoom u room) = true -> u' <> u /\ isMember u' room = true.
Proof.
  unfold isMember, leftRoom. simpl. intros H.
  destruct (decide (u' = u)) as [->|Hne].
  - by rewrite JsFacts.map_get_delete_eq in H.
  - split; [done|]. by rewrite JsFacts.map_get_delete_ne in H.
Qed.

Lemma isMember_joinedRoom_other (u u' : UserId) (name : string) (room : Room) :
  u' <> u -> isMember u' (joinedRoom u name room) = isMember u' room.
Proof.
  intros Hne. unfold isMember, joinedRoom. simpl. by rewrite JsFacts.map_get_set_ne.
Qed.

(** A listed reference is listed under one code only. *)
Lemma listed_once (st : State) (k k' : string) (r : nat) :
  consistent st -> rooms st !! k = Some r -> rooms st !! k' = Some r -> k = k'.
Proof.
  intros [Htab _] H1 H2.
  destruct (Htab _ _ H1) as (rm1 & Hrm1 & Hc1).
  destruct (Htab _ _ H2) as (rm2 & Hrm2 & Hc2). congruence.
Qed.

(** After [leaveRoom] the socket is in no listed room. *)
Lemma housed_leaveRoom (u : UserId) (st : State) :
  consistent st -> housed st ->
  housed (leaveRoom u st) /\
  forall k r room, rooms (leaveRoom u st) !! k = Some r ->
                   store (leaveRoom u st) !! r = Some room -> isMember u room = false.
Proof.
  intros Hcons [Hm Hk].
  assert (Hout : forall st0, st0 = st ->
            (forall k, roomCode (socketOf u st) = Some k -> rooms st !! k = None \/ k = "") ->
            housed st0 /\
            forall k r room, rooms st0 !! k = Some r -> store st0 !! r = Some room ->
                             isMember u room = false).
  { intros st0 -> Hno. split; [by split|]. intros k r room Hr Hroom.
    destruct (isMember u room) eqn:E; [|done].
    pose proof (Hm _ _ _ _ Hr Hroom E) as Hrc.
    destruct (Hno _ Hrc) as [Hnone| ->]; [congruence | by destruct (Hk r)]. }
  destruct (roomCode (socketOf u st)) as [rc|] eqn:Hrc.
  2: { apply Hout; [unfold leaveRoom; by rewrite Hrc | done]. }
  destruct (decide (rc = "")) as [->|Hne].
  { apply Hout; [unfold leaveRoom; by rewrite Hrc|]. intros k [= <-]. by right. }
  destruct (rooms st !! rc) as [r|] eqn:Hr.
  2: { apply Hout.
       - unfold leaveRoom. rewrite Hrc. simpl. apply String.eqb_neq in Hne. by rewrite Hne, Hr.
       - intros k [= <-]. by left. }
  destruct Hcons as [Htab Hbound]. destruct (Htab _ _ Hr) as (room & Hroom & Hcode).
  rewrite (leaveRoom_in_room u st rc r room Hrc Hne Hr Hroom). unfold afterLeave.
  assert (Hlisted : forall k r',
            (if Nat.eqb (length (users (leftRoom u room))) 0
             then delete rc (rooms st) else rooms st) !! k = Some r' ->
            rooms st !! k = Some r').
  { intros k r'. destruct (Nat.eqb _ 0); [|done]. rewrite lookup_delete_Some. tauto. }
  assert (Hmem : forall k r' room' u',
            rooms st !! k = Some r' ->
            <[r := leftRoom u room]> (store st) !! r' = Some room' ->
            isMember u' room' = true ->
            u' <> u /\ roomCode (socketOf u' st) = Some k).
  { intros k r' room' u' Hr' Hroom' Hin. destruct (decide (r' = r)) as [->|Hdiff].
    - rewrite lookup_insert_eq in Hroom'. injection Hroom' as <-.
      apply isMember_leftRoom_other in Hin as [Hne' Hin]. split; [done|].
      by apply (Hm k r room).
    - rewrite lookup_insert_ne in Hroom' by done.
      pose proof (Hm _ _ _ _ Hr' Hroom' Hin) as Hrc'. split; [|done].
      intros ->. rewrite Hrc in Hrc'. injection Hrc' as <-. congruence. }
  split; [split|]; simpl.
  - intros k r' room' u' Hr' Hroom' Hin. apply Hlisted in Hr'.
    destruct (Hmem _ _ _ _ Hr' Hroom' Hin) as [Hne' Hrc'].
    unfold socketOf in *. simpl. by rewrite lookup_insert_ne.
  - intros r' Hr'. apply Hlisted in Hr'. by apply (Hk r').
  - intros k r' room' Hr' Hroom'. apply Hlisted in Hr'.
    destruct (isMember u room') eqn:E; [|done].
    by destruct (Hmem _ _ _ _ Hr' Hroom' E) as [Hne' _].
Qed.

Section Ranged.
Hypothesis random_range : forall n, (0 <= random n)%Q /\ (random n < 1)%Q.

Lemma housed_createRoom (fuel : nat) (u : UserId) (name : string) (st st' : State) :
  consistent st -> housed st -> roomCode (socketOf u st) = None ->
  createRoom random fuel u name st = Some st' -> housed st'.
Proof.
  intros [Htab Hbound] [Hm Hk] Hfree Hcreate.
  destruct (createRoom_cases _ _ _ _ _ Hcreate) as (c & pos & Hfresh & ->).
  destruct (generateRoomCode_shape random_range (draws st)) as [Hlen Hall].
  destruct (freshCode_shape random_range _ _ _ _ _ _ Hlen Hall Hfresh) as (Hnone & Hlen' & _).
  split; simpl.
  - intros k r room u' Hr Hroom Hin. destruct (decide (k = c)) as [->|Hne].
    + rewrite lookup_insert_eq in Hr. injection Hr as <-.
      rewrite lookup_insert_eq in Hroom. injection Hroom as <-.
      unfold isMember in Hin. simpl in Hin.
      destruct (String.eqb u' u) eqn:E; [|done]. apply String.eqb_eq in E. subst u'.
      unfold socketOf. simpl. by rewrite lookup_insert_eq.
    + rewrite lookup_insert_ne in Hr by done.
      destruct (Htab _ _ Hr) as (room0 & Hroom0 & _).
      assert (Hlt : r < nextRef st) by by eapply Hbound.
      rewrite lookup_insert_ne in Hroom by lia.
      pose proof (Hm _ _ _ _ Hr Hroom Hin) as Hrc.
      assert (u' <> u) by (intros ->; congruence).
      unfold socketOf in *. simpl. by rewrite lookup_insert_ne.
  - intros r Hr. destruct (decide (c = "")) as [->|Hne]; [done|].
    rewrite lookup_insert_ne in Hr by done. by apply (Hk r).
Qed.
End Ranged.

Lemma housed_joinRoom (u : UserId) (rc name : string) (st : State) :
  consistent st -> housed st -> housed (joinRoom toUpperCase u rc name st).
Proof.
  intros Hcons Hh.
  destruct (rooms st !! toUpperCase rc) as [r|] eqn:Hr.
  2: { unfold joinRoom. rewrite Hr. destruct Hh. by split. }
  pose proof (joinRoom_cases u rc name st r Hr) as Hj. cbv zeta in Hj.
  set (st1 := if Js.truthy (roomCode (socketOf u st)) then leaveRoom u st else st) in *.
  assert (H1 : consistent st1 /\ housed st1 /\
               (forall k r' room, rooms st1 !! k = Some r' -> store st1 !! r' = Some room ->
                                  isMember u room = false) /\
               (forall k, rooms st1 !! k = Some r -> k = toUpperCase rc)).
  { assert (Hkeep : forall k, rooms (leaveRoom u st) !! k = Some r -> rooms st !! k = Some r).
    { intros k. destruct (leaveRoom_cases u st) as [-> | (rc0 & r0 & room & _ & _ & _ & ->)];
        [done|]. simpl. destruct (Nat.eqb _ 0); [|done]. rewrite lookup_delete_Some. tauto. }
    unfold st1. destruct (Js.truthy (roomCode (socketOf u st))) eqn:Ht.
    - destruct (housed_leaveRoom u st Hcons Hh) as [Hh' Hout].
      split; [by apply consistent_leaveRoom|]. split; [done|]. split; [done|].
      intros k Hk. apply Hkeep in Hk. by eapply listed_once.
    - split; [done|]. split; [done|]. split.
      + intros k r' room Hr' Hroom. destruct (isMember u room) eqn:E; [|done].
        destruct Hh as [Hm Hk]. pose proof (Hm _ _ _ _ Hr' Hroom E) as Hrc.
        rewrite Hrc in Ht. simpl in Ht. destruct (String.eqb_spec k ""); [|done].
        subst k. by destruct (Hk r').
      + intros k Hk. by eapply listed_once. }
  destruct H1 as (Hcons1 & [Hm1 Hk1] & Hout1 & Hkey1).
  destruct Hj as [[_ ->] | (room & Hroom & ->)]; [by split|].
  split; simpl; [|done].
  intros k r' room' u' Hr' Hroom' Hin. destruct (decide (r' = r)) as [->|Hdiff].
  - rewrite lookup_insert_eq in Hroom'. injection Hroom' as <-.
    rewrite (Hkey1 _ Hr'). destruct (decide (u' = u)) as [->|Hne].
    + unfold socketOf. simpl. by rewrite lookup_insert_eq.
    + rewrite isMember_joinedRoom_other in Hin by done.
      pose proof (Hm1 _ _ _ _ Hr' Hroom Hin) as Hrc. rewrite (Hkey1 _ Hr') in Hrc.
      unfold socketOf in *. simpl. by rewrite lookup_insert_ne.
  - rewrite lookup_insert_ne in Hroom' by done.
    assert (u' <> u).
    { intros ->. by rewrite (Hout1 _ _ _ Hr' Hroom') in Hin. }
    pose proof (Hm1 _ _ _ _ Hr' Hroom' Hin) as Hrc.
    unfold socketOf in *. simpl. by rewrite lookup_insert_ne.
Qed.

Lemma housed_initial : housed initial.
Proof. split; simpl; intros *; by rewrite lookup_empty. Qed.

Lemma reachableApart_housed (st : State) :
  (forall n, (0 <= random n)%Q /\ (random n < 1)%Q) ->
  reachableApart random toUpperCase st -> housed st.
Proof.
  intros Hrange. induction 1 as [|st u Hreach IH Hu|st u name fuel st' Hreach IH Hu Hfree Hc
                                 |st u rc name Hreach IH Hu|st u Hreach IH Hu|st u Hreach IH Hu].
  - apply housed_initial.
  - destruct IH as [Hm Hk]. split; simpl; [|done].
    intros k r room u' Hr Hroom Hin. pose proof (Hm _ _ _ _ Hr Hroom Hin) as Hrc.
    assert (u' <> u).
    { intros ->. unfold socketOf in Hrc. by rewrite Hu in Hrc. }
    unfold socketOf in *. simpl. by rewrite lookup_insert_ne.
  - eapply housed_createRoom; eauto.
    by apply reachable_consistent, reachableApart_reachable.
  - apply housed_joinRoom; [|done]. by apply reachable_consistent, reachableApart_reachable.
  - apply housed_leaveRoom; [|done]. by apply reachable_consistent, reachableApart_reachable.
  - destruct (housed_leaveRoom u st) as [[Hm Hk] Hout]; [|done|].
    { by apply reachable_consistent, reachableApart_reachable. }
    split; simpl; [|done].
    intros k r room u' Hr Hroom Hin. pose proof (Hm _ _ _ _ Hr Hroom Hin) as Hrc.
    assert (u' <> u).
    { intros ->. by rewrite (Hout _ _ _ Hr Hroom) in Hin. }
    unfold socketOf in *. simpl. by rewrite lookup_delete_ne.
Qed.

(** X1. As long as [create-room] only comes from sockets that are in no room,
    a socket is a member of at most one live room, the one under the code
    its [roomCode] holds: [joinRoom], [leaveRoom] and the [close] handler
    keep the two in step. *)
Lemma one_room_but_for_createRoom (st : State) (u : UserId)
    (r1 r2 : nat) (room1 room2 : Room) :
  (forall n, (0 <= random n)%Q /\ (random n < 1)%Q) ->
  reachableApart random toUpperCase st ->
  live st r1 room1 -> live st r2 room2 ->
  isMember u room1 = true -> isMember u room2 = true ->
  r1 = r2 /\ roomCode (socketOf u st) = Some (code room1).
Proof.
  intros Hrange Hreach (k1 & Hk1 & Hs1) (k2 & Hk2 & Hs2) Hin1 Hin2.
  destruct (reachableApart_housed st Hrange Hreach) as [Hm _].
  pose proof (Hm _ _ _ _ Hk1 Hs1 Hin1) as Hrc1.
  pose proof (Hm _ _ _ _ Hk2 Hs2 Hin2) as Hrc2.
  assert (k1 = k2) by congruence. subst k2.
  split; [congruence|].
  destruct (reachable_consistent st (reachableApart_reachable st Hreach)) as [Htab _].
  destruct (Htab _ _ Hk1) as (rm & Hrm & Hcode). congruence.
Qed.

End Facts.

(** *** Concrete runs *)

Lemma rnd_range : forall n, (0 <= rnd n)%Q /\ (rnd n < 1)%Q.
Proof. intros n. unfold rnd. by destruct (n <? 6)%nat. Qed.

Lemma oneRoom_reachable : reachable rnd upper oneRoom.
Proof.
  apply (reach_create rnd upper (connect "a" initial) "a" "Ann" 0).
  - apply reach_connect; [apply reach_initial | done].
  - by eexists.
  - by vm_compute.
Qed.

(** C7. Counter to the invariant that an endpoint is in at most one room:
    [createRoom] does not take the socket out of the room it is in, so a
    socket that creates a room twice is a member of both live rooms. *)
Theorem createRoom_keeps_previous_membership :
  exists (st : State) (roomA roomB : Room),
    createRoom rnd 0 "a" "Ann" oneRoom = Some st /\
    reachable rnd upper st /\
    live st 0 roomA /\ live st 1 roomB /\
    isMember "a" roomA = true /\ isMember "a" roomB = true.
Proof.
  destruct (createRoom rnd 0 "a" "Ann" oneRoom) as [st|] eqn:E; [|by vm_compute in E].
  exists st, {| code := "AAAAAA"; users := [("a", {| m_username := "Ann"; m_userId := "a" |})] |},
    {| code := "BBBBBB"; users := [("a", {| m_username := "Ann"; m_userId := "a" |})] |}.
  split; [done|]. split.
  { eapply reach_create; [apply oneRoom_reachable | | exact E]. by eexists. }
  vm_compute in E. injection E as <-.
  repeat split; try (by exists "AAAAAA"); by exists "BBBBBB".
Qed.

Lemma room_codes_wellformed_and_unique_witness :
  (forall n, (0 <= rnd n)%Q /\ (rnd n < 1)%Q) /\
  reachable rnd upper oneRoom /\
  (forall fuel u name st',
      createRoom rnd fuel u name oneRoom = Some st' ->
      exists (c : string) (r : nat) (room : Room),
        sent st' = (sent oneRoom ++ [(u, RoomCreated c [{| id := u; username := name |}])])%list /\
        String.length c = 6%nat /\
        Forall (fun a => unambiguous a = true /\ ~ In a confusable)
               (list_ascii_of_string c) /\
        rooms oneRoom !! c = None /\
        live st' r room /\ code room = c).
Proof.
  split; [apply rnd_range|]. split; [apply oneRoom_reachable|].
  apply (room_codes_wellformed_and_unique rnd upper oneRoom rnd_range oneRoom_reachable).
Defined.

Lemma joinRoom_unknown_code_witness :
  rooms oneRoom !! upper "QQQQQQ" = None /\
  sent (joinRoom upper "b" "QQQQQQ" "Bob" oneRoom)
  = (sent oneRoom ++ [("b", Error "Room not found")])%list /\
  rooms (joinRoom upper "b" "QQQQQQ" "Bob" oneRoom) = rooms oneRoom /\
  store (joinRoom upper "b" "QQQQQQ" "Bob" oneRoom) = store oneRoom /\
  sockets (joinRoom upper "b" "QQQQQQ" "Bob" oneRoom) = sockets oneRoom.
Proof.
  split; [reflexivity|].
  apply (joinRoom_unknown_code upper "b" "QQQQQQ" "Bob" oneRoom). reflexivity.
Defined.

Lemma lists_sent_are_the_users_map_witness :
  reachable rnd upper oneRoom /\
  (rooms oneRoom !! upper "AAAAAA" = Some 0%nat ->
   exists room : Room,
     store (joinRoom upper "b" "AAAAAA" "Bob" oneRoom) !! 0%nat = Some room /\
     isMember "b" room = true /\
     sent (joinRoom upper "b" "AAAAAA" "Bob" oneRoom)
     = (sent (if Js.truthy (roomCode (socketOf "b" oneRoom))
              then leaveRoom "b" oneRoom else oneRoom)
        ++ joinNotices "b" "Bob" (upper "AAAAAA") room)%list).
Proof.
  split; [apply oneRoom_reachable|].
  apply (lists_sent_are_the_users_map rnd upper oneRoom oneRoom_reachable).
Defined.

(** The slip of [joinRoom]: the room is looked up before the socket leaves
    its present room. A socket that joins the room whose only member it is
    empties and unlists that room, and is then put into the unlisted room
    and told it joined: the code it was sent names no live room. *)
Lemma rejoin_own_room_unlists_it :
  let st := joinRoom upper "a" "AAAAAA" "Ann" oneRoom in
  rooms oneRoom !! "AAAAAA" = Some 0%nat /\
  rooms st !! "AAAAAA" = None /\
  roomCode (socketOf "a" st) = Some "AAAAAA" /\
  last (sent st) = Some ("a", RoomJoined "AAAAAA" [{| id := "a"; username := "Ann" |}]).
Proof. by vm_compute. Qed.

Section Relaying.
Variable random : nat -> Q.
Variable toUpperCase : string -> string.

(** *** Rooms in the store *)

Lemma indexed_leftRoom (u : UserId) (room : Room) : indexed room -> indexed (leftRoom u room).
Proof.
  intros [Hnd Hall]. split; simpl.
  - by apply JsFacts.NoDup_map_delete.
  - clear Hnd. induction Hall as [|[k m] l Hx Hl IH]; simpl; [constructor|].
    destruct (String.eqb u k); [done|]. by constructor.
Qed.

Lemma indexed_joinedRoom (u : UserId) (name : string) (room : Room) :
  indexed room -> indexed (joinedRoom u name room).
Proof.
  intros [Hnd Hall]. split; simpl.
  - by apply JsFacts.NoDup_map_set.
  - by apply JsFacts.Forall_set.
Qed.

Lemma reachable_indexed (st : State) :
  reachable random toUpperCase st ->
  forall r room, store st !! r = Some room -> indexed room.
Proof.
  assert (Hleave : forall s u,
            (forall r room, store s !! r = Some room -> indexed room) ->
            forall r room, store (leaveRoom u s) !! r = Some room -> indexed room).
  { intros s u IH r room.
    destruct (leaveRoom_cases u s) as [-> | (rc & r0 & room0 & _ & _ & Hroom0 & ->)]; [apply IH|].
    simpl. destruct (decide (r = r0)) as [->|Hne].
    - rewrite lookup_insert_eq. intros [= <-]. apply indexed_leftRoom. by eapply IH.
    - rewrite lookup_insert_ne by done. apply IH. }
  induction 1 as [|st u _ IH _|st u name fuel st' _ IH _ Hc|st u rc name _ IH _
                  |st u _ IH _|st u _ IH _]; intros r room.
  - simpl. by rewrite lookup_empty.
  - simpl. apply IH.
  - destruct (createRoom_cases _ _ _ _ _ _ Hc) as (c & pos & _ & ->). simpl.
    destruct (decide (r = nextRef st)) as [->|Hne].
    + rewrite lookup_insert_eq. intros [= <-]. split; simpl.
      * repeat constructor. simpl. tauto.
      * by repeat constructor.
    + rewrite lookup_insert_ne by done. apply IH.
  - destruct (rooms st !! toUpperCase rc) as [r0|] eqn:Hr0.
    2: { unfold joinRoom. rewrite Hr0. simpl. apply IH. }
    pose proof (joinRoom_cases toUpperCase u rc name st r0 Hr0) as Hj. cbv zeta in Hj.
    assert (H1 : forall r room,
              store (if Js.truthy (roomCode (socketOf u st)) then leaveRoom u st else st) !! r
              = Some room -> indexed room).
    { destruct (Js.truthy _); [by apply Hleave | done]. }
    destruct Hj as [[_ ->] | (room0 & Hroom0 & ->)]; [apply H1|]. simpl.
    destruct (decide (r = r0)) as [->|Hne].
    + rewrite lookup_insert_eq. intros [= <-]. apply indexed_joinedRoom. by eapply H1.
    + rewrite lookup_insert_ne by done. apply H1.
  - by apply Hleave.
  - simpl. by apply Hleave.
Qed.

(** *** No empty room is listed *)

Lemma listed_leaveRoom (u : UserId) (st : State) :
  consistent st ->
  (forall k r room, rooms st !! k = Some r -> store st !! r = Some room -> users room <> []) ->
  forall k r room, rooms (leaveRoom u st) !! k = Some r ->
                   store (leaveRoom u st) !! r = Some room -> users room <> [].
Proof.
  intros Hcons IH k r room.
  destruct (leaveRoom_cases u st) as [-> | (rc & r0 & room0 & _ & Hr0 & Hroom0 & ->)]; [apply IH|].
  simpl. intros Hk Hroom.
  assert (Hold : rooms st !! k = Some r /\
                 (k = rc -> length (users (leftRoom u room0)) <> 0%nat)).
  { destruct (Nat.eqb _ 0) eqn:E.
    - apply lookup_delete_Some in Hk as [Hne Hk]. split; [done|]. congruence.
    - split; [done|]. intros _. by apply Nat.eqb_neq in E. }
  destruct Hold as [Hk' Hlen]. destruct (decide (r = r0)) as [->|Hne].
  - rewrite lookup_insert_eq in Hroom. injection Hroom as <-.
    assert (k = rc) by (by eapply (listed_once st k rc r0)). subst k.
    intros Hnil. apply Hlen; [done|]. by rewrite Hnil.
  - rewrite lookup_insert_ne in Hroom by done. by eapply IH.
Qed.

Lemma map_set_nonempty {V} (k : string) (v : V) (m : list (string * V)) :
  Js.map_set k v m <> [].
Proof. destruct m as [|[k' v'] m]; simpl; [done|]. by destruct (String.eqb k k'). Qed.

(** X2. The room table never lists an empty room: a room is listed with its
    creator in it, and [leaveRoom], which the [close] handler runs as
    well, takes a room off the table when its last member goes. *)
Theorem no_empty_room_is_listed (st : State) (k : string) (r : nat) (room : Room) :
  reachable random toUpperCase st ->
  rooms st !! k = Some r -> store st !! r = Some room ->
  users room <> [].
Proof.
  intros Hreach. revert k r room.
  induction Hreach as [|st u Hreach IH _|st u name fuel st' Hreach IH _ Hc
                       |st u rc name Hreach IH _|st u Hreach IH _|st u Hreach IH _];
    intros k r room.
  - simpl. by rewrite lookup_empty.
  - simpl. apply IH.
  - pose proof (reachable_consistent random toUpperCase st Hreach) as [Htab Hbound].
    destruct (createRoom_cases _ _ _ _ _ _ Hc) as (c & pos & _ & ->). simpl.
    destruct (decide (k = c)) as [->|Hne].
    + rewrite lookup_insert_eq. intros [= <-]. rewrite lookup_insert_eq. by intros [= <-].
    + rewrite lookup_insert_ne by done. intros Hk.
      destruct (Htab _ _ Hk) as (rm & Hrm & _). apply Hbound in Hrm.
      rewrite lookup_insert_ne by lia. by apply (IH k).
  - pose proof (reachable_consistent random toUpperCase st Hreach) as Hcons.
    destruct (rooms st !! toUpperCase rc) as [r0|] eqn:Hr0.
    2: { unfold joinRoom. rewrite Hr0. simpl. apply IH. }
    pose proof (joinRoom_cases toUpperCase u rc name st r0 Hr0) as Hj. cbv zeta in Hj.
    assert (H1 : forall k r room,
              rooms (if Js.truthy (roomCode (socketOf u st)) then leaveRoom u st else st) !! k
              = Some r ->
              store (if Js.truthy (roomCode (socketOf u st)) then leaveRoom u st else st) !! r
              = Some room -> users room <> []).
    { destruct (Js.truthy _); [by apply listed_leaveRoom | done]. }
    destruct Hj as [[_ ->] | (room0 & Hroom0 & ->)]; [apply H1|]. simpl.
    intros Hk. destruct (decide (r = r0)) as [->|Hne].
    + rewrite lookup_insert_eq. intros [= <-]. simpl. apply map_set_nonempty.
    + rewrite lookup_insert_ne by done. by apply (H1 k).
  - apply listed_leaveRoom; [|done]. by apply (reachable_consistent random toUpperCase).
  - simpl. apply listed_leaveRoom; [|done]. by apply (reachable_consistent random toUpperCase).
Qed.

(** *** Relaying *)

Lemma roomOf_listed (u : UserId) (st : State) (room : Room) :
  roomOf u st = Some room ->
  exists rc r, roomCode (socketOf u st) = Some rc /\ rooms st !! rc = Some r /\
               store st !! r = Some room.
Proof.
  unfold roomOf. destruct (roomCode (socketOf u st)) as [rc|]; [|done].
  destruct (rooms st !! rc) as [r|] eqn:Hr; [|done]. intros Hroom. by exists rc, r.
Qed.

Lemma In_isMember (k : UserId) (m : Member) (room : Room) :
  In (k, m) (users room) -> isMember k room = true.
Proof.
  unfold isMember. induction (users room) as [|[k' m'] l IH]; simpl; [done|].
  intros [[= -> ->]|Hin]; [by rewrite String.eqb_refl|].
  destruct (String.eqb k k'); [done | by apply IH].
Qed.

Lemma targetOf_member (message : Obj) (room : Room) (m : Member) :
  indexed room -> targetOf message room = Some m -> isMember (m_userId m) room = true.
Proof.
  intros [_ Hall]. unfold targetOf.
  destruct (Js.map_get "targetId" message) as [[| | |t| |]|]; try done.
  intros Hget. apply JsFacts.map_get_In in Hget.
  pose proof (proj1 (List.Forall_forall _ _) Hall _ Hget) as Hid. simpl in Hid.
  rewrite Hid. by eapply In_isMember.
Qed.

Lemma recipient_member (st : State) (u v : UserId) (message obj : Obj) (room : Room) :
  indexed room -> roomOf u st = Some room ->
  In (v, obj) (relaySignaling u message st ++ broadcastToRoom u message st
               ++ relayToUser u message st) ->
  isMember v room = true.
Proof.
  intros Hix Hroom. unfold relaySignaling, broadcastToRoom, relayToUser. rewrite Hroom.
  rewrite !in_app_iff. intros [H|[H|H]].
  - destruct (targetOf message room) as [m|] eqn:Ht; [|done].
    destruct H as [[= <- _]|[]]. by eapply targetOf_member.
  - apply in_map_iff in H as (m & [= <- _] & Hin).
    apply filter_In in Hin as [Hin _]. unfold Js.map_values in Hin.
    apply in_map_iff in Hin as ([k m'] & Hsnd & Hin). simpl in Hsnd. subst m'.
    destruct Hix as [_ Hall].
    pose proof (proj1 (List.Forall_forall _ _) Hall _ Hin) as Hid. simpl in Hid.
    rewrite Hid. by eapply In_isMember.
  - destruct (targetOf message room) as [m|] eqn:Ht; [|done].
    destruct H as [[= <- _]|[]]. by eapply targetOf_member.
Qed.

(** X5. What the server relays stays in the room of the sender: as long
    as [create-room] only comes from sockets that are in no room, every
    recipient of a message passed on by [relaySignaling], [broadcastToRoom]
    or [relayToUser] is a connected socket whose [roomCode] is that of the
    sender. *)
Theorem relayed_messages_stay_in_the_room (st : State) (u v : UserId) (message obj : Obj) :
  (forall n, (0 <= random n)%Q /\ (random n < 1)%Q) ->
  reachableApart random toUpperCase st ->
  In (v, obj) (relaySignaling u message st ++ broadcastToRoom u message st
               ++ relayToUser u message st) ->
  is_Some (sockets st !! v) /\
  exists rc, roomCode (socketOf u st) = Some rc /\ roomCode (socketOf v st) = Some rc.
Proof.
  intros Hrange Hreach Hin.
  destruct (roomOf u st) as [room|] eqn:Hroom.
  2: { unfold relaySignaling, broadcastToRoom, relayToUser in Hin. by rewrite Hroom in Hin. }
  destruct (roomOf_listed _ _ _ Hroom) as (rc & r & Hrc & Hr & Hstore).
  assert (Hix : indexed room).
  { eapply (reachable_indexed st); [|exact Hstore].
    by apply reachableApart_reachable. }
  pose proof (recipient_member st u v message obj room Hix Hroom Hin) as Hmem.
  destruct (reachableApart_housed random toUpperCase st Hrange Hreach) as [Hm _].
  pose proof (Hm _ _ _ _ Hr Hstore Hmem) as Hv.
  split; [|by exists rc].
  unfold socketOf in Hv. destruct (sockets st !! v); [by eexists | discriminate Hv].
Qed.




Lemma map_get_notin {V} (k : string) (m : list (string * V)) :
  ~ In k (map fst m) -> Js.map_get k m = None.
Proof.
  induction m as [|[k' v'] m IH]; simpl; [done|]. intros H.
  destruct (String.eqb_spec k k') as [->|Hne]; [tauto|]. apply IH. tauto.
Qed.

Lemma addressedTo_members (u v : UserId) (x : Obj) (l : list (UserId * Member)) :
  List.NoDup (map fst l) -> Forall (fun e => m_userId e.2 = e.1) l ->
  addressedTo v (map (fun user => (m_userId user, x))
                     (List.filter (fun user => negb (String.eqb (m_userId user) u))
                                  (Js.map_values l)))
  = if match Js.map_get v l with Some _ => true | None => false end && negb (String.eqb v u)
    then [(v, x)] else [].
Proof.
  unfold addressedTo, Js.map_values.
  induction l as [|[k m] l IH]; intros Hnd Hall; [done|].
  inversion Hnd as [|? ? Hnotin Hnd']; subst.
  inversion Hall as [|? ? Hk Hall']; subst. simpl in Hk.
  specialize (IH Hnd' Hall'). cbn [map snd List.filter Js.map_get]. rewrite Hk.
  destruct (String.eqb_spec v k) as [->|Hne].
  - rewrite (map_get_notin k l Hnotin) in IH. simpl in IH.
    destruct (String.eqb k u); simpl; [done|]. by rewrite Hk, String.eqb_refl, IH.
  - destruct (negb (String.eqb k u)); simpl; [|done]. rewrite Hk.
    destruct (String.eqb_spec k v) as [->|_]; [done|]. done.
Qed.

(** X7. [broadcastToRoom] reaches every other member of the sender's room
    exactly once and nobody else: what it addresses to a socket is one
    copy of the message if the socket is a member of the room other than
    the sender, and nothing otherwise. *)
Theorem broadcast_reaches_every_other_member_once (st : State) (u v : UserId)
    (message : Obj) (room : Room) :
  reachable random toUpperCase st ->
  roomOf u st = Some room ->
  addressedTo v (broadcastToRoom u message st)
  = if isMember v room && negb (String.eqb v u)
    then [(v, withSender u (ws_username (socketOf u st)) message)] else [].
Proof.
  intros Hreach Hroom.
  destruct (roomOf_listed _ _ _ Hroom) as (rc & r & _ & _ & Hstore).
  destruct (reachable_indexed st Hreach r room Hstore) as [Hnd Hall].
  unfold broadcastToRoom. rewrite Hroom. unfold isMember.
  by apply addressedTo_members.
Qed.

(** *** The room that its only member joins again *)

Lemma unlisted_leaveRoom (k : string) (u : UserId) (st : State) :
  rooms st !! k = None -> rooms (leaveRoom u st) !! k = None.
Proof.
  intros Hk. destruct (leaveRoom_cases u st) as [-> | (rc & r & room & _ & _ & _ & ->)]; [done|].
  unfold afterLeave. simpl. destruct (Nat.eqb _ 0); [|done].
  apply lookup_delete_None. by right.
Qed.

Lemma unlisted_joinRoom (k : string) (u : UserId) (rc name : string) (st : State) :
  rooms st !! k = None -> rooms (joinRoom toUpperCase u rc name st) !! k = None.
Proof.
  intros Hk. destruct (rooms st !! toUpperCase rc) as [r|] eqn:Hr.
  - pose proof (joinRoom_cases toUpperCase u rc name st r Hr) as Hj. cbv zeta in Hj.
    assert (H1 : rooms (if Js.truthy (roomCode (socketOf u st)) then leaveRoom u st else st)
                 !! k = None).
    { destruct (Js.truthy _); [by apply unlisted_leaveRoom | done]. }
    destruct Hj as [[_ ->] | (room & _ & ->)]; done.
  - unfold joinRoom. by rewrite Hr.
Qed.

(** A code that is off the table stays off it until a [create-room] is
    given it. *)
Lemma unlisted_follows (k : string) (st0 st : State) :
  rooms st0 !! k = None -> follows random toUpperCase k st0 st -> rooms st !! k = None.
Proof.
  intros Hk. induction 1 as [|st u _ IH|st u name fuel st' _ IH Hc Hne|st u rc name _ IH
                            |st u _ IH|st u _ IH].
  - done.
  - done.
  - destruct (createRoom_cases random fuel u name st st' Hc) as (c & pos & _ & ->).
    simpl. rewrite lookup_insert_ne; [done|]. intros ->. apply Hne.
    unfold socketOf. simpl. by rewrite lookup_insert_eq.
  - by apply unlisted_joinRoom.
  - by apply unlisted_leaveRoom.
  - simpl. by apply unlisted_leaveRoom.
Qed.

(** X3. The slip of [joinRoom], which looks the room up before the socket
    leaves the room it is in: when the only member of a room joins that
    room again, the room is emptied and taken off the table, and the
    socket is then put into the unlisted room and told it joined. Its
    [roomCode] names no live room, and from then on, until a [create-room]
    is given that code again, whoever asks to join under it is told that
    the room is not found. *)
Theorem rejoining_alone_unlists_the_room (st : State) (u : UserId) (rc name : string)
    (r : nat) (room : Room) (m : Member) :
  roomCode (socketOf u st) = Some (toUpperCase rc) -> toUpperCase rc <> "" ->
  rooms st !! toUpperCase rc = Some r -> store st !! r = Some room ->
  users room = [(u, m)] ->
  let st' := joinRoom toUpperCase u rc name st in
  rooms st' !! toUpperCase rc = None /\
  roomCode (socketOf u st') = Some (toUpperCase rc) /\
  sent st' = (sent st ++ [(u, RoomJoined (toUpperCase rc) [{| id := u; username := name |}])])%list /\
  forall st'',
    follows random toUpperCase (toUpperCase rc) st' st'' ->
    forall v rc' name',
      toUpperCase rc' = toUpperCase rc ->
      sent (joinRoom toUpperCase v rc' name' st'')
      = (sent st'' ++ [(v, Error "Room not found")])%list.
Proof.
  intros Hrc Hne Hr Hroom Husers st'.
  pose proof (joinRoom_cases toUpperCase u rc name st r Hr) as Hj. cbv zeta in Hj.
  assert (Ht : Js.truthy (roomCode (socketOf u st)) = true).
  { rewrite Hrc. simpl. apply String.eqb_neq in Hne. by rewrite Hne. }
  rewrite Ht, (leaveRoom_in_room u st (toUpperCase rc) r room) in Hj by done.
  assert (Hleft : users (leftRoom u room) = []).
  { unfold leftRoom. simpl. rewrite Husers. simpl. by rewrite String.eqb_refl. }
  unfold afterLeave in Hj. rewrite Hleft in Hj. simpl in Hj.
  rewrite lookup_insert_eq in Hj.
  destruct Hj as [[Hnone _] | (room1 & [= <-] & Hst')]; [done|].
  fold st' in Hst'.
  assert (Hnone : rooms st' !! toUpperCase rc = None).
  { rewrite Hst'. simpl. apply lookup_delete_eq. }
  split; [done|]. split.
  { rewrite Hst'. unfold socketOf. simpl. by rewrite lookup_insert_eq. }
  split.
  { rewrite Hst'. simpl. unfold leftNotices, joinNotices, userList, joinedRoom.
    rewrite Hleft. simpl. rewrite String.eqb_refl. simpl. by rewrite app_nil_r. }
  intros st'' Hlater v rc' name' Hsame.
  pose proof (unlisted_follows _ _ _ Hnone Hlater) as Hnone'.
  unfold joinRoom at 1. by rewrite Hsame, Hnone'.
Qed.

End Relaying.

(** *** Concrete runs *)

Lemma oneRoom_reachableApart : reachableApart rnd upper oneRoom.
Proof.
  apply (apart_create rnd upper (connect "a" initial) "a" "Ann" 0).
  - apply apart_connect; [apply apart_initial | done].
  - by eexists.
  - done.
  - by vm_compute.
Qed.

Lemma twoInRoom_reachableApart : reachableApart rnd upper twoInRoom.
Proof.
  apply apart_join; [|by eexists].
  apply apart_connect; [apply oneRoom_reachableApart | done].
Qed.

Lemma twoInRoom_reachable : reachable rnd upper twoInRoom.
Proof. apply reachableApart_reachable, twoInRoom_reachableApart. Qed.

Lemma annElsewhere_created : createRoom rnd 0 "a" "Ann" twoInRoom = Some annElsewhere.
Proof. by vm_compute. Qed.

Lemma cyJoins_reachable : reachable rnd upper cyJoins.
Proof.
  apply reach_join; [|by eexists].
  apply reach_connect; [|done].
  apply reach_disconnect; [|by eexists].
  apply (reach_create rnd upper twoInRoom "a" "Ann" 0);
    [apply twoInRoom_reachable | by eexists | apply annElsewhere_created].
Qed.

(** C6. A member list that is not the membership of the room. Ann creates
    a room and Bob joins it; Ann creates a second room, which [createRoom]
    puts her into without taking her out of the first, and then closes her
    socket, which [leaveRoom] takes out of the second room only. Bob is
    told nothing of either: the last list he was sent names Ann. Cy
    connects and joins the first room and is sent a list of three members,
    the first of which is Ann, whose socket is closed. *)
Theorem member_list_names_a_closed_socket :
  createRoom rnd 0 "a" "Ann" twoInRoom = Some annElsewhere /\
  reachable rnd upper cyJoins /\
  roomCode (socketOf "a" annElsewhere) = Some "BBBBBB" /\
  toldTo "b" (sent annGone)
  = [Connected "b";
     RoomJoined "AAAAAA" [{| id := "a"; username := "Ann" |};
                          {| id := "b"; username := "Bob" |}]] /\
  sockets annGone !! "a" = None /\
  live annGone 0
    {| code := "AAAAAA";
       users := [("a", {| m_username := "Ann"; m_userId := "a" |});
                 ("b", {| m_username := "Bob"; m_userId := "b" |})] |} /\
  sockets cyJoins !! "a" = None /\
  toldTo "c" (sent cyJoins)
  = [Connected "c";
     RoomJoined "AAAAAA" [{| id := "a"; username := "Ann" |};
                          {| id := "b"; username := "Bob" |};
                          {| id := "c"; username := "Cy" |}]].
Proof.
  split; [apply annElsewhere_created|]. split; [apply cyJoins_reachable|].
  split; [reflexivity|]. split; [reflexivity|]. split; [reflexivity|].
  split; [by exists "AAAAAA"|]. split; reflexivity.
Qed.

Lemma one_room_but_for_createRoom_witness :
  (forall n, (0 <= rnd n)%Q /\ (rnd n < 1)%Q) /\
  reachableApart rnd upper twoInRoom /\
  live twoInRoom 0
    {| code := "AAAAAA";
       users := [("a", {| m_username := "Ann"; m_userId := "a" |});
                 ("b", {| m_username := "Bob"; m_userId := "b" |})] |} /\
  (0%nat = 0%nat /\ roomCode (socketOf "b" twoInRoom) = Some "AAAAAA").
Proof.
  assert (Hlive : live twoInRoom 0
            {| code := "AAAAAA";
               users := [("a", {| m_username := "Ann"; m_userId := "a" |});
                         ("b", {| m_username := "Bob"; m_userId := "b" |})] |})
    by (by exists "AAAAAA").
  split; [apply rnd_range|]. split; [apply twoInRoom_reachableApart|]. split; [exact Hlive|].
  exact (one_room_but_for_createRoom rnd upper twoInRoom "b" 0 0 _ _ rnd_range
           twoInRoom_reachableApart Hlive Hlive eq_refl eq_refl).
Defined.

Lemma no_empty_room_is_listed_witness :
  reachable rnd upper twoInRoom /\
  rooms twoInRoom !! "AAAAAA" = Some 0%nat /\
  [("a", {| m_username := "Ann"; m_userId := "a" |});
   ("b", {| m_username := "Bob"; m_userId := "b" |})] <> [].
Proof.
  assert (Hreach : reachable rnd upper twoInRoom)
    by apply reachableApart_reachable, twoInRoom_reachableApart.
  split; [exact Hreach|]. split; [reflexivity|].
  exact (no_empty_room_is_listed rnd upper twoInRoom "AAAAAA" 0
           {| code := "AAAAAA";
              users := [("a", {| m_username := "Ann"; m_userId := "a" |});
                        ("b", {| m_username := "Bob"; m_userId := "b" |})] |}
           Hreach eq_refl eq_refl).
Defined.

Lemma relayed_messages_stay_in_the_room_witness :
  In ("b", withSender "a" (Some "Ann") offer) (relaySignaling "a" offer twoInRoom) /\
  is_Some (sockets twoInRoom !! "b") /\
  exists rc, roomCode (socketOf "a" twoInRoom) = Some rc /\
             roomCode (socketOf "b" twoInRoom) = Some rc.
Proof.
  assert (Hin : In ("b", withSender "a" (Some "Ann") offer)
                   (relaySignaling "a" offer twoInRoom ++ broadcastToRoom "a" offer twoInRoom
                    ++ relayToUser "a" offer twoInRoom))
    by (by left).
  split; [by left|].
  exact (relayed_messages_stay_in_the_room rnd upper twoInRoom "a" "b" offer _ rnd_range
           twoInRoom_reachableApart Hin).
Defined.


Lemma broadcast_reaches_every_other_member_once_witness :
  roomOf "a" twoInRoom
  = Some {| code := "AAAAAA";
            users := [("a", {| m_username := "Ann"; m_userId := "a" |});
                      ("b", {| m_username := "Bob"; m_userId := "b" |})] |} /\
  addressedTo "b" (broadcastToRoom "a" offer twoInRoom)
  = [("b", withSender "a" (Some "Ann") offer)].
Proof.
  split; [reflexivity|].
  exact (broadcast_reaches_every_other_member_once rnd upper twoInRoom "a" "b" offer _
           (reachableApart_reachable rnd upper _ twoInRoom_reachableApart) eq_refl).
Defined.

Lemma rejoining_alone_unlists_the_room_witness :
  let st' := joinRoom upper "a" "AAAAAA" "Ann" oneRoom in
  rooms oneRoom !! upper "AAAAAA" = Some 0%nat /\
  roomCode (socketOf "a" oneRoom) = Some (upper "AAAAAA") /\
  rooms st' !! "AAAAAA" = None /\
  roomCode (socketOf "a" st') = Some "AAAAAA" /\
  follows rnd upper (upper "AAAAAA") st' (connect "b" st') /\
  sent (joinRoom upper "b" "AAAAAA" "Bob" (connect "b" st'))
  = (sent (connect "b" st') ++ [("b", Error "Room not found")])%list.
Proof.
  intros st'. split; [reflexivity|]. split; [reflexivity|].
  assert (Hlater : follows rnd upper (upper "AAAAAA") st' (connect "b" st'))
    by apply follows_connect, follows_refl.
  destruct (rejoining_alone_unlists_the_room rnd upper oneRoom "a" "AAAAAA" "Ann" 0
              {| code := "AAAAAA"; users := [("a", {| m_username := "Ann"; m_userId := "a" |})] |}
              {| m_username := "Ann"; m_userId := "a" |}
              eq_refl ltac:(discriminate) eq_refl eq_refl eq_refl)
    as (H1 & H2 & _ & H4).
  split; [exact H1|]. split; [exact H2|]. split; [exact Hlater|].
  exact (H4 (connect "b" st') Hlater "b" "AAAAAA" "Bob" eq_refl).
Defined.

Lemma firstRoom_draws : draws firstRoom = 6%nat /\ rooms firstRoom !! "AAAAAA" = Some 0%nat.
Proof. by vm_compute. Qed.

Lemma createRoom_returns_witness :
  (1 <= 1)%nat /\
  rooms firstRoom !! generateRoomCode rndTwice (draws firstRoom) = Some 0%nat /\
  rooms firstRoom !! generateRoomCode rndTwice (draws firstRoom + 6 * 1) = None /\
  is_Some (createRoom rndTwice 1 "b" "Bob" firstRoom).
Proof.
  split; [lia|]. split; [reflexivity|]. split; [reflexivity|].
  exact (createRoom_returns rndTwice 1 "b" "Bob" firstRoom 1 (le_n 1) eq_refl).
Defined.

End RelayFacts.

(** * Properties of the handshake coordinator *)

Module HandshakeFacts.
Import Handshake.

Lemma addIceCandidate_other p q c m :
  q <> p ->
  connections (addIceCandidate q c m) !! p = connections m !! p /\
  pendingCandidates (addIceCandidate q c m) = pendingCandidates m.
Proof.
  intros Hne. unfold addIceCandidate. destruct (connections m !! q); [|done].
  simpl. by rewrite lookup_insert_ne.
Qed.

Lemma drain_other p q cs m :
  q <> p ->
  connections (foldl (fun s c => addIceCandidate q c s) m cs) !! p = connections m !! p /\
  pendingCandidates (foldl (fun s c => addIceCandidate q c s) m cs) = pendingCandidates m.
Proof.
  intros Hne. revert m. induction cs as [|c cs IH]; intros m; simpl; [done|].
  destruct (IH (addIceCandidate q c m)) as [-> ->]. by apply addIceCandidate_other.
Qed.

Lemma drain_same p cs m pc :
  connections m !! p = Some pc ->
  connections (foldl (fun s c => addIceCandidate p c s) m cs) !! p
  = Some {| remoteDescription := remoteDescription pc; added := added pc ++ cs |} /\
  pendingCandidates (foldl (fun s c => addIceCandidate p c s) m cs) = pendingCandidates m.
Proof.
  revert m pc. induction cs as [|c cs IH]; intros m pc Hpc; simpl.
  - rewrite app_nil_r. by destruct pc.
  - edestruct (IH (addIceCandidate p c m)) as [-> ->].
    + unfold addIceCandidate. rewrite Hpc. simpl. apply lookup_insert_eq.
    + simpl. rewrite <- app_assoc. split; [done|].
      unfold addIceCandidate. by rewrite Hpc.
Qed.

Lemma drain_none p cs m :
  connections m !! p = None -> foldl (fun s c => addIceCandidate p c s) m cs = m.
Proof.
  intros Hnone. induction cs as [|c cs IH]; simpl; [done|].
  unfold addIceCandidate at 2. by rewrite Hnone.
Qed.

(** The drain: the whole buffer is applied, in order, and emptied. *)
Lemma onopen_drains p m pc :
  connections m !! p = Some pc ->
  connections (onopen p m) !! p
  = Some {| remoteDescription := remoteDescription pc;
            added := added pc ++ pendingFor p m |} /\
  pendingFor p (onopen p m) = [].
Proof.
  intros Hpc. unfold onopen, pendingFor. simpl.
  destruct (drain_same p (default [] (pendingCandidates m !! p)) m pc Hpc) as [-> _].
  by rewrite lookup_insert_eq.
Qed.

Lemma createPeerConnection_other p q m :
  q <> p ->
  connections (createPeerConnection q m) !! p = connections m !! p /\
  pendingFor p (createPeerConnection q m) = pendingFor p m.
Proof.
  intros Hne. unfold createPeerConnection, pendingFor.
  destruct (connections m !! q); [done|]. simpl. by rewrite !lookup_insert_ne.
Qed.

Lemma heard_cons p ev evs m acc :
  heard p (ev :: evs) m acc = heard p evs (handle ev m) (hears p ev m acc).
Proof. reflexivity. Qed.

Lemma accounted_same p m m' acc :
  connections m' !! p = connections m !! p -> pendingFor p m' = pendingFor p m ->
  accounted p m acc -> accounted p m' acc.
Proof. intros Hc Hp. unfold accounted. by rewrite Hc, Hp. Qed.

Lemma accounted_create p q m acc :
  accounted p m acc -> accounted p (createPeerConnection q m) acc.
Proof.
  intros Ha. destruct (decide (q = p)) as [->|Hne].
  - unfold createPeerConnection. destruct (connections m !! p) eqn:E; [done|].
    unfold accounted in *. rewrite E in Ha. subst acc. simpl.
    rewrite lookup_insert_eq. unfold pendingFor. simpl. by rewrite lookup_insert_eq.
  - destruct (createPeerConnection_other p q m Hne) as [Hc Hp].
    by eapply accounted_same.
Qed.

Lemma accounted_handle p ev m acc :
  accounted p m acc -> accounted p (handle ev m) (hears p ev m acc).
Proof.
  intros Ha. destruct ev as [q|q|q|q sdp|q c|q|q|q]; simpl.
  - unfold initiateConnection. apply (accounted_same p (createPeerConnection q m));
      [done | done | by apply accounted_create].
  - by apply accounted_create.
  - done.
  - unfold remoteDescriptionSet. destruct (connections m !! q) as [pc|] eqn:E; [|done].
    unfold accounted in *. simpl. unfold pendingFor. simpl.
    destruct (decide (q = p)) as [->|Hne].
    + rewrite lookup_insert_eq. by rewrite E in Ha.
    + by rewrite lookup_insert_ne.
  - unfold handleIceCandidate. destruct (decide (q = p)) as [->|Hne].
    + unfold accounted in *. destruct (connections m !! p) as [pc|] eqn:E; [|by rewrite E].
      destruct (remoteDescription pc) eqn:Hrd.
      * unfold addIceCandidate. rewrite E. simpl. rewrite lookup_insert_eq. simpl.
        unfold pendingFor in *. simpl. rewrite Ha.
        rewrite <- !app_assoc. apply Permutation_app_head, Permutation_app_comm.
      * simpl. rewrite E. unfold pendingFor in *. simpl. rewrite lookup_insert_eq. simpl.
        by rewrite Ha, app_assoc.
    + destruct (connections m !! q) as [pc|] eqn:E; [|done].
      destruct (remoteDescription pc).
      * destruct (addIceCandidate_other p q c m Hne) as [Hc Hp].
        eapply accounted_same; [exact Hc | by unfold pendingFor; rewrite Hp | done].
      * eapply accounted_same; [| |exact Ha]; [done|].
        unfold pendingFor. simpl. by rewrite lookup_insert_ne.
  - done.
  - destruct (decide (q = p)) as [->|Hne].
    + unfold accounted in *. destruct (connections m !! p) as [pc|] eqn:E.
      * destruct (onopen_drains p m pc E) as [-> ->]. simpl. by rewrite app_nil_r.
      * unfold onopen. rewrite drain_none by done. simpl. by rewrite E.
    + unfold onopen.
      destruct (drain_other p q (default [] (pendingCandidates m !! q)) m Hne) as [Hc Hp].
      eapply accounted_same; [| |exact Ha]; simpl; [done|].
      unfold pendingFor. simpl. by rewrite lookup_insert_ne, Hp.
  - unfold closeConnection, accounted in *. simpl. unfold pendingFor. simpl.
    destruct (decide (q = p)) as [->|Hne].
    + by rewrite lookup_delete_eq.
    + by rewrite !lookup_delete_ne.
Qed.

Lemma accounted_run p evs : forall m acc,
  accounted p m acc -> accounted p (run evs m) (heard p evs m acc).
Proof.
  induction evs as [|ev evs IH]; intros m acc Ha; [done|].
  rewrite heard_cons. simpl. apply IH. by apply accounted_handle.
Qed.

Lemma appliedLate_handle p ev m :
  admissible ev m -> appliedLate p m -> appliedLate p (handle ev m).
Proof.
  intros Hadm Hl. destruct ev as [q|q|q|q sdp|q c|q|q|q]; simpl.
  - intros pc. unfold initiateConnection, setupDataChannel, createPeerConnection. simpl.
    destruct (connections m !! q) eqn:E; [apply Hl|]. simpl.
    destruct (decide (q = p)) as [->|Hne].
    + rewrite lookup_insert_eq. by intros [= <-].
    + rewrite lookup_insert_ne by done. apply Hl.
  - intros pc. unfold handleOffer, createPeerConnection.
    destruct (connections m !! q) eqn:E; [apply Hl|]. simpl.
    destruct (decide (q = p)) as [->|Hne].
    + rewrite lookup_insert_eq. by intros [= <-].
    + rewrite lookup_insert_ne by done. apply Hl.
  - done.
  - intros pc. unfold remoteDescriptionSet.
    destruct (connections m !! q) eqn:E; [|apply Hl]. simpl.
    destruct (decide (q = p)) as [->|Hne].
    + rewrite lookup_insert_eq. intros [= <-]. simpl. eauto.
    + rewrite lookup_insert_ne by done. apply Hl.
  - intros pc. unfold handleIceCandidate.
    destruct (connections m !! q) as [pc0|] eqn:E; [|apply Hl].
    destruct (remoteDescription pc0) eqn:Hrd; [|apply Hl].
    unfold addIceCandidate. rewrite E. simpl.
    destruct (decide (q = p)) as [->|Hne].
    + rewrite lookup_insert_eq. intros [= <-]. simpl. rewrite Hrd. eauto.
    + rewrite lookup_insert_ne by done. apply Hl.
  - done.
  - intros pc. simpl in Hadm. destruct (decide (q = p)) as [->|Hne].
    + destruct (connections m !! p) as [pc0|] eqn:E.
      * destruct (onopen_drains p m pc0 E) as [-> _]. intros [= <-] _. simpl. by apply Hadm.
      * unfold onopen. rewrite drain_none by done. simpl. by rewrite E.
    + unfold onopen. simpl.
      destruct (drain_other p q (default [] (pendingCandidates m !! q)) m Hne) as [-> _].
      apply Hl.
  - intros pc. unfold closeConnection. simpl. destruct (decide (q = p)) as [->|Hne].
    + by rewrite lookup_delete_eq.
    + rewrite lookup_delete_ne by done. apply Hl.
Qed.

Lemma appliedLate_run p evs : forall m,
  admissibleRun evs m -> appliedLate p m -> appliedLate p (run evs m).
Proof.
  induction evs as [|ev evs IH]; intros m Hadm Hl; [done|].
  destruct Hadm as [Hev Hrest]. simpl. apply IH; [done|]. by apply appliedLate_handle.
Qed.

(** C4, as amended. For every sequence of events that the browser can
    produce: a candidate that arrives while no connection to its peer
    exists changes nothing; one that arrives while the connection does not
    know its remote description is appended to the buffer; one that arrives
    once it does is applied at once. A drain applies the whole buffer in
    arrival order and empties it. While a connection exists every candidate
    it has heard has been applied once or is buffered once, never both and
    never twice, and candidates are applied only to a connection that knows
    its remote description. Closing a connection discards its buffer. *)
Theorem candidates_applied_once_in_order (evs : list Event) (p : PeerId) :
  admissibleRun evs initial ->
  let m := run evs initial in
  (forall c,
      match connections m !! p with
      | None => handle (IceCandidate p c) m = m
      | Some pc =>
          match remoteDescription pc with
          | None =>
              connections (handle (IceCandidate p c) m) = connections m /\
              pendingFor p (handle (IceCandidate p c) m) = pendingFor p m ++ [c]
          | Some _ =>
              connections (handle (IceCandidate p c) m) !! p
              = Some {| remoteDescription := remoteDescription pc;
                        added := added pc ++ [c] |} /\
              pendingFor p (handle (IceCandidate p c) m) = pendingFor p m
          end
      end) /\
  (forall pc,
      connections m !! p = Some pc ->
      connections (handle (ChannelOpen p) m) !! p
      = Some {| remoteDescription := remoteDescription pc;
                added := added pc ++ pendingFor p m |} /\
      pendingFor p (handle (ChannelOpen p) m) = []) /\
  (forall pc,
      connections m !! p = Some pc ->
      heard p evs initial [] ≡ₚ added pc ++ pendingFor p m) /\
  (forall pc,
      connections m !! p = Some pc -> added pc <> [] -> is_Some (remoteDescription pc)) /\
  (connections (handle (CloseConnection p) m) !! p = None /\
   pendingFor p (handle (CloseConnection p) m) = []).
Proof.
  intros Hadm m. split; [|split; [|split; [|split]]].
  - intros c. simpl. unfold handleIceCandidate.
    destruct (connections m !! p) as [pc|] eqn:E; [|done].
    destruct (remoteDescription pc) eqn:Hrd.
    + unfold addIceCandidate, pendingFor. rewrite E. simpl. rewrite lookup_insert_eq.
      by rewrite Hrd.
    + unfold pendingFor. simpl. by rewrite lookup_insert_eq.
  - intros pc Hpc. simpl. by apply onopen_drains.
  - intros pc Hpc.
    pose proof (accounted_run p evs initial [] eq_refl) as Ha.
    unfold accounted in Ha. fold m in Ha. by rewrite Hpc in Ha.
  - apply (appliedLate_run p evs initial Hadm). intros pc. simpl. by rewrite lookup_empty.
  - unfold pendingFor. simpl. by rewrite !lookup_delete_eq.
Qed.

Lemma candidates_applied_once_in_order_witness :
  admissibleRun handshakeRun initial /\
  (forall pc,
      connections (run handshakeRun initial) !! "peer" = Some pc ->
      heard "peer" handshakeRun initial []
      ≡ₚ added pc ++ pendingFor "peer" (run handshakeRun initial)) /\
  (forall pc,
      connections (run handshakeRun initial) !! "peer" = Some pc ->
      added pc <> [] -> is_Some (remoteDescription pc)).
Proof.
  assert (Hadm : admissibleRun handshakeRun initial).
  { repeat split. intros pc Hpc. vm_compute in Hpc. injection Hpc as <-. by eexists. }
  split; [exact Hadm|].
  split; apply (candidates_applied_once_in_order handshakeRun "peer" Hadm).
Defined.

(** C4, as stated, fails on three counts. A candidate that arrives before
    any connection to its peer exists is not buffered; a buffered candidate
    is still in the buffer, not applied, right after the remote description
    has become known (the drain is in the [onopen] handler of the data
    channel); and closing the connection drops what is buffered. *)
Lemma buffered_candidates_not_applied_when_description_known :
  ~ (forall (evs : list Event) (p : PeerId) (c : Candidate),
        (forall pc, connections (run evs initial) !! p = Some pc ->
                    remoteDescription pc = None) ->
        In c (pendingFor p (handle (IceCandidate p c) (run evs initial)))) /\
  ~ (forall (evs : list Event) (p : PeerId) (sdp : Sdp),
        admissibleRun evs initial ->
        pendingFor p (handle (DescriptionSet p sdp) (run evs initial)) = []) /\
  ~ (forall (evs : list Event) (p : PeerId) (c : Candidate) (ev : Event),
        admissibleRun (evs ++ [ev]) initial ->
        In c (pendingFor p (run evs initial)) ->
        In c (pendingFor p (run (evs ++ [ev]) initial)) \/
        exists pc, connections (run (evs ++ [ev]) initial) !! p = Some pc /\
                   In c (added pc)).
Proof.
  split; [|split].
  - intros H. specialize (H [] "peer" "c1"). simpl in H. apply H.
    intros pc. by rewrite lookup_empty.
  - intros H. specialize (H [Offer "peer"; IceCandidate "peer" "c1"] "peer" "sdp").
    assert (Hadm : admissibleRun [Offer "peer"; IceCandidate "peer" "c1"] initial)
      by repeat split.
    specialize (H Hadm). by vm_compute in H.
  - intros H.
    specialize (H [Offer "peer"; IceCandidate "peer" "c1"] "peer" "c1"
                  (CloseConnection "peer")).
    destruct H as [H | (pc & H & _)].
    + by repeat split.
    + vm_compute. by left.
    + by vm_compute in H.
    + by vm_compute in H.
Qed.

Lemma drain_channels p cs : forall m,
  dataChannels (foldl (fun s c => addIceCandidate p c s) m cs) = dataChannels m.
Proof.
  induction cs as [|c cs IH]; intros m; simpl; [done|]. rewrite IH.
  unfold addIceCandidate. by destruct (connections m !! p).
Qed.

Lemma view_eq p m1 m2 :
  connections m1 !! p = connections m2 !! p ->
  (p ∈ dataChannels m1 <-> p ∈ dataChannels m2) ->
  pendingCandidates m1 !! p = pendingCandidates m2 !! p ->
  view p m1 = view p m2.
Proof. intros Hc Hd Hp. unfold view. rewrite Hc, Hp. f_equal. f_equal. by apply bool_decide_ext. Qed.

Lemma view_inv p m1 m2 :
  view p m1 = view p m2 ->
  connections m1 !! p = connections m2 !! p /\
  (p ∈ dataChannels m1 <-> p ∈ dataChannels m2) /\
  pendingCandidates m1 !! p = pendingCandidates m2 !! p.
Proof.
  unfold view. intros [= Hc Hd Hp]. repeat split; try done.
  - intros H. apply (bool_decide_eq_true_2 _) in H. rewrite Hd in H.
    by apply bool_decide_eq_true_1 in H.
  - intros H. apply (bool_decide_eq_true_2 _) in H. rewrite <- Hd in H.
    by apply bool_decide_eq_true_1 in H.
Qed.

(** An event about another peer changes nothing of what is held about
    [p]. *)
Lemma view_handle_other ev p m : peerOf ev <> p -> view p (handle ev m) = view p m.
Proof.
  intros Hne. destruct ev as [q|q|q|q sdp|q c|q|q|q]; simpl in Hne; simpl.
  - unfold initiateConnection, setupDataChannel, createPeerConnection.
    destruct (connections m !! q); simpl; apply view_eq; simpl;
      rewrite ?lookup_insert_ne by done; try done;
      rewrite elem_of_union, elem_of_singleton; intuition congruence.
  - unfold handleOffer, createPeerConnection.
    destruct (connections m !! q); [done|]. apply view_eq; simpl;
      rewrite ?lookup_insert_ne by done; done.
  - done.
  - unfold remoteDescriptionSet. destruct (connections m !! q); [|done].
    apply view_eq; simpl; rewrite ?lookup_insert_ne by done; done.
  - unfold handleIceCandidate, addIceCandidate. destruct (connections m !! q) as [pc|]; [|done].
    destruct (remoteDescription pc); apply view_eq; simpl;
      rewrite ?lookup_insert_ne by done; done.
  - unfold setupDataChannel. apply view_eq; simpl; [done | | done].
    rewrite elem_of_union, elem_of_singleton. intuition congruence.
  - unfold onopen. apply view_eq; simpl.
    + by destruct (drain_other p q (default [] (pendingCandidates m !! q)) m Hne) as [-> _].
    + by rewrite drain_channels.
    + rewrite lookup_insert_ne by done.
      by destruct (drain_other p q (default [] (pendingCandidates m !! q)) m Hne) as [_ ->].
  - unfold closeConnection. apply view_eq; simpl;
      rewrite ?lookup_delete_ne by done; try done.
    rewrite elem_of_difference, elem_of_singleton. intuition congruence.
Qed.

(** What an event about [p] leaves about [p] depends on nothing but what
    was held about [p]. *)
Lemma view_handle_same ev p m1 m2 :
  peerOf ev = p -> view p m1 = view p m2 -> view p (handle ev m1) = view p (handle ev m2).
Proof.
  intros <- H. apply view_inv in H as (Hc & Hd & Hp).
  destruct ev as [q|q|q|q sdp|q c|q|q|q]; simpl in *.
  - unfold initiateConnection, setupDataChannel, createPeerConnection. rewrite Hc.
    destruct (connections m2 !! q) eqn:E2; simpl; apply view_eq; simpl;
      rewrite ?lookup_insert_eq; try congruence;
      rewrite !elem_of_union, !elem_of_singleton; tauto.
  - unfold handleOffer, createPeerConnection. rewrite Hc.
    destruct (connections m2 !! q) eqn:E2; apply view_eq; simpl;
      rewrite ?lookup_insert_eq; congruence || done.
  - by apply view_eq.
  - unfold remoteDescriptionSet. rewrite Hc.
    destruct (connections m2 !! q) eqn:E2; apply view_eq; simpl;
      rewrite ?lookup_insert_eq; congruence || done.
  - unfold handleIceCandidate, addIceCandidate. rewrite Hc.
    destruct (connections m2 !! q) as [pc|] eqn:E2; [|apply view_eq; congruence || done].
    destruct (remoteDescription pc); apply view_eq; simpl;
      rewrite ?lookup_insert_eq, ?Hp; congruence || done.
  - unfold setupDataChannel. apply view_eq; simpl; [done | | done].
    rewrite !elem_of_union, !elem_of_singleton. tauto.
  - unfold onopen. rewrite Hp. apply view_eq; simpl.
    + destruct (connections m2 !! q) as [pc|] eqn:E2.
      * destruct (drain_same q (default [] (pendingCandidates m2 !! q)) m1 pc Hc) as [-> _].
        by destruct (drain_same q (default [] (pendingCandidates m2 !! q)) m2 pc E2) as [-> _].
      * rewrite (drain_none q _ m1 Hc), (drain_none q _ m2 E2). congruence.
    + by rewrite !drain_channels.
    + by rewrite !lookup_insert_eq.
  - unfold closeConnection. apply view_eq; simpl; rewrite ?lookup_delete_eq; try done.
    rewrite !elem_of_difference, !elem_of_singleton. tauto.
Qed.

Lemma view_run p evs : forall m1 m2,
  view p m1 = view p m2 -> view p (run evs m1) = view p (run (concerning p evs) m2).
Proof.
  induction evs as [|ev evs IH]; intros m1 m2 H; [done|].
  change (run (ev :: evs) m1) with (run evs (handle ev m1)).
  unfold concerning. cbn [List.filter]. fold (concerning p evs).
  destruct (String.eqb_spec (peerOf ev) p) as [He|Hne].
  - change (run (ev :: concerning p evs) m2) with (run (concerning p evs) (handle ev m2)).
    apply IH. by apply view_handle_same.
  - apply IH. by rewrite view_handle_other.
Qed.

(** X11. The handshakes with different peers do not touch each other: what
    the manager holds about a peer (its connection with the candidates
    applied, its data channel, its buffered candidates) after any events
    is what the events about that peer alone would have left.  After
    [closeConnection], and after [closeAll], nothing is held about the
    peer, and what follows goes as it would for a manager that never heard
    of it. *)
Theorem handshakes_do_not_interfere (evs evs' : list Event) (p : PeerId) (m : Manager) :
  view p (run evs m) = view p (run (concerning p evs) m) /\
  view p (closeConnection p m) = view p initial /\
  view p (closeAll m) = view p initial /\
  view p (run evs' (closeConnection p (run evs m))) = view p (run (concerning p evs') initial).
Proof.
  assert (Hclose : forall m', view p (closeConnection p m') = view p initial).
  { intros m'. unfold closeConnection. apply view_eq; simpl; rewrite ?lookup_delete_eq; try done.
    rewrite elem_of_difference, elem_of_singleton. split; [tauto|]. by intros ?%elem_of_empty. }
  repeat split.
  - by apply view_run.
  - apply Hclose.
  - by apply view_run.
Qed.

End HandshakeFacts.

(** * Properties of the framed transfer manager *)

Module FramedFacts.
Import Js JsFacts Framed.

(** *** Loops *)

Lemma findLoop_Some id ls l : findLoop id ls = Some l -> l_transfer l = id.
Proof.
  unfold findLoop. intros H. apply List.find_some in H as [_ H].
  by apply String.eqb_eq in H.
Qed.

Lemma findLoop_app_other id ls l :
  l_transfer l <> id -> findLoop id (ls ++ [l]) = findLoop id ls.
Proof.
  intros Hne. apply String.eqb_neq in Hne. unfold findLoop.
  induction ls as [|l0 ls IH]; simpl; [by rewrite Hne|].
  by destruct (String.eqb (l_transfer l0) id).
Qed.

Lemma findLoop_app_fresh id ls l :
  findLoop id ls = None -> l_transfer l = id -> findLoop id (ls ++ [l]) = Some l.
Proof.
  intros Hnone <-. unfold findLoop in *.
  induction ls as [|l0 ls IH]; simpl in *; [by rewrite String.eqb_refl|].
  destruct (String.eqb (l_transfer l0) (l_transfer l)); [done|]. by apply IH.
Qed.

Lemma findLoop_setLoop_same id ls l l0 :
  l_transfer l = id -> findLoop id ls = Some l0 -> findLoop id (setLoop l ls) = Some l.
Proof.
  intros <-. unfold findLoop, setLoop.
  induction ls as [|l1 ls IH]; simpl; [done|].
  destruct (String.eqb (l_transfer l1) (l_transfer l)) eqn:E; simpl.
  - by rewrite String.eqb_refl.
  - rewrite E. apply IH.
Qed.

Lemma findLoop_setLoop_other id ls l :
  l_transfer l <> id -> findLoop id (setLoop l ls) = findLoop id ls.
Proof.
  intros Hne. unfold findLoop, setLoop.
  induction ls as [|l1 ls IH]; simpl; [done|].
  destruct (String.eqb (l_transfer l1) (l_transfer l)) eqn:E; simpl.
  - apply String.eqb_eq in E. apply String.eqb_neq in Hne. rewrite Hne.
    rewrite E, Hne. apply IH.
  - by destruct (String.eqb (l_transfer l1) id).
Qed.

Lemma findLoop_setLoop_none id ls l :
  findLoop id ls = None -> findLoop id (setLoop l ls) = None.
Proof.
  intros Hnone. destruct (decide (l_transfer l = id)) as [Heq|Hne].
  - unfold findLoop, setLoop in *. subst id.
    induction ls as [|l1 ls IH]; simpl in *; [done|].
    destruct (String.eqb (l_transfer l1) (l_transfer l)) eqn:E; [done|].
    simpl. rewrite E. by apply IH.
  - by rewrite findLoop_setLoop_other.
Qed.

Lemma findLoop_remove_other id id' ls :
  id' <> id ->
  findLoop id (List.filter (fun l' => negb (String.eqb (l_transfer l') id')) ls)
  = findLoop id ls.
Proof.
  intros Hne. unfold findLoop.
  induction ls as [|l1 ls IH]; simpl; [done|].
  destruct (String.eqb (l_transfer l1) id') eqn:E; simpl.
  - apply String.eqb_eq in E. apply String.eqb_neq in Hne. by rewrite E, Hne.
  - by destruct (String.eqb (l_transfer l1) id).
Qed.

Lemma findLoop_remove_same id ls :
  findLoop id (List.filter (fun l' => negb (String.eqb (l_transfer l') id)) ls) = None.
Proof.
  unfold findLoop. induction ls as [|l1 ls IH]; simpl; [done|].
  destruct (String.eqb (l_transfer l1) id) eqn:E; simpl; [done|]. by rewrite E.
Qed.

(** *** What a turn puts on a channel *)

Lemma appended_same p m m' :
  dataChannels m' = dataChannels m -> appended p m m' [].
Proof. intros E c Hc Ho. exists c. rewrite E, app_nil_r. done. Qed.

Lemma appended_broadcast p d m m' :
  dataChannels m' = broadcast d (dataChannels m) -> appended p m m' [d].
Proof.
  intros E c Hc Ho. rewrite E. unfold broadcast.
  rewrite (map_get_map (fun c => if isOpen c then channelSend d c else c)), Hc. simpl.
  rewrite Ho. eexists. split; [done|]. by split.
Qed.

Lemma appended_trans p m1 m2 m3 ws ws' :
  appended p m1 m2 ws -> appended p m2 m3 ws' -> appended p m1 m3 (ws ++ ws').
Proof.
  intros H1 H2 c Hc Ho. destruct (H1 c Hc Ho) as (c' & Hc' & Ho' & Hs').
  destruct (H2 c' Hc' Ho') as (c'' & Hc'' & Ho'' & Hs'').
  exists c''. rewrite Hs'', Hs', app_assoc. done.
Qed.

Lemma CHUNK_SIZE_pos : (0 < CHUNK_SIZE)%Z.
Proof. done. Qed.

Lemma framed_size_nonneg (f : File) : (0 <= f_size f)%Z.
Proof. unfold f_size. lia. Qed.

(** A chunk that starts inside the file is one of the announced ones. *)
Lemma chunk_in_range (f : File) (k : nat) :
  (Z.of_nat k * CHUNK_SIZE < f_size f)%Z -> (k < chunkCount f)%nat.
Proof.
  intros H. unfold chunkCount, ceilDiv. pose proof CHUNK_SIZE_pos as Hpos.
  assert (Z.of_nat k + 1 <= (f_size f + CHUNK_SIZE - 1) / CHUNK_SIZE)%Z; [|lia].
  apply Z.div_le_lower_bound; [done|]. lia.
Qed.

(** The loop stops after exactly the announced number of chunks. *)
Lemma chunkCount_done (f : File) (k : nat) :
  (f_size f <= Z.of_nat k * CHUNK_SIZE)%Z ->
  k = 0%nat \/ ((Z.of_nat k - 1) * CHUNK_SIZE < f_size f)%Z ->
  chunkCount f = k.
Proof.
  intros Hle Hk. unfold chunkCount, ceilDiv. pose proof CHUNK_SIZE_pos as Hpos.
  pose proof (framed_size_nonneg f) as Hnn.
  assert ((f_size f + CHUNK_SIZE - 1) / CHUNK_SIZE = Z.of_nat k)%Z as ->; [|lia].
  symmetry. apply (Z.div_unique _ _ _ (f_size f + CHUNK_SIZE - 1 - CHUNK_SIZE * Z.of_nat k));
    lia.
Qed.

Lemma findNewline_line (pre rest : list byte) (i limit : nat) :
  Forall (fun b => b <> newline) pre -> (length pre < limit)%nat ->
  findNewline (pre ++ newline :: rest) i limit = Some (i + length pre)%nat.
Proof.
  revert i limit. induction pre as [|b pre IH]; intros i limit Hall Hlen; simpl in *.
  - destruct limit; [lia|]. simpl. f_equal. lia.
  - destruct limit; [lia|]. simpl. inversion Hall as [|? ? Hb Hrest]; subst.
    destruct (Byte.eqb b newline) eqn:E; [by apply Byte.byte_dec_bl in E|].
    rewrite IH; [f_equal; lia | done | lia].
Qed.

Lemma payloadBytes_nonneg d : (0 <= payloadBytes d)%Z.
Proof. destruct d; simpl; lia. Qed.

Lemma sound_broadcast d cs :
  List.NoDup (map fst cs) -> Forall (fun e => 0 <= bufferedAmount e.2)%Z cs ->
  List.NoDup (map fst (broadcast d cs)) /\
  Forall (fun e => 0 <= bufferedAmount e.2)%Z (broadcast d cs).
Proof.
  intros Hk Hn. unfold broadcast. split.
  - rewrite map_map. simpl. by rewrite (map_ext _ fst) by done.
  - apply Forall_fmap. eapply Forall_impl; [exact Hn|]. intros [k c] Hc. simpl in *.
    destruct (isOpen c); simpl; [|done]. pose proof (payloadBytes_nonneg d). lia.
Qed.

Section Codec.
Variable stringify : Header -> list byte.
Variable parse : list byte -> option Header.

(** Over the limit on some recipient, [sendNextChunk] sends nothing and
    stays at its top, to be run again after [retryDelay]. *)
Lemma sendNextChunk_waits (l : Loop) (t : Transfer) (m : Manager) :
  (offset l < f_size (t_file t))%Z ->
  overBuffer (dataChannels m) (recipients t) = true ->
  let m' := sendNextChunk l t m in
  dataChannels m' = dataChannels m /\ transfers m' = transfers m /\
  calls m' = calls m /\
  loops m' = setLoop {| l_transfer := l_transfer l; offset := offset l;
                        chunkIndex := chunkIndex l; l_phase := AtTop |} (loops m).
Proof.
  intros Hoff Hover. unfold sendNextChunk.
  destruct (Z.leb_spec (f_size (t_file t)) (offset l)); [lia|]. by rewrite Hover.
Qed.

(** A chunk for a transfer that is not being received changes nothing. *)
Lemma handleFileChunk_unknown (peerId : PeerId) (header : Header) (data : list byte)
    (m : Manager) :
  receivingFiles m !! h_transferId header = None ->
  handleFileChunk peerId header data m = m.
Proof. intros H. unfold handleFileChunk. by rewrite H. Qed.

Lemma handleBinaryMessage_unknown (peerId : PeerId) (bytes : list byte) (m : Manager) :
  (forall header, receivingFiles m !! h_transferId header = None) ->
  handleBinaryMessage parse peerId bytes m = m.
Proof.
  intros H. unfold handleBinaryMessage.
  destruct (findNewline bytes 0 500); [|done].
  destruct (parse _) as [header|]; [|done].
  destruct (String.eqb _ _); [|done]. by apply handleFileChunk_unknown.
Qed.

(** A chunk for a transfer being received is stored under its index and
    counted. *)
Lemma handleFileChunk_known (peerId : PeerId) (header : Header) (data : list byte)
    (m : Manager) (r : Receiving) :
  receivingFiles m !! h_transferId header = Some r ->
  exists r',
    receivingFiles (handleFileChunk peerId header data m) !! h_transferId header = Some r' /\
    bytesReceived r' = (bytesReceived r + Z.of_nat (length data))%Z /\
    receivedChunks r' = <[h_index header := data]> (receivedChunks r) /\
    r_size r' = r_size r /\ r_chunks r' = r_chunks r /\ r_name r' = r_name r.
Proof.
  intros H. unfold handleFileChunk. rewrite H. simpl. rewrite lookup_insert_eq.
  by eexists.
Qed.

Lemma unframe_framed (h : Header) (data : list byte) :
  parse (stringify h) = Some h ->
  Forall (fun b => b <> newline) (stringify h) ->
  (length (stringify h) < 500)%nat ->
  h_type h = "file-chunk" ->
  unframe parse (framed stringify h data) = Some (h, data).
Proof.
  intros Hparse Hline Hlen Hty. unfold unframe, framed.
  rewrite <- app_assoc. change ([newline] ++ data) with (newline :: data).
  rewrite findNewline_line by done. rewrite Nat.add_0_l.
  rewrite take_app_length, Hparse, Hty.
  change (String.eqb "file-chunk" "file-chunk") with true. cbv iota.
  f_equal. f_equal.
  change (stringify h ++ newline :: data) with (stringify h ++ [newline] ++ data).
  rewrite app_assoc. rewrite drop_app_length'; [done|]. rewrite length_app. simpl. lia.
Qed.

Lemma handleBinaryMessage_unframe (q : PeerId) (bytes : list byte) (m : Manager) :
  handleBinaryMessage parse q bytes m
  = match unframe parse bytes with
    | Some (h, data) => handleFileChunk q h data m
    | None => m
    end.
Proof.
  unfold handleBinaryMessage, unframe.
  destruct (findNewline bytes 0 500); [|done].
  destruct (parse _); [|done]. by destruct (String.eqb _ _).
Qed.

(** Incoming messages touch the receiving side only. *)
Lemma handleMessage_sender (q : PeerId) (d : Payload) (m : Manager) :
  dataChannels (handleMessage parse q d m) = dataChannels m /\
  transfers (handleMessage parse q d m) = transfers m /\
  loops (handleMessage parse q d m) = loops m.
Proof.
  destruct d as [[]|bytes]; simpl.
  - done.
  - unfold handleFileComplete. by destruct (receivingFiles m !! _).
  - rewrite handleBinaryMessage_unframe. destruct (unframe parse bytes) as [[h data]|]; [|done].
    unfold handleFileChunk. by destruct (receivingFiles m !! _).
Qed.

Lemma keyed_sendNextChunk (l : Loop) (t : Transfer) (m : Manager) :
  keyed m -> keyed (sendNextChunk l t m).
Proof.
  intros Hkey. unfold sendNextChunk.
  destruct (f_size (t_file t) <=? offset l)%Z; [|by destruct (overBuffer _ _)].
  intros i t'. simpl. destruct (decide (i = t_id t)) as [->|Hne].
  - rewrite lookup_insert_eq. by intros [= <-].
  - rewrite lookup_insert_ne by done. apply Hkey.
Qed.

Lemma keyed_handle (ev : Event) (m : Manager) :
  keyed m -> keyed (handle stringify parse ev m).
Proof.
  intros Hkey. destruct ev as [i file|i|i|q n|q|q d]; simpl.
  - unfold sendFile. destruct (getConnectedPeers _); [done|].
    apply keyed_sendNextChunk. intros j t'. simpl.
    destruct (decide (j = i)) as [->|Hne].
    + rewrite lookup_insert_eq. by intros [= <-].
    + rewrite lookup_insert_ne by done. apply Hkey.
  - destruct (findLoop i (loops m)) as [l|]; [|done].
    destruct (transfers m !! i) as [t|]; [|done].
    destruct (l_phase l); [by apply keyed_sendNextChunk | done].
  - destruct (findLoop i (loops m)) as [l|]; [|done].
    destruct (transfers m !! i) as [t|]; [|done].
    destruct (l_phase l); [done|].
    intros j t'. unfold afterBuffer. simpl. destruct (decide (j = t_id t)) as [->|Hne].
    + rewrite lookup_insert_eq. by intros [= <-].
    + rewrite lookup_insert_ne by done. apply Hkey.
  - unfold drain. destruct (map_get q (dataChannels m)); [|done].
    by destruct (_ && _).
  - done.
  - destruct (handleMessage_sender q d m) as (_ & E & _). intros j t'.
    rewrite E. apply Hkey.
Qed.

Lemma keyed_run (evs : list Event) (m : Manager) :
  keyed m -> keyed (run stringify parse evs m).
Proof.
  revert m. induction evs as [|ev evs IH]; intros m Hkey; [done|].
  simpl. apply IH. by apply keyed_handle.
Qed.

Section Transfer.
Variable id : TransferId.
Variable f : File.
Variable p : PeerId.
Variable pre : list Payload.

Hypothesis own_header : forall i, (i < chunkCount f)%nat ->
  let h := chunkHeader id (Z.of_nat i) in
  parse (stringify h) = Some h /\
  Forall (fun b => b <> newline) (stringify h) /\
  (length (stringify h) < 500)%nat.

Hypothesis other_header : forall h data h' data',
  h_transferId h <> id ->
  unframe parse (framed stringify h data) = Some (h', data') ->
  h_transferId h' <> id.

Lemma unframe_own (i : nat) (data : list byte) :
  (i < chunkCount f)%nat ->
  unframe parse (framed stringify (chunkHeader id (Z.of_nat i)) data)
  = Some (chunkHeader id (Z.of_nat i), data).
Proof.
  intros Hi. destruct (own_header i Hi) as (H1 & H2 & H3). by apply unframe_framed.
Qed.

Lemma concerns_own_chunk (i : nat) :
  (i < chunkCount f)%nat -> concerns parse id (chunkMessage stringify id f i) = true.
Proof.
  intros Hi. unfold concerns, chunkMessage. rewrite unframe_own by done. simpl.
  apply String.eqb_refl.
Qed.

Lemma concerns_other_chunk (h : Header) (data : list byte) :
  h_transferId h <> id -> concerns parse id (Buffer (framed stringify h data)) = false.
Proof.
  intros Hne. unfold concerns.
  destruct (unframe parse _) as [[h' d']|] eqn:E; [|done].
  apply String.eqb_neq. by eapply other_header.
Qed.

Lemma quiet_refl m : quiet parse p id m m.
Proof. repeat split. exists []. split; [by apply appended_same | done]. Qed.

Lemma quiet_trans m1 m2 m3 : quiet parse p id m1 m2 -> quiet parse p id m2 m3 -> quiet parse p id m1 m3.
Proof.
  intros (Ht & Hl & ws & Ha & Hf) (Ht' & Hl' & ws' & Ha' & Hf').
  split; [congruence|]. split; [congruence|].
  exists (ws ++ ws'). split; [by eapply appended_trans|].
  by rewrite List.filter_app, Hf, Hf'.
Qed.

Lemma underWay_quiet m m' :
  quiet parse p id m m' -> underWay stringify parse p pre f id m -> underWay stringify parse p pre f id m'.
Proof.
  intros (Ht & Hl & ws & Ha & Hf) (l & t & c & w & k & H1 & H2 & H3 & H4 & H5 & H6 & H7 & H8 & H9 & H10 & H11).
  destruct (Ha c H8 H9) as (c' & Hc' & Ho' & Hs').
  exists l, t, c', (w ++ ws), k. rewrite Ht, Hl.
  repeat split; try done.
  - by rewrite Hs', H10, app_assoc.
  - by rewrite List.filter_app, Hf, app_nil_r.
Qed.

Lemma sentWhole_quiet m m' :
  quiet parse p id m m' -> sentWhole stringify parse p pre f id m -> sentWhole stringify parse p pre f id m'.
Proof.
  intros (Ht & Hl & ws & Ha & Hf) (c & w & H1 & H2 & H3 & H4 & H5).
  destruct (Ha c H2 H3) as (c' & Hc' & Ho' & Hs').
  exists c', (w ++ ws). rewrite Hl. repeat split; try done.
  - by rewrite Hs', H4, app_assoc.
  - by rewrite List.filter_app, Hf, app_nil_r.
Qed.

Lemma quiet_sendNextChunk (l : Loop) (t : Transfer) (m : Manager) :
  t_id t <> id -> l_transfer l <> id -> quiet parse p id m (sendNextChunk l t m).
Proof.
  intros Ht Hl. unfold sendNextChunk.
  destruct (f_size (t_file t) <=? offset l)%Z; [|destruct (overBuffer _ _)].
  - split; [simpl; by rewrite lookup_insert_ne|].
    split; [simpl; by apply findLoop_remove_other|].
    exists [Text (FileComplete (t_id t))]. split; [by apply appended_broadcast|].
    simpl. apply String.eqb_neq in Ht. by rewrite Ht.
  - split; [done|]. split; [simpl; by apply findLoop_setLoop_other|].
    exists []. split; [by apply appended_same | done].
  - split; [done|]. split; [simpl; by apply findLoop_setLoop_other|].
    exists []. split; [by apply appended_same | done].
Qed.

Lemma quiet_afterBuffer (l : Loop) (t : Transfer) (m : Manager) :
  t_id t <> id -> l_transfer l <> id -> quiet parse p id m (afterBuffer stringify l t m).
Proof.
  intros Ht Hl. unfold afterBuffer.
  split; [simpl; by rewrite lookup_insert_ne|].
  split; [simpl; by apply findLoop_setLoop_other|].
  eexists. split; [by apply appended_broadcast|].
  cbn [List.filter]. fold (framed stringify {| h_type := "file-chunk"; h_transferId := t_id t;
                                               h_index := chunkIndex l |}
                                  (slice (f_bytes (t_file t)) (offset l) (offset l + CHUNK_SIZE))).
  by rewrite concerns_other_chunk.
Qed.

Lemma quiet_sendFile (id' : TransferId) (file : File) (m : Manager) :
  id' <> id -> quiet parse p id m (sendFile id' file m).
Proof.
  intros Hne. unfold sendFile.
  destruct (getConnectedPeers (dataChannels m)) as [|q qs] eqn:E.
  - split; [done|]. split; [done|]. exists []. split; [by apply appended_same | done].
  - match goal with |- quiet parse p id m (sendNextChunk ?l ?t ?m1) =>
      apply (quiet_trans m m1); [|by apply quiet_sendNextChunk] end.
    split; [simpl; by rewrite lookup_insert_ne|].
    split; [simpl; by apply findLoop_app_other|].
    eexists. split; [by apply appended_broadcast|].
    simpl. apply String.eqb_neq in Hne. by rewrite Hne.
Qed.

Lemma quiet_drain (q : PeerId) (n : Z) (m : Manager) : quiet parse p id m (drain q n m).
Proof.
  unfold drain. destruct (map_get q (dataChannels m)) as [c|] eqn:E; [|apply quiet_refl].
  destruct ((0 <=? n) && (n <=? bufferedAmount c))%Z; [|apply quiet_refl].
  split; [done|]. split; [done|]. exists []. split; [|done].
  intros c0 Hc0 Ho. simpl. destruct (decide (p = q)) as [->|Hne].
  - rewrite map_get_set_eq. assert (c0 = c) as -> by congruence.
    eexists. split; [done|]. split; [done|]. by rewrite app_nil_r.
  - rewrite map_get_set_ne by done. exists c0. by rewrite app_nil_r.
Qed.

Lemma quiet_open (q : PeerId) (m : Manager) :
  q <> p -> quiet parse p id m (handle stringify parse (ChannelOpen q) m).
Proof.
  intros Hne. split; [done|]. split; [done|]. exists []. split; [|done].
  intros c Hc Ho. simpl. rewrite map_get_set_ne by done. exists c. by rewrite app_nil_r.
Qed.

Lemma quiet_message (q : PeerId) (d : Payload) (m : Manager) :
  quiet parse p id m (handleMessage parse q d m).
Proof.
  destruct (handleMessage_sender q d m) as (Hd & Ht & Hl).
  split; [by rewrite Ht|]. split; [by rewrite Hl|].
  exists []. split; [by apply appended_same | done].
Qed.

(** *** The transfer's own turns *)

Lemma own_top (l : Loop) (t : Transfer) (m : Manager) :
  keyed m ->
  transfers m !! id = Some t -> findLoop id (loops m) = Some l -> l_phase l = AtTop ->
  underWay stringify parse p pre f id m ->
  underWay stringify parse p pre f id (sendNextChunk l t m) \/
  sentWhole stringify parse p pre f id (sendNextChunk l t m).
Proof.
  intros Hkey Ht Hl Hphase (l0 & t0 & c & w & k & H1 & H2 & H3 & H4 & H5 & H6 & H7 & H8 & H9 & H10 & H11).
  assert (l0 = l) as -> by congruence. assert (t0 = t) as -> by congruence.
  pose proof (Hkey _ _ Ht) as Hid. pose proof (findLoop_Some _ _ _ Hl) as Hlid.
  unfold sendNextChunk. rewrite H2.
  destruct (Z.leb_spec (f_size f) (offset l)) as [Hdone|Hmore];
    [|destruct (overBuffer _ _)].
  - right.
    destruct (appended_broadcast p (Text (FileComplete (t_id t))) m
                {| dataChannels := broadcast (Text (FileComplete (t_id t))) (dataChannels m);
                   transfers := transfers m; receivingFiles := receivingFiles m;
                   loops := loops m; calls := calls m |} eq_refl c H8 H9)
      as (c' & Hc' & Ho' & Hs').
    exists c', (w ++ [Text (FileComplete id)]). simpl in *.
    split; [rewrite Hid; apply findLoop_remove_same|].
    split; [done|]. split; [done|]. split; [by rewrite Hs', H10, Hid, app_assoc|].
    rewrite List.filter_app, H11. simpl. rewrite String.eqb_refl.
    rewrite (chunkCount_done f k); [done | lia | done].
  - left. exists {| l_transfer := l_transfer l; offset := offset l; chunkIndex := chunkIndex l;
                    l_phase := AtTop |}, t, c, w, k. simpl.
    repeat split; try done. by eapply findLoop_setLoop_same.
  - left. exists {| l_transfer := l_transfer l; offset := offset l; chunkIndex := chunkIndex l;
                    l_phase := AwaitingBuffer |}, t, c, w, k. simpl.
    repeat split; try done. by eapply findLoop_setLoop_same.
Qed.

Lemma own_read (l : Loop) (t : Transfer) (m : Manager) :
  keyed m ->
  transfers m !! id = Some t -> findLoop id (loops m) = Some l -> l_phase l = AwaitingBuffer ->
  underWay stringify parse p pre f id m ->
  underWay stringify parse p pre f id (afterBuffer stringify l t m).
Proof.
  intros Hkey Ht Hl Hphase (l0 & t0 & c & w & k & H1 & H2 & H3 & H4 & H5 & H6 & H7 & H8 & H9 & H10 & H11).
  assert (l0 = l) as -> by congruence. assert (t0 = t) as -> by congruence.
  pose proof (Hkey _ _ Ht) as Hid. pose proof (findLoop_Some _ _ _ Hl) as Hlid.
  specialize (H6 Hphase).
  assert (Hk : (k < chunkCount f)%nat) by (apply chunk_in_range; lia).
  unfold afterBuffer. rewrite H2, Hid, H4, H5.
  fold (chunkHeader id (Z.of_nat k)). fold (chunkAt f k).
  fold (framed stringify (chunkHeader id (Z.of_nat k)) (chunkAt f k)).
  fold (chunkMessage stringify id f k).
  match goal with |- underWay _ _ _ _ _ _ ?m' =>
    destruct (appended_broadcast p (chunkMessage stringify id f k) m m' eq_refl c H8 H9)
      as (c' & Hc' & Ho' & Hs') end.
  eexists _, _, c', (w ++ [chunkMessage stringify id f k]), (S k). simpl.
  split; [by rewrite lookup_insert_eq|]. split; [done|].
  split; [by eapply findLoop_setLoop_same|]. simpl.
  split; [lia|]. split; [lia|]. split; [done|]. split; [right; lia|].
  split; [done|]. split; [done|]. split; [by rewrite Hs', H10, app_assoc|].
  rewrite List.filter_app, H11. cbn [List.filter]. rewrite concerns_own_chunk by done.
  unfold chunkMessages. rewrite seq_S, map_app. simpl. done.
Qed.
(** *** Every turn *)

Lemma quiet_handle_other (ev : Event) (m : Manager) :
  keyed m -> leaves p id ev ->
  match ev with Top i | BufferRead i => i <> id | _ => True end ->
  quiet parse p id m (handle stringify parse ev m).
Proof.
  intros Hkey Hkeeps Hother. destruct ev as [i file|i|i|q n|q|q d]; simpl in *.
  - by apply quiet_sendFile.
  - destruct (findLoop i (loops m)) as [l|] eqn:El; [|apply quiet_refl].
    destruct (transfers m !! i) as [t|] eqn:Et; [|apply quiet_refl].
    destruct (l_phase l); [|apply quiet_refl].
    apply quiet_sendNextChunk.
    + by rewrite (Hkey _ _ Et).
    + by rewrite (findLoop_Some _ _ _ El).
  - destruct (findLoop i (loops m)) as [l|] eqn:El; [|apply quiet_refl].
    destruct (transfers m !! i) as [t|] eqn:Et; [|apply quiet_refl].
    destruct (l_phase l); [apply quiet_refl|].
    apply quiet_afterBuffer.
    + by rewrite (Hkey _ _ Et).
    + by rewrite (findLoop_Some _ _ _ El).
  - apply quiet_drain.
  - by apply (quiet_open q m).
  - apply quiet_message.
Qed.

Lemma framed_progress_handle (ev : Event) (m : Manager) :
  keyed m -> leaves p id ev ->
  underWay stringify parse p pre f id m \/ sentWhole stringify parse p pre f id m ->
  underWay stringify parse p pre f id (handle stringify parse ev m) \/
  sentWhole stringify parse p pre f id (handle stringify parse ev m).
Proof.
  intros Hkey Hkeeps H.
  assert (Hdec : match ev with Top i | BufferRead i => i <> id | _ => True end \/
                 ev = Top id \/ ev = BufferRead id).
  { destruct ev as [i file|i|i|q n|q|q d]; try (by left);
      destruct (decide (i = id)) as [->|Hne]; auto. }
  destruct H as [Hin|Hfin].
  - destruct Hdec as [Hother | [-> | ->]].
    + left. eapply underWay_quiet; [|done]. by apply quiet_handle_other.
    + pose proof Hin as (l & t & c & w & k & H1 & H2 & H3 & _).
      simpl. rewrite H3, H1. destruct (l_phase l) eqn:Hph; [|by left].
      by apply own_top.
    + pose proof Hin as (l & t & c & w & k & H1 & H2 & H3 & _).
      simpl. rewrite H3, H1. destruct (l_phase l) eqn:Hph; [by left|].
      left. by apply own_read.
  - right. destruct Hdec as [Hother | [-> | ->]].
    + eapply sentWhole_quiet; [|done]. by apply quiet_handle_other.
    + destruct Hfin as (c & w & Hnone & Hrest). simpl. rewrite Hnone.
      by exists c, w.
    + destruct Hfin as (c & w & Hnone & Hrest). simpl. rewrite Hnone.
      by exists c, w.
Qed.

Lemma framed_progress_run (evs : list Event) (m : Manager) :
  keyed m -> Forall (leaves p id) evs ->
  underWay stringify parse p pre f id m \/ sentWhole stringify parse p pre f id m ->
  underWay stringify parse p pre f id (run stringify parse evs m) \/
  sentWhole stringify parse p pre f id (run stringify parse evs m).
Proof.
  revert m. induction evs as [|ev evs IH]; intros m Hkey Hall H; [done|].
  inversion Hall as [|? ? Hev Hrest]; subst. simpl. apply IH; [by apply keyed_handle|done|].
  by apply framed_progress_handle.
Qed.

(** [sendFile] on an open channel announces the file and starts the loop,
    or ends at once if the file is empty. *)
Lemma framed_progress_sendFile (m : Manager) (c : Channel) :
  keyed m -> findLoop id (loops m) = None ->
  map_get p (dataChannels m) = Some c -> isOpen c = true -> sent c = pre ->
  underWay stringify parse p pre f id (sendFile id f m) \/
  sentWhole stringify parse p pre f id (sendFile id f m).
Proof.
  intros Hkey Hfresh Hc Ho Hsent. unfold sendFile.
  destruct (getConnectedPeers (dataChannels m)) as [|q qs] eqn:E.
  { exfalso. unfold getConnectedPeers in E. apply map_eq_nil in E.
    assert (Hin : In (p, c) (List.filter (fun e => isOpen e.2) (dataChannels m))).
    { apply List.filter_In. split; [|done]. clear -Hc.
      induction (dataChannels m) as [|[k v] cs IH]; simpl in *; [done|].
      destruct (String.eqb p k) eqn:Ek.
      - apply String.eqb_eq in Ek. left. congruence.
      - right. by apply IH. }
    by rewrite E in Hin. }
  match goal with |- underWay _ _ _ _ _ _ (sendNextChunk ?ll ?tt ?mm) \/ _ =>
    set (l0 := ll); set (t0 := tt); set (m1 := mm) end.
  assert (Hkey1 : keyed m1).
  { intros j t'. unfold m1. simpl. destruct (decide (j = id)) as [->|Hne].
    - rewrite lookup_insert_eq. by intros [= <-].
    - rewrite lookup_insert_ne by done. apply Hkey. }
  apply (own_top l0 t0 m1); try done.
  - unfold m1. simpl. by rewrite lookup_insert_eq.
  - unfold m1. simpl. by apply findLoop_app_fresh.
  - destruct (appended_broadcast p (announcement id f) m m1 eq_refl c Hc Ho)
      as (c' & Hc' & Ho' & Hs').
    exists l0, t0, c', [announcement id f], 0%nat.
    repeat split; try done.
    + unfold m1. simpl. by rewrite lookup_insert_eq.
    + unfold m1. simpl. by apply findLoop_app_fresh.
    + by left.
    + by rewrite Hs', Hsent.
    + simpl. by rewrite String.eqb_refl.
Qed.
(** *** Receiving *)

Lemma receivedFor_app (cs cs' : list Callback) :
  receivedFor id (cs ++ cs') = receivedFor id cs ++ receivedFor id cs'.
Proof. apply omap_app. Qed.

(** A message about another transfer leaves this one's entry and its
    deliveries as they are. *)
Lemma receiver_quiet (q : PeerId) (d : Payload) (m : Manager) :
  concerns parse id d = false ->
  receivingFiles (handleMessage parse q d m) !! id = receivingFiles m !! id /\
  receivedFor id (calls (handleMessage parse q d m)) = receivedFor id (calls m).
Proof.
  intros Hc. destruct d as [[i nm sz ty n|i]|bytes]; simpl in *.
  - apply String.eqb_neq in Hc. rewrite lookup_insert_ne by done.
    by rewrite receivedFor_app, app_nil_r.
  - unfold handleFileComplete. destruct (receivingFiles m !! i) as [r|]; [|done]. simpl.
    rewrite receivedFor_app. simpl. rewrite Hc, app_nil_r.
    apply String.eqb_neq in Hc. by rewrite lookup_delete_ne.
  - rewrite handleBinaryMessage_unframe.
    destruct (unframe parse bytes) as [[h data]|]; [|done].
    apply String.eqb_neq in Hc. unfold handleFileChunk.
    destruct (receivingFiles m !! h_transferId h) as [r|]; [|done]. simpl.
    by rewrite lookup_insert_ne.
Qed.

Lemma handleAll_cons (q : PeerId) (d : Payload) (w : list Payload) (m : Manager) :
  handleAll parse q (d :: w) m = handleAll parse q w (handleMessage parse q d m).
Proof. reflexivity. Qed.

Lemma handleAll_quiet (q : PeerId) (w : list Payload) (m : Manager) :
  List.filter (concerns parse id) w = [] ->
  receivedFor id (calls (handleAll parse q w m)) = receivedFor id (calls m).
Proof.
  revert m. induction w as [|d w IH]; intros m Hf; [done|].
  simpl in *. destruct (concerns parse id d) eqn:E; [done|].
  rewrite IH by done. by apply receiver_quiet.
Qed.

Lemma collect_all (n : nat) (parts : gmap Z (list byte)) (g : nat -> list byte) :
  (forall i, (i < n)%nat -> parts !! Z.of_nat i = Some (g i)) ->
  collect (Z.of_nat n) parts = map g (seq 0 n).
Proof.
  intros H. unfold collect. rewrite Nat2Z.id.
  assert (Hall : Forall (fun i => (i < n)%nat) (seq 0 n)).
  { apply Forall_forall. intros i Hi. apply elem_of_seq in Hi. lia. }
  induction Hall as [|i rest Hi Hall IH]; [done|].
  rewrite fmap_cons. cbn [omap list_omap]. rewrite (H i Hi). cbn [omap list_omap] in IH.
  by rewrite IH.
Qed.

Lemma chunks_prefix (k : nat) :
  concat (map (chunkAt f) (seq 0 k))
  = take (Z.to_nat (Z.of_nat k * CHUNK_SIZE)) (f_bytes f).
Proof.
  pose proof CHUNK_SIZE_pos as Hpos.
  induction k as [|k IH]; [done|].
  rewrite seq_S, map_app, concat_app, IH. simpl. rewrite app_nil_r.
  unfold chunkAt. rewrite take_slice by lia.
  rewrite length_slice by lia.
  destruct (Z.le_gt_cases CHUNK_SIZE (Z.of_nat (length (f_bytes f)) - Z.of_nat k * CHUNK_SIZE))
    as [Hfull|Hshort].
  - f_equal. lia.
  - rewrite !take_ge; [done | lia | lia].
Qed.

Lemma chunks_whole : concat (map (chunkAt f) (seq 0 (chunkCount f))) = f_bytes f.
Proof.
  rewrite chunks_prefix. apply take_ge.
  pose proof CHUNK_SIZE_pos as Hpos. pose proof (framed_size_nonneg f) as Hnn.
  unfold chunkCount, ceilDiv.
  assert (Hq : (0 <= (f_size f + CHUNK_SIZE - 1) / CHUNK_SIZE)%Z)
    by (apply Z.div_pos; lia).
  rewrite Z2Nat.id by done.
  pose proof (Z.mul_succ_div_gt (f_size f + CHUNK_SIZE - 1) CHUNK_SIZE Hpos) as Hgt.
  unfold f_size in *. lia.
Qed.

Lemma chunkCount_Z : Z.of_nat (chunkCount f) = ceilDiv (f_size f) CHUNK_SIZE.
Proof.
  unfold chunkCount. apply Z2Nat.id. unfold ceilDiv.
  pose proof CHUNK_SIZE_pos. pose proof (framed_size_nonneg f). apply Z.div_pos; lia.
Qed.

Lemma handleAll_chunks (q : PeerId) (w : list Payload) :
  forall (j : nat) (m : Manager) (r : Receiving),
    (j <= chunkCount f)%nat ->
    receivingFiles m !! id = Some r ->
    r_chunks r = ceilDiv (f_size f) CHUNK_SIZE -> r_name r = f_name f ->
    (forall i, (i < j)%nat -> receivedChunks r !! Z.of_nat i = Some (chunkAt f i)) ->
    List.filter (concerns parse id) w
    = chunkMessages stringify id f j (chunkCount f - j) ++ [Text (FileComplete id)] ->
    receivedFor id (calls (handleAll parse q w m))
    = receivedFor id (calls m) ++ [(f_name f, f_bytes f)].
Proof.
  induction w as [|d w IH]; intros j m r Hj Hr Hn Hname Hparts Hf.
  { simpl in Hf. by destruct (chunkMessages _ _ _ _ _). }
  simpl in Hf. destruct (concerns parse id d) eqn:E.
  2: { destruct (receiver_quiet q d m E) as [Hrf Hcalls].
       simpl. rewrite (IH j _ r); try done; [by rewrite Hcalls | by rewrite Hrf]. }
  destruct (decide (j = chunkCount f)) as [->|Hlt].
  - rewrite Nat.sub_diag in Hf. simpl in Hf. injection Hf as -> Hw.
    simpl. rewrite handleAll_quiet by done.
    unfold handleFileComplete. rewrite Hr. simpl.
    rewrite receivedFor_app. simpl. rewrite String.eqb_refl. simpl.
    rewrite Hname, Hn, <- chunkCount_Z, (collect_all _ _ (chunkAt f)) by done.
    unfold Blob. by rewrite chunks_whole.
  - assert (Hcount : (chunkCount f - j = S (chunkCount f - S j))%nat) by lia.
    rewrite Hcount in Hf. unfold chunkMessages in Hf. simpl in Hf.
    injection Hf as -> Hw. fold (chunkMessages stringify id f (S j) (chunkCount f - S j)) in Hw.
    rewrite handleAll_cons. unfold chunkMessage at 1. cbn [handleMessage].
    rewrite handleBinaryMessage_unframe, unframe_own by lia.
    destruct (handleFileChunk_known q (chunkHeader id (Z.of_nat j)) (chunkAt f j)
                m r Hr) as (r' & Hr' & _ & Hparts' & _ & Hn' & Hname').
    assert (Hcalls : calls (handleFileChunk q (chunkHeader id (Z.of_nat j)) (chunkAt f j) m)
                     = calls m).
    { unfold handleFileChunk. simpl. by rewrite Hr. }
    rewrite (IH (S j) _ r'); try done; [by rewrite Hcalls | lia | congruence | congruence |].
    intros i Hi. rewrite Hparts'. simpl. destruct (decide (i = j)) as [->|Hne].
    + by rewrite lookup_insert_eq.
    + rewrite lookup_insert_ne by lia. apply Hparts. lia.
Qed.

Lemma handleAll_transfer (q : PeerId) (w : list Payload) (m : Manager) :
  List.filter (concerns parse id) w
  = announcement id f :: chunkMessages stringify id f 0 (chunkCount f)
    ++ [Text (FileComplete id)] ->
  receivedFor id (calls (handleAll parse q w m))
  = receivedFor id (calls m) ++ [(f_name f, f_bytes f)].
Proof.
  revert m. induction w as [|d w IH]; intros m Hf; [done|].
  simpl in Hf. destruct (concerns parse id d) eqn:E.
  2: { destruct (receiver_quiet q d m E) as [Hrf Hcalls].
       simpl. rewrite IH by done. by rewrite Hcalls. }
  injection Hf as -> Hw. simpl.
  erewrite (handleAll_chunks q w 0); [| lia | simpl; by rewrite lookup_insert_eq | done | done
                                    | intros i Hi; lia | by rewrite Nat.sub_0_r].
  simpl. by rewrite receivedFor_app, app_nil_r.
Qed.

(** *** From [sendFile] to the application on the other side *)

(** X30. A file sent by the framed manager over a channel that stays open
    reaches the other side whole, also when other transfers share the
    channel: once the loop of the transfer has ended, what the channel was
    sent about it is the announcement, its chunks in index order and the
    completion message, and a receiver that handles everything the channel
    was sent hands the application, on the completion message, the file
    byte for byte. The header codec is asked to read back the headers of
    this transfer, which are shorter than 500 bytes and hold no line feed,
    and never to read a chunk of another transfer as one of this. *)
Theorem framed_transfer_arrives (evs0 evs : list Event) (c : Channel) :
  let sender := run stringify parse evs0 initial in
  let sender' := run stringify parse evs (sendFile id f sender) in
  findLoop id (loops sender) = None ->
  map_get p (dataChannels sender) = Some c -> isOpen c = true -> sent c = pre ->
  Forall (leaves p id) evs ->
  findLoop id (loops sender') = None ->
  exists w : list Payload,
    sentTo p sender' = Some (pre ++ w) /\
    List.filter (concerns parse id) w
    = announcement id f :: chunkMessages stringify id f 0 (chunkCount f)
      ++ [Text (FileComplete id)] /\
    forall (q : PeerId) (receiver : Manager),
      receivedFor id (calls (handleAll parse q w receiver))
      = receivedFor id (calls receiver) ++ [(f_name f, f_bytes f)].
Proof.
  intros sender sender' Hfresh Hc Ho Hsent Hkeeps Hdone.
  assert (Hkey : keyed sender).
  { apply keyed_run. intros i t. simpl. by rewrite lookup_empty. }
  assert (Hkey' : keyed (sendFile id f sender)).
  { apply (keyed_handle (SendFile id f)), Hkey. }
  destruct (framed_progress_run evs (sendFile id f sender) Hkey' Hkeeps
              (framed_progress_sendFile sender c Hkey Hfresh Hc Ho Hsent)) as [Hin|Hfin].
  - destruct Hin as (l & t & c' & w & k & _ & _ & Hl & _). fold sender' in Hl. congruence.
  - destruct Hfin as (c' & w & _ & Hc' & _ & Hs' & Hw). fold sender' in Hc'.
    exists w. split; [unfold sentTo; by rewrite Hc', <- Hs'|]. split; [done|].
    intros q receiver. by apply handleAll_transfer.
Qed.

End Transfer.

(** *** Buffers and schedules *)

Lemma sound_channels m m' :
  dataChannels m' = dataChannels m -> sound m -> sound m'.
Proof. intros E [H1 H2]. split; by rewrite E. Qed.

Lemma sound_sendNextChunk l t m : sound m -> sound (sendNextChunk l t m).
Proof.
  intros [Hk Hn]. unfold sendNextChunk.
  destruct (_ <=? _)%Z; [|destruct (overBuffer _ _); by split].
  destruct (sound_broadcast (Text (FileComplete (t_id t))) _ Hk Hn). by split.
Qed.

Lemma sound_handle ev m : sound m -> sound (handle stringify parse ev m).
Proof.
  intros Hs. pose proof Hs as [Hk Hn].
  destruct ev as [i file|i|i|q n|q|q d]; simpl.
  - unfold sendFile. destruct (getConnectedPeers _); [by split|].
    apply sound_sendNextChunk.
    match goal with |- sound ?m1 =>
      destruct (sound_broadcast (Text (FileInfo i (f_name file) (f_size file) (f_type file)
                                         (ceilDiv (f_size file) CHUNK_SIZE))) _ Hk Hn) end.
    by split.
  - destruct (findLoop i (loops m)) as [l|]; [|done].
    destruct (transfers m !! i) as [t|]; [|done].
    destruct (l_phase l); [by apply sound_sendNextChunk | done].
  - destruct (findLoop i (loops m)) as [l|]; [|done].
    destruct (transfers m !! i) as [t|]; [|done].
    destruct (l_phase l); [done|]. unfold afterBuffer.
    match goal with |- sound {| dataChannels := broadcast ?d _ |} =>
      destruct (sound_broadcast d _ Hk Hn) end.
    by split.
  - unfold drain. destruct (map_get q (dataChannels m)) as [c|] eqn:E; [|done].
    destruct (Z.leb_spec 0 n); [|done]. destruct (Z.leb_spec n (bufferedAmount c)); [|done].
    simpl. split; simpl; [by apply NoDup_map_set|]. apply Forall_set; [simpl; lia | done].
  - split; simpl; [by apply NoDup_map_set|]. by apply Forall_set.
  - eapply sound_channels; [|done].
    destruct d as [[]|bytes]; simpl; [done| |].
    + unfold handleFileComplete. by destruct (receivingFiles m !! _).
    + rewrite handleBinaryMessage_unframe. destruct (unframe parse bytes) as [[h data]|]; [|done].
      unfold handleFileChunk. by destruct (receivingFiles m !! _).
Qed.

Lemma sound_run evs m : sound m -> sound (run stringify parse evs m).
Proof.
  revert m. induction evs as [|ev evs IH]; intros m H; [done|].
  simpl. apply IH. by apply sound_handle.
Qed.

Lemma sound_initial : sound initial.
Proof. split; simpl; constructor. Qed.

Lemma framed_run_app evs1 evs2 m :
  run stringify parse (evs1 ++ evs2) m
  = run stringify parse evs2 (run stringify parse evs1 m).
Proof. apply foldl_app. Qed.

(** *** Emptying the buffers *)

Lemma drain_quiet q n m :
  transfers (drain q n m) = transfers m /\ loops (drain q n m) = loops m.
Proof.
  unfold drain. destruct (map_get q (dataChannels m)); [|done]. by destruct (_ && _).
Qed.

Lemma run_drainChannels (todo : list (PeerId * Channel)) :
  forall (done : list (PeerId * Channel)) (m : Manager),
    dataChannels m = done ++ todo ->
    List.NoDup (map fst (done ++ todo)) ->
    Forall (fun e => 0 <= bufferedAmount e.2)%Z todo ->
    exists todo',
      dataChannels (run stringify parse (drainChannels todo) m) = done ++ todo' /\
      Forall (fun e => bufferedAmount e.2 = 0%Z) todo' /\
      transfers (run stringify parse (drainChannels todo) m) = transfers m /\
      loops (run stringify parse (drainChannels todo) m) = loops m.
Proof.
  induction todo as [|[q c] todo IH]; intros done m Hc Hnd Hnn.
  { exists []. by repeat split. }
  inversion Hnn as [|? ? Hq Hrest]; subst. simpl in Hq.
  assert (Hfresh : ~ In q (map fst done)).
  { rewrite map_app in Hnd. simpl in Hnd. apply NoDup_remove_2 in Hnd.
    rewrite in_app_iff in Hnd. tauto. }
  assert (Hstep : exists c',
             dataChannels (drain q (bufferedAmount c) m) = done ++ (q, c') :: todo /\
             bufferedAmount c' = 0%Z).
  { unfold drain. rewrite Hc, map_get_middle by done.
    destruct (Z.leb_spec 0 (bufferedAmount c)); [|lia].
    destruct (Z.leb_spec (bufferedAmount c) (bufferedAmount c)); [|lia]. simpl.
    eexists. rewrite map_set_middle by done. split; [done|]. simpl. lia. }
  destruct Hstep as (c' & Hc' & Hzero).
  destruct (drain_quiet q (bufferedAmount c) m) as [Ht Hl].
  destruct (IH (done ++ [(q, c')]) (drain q (bufferedAmount c) m)) as
    (todo' & Hc'' & Hall & Ht'' & Hl'').
  - by rewrite Hc', <- app_assoc.
  - rewrite <- app_assoc. simpl. rewrite map_app in *. done.
  - done.
  - exists ((q, c') :: todo').
    change (run stringify parse (drainChannels ((q, c) :: todo)) m)
      with (run stringify parse (drainChannels todo) (drain q (bufferedAmount c) m)).
    rewrite Hc'', <- app_assoc. split; [done|].
    split; [by constructor|]. split; congruence.
Qed.

Lemma overBuffer_empty (cs : list (PeerId * Channel)) (peers : list PeerId) :
  Forall (fun e => bufferedAmount e.2 = 0%Z) cs -> overBuffer cs peers = false.
Proof.
  intros Hall. unfold overBuffer. induction peers as [|q peers IH]; simpl; [done|].
  rewrite IH, orb_false_r. destruct (map_get q cs) as [c|] eqn:E; [|done].
  apply map_get_In in E. rewrite Forall_forall in Hall. apply list_elem_of_In in E.
  specialize (Hall _ E). simpl in Hall. by rewrite Hall.
Qed.

Lemma channels_drained m (peers : list PeerId) :
  sound m ->
  let m' := run stringify parse (drainChannels (dataChannels m)) m in
  overBuffer (dataChannels m') peers = false /\
  transfers m' = transfers m /\ loops m' = loops m.
Proof.
  intros [Hk Hn] m'.
  destruct (run_drainChannels (dataChannels m) [] m eq_refl Hk Hn)
    as (todo' & Hc & Hall & Ht & Hl).
  split; [|done]. unfold m'. rewrite Hc. simpl. by apply overBuffer_empty.
Qed.

(** *** A schedule that ends the transfer *)

Lemma handle_BufferRead id m :
  handle stringify parse (BufferRead id) m
  = match findLoop id (loops m), transfers m !! id with
    | Some l, Some t =>
        match l_phase l with AwaitingBuffer => afterBuffer stringify l t m | AtTop => m end
    | _, _ => m
    end.
Proof. reflexivity. Qed.

Lemma one_turn id f l m :
  sound m -> keyed m -> loopAt id f l m ->
  let evs := drainChannels (dataChannels m) ++ [Top id; BufferRead id] in
  findLoop id (loops (run stringify parse evs m)) = None \/
  exists l', loopAt id f l' (run stringify parse evs m) /\
             l_phase l' = AtTop /\
             offset l' = (offset l + CHUNK_SIZE)%Z /\ (offset l < f_size f)%Z.
Proof.
  intros Hsound Hkey (Hl & (t & Ht & Hf) & Hph) evs. unfold evs.
  rewrite framed_run_app.
  destruct (channels_drained m (recipients t) Hsound) as (Hover & Ht1 & Hl1).
  set (m1 := run stringify parse (drainChannels (dataChannels m)) m) in *.
  assert (Hkey1 : keyed m1) by (by apply keyed_run).
  pose proof (Hkey _ _ Ht) as Hid. pose proof (findLoop_Some _ _ _ Hl) as Hlid.
  change (run stringify parse [Top id; BufferRead id] m1)
    with (handle stringify parse (BufferRead id) (handle stringify parse (Top id) m1)).
  assert (H2 : findLoop id (loops (handle stringify parse (Top id) m1)) = None \/
               exists l2, findLoop id (loops (handle stringify parse (Top id) m1)) = Some l2 /\
                          transfers (handle stringify parse (Top id) m1) !! id = Some t /\
                          offset l2 = offset l /\ chunkIndex l2 = chunkIndex l /\
                          l_phase l2 = AwaitingBuffer /\ (offset l < f_size f)%Z).
  { simpl. rewrite Hl1, Ht1, Hl, Ht. destruct (l_phase l) eqn:Hp.
    - unfold sendNextChunk. rewrite Hf, Hover.
      destruct (Z.leb_spec (f_size f) (offset l)).
      + left. simpl. rewrite Hid, Hl1. apply findLoop_remove_same.
      + right. eexists. simpl. rewrite Hl1, Ht1.
        split; [by eapply findLoop_setLoop_same|]. by repeat split.
    - right. exists l. rewrite Hl1, Ht1. repeat split; try done. by apply Hph. }
  set (m2 := handle stringify parse (Top id) m1) in *.
  rewrite handle_BufferRead.
  destruct H2 as [Hnone|(l2 & Hl2 & Ht2 & Ho2 & Hi2 & Hp2 & Hlt)].
  - left. by rewrite Hnone.
  - right. rewrite Hl2, Ht2, Hp2. unfold afterBuffer. simpl.
    eexists. split; [split; [|split]|].
    + eapply findLoop_setLoop_same; [|exact Hl2]. simpl. by apply findLoop_Some in Hl2.
    + eexists. cbn [transfers]. rewrite Hid, lookup_insert_eq. split; [done|]. done.
    + done.
    + simpl. split; [done|]. split; [lia | done].
Qed.

Lemma turns_idle n id : forall m,
  findLoop id (loops m) = None ->
  findLoop id (loops (run stringify parse (turns stringify parse n id m) m)) = None.
Proof.
  induction n as [|n IH]; intros m Hnone; [done|].
  cbn [turns]. rewrite framed_run_app. apply IH. rewrite framed_run_app.
  set (m1 := run stringify parse (drainChannels (dataChannels m)) m).
  assert (Hl1 : loops m1 = loops m).
  { unfold m1. clear. generalize (dataChannels m) as cs. intros cs. revert m.
    induction cs as [|e cs IH]; intros m; [done|].
    change (run stringify parse (drainChannels (e :: cs)) m)
      with (run stringify parse (drainChannels cs) (drain e.1 (bufferedAmount e.2) m)).
    rewrite IH. by destruct (drain_quiet e.1 (bufferedAmount e.2) m). }
  change (run stringify parse [Top id; BufferRead id] m1)
    with (handle stringify parse (BufferRead id) (handle stringify parse (Top id) m1)).
  assert (Hm2 : handle stringify parse (Top id) m1 = m1) by (simpl; by rewrite Hl1, Hnone).
  rewrite Hm2, handle_BufferRead. rewrite Hl1, Hnone. cbv iota. by rewrite Hl1.
Qed.

Lemma turns_end n id f : forall m l,
  sound m -> keyed m -> loopAt id f l m ->
  (Z.max (f_size f - offset l) 0 < Z.of_nat n)%Z ->
  findLoop id (loops (run stringify parse (turns stringify parse n id m) m)) = None.
Proof.
  induction n as [|n IH]; intros m l Hsound Hkey Hat Hn; [lia|].
  cbn [turns]. rewrite framed_run_app.
  set (evs := drainChannels (dataChannels m) ++ [Top id; BufferRead id]).
  destruct (one_turn id f l m Hsound Hkey Hat) as [Hend|(l' & Hat' & Hp' & Ho' & Hlt)].
  - by apply turns_idle.
  - fold evs in Hat'. apply (IH _ l'); try done.
    + by apply sound_run.
    + by apply keyed_run.
    + pose proof CHUNK_SIZE_pos. lia.
Qed.

Lemma turns_leave p n id : forall m, Forall (leaves p id) (turns stringify parse n id m).
Proof.
  induction n as [|n IH]; intros m; [constructor|].
  cbn [turns]. rewrite !Forall_app. split; [split|apply IH].
  - unfold drainChannels. apply Forall_fmap, Forall_forall. by intros e _.
  - by repeat constructor.
Qed.

(** X16. Whatever the file and the state of the buffers, some schedule takes
    the loop of the transfer to its end. *)
Lemma framed_transfer_can_end (evs0 : list Event) (id : TransferId) (f : File) (p : PeerId) :
  let sender := run stringify parse evs0 initial in
  findLoop id (loops sender) = None ->
  exists evs,
    Forall (leaves p id) evs /\
    findLoop id (loops (run stringify parse evs (sendFile id f sender))) = None.
Proof.
  intros sender Hfresh.
  assert (Hsound : sound sender) by apply sound_run, sound_initial.
  assert (Hkey : keyed sender).
  { apply keyed_run. intros i t. simpl. by rewrite lookup_empty. }
  assert (Hsound' : sound (sendFile id f sender)) by (apply (sound_handle (SendFile id f)); exact Hsound).
  assert (Hkey' : keyed (sendFile id f sender)) by (apply (keyed_handle (SendFile id f)); exact Hkey).
  exists (turns stringify parse (S (Z.to_nat (f_size f))) id (sendFile id f sender)).
  split; [apply turns_leave|].
  assert (Hstart : findLoop id (loops (sendFile id f sender)) = None \/
                   exists l, loopAt id f l (sendFile id f sender) /\ offset l = 0%Z).
  { unfold sendFile. destruct (getConnectedPeers (dataChannels sender)); [by left|].
    match goal with |- context [sendNextChunk ?ll ?tt ?mm] =>
      set (l0 := ll); set (t0 := tt); set (m1 := mm) end.
    assert (Hl0 : findLoop id (loops m1) = Some l0) by (by apply findLoop_app_fresh).
    assert (Ht0 : transfers m1 !! id = Some t0) by (unfold m1; simpl; by rewrite lookup_insert_eq).
    unfold sendNextChunk.
    destruct (Z.leb_spec (f_size (t_file t0)) (offset l0)) as [Hle|Hgt].
    - left. simpl. apply findLoop_remove_same.
    - right. destruct (overBuffer _ _).
      + eexists. split.
        * split; [|split]; simpl.
          -- by eapply findLoop_setLoop_same.
          -- by exists t0.
          -- done.
        * reflexivity.
      + eexists. split.
        * split; [|split]; simpl.
          -- by eapply findLoop_setLoop_same.
          -- by exists t0.
          -- by intros _.
        * reflexivity. }
  destruct Hstart as [Hnone|(l & Hat & Ho)]; [by apply turns_idle|].
  apply (turns_end _ id f _ l); try done.
  rewrite Ho. unfold f_size. lia.
Qed.

End Codec.

(** C3, as stated, fails for the framed manager: [sendFile] has no queue and
    no lock, every call starts streaming at once, and two files handed over
    one after the other are both in [sending] status. *)
Lemma sendFile_twice_both_sending :
  ~ (forall (evs : list Event) (id1 id2 : TransferId) (t1 t2 : Transfer),
        transfers (run noText noParse evs initial) !! id1 = Some t1 ->
        transfers (run noText noParse evs initial) !! id2 = Some t2 ->
        t_status t1 = sending -> t_status t2 = sending -> id1 = id2).
Proof.
  intros H.
  assert (E : "transfer_1" = "transfer_2"); [|discriminate E].
  eapply (H twoFiles); by vm_compute.
Qed.

(** *** [broadcast] and [sendToPeer] *)

Lemma sendToPeer_other (p k : PeerId) (c : Channel) (d : Payload) (cs : list (PeerId * Channel)) :
  p <> k -> (sendToPeer p d ((k, c) :: cs)).1 = (k, c) :: (sendToPeer p d cs).1.
Proof.
  intros Hne. apply String.eqb_neq in Hne. unfold sendToPeer. simpl. rewrite Hne.
  destruct (map_get p cs) as [ch|]; [|done]. by destruct (isOpen ch).
Qed.

Lemma sendToPeer_each_other (k : PeerId) (c : Channel) (d : Payload) (ps : list PeerId) :
  forall cs, ~ In k ps ->
    foldl (fun cs' p => (sendToPeer p d cs').1) ((k, c) :: cs) ps
    = (k, c) :: foldl (fun cs' p => (sendToPeer p d cs').1) cs ps.
Proof.
  induction ps as [|p ps IH]; intros cs Hk; [done|]. simpl in *.
  rewrite sendToPeer_other by (intros ->; tauto). apply IH. tauto.
Qed.

Lemma getConnectedPeers_keys (cs : list (PeerId * Channel)) (p : PeerId) :
  In p (getConnectedPeers cs) -> In p (map fst cs).
Proof.
  unfold getConnectedPeers. rewrite !in_map_iff. intros ([k c] & <- & Hin).
  apply filter_In in Hin as [Hin _]. by exists (k, c).
Qed.

Lemma sendToPeer_each (d : Payload) (cs : list (PeerId * Channel)) :
  List.NoDup (map fst cs) ->
  foldl (fun cs' p => (sendToPeer p d cs').1) cs (getConnectedPeers cs) = broadcast d cs.
Proof.
  induction cs as [|[k c] cs IH]; intros Hnd; [done|].
  inversion Hnd as [|? ? Hnotin Hnd']; subst.
  assert (Hk : ~ In k (getConnectedPeers cs)).
  { intros Hin. by apply Hnotin, getConnectedPeers_keys. }
  unfold getConnectedPeers, broadcast in *. cbn [List.filter map fst snd].
  destruct (isOpen c) eqn:Ho; cbn [map foldl fst].
  - unfold sendToPeer at 2. cbn [map_get]. rewrite String.eqb_refl, Ho. cbn [fst map_set].
    rewrite String.eqb_refl. rewrite sendToPeer_each_other by done. by rewrite IH.
  - rewrite sendToPeer_each_other by done. by rewrite IH.
Qed.

Lemma isConnected_listed (p : PeerId) (cs : list (PeerId * Channel)) :
  isConnected p cs = true -> In p (getConnectedPeers cs).
Proof.
  unfold isConnected, getConnectedPeers.
  induction cs as [|[k c] cs IH]; simpl; [done|].
  destruct (String.eqb_spec p k) as [->|Hne].
  - intros ->. by left.
  - intros H. destruct (isOpen c); [right|]; by apply IH.
Qed.

Lemma listed_isConnected (p : PeerId) (cs : list (PeerId * Channel)) :
  List.NoDup (map fst cs) -> In p (getConnectedPeers cs) -> isConnected p cs = true.
Proof.
  unfold isConnected, getConnectedPeers.
  induction cs as [|[k c] cs IH]; simpl; [done|]. intros Hnd.
  inversion Hnd as [|? ? Hnotin Hnd']; subst.
  destruct (String.eqb_spec p k) as [->|Hne].
  - destruct (isOpen c); [done|]. intros Hin. exfalso. apply Hnotin.
    by apply getConnectedPeers_keys.
  - destruct (isOpen c); simpl; [|by apply IH]. intros [->|Hin]; [done | by apply IH].
Qed.

(** X12. [broadcast] does what [sendToPeer] does for each connected peer in
    turn: sending to the peers that [getConnectedPeers] lists, one after
    the other, leaves the channels as one [broadcast] does; [sendToPeer]
    reports success exactly for the peers that [isConnected] accepts, and
    these are the peers listed. *)
Theorem broadcast_is_sendToPeer_to_each (d : Payload) (cs : list (PeerId * Channel)) :
  List.NoDup (map fst cs) ->
  foldl (fun cs' p => (sendToPeer p d cs').1) cs (getConnectedPeers cs) = broadcast d cs /\
  forall p, (sendToPeer p d cs).2 = isConnected p cs /\
            (isConnected p cs = true <-> In p (getConnectedPeers cs)).
Proof.
  intros Hnd. split; [by apply sendToPeer_each|]. intros p. split.
  - unfold sendToPeer, isConnected. destruct (map_get p cs) as [c|]; [|done].
    by destruct (isOpen c).
  - split; [apply isConnected_listed | by apply listed_isConnected].
Qed.

Section Receiving.
Variable stringify : Header -> list byte.
Variable parse : list byte -> option Header.

(** *** A transfer that was not announced *)

Lemma about_app (id : TransferId) (cs cs' : list Callback) :
  List.filter (about id) (cs ++ cs') = List.filter (about id) cs ++ List.filter (about id) cs'.
Proof. apply List.filter_app. Qed.

Lemma unannounced_message (q : PeerId) (id : TransferId) (d : Payload) (m : Manager) :
  receivingFiles m !! id = None -> announces id d = false ->
  receivingFiles (handleMessage parse q d m) !! id = None /\
  List.filter (about id) (calls (handleMessage parse q d m)) = List.filter (about id) (calls m).
Proof.
  intros Hnone Hd. destruct d as [[i nm sz ty n|i]|bytes]; simpl in *.
  - apply String.eqb_neq in Hd. rewrite lookup_insert_ne by done. split; [done|].
    rewrite about_app. simpl. apply String.eqb_neq in Hd. by rewrite Hd, app_nil_r.
  - unfold handleFileComplete. destruct (receivingFiles m !! i) as [r|] eqn:Hi; [|done].
    assert (Hne : i <> id) by congruence. simpl.
    rewrite lookup_delete_ne by done. split; [done|].
    rewrite about_app. simpl. apply String.eqb_neq in Hne. by rewrite Hne, app_nil_r.
  - rewrite handleBinaryMessage_unframe. destruct (unframe parse bytes) as [[h data]|]; [|done].
    unfold handleFileChunk. destruct (receivingFiles m !! h_transferId h) as [r|] eqn:Hh; [|done].
    assert (Hne : h_transferId h <> id) by congruence. simpl.
    by rewrite lookup_insert_ne.
Qed.

(** X14. Without its announcement a transfer leaves no trace: a receiver
    that holds no entry for a transfer and is handed messages among which
    none announces it (its chunks and its completion message, say, as a
    peer gets them whose channel opened after [sendFile] had sent the
    announcement) ends without an entry for it, and the application is
    told nothing about it. *)
Theorem unannounced_transfer_is_ignored (q : PeerId) (id : TransferId) (w : list Payload)
    (m : Manager) :
  receivingFiles m !! id = None ->
  Forall (fun d => announces id d = false) w ->
  receivingFiles (handleAll parse q w m) !! id = None /\
  List.filter (about id) (calls (handleAll parse q w m)) = List.filter (about id) (calls m).
Proof.
  revert m. induction w as [|d w IH]; intros m Hnone Hall; [done|].
  inversion Hall as [|? ? Hd Hw]; subst.
  destruct (unannounced_message q id d m Hnone Hd) as [Hnone' Hcalls].
  rewrite handleAll_cons. destruct (IH _ Hnone' Hw) as [H1 H2]. split; [done|]. congruence.
Qed.

(** *** Chunks in any order *)

Section Reordered.
Variable id : TransferId.
Variable f : File.

Hypothesis own_header : forall i, (i < chunkCount f)%nat ->
  let h := chunkHeader id (Z.of_nat i) in
  parse (stringify h) = Some h /\
  Forall (fun b => b <> newline) (stringify h) /\
  (length (stringify h) < 500)%nat.

Lemma handleAll_own_chunks (q : PeerId) (order : list nat) :
  forall (m : Manager) (r : Receiving),
    Forall (fun i => (i < chunkCount f)%nat) order ->
    receivingFiles m !! id = Some r ->
    exists r',
      receivingFiles (handleAll parse q (map (chunkMessage stringify id f) order) m) !! id
      = Some r' /\
      calls (handleAll parse q (map (chunkMessage stringify id f) order) m) = calls m /\
      r_chunks r' = r_chunks r /\ r_name r' = r_name r /\
      forall i, In i order \/
                (exists c, receivedChunks r !! Z.of_nat i = Some c /\ c = chunkAt f i) ->
                receivedChunks r' !! Z.of_nat i = Some (chunkAt f i).
Proof.
  induction order as [|j order IH]; intros m r Hall Hr.
  { exists r. repeat split; try done. intros i [[]|(c & Hc & ->)]. done. }
  inversion Hall as [|? ? Hj Hrest]; subst.
  cbn [map]. rewrite handleAll_cons.
  change (handleMessage parse q (chunkMessage stringify id f j) m)
    with (handleBinaryMessage parse q
            (framed stringify (chunkHeader id (Z.of_nat j)) (chunkAt f j)) m).
  rewrite handleBinaryMessage_unframe, (unframe_own stringify parse id f own_header) by done.
  destruct (handleFileChunk_known q (chunkHeader id (Z.of_nat j)) (chunkAt f j) m r Hr)
    as (r1 & Hr1 & _ & Hparts1 & _ & Hn1 & Hname1).
  assert (Hcalls : calls (handleFileChunk q (chunkHeader id (Z.of_nat j)) (chunkAt f j) m)
                   = calls m).
  { unfold handleFileChunk. simpl. by rewrite Hr. }
  destruct (IH _ r1 Hrest Hr1) as (r' & Hr' & Hcalls' & Hn' & Hname' & Hparts').
  exists r'. split; [done|]. split; [congruence|]. split; [congruence|]. split; [congruence|].
  intros i Hi. apply Hparts'. destruct (decide (i = j)) as [->|Hne].
  - right. exists (chunkAt f j). split; [|done]. rewrite Hparts1. simpl.
    by rewrite lookup_insert_eq.
  - destruct Hi as [[->|Hin]|(c & Hc & ->)]; [done | by left |].
    right. exists (chunkAt f i). split; [|done]. rewrite Hparts1. simpl.
    rewrite lookup_insert_ne by lia. done.
Qed.

(** X13. The framed manager puts a file together by the index in the chunk
    headers, not by the order of arrival: whatever the order in which the
    chunks of a transfer come in between its announcement and its
    completion message, the application is handed the file byte for
    byte. The header codec is asked to read back the headers of this
    transfer, which are shorter than 500 bytes and hold no line feed. *)
Theorem chunks_in_any_order_give_the_file (q : PeerId) (w : list Payload) (m : Manager) :
  Permutation w (chunkMessages stringify id f 0 (chunkCount f)) ->
  receivedFor id
    (calls (handleAll parse q (announcement id f :: w ++ [Text (FileComplete id)]) m))
  = receivedFor id (calls m) ++ [(f_name f, f_bytes f)].
Proof.
  intros Hperm. unfold chunkMessages in Hperm.
  apply Permutation_map_inv in Hperm as (order & -> & Hperm).
  assert (Hall : Forall (fun i => (i < chunkCount f)%nat) order).
  { apply Forall_forall. intros i Hi. apply list_elem_of_In in Hi.
    apply (Permutation_in _ (Permutation_sym Hperm)) in Hi. apply in_seq in Hi. lia. }
  rewrite handleAll_cons. unfold announcement at 1. cbn [handleMessage].
  set (m1 := handleFileInfo q id (f_name f) (f_size f) (f_type f)
               (ceilDiv (f_size f) CHUNK_SIZE) m).
  assert (Hr1 : exists r1, receivingFiles m1 !! id = Some r1 /\
                           r_chunks r1 = ceilDiv (f_size f) CHUNK_SIZE /\
                           r_name r1 = f_name f).
  { eexists. split; [unfold m1, handleFileInfo; simpl; apply lookup_insert_eq|]. done. }
  destruct Hr1 as (r1 & Hr1 & Hn1 & Hname1).
  destruct (handleAll_own_chunks q order m1 r1 Hall Hr1)
    as (r' & Hr' & Hcalls & Hn & Hname & Hparts).
  unfold handleAll in *. rewrite foldl_app. simpl.
  unfold handleFileComplete. rewrite Hr'. simpl.
  rewrite Hcalls. unfold m1. simpl. rewrite !receivedFor_app. simpl. rewrite String.eqb_refl.
  rewrite app_nil_r. f_equal. f_equal. rewrite Hname, Hname1. f_equal. rewrite Hn1 in Hn.
  rewrite Hn, <- chunkCount_Z, (collect_all _ _ (chunkAt f)).
  - unfold Blob. apply chunks_whole.
  - intros i Hi. apply Hparts. left. apply (Permutation_in _ Hperm). apply in_seq. lia.
Qed.

End Reordered.

(** *** The bytes stored and the bytes counted *)

Lemma stored_insert (parts : gmap Z (list byte)) (i : Z) (c : list byte) :
  parts !! i = None -> stored (<[i := c]> parts) = (Z.of_nat (length c) + stored parts)%Z.
Proof.
  intros Hnone. unfold stored.
  rewrite (map_fold_insert_L (fun _ chunk total => (Z.of_nat (length chunk) + total)%Z));
    [done | intros; lia | done].
Qed.

Lemma stored_nonneg (parts : gmap Z (list byte)) : (0 <= stored parts)%Z.
Proof.
  induction parts as [|i c parts Hnone IH] using map_ind; [done|].
  rewrite stored_insert by done. lia.
Qed.

Lemma stored_delete (parts : gmap Z (list byte)) (i : Z) :
  stored parts
  = (match parts !! i with Some c => Z.of_nat (length c) | None => 0 end
     + stored (delete i parts))%Z.
Proof.
  destruct (parts !! i) as [c|] eqn:Hi.
  - rewrite <- (insert_delete_id parts i c Hi) at 1.
    rewrite stored_insert; [done | apply lookup_delete_eq].
  - by rewrite delete_id.
Qed.

Lemma stored_overwrite (parts : gmap Z (list byte)) (i : Z) (c : list byte) :
  (stored (<[i := c]> parts) <= Z.of_nat (length c) + stored parts)%Z.
Proof.
  rewrite <- insert_delete_eq. rewrite stored_insert by apply lookup_delete_eq.
  rewrite (stored_delete parts i). destruct (parts !! i); lia.
Qed.

Lemma collect_S (n : nat) (parts : gmap Z (list byte)) :
  collect (Z.of_nat (S n)) parts
  = collect (Z.of_nat n) parts
    ++ match parts !! Z.of_nat n with Some c => [c] | None => [] end.
Proof.
  unfold collect. rewrite !Nat2Z.id, seq_S. simpl.
  rewrite omap_app. simpl. by destruct (parts !! Z.of_nat n).
Qed.

Lemma collect_delete (n : nat) (parts : gmap Z (list byte)) (i : Z) :
  (Z.of_nat n <= i)%Z -> collect (Z.of_nat n) (delete i parts) = collect (Z.of_nat n) parts.
Proof.
  intros Hi. induction n as [|n IH]; [done|].
  rewrite !collect_S, IH by lia. by rewrite lookup_delete_ne by lia.
Qed.

Lemma collect_within (n : nat) :
  forall parts, (Z.of_nat (length (concat (collect (Z.of_nat n) parts))) <= stored parts)%Z.
Proof.
  induction n as [|n IH]; intros parts.
  { unfold collect. simpl. apply stored_nonneg. }
  rewrite collect_S, concat_app, length_app, Nat2Z.inj_add.
  rewrite <- (collect_delete n parts (Z.of_nat n)) by lia.
  rewrite (stored_delete parts (Z.of_nat n)). specialize (IH (delete (Z.of_nat n) parts)).
  destruct (parts !! Z.of_nat n); simpl; rewrite ?app_nil_r; lia.
Qed.

Lemma collect_negative (n : Z) (parts : gmap Z (list byte)) :
  (n <= 0)%Z -> collect n parts = [].
Proof. intros Hn. unfold collect. by replace (Z.to_nat n) with 0%nat by lia. Qed.

Lemma covered_message (q : PeerId) (d : Payload) (m : Manager) :
  covered m -> covered (handleMessage parse q d m).
Proof.
  unfold covered. intros Hc. destruct d as [[i nm sz ty n|i]|bytes]; simpl.
  - intros j r. simpl. destruct (decide (j = i)) as [->|Hne].
    + rewrite lookup_insert_eq. by intros [= <-].
    + rewrite lookup_insert_ne by done. apply Hc.
  - unfold handleFileComplete. destruct (receivingFiles m !! i) as [r0|]; [|done].
    intros j r. simpl. rewrite lookup_delete_Some. intros [_ H]. by apply (Hc j).
  - rewrite handleBinaryMessage_unframe. destruct (unframe parse bytes) as [[h data]|]; [|done].
    unfold handleFileChunk. destruct (receivingFiles m !! h_transferId h) as [r0|] eqn:Hh; [|done].
    intros j r. simpl. destruct (decide (j = h_transferId h)) as [->|Hne].
    + rewrite lookup_insert_eq. intros [= <-]. simpl.
      pose proof (stored_overwrite (receivedChunks r0) (h_index h) data).
      pose proof (Hc _ _ Hh). lia.
    + rewrite lookup_insert_ne by done. apply Hc.
Qed.

Lemma receivingFiles_sendNextChunk (l : Loop) (t : Transfer) (m : Manager) :
  receivingFiles (sendNextChunk l t m) = receivingFiles m.
Proof.
  unfold sendNextChunk. destruct (_ <=? _)%Z; [done|]. by destruct (overBuffer _ _).
Qed.

Lemma covered_handle (ev : Event) (m : Manager) :
  covered m -> covered (handle stringify parse ev m).
Proof.
  intros Hc.
  assert (Hsame : forall m', receivingFiles m' = receivingFiles m -> covered m').
  { intros m' E j r. rewrite E. apply Hc. }
  destruct ev as [i file|i|i|q n|q|q d]; simpl.
  - apply Hsame. unfold sendFile. destruct (getConnectedPeers _); [done|].
    by rewrite receivingFiles_sendNextChunk.
  - apply Hsame. destruct (findLoop i (loops m)) as [l|]; [|done].
    destruct (transfers m !! i) as [t|]; [|done].
    destruct (l_phase l); [apply receivingFiles_sendNextChunk | done].
  - apply Hsame. destruct (findLoop i (loops m)) as [l|]; [|done].
    destruct (transfers m !! i) as [t|]; [|done]. by destruct (l_phase l).
  - apply Hsame. unfold drain. destruct (map_get q (dataChannels m)); [|done].
    by destruct (_ && _).
  - by apply Hsame.
  - by apply covered_message.
Qed.

Lemma covered_run (evs : list Event) (m : Manager) :
  covered m -> covered (run stringify parse evs m).
Proof.
  revert m. induction evs as [|ev evs IH]; intros m Hc; [done|].
  simpl. by apply IH, covered_handle.
Qed.

(** X15. What [handleFileComplete] hands to the application is never
    longer than the bytes counted for the transfer: in every state of the
    manager, the blob put together from an entry of [receivingFiles] holds
    at most [bytesReceived] bytes. (A chunk that arrives twice is counted
    twice and stored once, and a chunk whose index is not below the
    announced number of chunks is counted and left out.) *)
Theorem blob_within_bytes_received (evs : list Event) (id : TransferId) (r : Receiving) :
  receivingFiles (run stringify parse evs initial) !! id = Some r ->
  (Z.of_nat (length (Blob (collect (r_chunks r) (receivedChunks r)))) <= bytesReceived r)%Z.
Proof.
  intros Hr.
  assert (Hc : covered (run stringify parse evs initial)).
  { apply covered_run. intros j r0. simpl. by rewrite lookup_empty. }
  specialize (Hc _ _ Hr). unfold Blob.
  destruct (Z.le_gt_cases (r_chunks r) 0) as [Hle|Hgt].
  - rewrite collect_negative by done. simpl. pose proof (stored_nonneg (receivedChunks r)). lia.
  - rewrite <- (Z2Nat.id (r_chunks r)) by lia.
    pose proof (collect_within (Z.to_nat (r_chunks r)) (receivedChunks r)). lia.
Qed.

End Receiving.

(** *** Concrete runs *)

Lemma pair_own_header : forall i, (i < chunkCount twoChunks)%nat ->
  let h := chunkHeader "t" (Z.of_nat i) in
  pairParse (pairStringify h) = Some h /\
  Forall (fun b => b <> newline) (pairStringify h) /\
  (length (pairStringify h) < 500)%nat.
Proof.
  intros i Hi. assert (Hc : chunkCount twoChunks = 2%nat) by (by vm_compute).
  rewrite Hc in Hi. destruct i as [|[|i]]; [| |lia].
  - split; [reflexivity|]. split; [|simpl; lia]. repeat constructor. discriminate.
  - split; [reflexivity|]. split; [|simpl; lia]. repeat constructor. discriminate.
Qed.

Lemma chunks_in_any_order_give_the_file_witness :
  Permutation [chunkMessage pairStringify "t" twoChunks 1;
               chunkMessage pairStringify "t" twoChunks 0]
              (chunkMessages pairStringify "t" twoChunks 0 (chunkCount twoChunks)) /\
  receivedFor "t"
    (calls (handleAll pairParse "peer"
              (announcement "t" twoChunks
               :: [chunkMessage pairStringify "t" twoChunks 1;
                   chunkMessage pairStringify "t" twoChunks 0]
               ++ [Text (FileComplete "t")]) initial))
  = receivedFor "t" (calls initial) ++ [(f_name twoChunks, f_bytes twoChunks)].
Proof.
  assert (Hc : chunkCount twoChunks = 2%nat) by (by vm_compute).
  assert (Hperm : Permutation [chunkMessage pairStringify "t" twoChunks 1;
                               chunkMessage pairStringify "t" twoChunks 0]
                    (chunkMessages pairStringify "t" twoChunks 0 (chunkCount twoChunks))).
  { rewrite Hc. unfold chunkMessages. cbn [seq map]. apply perm_swap. }
  split; [exact Hperm|].
  exact (chunks_in_any_order_give_the_file pairStringify pairParse "t" twoChunks
           pair_own_header "peer" _ initial Hperm).
Defined.

Lemma unannounced_transfer_is_ignored_witness :
  receivingFiles initial !! "transfer_1" = None /\
  Forall (fun d => announces "transfer_1" d = false)
         [chunkMessage tinyStringify "transfer_1" note 0; Text (FileComplete "transfer_1")] /\
  receivingFiles
    (handleAll tinyParse "peer"
       [chunkMessage tinyStringify "transfer_1" note 0; Text (FileComplete "transfer_1")]
       initial) !! "transfer_1" = None /\
  List.filter (about "transfer_1")
    (calls (handleAll tinyParse "peer"
              [chunkMessage tinyStringify "transfer_1" note 0;
               Text (FileComplete "transfer_1")] initial))
  = List.filter (about "transfer_1") (calls initial).
Proof.
  assert (Hall : Forall (fun d => announces "transfer_1" d = false)
                   [chunkMessage tinyStringify "transfer_1" note 0;
                    Text (FileComplete "transfer_1")])
    by (by repeat constructor).
  split; [reflexivity|]. split; [exact Hall|].
  exact (unannounced_transfer_is_ignored tinyParse "peer" "transfer_1" _ initial
           eq_refl Hall).
Defined.

Lemma broadcast_is_sendToPeer_to_each_witness :
  List.NoDup (map fst [("ann", {| readyState := open; bufferedAmount := 0; sent := [] |});
                       ("bob", {| readyState := closed; bufferedAmount := 0; sent := [] |})]) /\
  foldl (fun cs' p => (sendToPeer p (Text (FileComplete "t")) cs').1)
        [("ann", {| readyState := open; bufferedAmount := 0; sent := [] |});
         ("bob", {| readyState := closed; bufferedAmount := 0; sent := [] |})]
        ["ann"]
  = [("ann", {| readyState := open; bufferedAmount := 0;
                sent := [Text (FileComplete "t")] |});
     ("bob", {| readyState := closed; bufferedAmount := 0; sent := [] |})].
Proof.
  assert (Hnd : List.NoDup (map fst
            [("ann", {| readyState := open; bufferedAmount := 0; sent := [] |});
             ("bob", {| readyState := closed; bufferedAmount := 0; sent := [] |})])).
  { repeat constructor; simpl; [|tauto]. intros [H|[]]. discriminate H. }
  split; [exact Hnd|].
  exact (proj1 (broadcast_is_sendToPeer_to_each (Text (FileComplete "t")) _ Hnd)).
Defined.

Lemma blob_within_bytes_received_witness :
  receivingFiles (run tinyStringify tinyParse twice initial) !! "transfer_1"
  = Some {| r_id := "transfer_1"; r_name := "a"; r_size := 1; r_type := "text/plain";
            r_chunks := 1; receivedChunks := {[0%Z := [x61]]}; bytesReceived := 2;
            senderId := "peer"; r_status := receiving |} /\
  (Z.of_nat (length (Blob (collect 1 ({[0%Z := [x61]]} : gmap Z (list byte))))) <= 2)%Z.
Proof.
  assert (Hr : receivingFiles (run tinyStringify tinyParse twice initial) !! "transfer_1"
               = Some {| r_id := "transfer_1"; r_name := "a"; r_size := 1;
                         r_type := "text/plain"; r_chunks := 1;
                         receivedChunks := {[0%Z := [x61]]}; bytesReceived := 2;
                         senderId := "peer"; r_status := receiving |})
    by (by vm_compute).
  split; [exact Hr|].
  exact (blob_within_bytes_received tinyStringify tinyParse twice "transfer_1" _ Hr).
Defined.

Lemma framed_transfer_can_end_witness :
  findLoop "transfer_1"
    (loops (run tinyStringify tinyParse [ChannelOpen "peer"] initial)) = None /\
  exists evs,
    Forall (leaves "peer" "transfer_1") evs /\
    findLoop "transfer_1"
      (loops (run tinyStringify tinyParse evs
                (sendFile "transfer_1" note
                   (run tinyStringify tinyParse [ChannelOpen "peer"] initial)))) = None.
Proof.
  split; [reflexivity|].
  exact (framed_transfer_can_end tinyStringify tinyParse [ChannelOpen "peer"]
           "transfer_1" note "peer" eq_refl).
Defined.

Lemma framed_transfer_arrives_witness :
  exists w : list Payload,
    sentTo "peer"
      (run tinyStringify tinyParse [BufferRead "transfer_1"; Top "transfer_1"]
         (sendFile "transfer_1" note
            (run tinyStringify tinyParse [ChannelOpen "peer"] initial)))
    = Some ([] ++ w) /\
    List.filter (concerns tinyParse "transfer_1") w
    = announcement "transfer_1" note
      :: chunkMessages tinyStringify "transfer_1" note 0 (chunkCount note)
      ++ [Text (FileComplete "transfer_1")] /\
    forall (q : PeerId) (receiver : Manager),
      receivedFor "transfer_1" (calls (handleAll tinyParse q w receiver))
      = receivedFor "transfer_1" (calls receiver) ++ [("a", [x61])].
Proof.
  assert (Hown : forall i, (i < chunkCount note)%nat ->
            let h := chunkHeader "transfer_1" (Z.of_nat i) in
            tinyParse (tinyStringify h) = Some h /\
            Forall (fun b => b <> newline) (tinyStringify h) /\
            (length (tinyStringify h) < 500)%nat).
  { intros i Hi. assert (i = 0%nat) as -> by (vm_compute in Hi; lia).
    split; [reflexivity|]. split; [|simpl; lia].
    repeat constructor; discriminate. }
  assert (Hother : forall h data h' data',
            h_transferId h <> "transfer_1" ->
            unframe tinyParse (framed tinyStringify h data) = Some (h', data') ->
            h_transferId h' <> "transfer_1").
  { intros h data h' data' Hne Hun. exfalso.
    unfold unframe, framed, tinyStringify in Hun.
    apply String.eqb_neq in Hne. rewrite Hne, andb_false_r in Hun. simpl in Hun.
    discriminate Hun. }
  assert (Hkeeps : Forall (leaves "peer" "transfer_1")
                     [BufferRead "transfer_1"; Top "transfer_1"])
    by (by repeat constructor).
  exact (framed_transfer_arrives tinyStringify tinyParse "transfer_1" note "peer" []
           Hown Hother [ChannelOpen "peer"] [BufferRead "transfer_1"; Top "transfer_1"]
           {| readyState := open; bufferedAmount := 0; sent := [] |}
           eq_refl eq_refl eq_refl eq_refl Hkeeps eq_refl).
Defined.

End FramedFacts.

(** * Properties of the raw-stream transfer engine *)

Module VeloFacts.
Import Js JsFacts Velo.

(** ** One transfer streams at a time *)

Lemma streams_sendNextChunk s app :
  streams (sendNextChunk s app)
  = putStream {| s_id := s_id s; s_file := s_file s; s_offset := s_offset s;
                 s_phase := if (bufferThreshold <? totalBuffered (connections app))%Z
                            then AwaitCheck else Reading |} (streams app).
Proof. reflexivity. Qed.

Lemma length_putStream s ss : length (putStream s ss) = length ss.
Proof. apply length_map. Qed.

Lemma putStream_single s s0 :
  s_id s0 = s_id s -> putStream s [s0] = [s].
Proof. intros H. unfold putStream. simpl. by rewrite H, Z.eqb_refl. Qed.

Lemma dropStream_single s : dropStream (s_id s) [s] = [].
Proof. unfold dropStream. simpl. by rewrite Z.eqb_refl. Qed.

Lemma findStream_single id s0 s :
  findStream id [s0] = Some s -> s = s0 /\ s_id s0 = id.
Proof.
  unfold findStream. simpl. destruct (Z.eqb_spec (s_id s0) id); [|done].
  intros [= <-]. done.
Qed.

Lemma serial_initial me : serial (initial me).
Proof. split; simpl; [lia | done | split; [lia | constructor]]. Qed.

Lemma serial_sendNextChunk s app :
  serial app -> Forall (fun s' => s_id s' = s_id s) (streams app) ->
  serial (sendNextChunk s app).
Proof.
  intros [Hone Hlock [Hpos Hids]] Hsame. split.
  - by rewrite streams_sendNextChunk, length_putStream.
  - rewrite streams_sendNextChunk. intros Hne. apply Hlock. intros E.
    rewrite E in Hne. by apply Hne.
  - split; [done|]. rewrite streams_sendNextChunk. unfold putStream.
    apply Forall_fmap, Forall_forall. intros s' Hin. simpl.
    rewrite Forall_forall in Hids, Hsame.
    rewrite (Hsame _ Hin), Z.eqb_refl. simpl. rewrite <- (Hsame _ Hin). by apply Hids.
Qed.

Lemma serial_sendFile file app :
  serial app -> streams app = [] -> serial (sendFile file app).
Proof.
  intros [Hone Hlock [Hpos Hids]] Hidle. unfold sendFile.
  apply serial_sendNextChunk; simpl; rewrite Hidle; simpl.
  - split; simpl; rewrite ?Hidle; simpl; [lia | done | split; [lia|]].
    repeat constructor; simpl; lia.
  - by repeat constructor.
Qed.

Lemma serial_processTransferQueue app : serial app -> serial (processTransferQueue app).
Proof.
  intros Hs. unfold processTransferQueue.
  destruct (isSending app) eqn:Hlock; [done|].
  destruct (sendingQueue app) as [|file rest]; [done|].
  assert (Hidle : streams app = []).
  { destruct (streams app) eqn:E; [done|].
    destruct Hs as [_ Hl _]. rewrite E in Hl. by rewrite Hl in Hlock. }
  apply serial_sendFile; [|done]. by destruct Hs.
Qed.

Lemma serial_same app app' :
  serial app -> streams app' = streams app -> isSending app' = isSending app ->
  transferId app' = transferId app -> serial app'.
Proof. intros [H1 H2 H3] Hs Hi Ht. split; by rewrite ?Hs, ?Hi, ?Ht. Qed.

Lemma serial_onload s app :
  serial app -> findStream (s_id s) (streams app) = Some s -> serial (onload s app).
Proof.
  intros Hs Hfind.
  assert (Hsingle : streams app = [s]).
  { destruct Hs as [Hone _ _]. destruct (streams app) as [|s0 [|s1 rest]]; simpl in *;
      [done | | lia]. by apply findStream_single in Hfind as [-> _]. }
  unfold onload.
  set (chunk := slice _ _ _).
  destruct (Z.ltb_spec (s_offset s + Z.of_nat (length chunk)) (f_size (s_file s))).
  - apply serial_sendNextChunk; simpl.
    + destruct Hs as [H1 H2 H3]. by split.
    + rewrite Hsingle. by repeat constructor.
  - destruct Hs as [H1 H2 [H3 H4]]. split; simpl; rewrite Hsingle, ?dropStream_single;
      simpl; try done; lia.
Qed.

Lemma handleData_sender peerId data app :
  streams (handleData peerId data app) = streams app /\
  isSending (handleData peerId data app) = isSending app /\
  transferId (handleData peerId data app) = transferId app /\
  sendingQueue (handleData peerId data app) = sendingQueue app.
Proof.
  destruct data as [bytes|nm|id nm sz|id]; simpl.
  - unfold receiveFileChunkRaw. destruct (map_get _ _); [|done].
    destruct (negb _); [done|]. by destruct (transfers app !! _).
  - by destruct (map_get _ _).
  - unfold receiveFileStart, setReceivingId. by destruct (map_get _ _).
  - unfold receiveFileEnd, setReceivingId.
    destruct (map_get _ _); simpl; by destruct (transfers app !! id).
Qed.

Lemma flush_sender peerId n app :
  streams (flush peerId n app) = streams app /\
  isSending (flush peerId n app) = isSending app /\
  transferId (flush peerId n app) = transferId app.
Proof.
  unfold flush. destruct (map_get _ _) as [info|]; [|done].
  destruct (dataChannel (conn info)); [|done]. by destruct (_ && _).
Qed.

Lemma serial_handle ev app : serial app -> serial (handle ev app).
Proof.
  intros Hs. destruct ev as [file| |id|id|peerId n|peerId nm ch|peerId|peerId data]; simpl.
  - apply serial_processTransferQueue. by destruct Hs.
  - by apply serial_processTransferQueue.
  - destruct (findStream id (streams app)) as [s|] eqn:Hfind; [|done].
    destruct (s_phase s); [|done]. apply serial_sendNextChunk; [done|].
    destruct Hs as [Hone _ _]. destruct (streams app) as [|s0 [|s1 rest]]; simpl in *;
      [done | | lia]. apply findStream_single in Hfind as [-> _]. by repeat constructor.
  - destruct (findStream id (streams app)) as [s|] eqn:Hfind; [|done].
    destruct (s_phase s); [done|]. apply serial_onload; [done|].
    assert (s_id s = id) as ->; [|done].
    unfold findStream in Hfind. apply find_some in Hfind as [_ E]. lia.
  - destruct (flush_sender peerId n app) as (H1 & H2 & H3). by eapply serial_same.
  - apply serial_processTransferQueue. by destruct Hs.
  - by destruct Hs.
  - destruct (handleData_sender peerId data app) as (H1 & H2 & H3 & _).
    by eapply serial_same.
Qed.

Lemma serial_run evs app : serial app -> serial (run evs app).
Proof.
  revert app. induction evs as [|ev evs IH]; intros app Hs; [done|].
  apply IH. by apply serial_handle.
Qed.

(** ** What a connection has been sent *)

Lemma wireIn_sendAll p d cs : wireIn p (sendAll d cs) = (fun w => w ++ [d]) <$> wireIn p cs.
Proof.
  unfold wireIn, sendAll. rewrite (map_get_map (sendTo d)).
  by destruct (map_get p cs).
Qed.

Lemma wireIn_set_ne p q v cs : q <> p -> wireIn p (map_set q v cs) = wireIn p cs.
Proof. intros H. unfold wireIn. by rewrite map_get_set_ne. Qed.

Lemma wireIn_set_same p q v info cs :
  map_get q cs = Some info -> sentData (conn v) = sentData (conn info) ->
  wireIn p (map_set q v cs) = wireIn p cs.
Proof.
  intros Hq Hsame. destruct (decide (q = p)) as [->|Hne]; [|by apply wireIn_set_ne].
  unfold wireIn. rewrite map_get_set_eq, Hq. simpl. by rewrite Hsame.
Qed.

Lemma wireIn_delete_ne p q cs : q <> p -> wireIn p (map_delete q cs) = wireIn p cs.
Proof. intros H. unfold wireIn. by rewrite map_get_delete_ne. Qed.

Lemma wire_handleData p q d app : wire p (handleData q d app) = wire p app.
Proof.
  unfold wire. destruct d as [bytes|nm|id nm sz|id]; simpl.
  - unfold receiveFileChunkRaw. destruct (map_get q _); [|done].
    destruct (negb _); [done|]. by destruct (transfers app !! _).
  - destruct (map_get q _) eqn:E; [|done]. simpl. by eapply wireIn_set_same.
  - unfold receiveFileStart, setReceivingId.
    destruct (map_get q _) eqn:E; [|done]. simpl. by eapply wireIn_set_same.
  - unfold receiveFileEnd, setReceivingId.
    destruct (map_get q _) eqn:E; simpl.
    + destruct (transfers app !! id); simpl; by eapply wireIn_set_same.
    + by destruct (transfers app !! id).
Qed.

Lemma wire_flush p q n app : wire p (flush q n app) = wire p app.
Proof.
  unfold wire, flush. destruct (map_get q _) as [info|] eqn:E; [|done].
  destruct (dataChannel (conn info)); [|done]. destruct (_ && _); [|done].
  simpl. by eapply wireIn_set_same.
Qed.

Lemma wire_sendNextChunk p s app : wire p (sendNextChunk s app) = wire p app.
Proof. reflexivity. Qed.

Lemma wire_sendFile p file app :
  wire p (sendFile file app)
  = (fun w => w ++ [FileStart (transferId app + 1) (f_name file) (f_size file)])
      <$> wire p app.
Proof. unfold wire, sendFile. simpl. apply wireIn_sendAll. Qed.

Lemma wire_onload p s app :
  let chunk := slice (f_bytes (s_file s)) (s_offset s) (s_offset s + chunkSize) in
  wire p (onload s app)
  = (fun w => w ++ Binary chunk ::
                if (s_offset s + Z.of_nat (length chunk) <? f_size (s_file s))%Z
                then [] else [FileEnd (s_id s)])
      <$> wire p app.
Proof.
  intros chunk. unfold wire, onload. fold chunk.
  destruct (_ <? _)%Z; simpl.
  - apply wireIn_sendAll.
  - rewrite !wireIn_sendAll. destruct (wireIn p (connections app)); simpl; [|done].
    by rewrite <- app_assoc.
Qed.

Lemma processTransferQueue_locked app :
  isSending app = true ->
  connections (processTransferQueue app) = connections app /\
  streams (processTransferQueue app) = streams app /\
  transferId (processTransferQueue app) = transferId app /\
  isSending (processTransferQueue app) = true.
Proof. intros H. unfold processTransferQueue. by rewrite H. Qed.

(** Whatever happens, a connection that is kept only gets more data. *)
Lemma wire_grows p ev app :
  keeps p ev -> exists extra, wire p (handle ev app) = (fun w => w ++ extra) <$> wire p app.
Proof.
  assert (Hid : forall o : option (list Data), o = (fun w => w ++ []) <$> o).
  { intros [w|]; simpl; [by rewrite app_nil_r | done]. }
  assert (Hq : forall a, (forall file, exists extra,
                 wire p (processTransferQueue
                           {| myUsername := myUsername a; connections := connections a;
                              transfers := transfers a; activeTransfers := activeTransfers a;
                              transferId := transferId a;
                              totalBytesTransferred := totalBytesTransferred a;
                              isSending := isSending a;
                              sendingQueue := sendingQueue a ++ file;
                              streams := streams a; downloads := downloads a |})
                 = (fun w => w ++ extra) <$> wire p a)).
  { intros a file. unfold processTransferQueue. simpl.
    destruct (isSending a); [exists []; apply Hid|].
    destruct (sendingQueue a ++ file) as [|f rest]; [exists []; apply Hid|].
    eexists. rewrite wire_sendFile. reflexivity. }
  intros Hk. destruct ev as [file| |id|id|q n|q nm ch|q|q data]; simpl.
  - apply (Hq app [file]).
  - destruct (Hq app []) as [extra H]. exists extra. rewrite <- H. f_equal.
    destruct app; simpl. by rewrite app_nil_r.
  - destruct (findStream id (streams app)) as [s|]; [|exists []; apply Hid].
    destruct (s_phase s); exists []; apply Hid.
  - destruct (findStream id (streams app)) as [s|]; [|exists []; apply Hid].
    destruct (s_phase s); [exists []; apply Hid|].
    eexists. apply wire_onload.
  - exists []. rewrite wire_flush. apply Hid.
  - simpl in Hk. unfold connOpen.
    set (a := setConnections _ app).
    destruct (Hq a []) as [extra H]. exists extra.
    assert (Ha : wire p a = wire p app) by (apply wireIn_set_ne; done).
    rewrite <- Ha, <- H. f_equal. destruct a; simpl. by rewrite app_nil_r.
  - simpl in Hk. exists []. unfold connClose, wire. simpl.
    rewrite wireIn_delete_ne by done. apply Hid.
  - exists []. rewrite wire_handleData. apply Hid.
Qed.

Lemma streamsStep_same app app' :
  serial app -> streams app' = streams app -> transferId app' = transferId app ->
  streamsStep app app'.
Proof.
  intros [Hone _ _] Hs Ht. split; [lia|]. rewrite Hs.
  destruct (streams app) as [|s0 [|s1 rest]]; simpl in *; [by left | | lia].
  right. exists s0. split; [done|]. left. by exists s0.
Qed.

Lemma streamsStep_sendNextChunk s app :
  streams app = [s] -> streamsStep app (sendNextChunk s app).
Proof.
  intros Hs. split; [simpl; lia|]. right. rewrite streams_sendNextChunk, Hs.
  rewrite putStream_single by done. eexists. split; [done|]. left. by exists s.
Qed.

Lemma streams_sendFile file app :
  streams app = [] ->
  exists s', streams (sendFile file app) = [s'] /\
             s_id s' = (transferId app + 1)%Z /\ s_file s' = file /\ s_offset s' = 0%Z.
Proof.
  intros Hidle. unfold sendFile. rewrite streams_sendNextChunk. simpl. rewrite Hidle. simpl.
  rewrite Z.eqb_refl. by eexists.
Qed.

Lemma streamsStep_processTransferQueue app :
  serial app -> streamsStep app (processTransferQueue app).
Proof.
  intros Hs. unfold processTransferQueue.
  destruct (isSending app) eqn:Hlock; [by apply streamsStep_same|].
  destruct (sendingQueue app) as [|file rest]; [by apply streamsStep_same|].
  assert (Hidle : streams app = []).
  { destruct (streams app) eqn:E; [done|].
    destruct Hs as [_ Hl _]. rewrite E in Hl. by rewrite Hl in Hlock. }
  split; [unfold sendFile; simpl; lia|]. right.
  edestruct (streams_sendFile file) as (s' & -> & Hid & _); [|exists s'; split; [done|]].
  - exact Hidle.
  - right. done.
Qed.

Lemma serial_found app id s :
  serial app -> findStream id (streams app) = Some s -> streams app = [s] /\ s_id s = id.
Proof.
  intros [Hone _ _] Hfind.
  destruct (streams app) as [|s0 [|s1 rest]]; simpl in *; [done | | lia].
  by apply findStream_single in Hfind as [-> ->].
Qed.

Lemma streams_onload s app :
  streams app = [s] ->
  let chunk := slice (f_bytes (s_file s)) (s_offset s) (s_offset s + chunkSize) in
  let offset' := (s_offset s + Z.of_nat (length chunk))%Z in
  transferId (onload s app) = transferId app /\
  if (offset' <? f_size (s_file s))%Z
  then exists ph, streams (onload s app)
                  = [{| s_id := s_id s; s_file := s_file s; s_offset := offset';
                        s_phase := ph |}]
  else streams (onload s app) = [] /\ isSending (onload s app) = false.
Proof.
  intros Hs chunk offset'. unfold onload. fold chunk. fold offset'.
  destruct (offset' <? f_size (s_file s))%Z.
  - split; [done|]. rewrite streams_sendNextChunk. simpl. rewrite Hs.
    rewrite putStream_single by done. by eexists.
  - simpl. rewrite Hs, dropStream_single. done.
Qed.

Lemma streamsStep_handle ev app : serial app -> streamsStep app (handle ev app).
Proof.
  intros Hs. destruct ev as [file| |id|id|q n|q nm ch|q|q data]; simpl.
  - destruct (streamsStep_processTransferQueue
                {| myUsername := myUsername app; connections := connections app;
                   transfers := transfers app; activeTransfers := activeTransfers app;
                   transferId := transferId app;
                   totalBytesTransferred := totalBytesTransferred app;
                   isSending := isSending app; sendingQueue := sendingQueue app ++ [file];
                   streams := streams app; downloads := downloads app |}) as [H1 H2];
      [by destruct Hs | by split].
  - by apply streamsStep_processTransferQueue.
  - destruct (findStream id (streams app)) as [s|] eqn:Hfind; [|by apply streamsStep_same].
    destruct (s_phase s); [|by apply streamsStep_same].
    apply streamsStep_sendNextChunk. by eapply serial_found.
  - destruct (findStream id (streams app)) as [s|] eqn:Hfind; [|by apply streamsStep_same].
    destruct (s_phase s); [by apply streamsStep_same|].
    destruct (serial_found _ _ _ Hs Hfind) as [Hsingle _].
    pose proof (streams_onload s app Hsingle) as [Ht Hc]. cbv zeta in Hc.
    split; [lia|]. destruct (_ <? _)%Z.
    + destruct Hc as [ph ->]. right. eexists. split; [done|]. left. by exists s.
    + left. apply Hc.
  - destruct (flush_sender q n app) as (H1 & H2 & H3). by apply streamsStep_same.
  - destruct (streamsStep_processTransferQueue
                (setConnections
                   (map_set q {| conn := connSend (Handshake (myUsername app))
                                           {| sentData := [];
                                              dataChannel := if ch then Some 0%Z else None |};
                                 username := nm; receivingId := None |}
                            (connections app)) app)) as [H1 H2];
      [by destruct Hs | by split].
  - by apply streamsStep_same.
  - destruct (handleData_sender q data app) as (H1 & H2 & H3 & _). by apply streamsStep_same.
Qed.

(** *** The wire while a transfer runs and after it has ended *)

Lemma inFlight_sendFile p pre f app :
  streams app = [] -> wire p app = Some pre ->
  inFlight p pre f (transferId app + 1) (sendFile f app).
Proof.
  intros Hidle Hw. destruct (streams_sendFile f app Hidle) as (s' & Hs & Hid & Hf & Ho).
  exists s', []. rewrite wire_sendFile, Hw, Ho. simpl. repeat split; try done.
  unfold f_size. lia.
Qed.

Lemma finished_step p pre f id ev app :
  serial app -> keeps p ev -> finished p pre f id app -> finished p pre f id (handle ev app).
Proof.
  intros Hs Hk (cs & more & Hw & Hcs & Hids & Hle).
  destruct (wire_grows p ev app Hk) as [extra Hg].
  destruct (streamsStep_handle ev app Hs) as [Ht Hst].
  exists cs, (more ++ extra). rewrite Hg, Hw. simpl. repeat split; try done; try lia.
  - f_equal. rewrite <- !app_assoc. simpl. f_equal. f_equal.
    by rewrite <- app_assoc.
  - destruct Hst as [-> | (s' & -> & [(s & Hss & Hid & _) | [_ Hid]])]; [constructor | |].
    + rewrite Hss in Hids. apply Forall_cons_1 in Hids as [Hs0 _].
      repeat constructor. lia.
    + repeat constructor. lia.
Qed.

Lemma inFlight_step p pre f id ev app :
  serial app -> keeps p ev -> inFlight p pre f id app ->
  inFlight p pre f id (handle ev app) \/ finished p pre f id (handle ev app).
Proof.
  intros Hs Hk (s & cs & Hss & Hid & Hf & Hw & Hcs & Hoff & Hoff').
  assert (Hlock : isSending app = true).
  { destruct Hs as [_ Hl _]. apply Hl. by rewrite Hss. }
  assert (Hsame : forall app', streams app' = streams app -> wire p app' = wire p app ->
                               inFlight p pre f id app').
  { intros app' H1 H2. exists s, cs. by rewrite H1, H2. }
  destruct ev as [file| |id'|id'|q n|q nm ch|q|q data]; simpl.
  - left. apply Hsame; unfold queueFileForSending, processTransferQueue; simpl;
      by rewrite Hlock.
  - left. apply Hsame; unfold processTransferQueue; by rewrite Hlock.
  - left. destruct (findStream id' (streams app)) as [s0|] eqn:Hfind; [|by apply Hsame].
    destruct (s_phase s0); [|by apply Hsame].
    destruct (serial_found _ _ _ Hs Hfind) as [Hsingle _].
    assert (s0 = s) as -> by congruence.
    eexists _, cs. rewrite streams_sendNextChunk, Hss, putStream_single by done.
    rewrite wire_sendNextChunk. simpl. by repeat split.
  - destruct (findStream id' (streams app)) as [s0|] eqn:Hfind; [|left; by apply Hsame].
    destruct (s_phase s0); [left; by apply Hsame|].
    destruct (serial_found _ _ _ Hs Hfind) as [Hsingle _].
    assert (s0 = s) as -> by congruence.
    pose proof (streams_onload s app Hss) as [Ht Hc].
    pose proof (wire_onload p s app) as Hwo. cbv zeta in Hc, Hwo.
    set (chunk := slice (f_bytes (s_file s)) (s_offset s) (s_offset s + chunkSize)) in *.
    assert (Hcat : concat (cs ++ [chunk])
                   = take (Z.to_nat (s_offset s + Z.of_nat (length chunk))) (f_bytes f)).
    { rewrite concat_app, Hcs. simpl. rewrite app_nil_r. unfold chunk. rewrite Hf.
      by apply take_slice. }
    assert (Hlen : (s_offset s + Z.of_nat (length chunk) <= f_size f)%Z).
    { unfold chunk. rewrite length_slice, Hf by done. unfold f_size in *. lia. }
    rewrite Hw in Hwo. simpl in Hwo.
    destruct (Z.ltb_spec (s_offset s + Z.of_nat (length chunk)) (f_size (s_file s)))
      as [Hlt|Hge].
    + left. destruct Hc as [ph Hc]. eexists _, (cs ++ [chunk]). rewrite Hc, Hwo.
      simpl. repeat split; try done; simpl; try lia.
      f_equal. rewrite <- app_assoc. simpl. by rewrite map_app.
    + right. destruct Hc as [Hc _]. exists (cs ++ [chunk]), []. rewrite Hc, Hwo.
      repeat split; try constructor.
      * f_equal. rewrite <- !app_assoc. simpl. rewrite map_app, <- app_assoc.
        simpl. by rewrite Hid.
      * rewrite Hcat. apply take_ge. rewrite Hf in Hge. unfold f_size in Hge. lia.
      * destruct Hs as [_ _ [_ Hids]]. rewrite Ht. rewrite Hss in Hids.
        apply Forall_cons_1 in Hids as [Hs0 _]. lia.
  - left. destruct (flush_sender q n app) as (H1 & _). apply Hsame; [done|].
    apply wire_flush.
  - left. simpl in Hk. unfold connOpen.
    match goal with
    | |- context [processTransferQueue ?a] =>
        destruct (processTransferQueue_locked a Hlock) as (Hc & Hst & _)
    end.
    apply Hsame; [by rewrite Hst|]. unfold wire. rewrite Hc. simpl.
    by apply wireIn_set_ne.
  - left. simpl in Hk. apply Hsame; [done|]. unfold wire, connClose. simpl.
    by apply wireIn_delete_ne.
  - left. destruct (handleData_sender q data app) as (H1 & _). apply Hsame; [done|].
    apply wire_handleData.
Qed.

Lemma progress_run p pre f id evs app :
  serial app -> Forall (keeps p) evs ->
  inFlight p pre f id app \/ finished p pre f id app ->
  inFlight p pre f id (run evs app) \/ finished p pre f id (run evs app).
Proof.
  revert app. induction evs as [|ev evs IH]; intros app Hs Hk Hp; [done|].
  apply Forall_cons_1 in Hk as [Hk Hks]. simpl. apply IH; [by apply serial_handle | done |].
  destruct Hp as [Hp|Hp].
  - by apply inFlight_step.
  - right. by apply finished_step.
Qed.

(** ** Receiving *)

Lemma receiveFileChunkRaw_active q data app info id t :
  map_get q (connections app) = Some info -> receivingId info = Some id -> id <> 0%Z ->
  transfers app !! id = Some t ->
  let app' := receiveFileChunkRaw q data app in
  connections app' = connections app /\ downloads app' = downloads app /\
  transfers app' = <[id := {| name := name t; size := size t;
                              chunks := chunks t ++ [data];
                              received := (received t + Z.of_nat (length data))%Z |}]>
                     (transfers app).
Proof.
  intros Hq Hid Hne Ht. unfold receiveFileChunkRaw. rewrite Hq, Hid. simpl.
  destruct (Z.eqb_spec id 0); [done|]. simpl. by rewrite Ht.
Qed.

Lemma deliver_chunks q id cs : forall app info t,
  map_get q (connections app) = Some info -> receivingId info = Some id -> id <> 0%Z ->
  transfers app !! id = Some t ->
  let app' := deliver q (map Binary cs) app in
  connections app' = connections app /\ downloads app' = downloads app /\
  transfers app' !! id = Some {| name := name t; size := size t;
                                 chunks := chunks t ++ cs;
                                 received := (received t + totalLength cs)%Z |}.
Proof.
  induction cs as [|c cs IH]; intros app info t Hq Hid Hne Ht; simpl.
  - unfold totalLength. simpl. rewrite app_nil_r, Z.add_0_r. by destruct t.
  - destruct (receiveFileChunkRaw_active q c app info id t Hq Hid Hne Ht) as (Hc & Hd & Htr).
    edestruct (IH (receiveFileChunkRaw q c app) info) as (Hc' & Hd' & Htr'); try done.
    + by rewrite Hc.
    + rewrite Htr. apply lookup_insert_eq.
    + fold (deliver q (map Binary cs) (receiveFileChunkRaw q c app)).
      rewrite Hc', Hd', Htr', Hc, Hd. simpl. repeat split.
      f_equal. f_equal; [by rewrite <- app_assoc|].
      unfold totalLength. simpl. rewrite length_app. lia.
Qed.

(** A whole transfer handled in order ends in the download of the
    concatenated chunks under the announced name. *)
Lemma deliver_transfer q id nm sz cs app info :
  map_get q (connections app) = Some info -> id <> 0%Z ->
  let app' := deliver q (FileStart id nm sz :: map Binary cs ++ [FileEnd id]) app in
  downloads app' = downloads app ++ [(nm, concat cs)] /\
  transfers app' !! id = None /\ activeInbound q app' = None.
Proof.
  intros Hq Hne. unfold deliver. simpl. rewrite foldl_app. simpl.
  set (app1 := receiveFileStart q id nm sz app).
  assert (Hq1 : map_get q (connections app1)
                = Some {| conn := conn info; username := username info;
                          receivingId := Some id |}).
  { unfold app1, receiveFileStart, setReceivingId. rewrite Hq. simpl.
    apply map_get_set_eq. }
  assert (Ht1 : transfers app1 !! id
                = Some {| name := nm; size := sz; chunks := []; received := 0 |}).
  { unfold app1, receiveFileStart. simpl. apply lookup_insert_eq. }
  destruct (deliver_chunks q id cs app1 _ _ Hq1 eq_refl Hne Ht1) as (Hc & Hd & Htr).
  fold (deliver q (map Binary cs) app1). set (app2 := deliver q (map Binary cs) app1) in *.
  simpl in Htr.
  assert (Hd1 : downloads app1 = downloads app).
  { unfold app1, receiveFileStart, setReceivingId. by rewrite Hq. }
  unfold receiveFileEnd, setReceivingId. rewrite Hc, Hq1. simpl. rewrite Htr. simpl.
  rewrite Hd, Hd1. repeat split.
  - apply lookup_delete_eq.
  - unfold activeInbound. simpl. by rewrite map_get_set_eq.
Qed.

Lemma totalLength_take k (cs : list (list byte)) :
  (totalLength (take k cs) <= totalLength cs)%Z.
Proof.
  unfold totalLength. rewrite <- (take_drop k cs) at 2. rewrite concat_app, length_app. lia.
Qed.

(** While a sender that announced the total length of its chunks is
    sending them, the counter is the length received so far, within the
    declared size. *)
Lemma deliver_within_size q id nm cs k app info :
  map_get q (connections app) = Some info -> id <> 0%Z ->
  let app' := deliver q (FileStart id nm (totalLength cs) :: map Binary (take k cs)) app in
  exists t, transfers app' !! id = Some t /\ size t = totalLength cs /\
            received t = totalLength (take k cs) /\ (received t <= size t)%Z.
Proof.
  intros Hq Hne. unfold deliver. simpl.
  set (app1 := receiveFileStart q id nm (totalLength cs) app).
  assert (Hq1 : map_get q (connections app1)
                = Some {| conn := conn info; username := username info;
                          receivingId := Some id |}).
  { unfold app1, receiveFileStart, setReceivingId. rewrite Hq. simpl.
    apply map_get_set_eq. }
  assert (Ht1 : transfers app1 !! id
                = Some {| name := nm; size := totalLength cs; chunks := [];
                          received := 0 |}).
  { unfold app1, receiveFileStart. simpl. apply lookup_insert_eq. }
  destruct (deliver_chunks q id (take k cs) app1 _ _ Hq1 eq_refl Hne Ht1) as (_ & _ & Htr).
  fold (deliver q (map Binary (take k cs)) app1). rewrite Htr. simpl.
  eexists. split; [done|]. simpl. repeat split. apply totalLength_take.
Qed.

Lemma activeInbound_none_chunk q data app :
  activeInbound q app = None -> receiveFileChunkRaw q data app = app.
Proof.
  unfold activeInbound, receiveFileChunkRaw.
  destruct (map_get q (connections app)) as [info|]; [|done].
  destruct (truthyId (receivingId info)) eqn:Ht; [|done]. simpl.
  destruct (transfers app !! default 0%Z (receivingId info)); [|done].
  destruct (receivingId info); done.
Qed.

Lemma activeInbound_after_end q id app : activeInbound q (receiveFileEnd q id app) = None.
Proof.
  unfold activeInbound, receiveFileEnd, setReceivingId.
  destruct (map_get q (connections app)) as [info|] eqn:Hq; simpl.
  - destruct (transfers app !! id); simpl; by rewrite map_get_set_eq.
  - destruct (transfers app !! id); simpl; by rewrite Hq.
Qed.




Lemma transfers_sender_side app app' :
  transfers app' = transfers app -> counted app -> counted app'.
Proof. intros H Hc id t. rewrite H. apply Hc. Qed.

Lemma transfers_sendNextChunk s app : transfers (sendNextChunk s app) = transfers app.
Proof. reflexivity. Qed.

Lemma transfers_processTransferQueue app :
  transfers (processTransferQueue app) = transfers app.
Proof.
  unfold processTransferQueue. destruct (isSending app); [done|].
  by destruct (sendingQueue app).
Qed.

Lemma transfers_onload s app : transfers (onload s app) = transfers app.
Proof. unfold onload. by destruct (_ <? _)%Z. Qed.

Lemma transfers_flush q n app : transfers (flush q n app) = transfers app.
Proof.
  unfold flush. destruct (map_get q _) as [info|]; [|done].
  destruct (dataChannel (conn info)); [|done]. by destruct (_ && _).
Qed.

Lemma counted_chunk q data app : counted app -> counted (receiveFileChunkRaw q data app).
Proof.
  intros Hc. unfold receiveFileChunkRaw.
  destruct (map_get q (connections app)) as [info|]; [|done].
  destruct (negb _); [done|].
  destruct (transfers app !! default 0%Z (receivingId info)) as [t|] eqn:Ht; [|done].
  intros id t'. simpl. destruct (decide (id = default 0%Z (receivingId info))) as [->|Hne].
  - rewrite lookup_insert_eq. intros [= <-]. simpl. rewrite (Hc _ _ Ht).
    unfold totalLength. rewrite concat_app, length_app. simpl. rewrite app_nil_r. lia.
  - rewrite lookup_insert_ne by done. apply Hc.
Qed.

Lemma counted_handleData q d app : counted app -> counted (handleData q d app).
Proof.
  intros Hc. destruct d as [bytes|nm|id nm sz|id]; simpl.
  - by apply counted_chunk.
  - by destruct (map_get q _).
  - intros id' t. unfold receiveFileStart, setReceivingId.
    destruct (map_get q (connections app)); simpl;
      (destruct (decide (id' = id)) as [->|Hne];
       [rewrite lookup_insert_eq; by intros [= <-]
       |rewrite lookup_insert_ne by done; apply Hc]).
  - intros id' t. unfold receiveFileEnd, setReceivingId.
    destruct (map_get q (connections app)); simpl;
      (destruct (transfers app !! id) eqn:E; simpl;
       [intros H; apply lookup_delete_Some in H as [_ H]; by apply Hc in H | apply Hc]).
Qed.

Lemma counted_handle ev app : counted app -> counted (handle ev app).
Proof.
  intros Hc. destruct ev as [file| |id|id|q n|q nm ch|q|q data]; simpl.
  - eapply transfers_sender_side; [|exact Hc].
    unfold queueFileForSending. by rewrite transfers_processTransferQueue.
  - eapply transfers_sender_side; [apply transfers_processTransferQueue | done].
  - destruct (findStream id (streams app)) as [s|]; [|done]. by destruct (s_phase s).
  - destruct (findStream id (streams app)) as [s|]; [|done].
    destruct (s_phase s); [done|].
    eapply transfers_sender_side; [apply transfers_onload | done].
  - eapply transfers_sender_side; [apply transfers_flush | done].
  - eapply transfers_sender_side; [|exact Hc].
    unfold connOpen. by rewrite transfers_processTransferQueue.
  - done.
  - by apply counted_handleData.
Qed.

Lemma counted_run evs app : counted app -> counted (run evs app).
Proof.
  revert app. induction evs as [|ev evs IH]; intros app Hc; [done|].
  apply IH. by apply counted_handle.
Qed.

(** *** The messages of several peers, interleaved *)

Lemma lockIn_sendAll p d cs : lockIn p (sendAll d cs) = lockIn p cs.
Proof.
  unfold lockIn, sendAll. rewrite (map_get_map (sendTo d)).
  by destruct (map_get p cs).
Qed.

Lemma lockIn_set p q info cs :
  lockIn p (map_set q info cs)
  = if String.eqb p q then Some (receivingId info) else lockIn p cs.
Proof.
  unfold lockIn. destruct (String.eqb_spec p q) as [->|Hne].
  - by rewrite map_get_set_eq.
  - by rewrite map_get_set_ne.
Qed.

Lemma lockIn_delete p q cs :
  lockIn p (map_delete q cs) = if String.eqb p q then None else lockIn p cs.
Proof.
  unfold lockIn. destruct (String.eqb_spec p q) as [->|Hne].
  - by rewrite map_get_delete_eq.
  - by rewrite map_get_delete_ne.
Qed.

(** Re-filing an entry with the lock it had changes no lock. *)
Lemma lockIn_refile p q info info' cs :
  map_get q cs = Some info -> receivingId info' = receivingId info ->
  lockIn p (map_set q info' cs) = lockIn p cs.
Proof.
  intros Hq Hr. rewrite lockIn_set. destruct (String.eqb_spec p q) as [->|Hne]; [|done].
  unfold lockIn. by rewrite Hq, Hr.
Qed.

Lemma lockOf_processTransferQueue p app : lockOf p (processTransferQueue app) = lockOf p app.
Proof.
  unfold processTransferQueue. destruct (isSending app); [done|].
  destruct (sendingQueue app) as [|file rest]; [done|].
  unfold lockOf, sendFile. simpl. apply lockIn_sendAll.
Qed.

Lemma lockOf_onload p s app : lockOf p (onload s app) = lockOf p app.
Proof.
  unfold lockOf, onload. destruct (_ <? _)%Z; simpl; by rewrite ?lockIn_sendAll.
Qed.

Lemma lockOf_flush p q n app : lockOf p (flush q n app) = lockOf p app.
Proof.
  unfold lockOf, flush. destruct (map_get q (connections app)) as [info|] eqn:Hq; [|done].
  destruct (dataChannel (conn info)); [|done]. destruct (_ && _); [|done].
  simpl. by apply (lockIn_refile p q info).
Qed.

(** The turns of the sending side leave the inbound transfers and the
    locks as they are. *)
Lemma sending_turn ev app :
  match ev with Open _ _ _ | Close _ | Receive _ _ => False | _ => True end ->
  transfers (handle ev app) = transfers app /\
  forall p, lockOf p (handle ev app) = lockOf p app.
Proof.
  destruct ev as [file| |id|id|q n|q nm ch|q|q data]; simpl; try done; intros _.
  - unfold queueFileForSending. rewrite transfers_processTransferQueue. split; [done|].
    intros p. by rewrite lockOf_processTransferQueue.
  - split; [apply transfers_processTransferQueue|]. intros p. apply lockOf_processTransferQueue.
  - destruct (findStream id (streams app)) as [s|]; [|done]. by destruct (s_phase s).
  - destruct (findStream id (streams app)) as [s|]; [|done].
    destruct (s_phase s); [done|]. split; [apply transfers_onload|].
    intros p. apply lockOf_onload.
  - split; [apply transfers_flush|]. intros p. apply lockOf_flush.
Qed.

Lemma open_turn q nm ch app :
  transfers (connOpen q nm ch app) = transfers app /\
  forall p, lockOf p (connOpen q nm ch app)
            = if String.eqb p q then Some None else lockOf p app.
Proof.
  unfold connOpen. rewrite transfers_processTransferQueue. split; [done|].
  intros p. rewrite lockOf_processTransferQueue. unfold lockOf. simpl. apply lockIn_set.
Qed.

Lemma close_turn q app :
  transfers (connClose q app) = transfers app /\
  forall p, lockOf p (connClose q app) = if String.eqb p q then None else lockOf p app.
Proof. split; [done|]. intros p. unfold lockOf. simpl. apply lockIn_delete. Qed.

Lemma lockOf_setReceivingId p q v app :
  lockOf p (setReceivingId q v app)
  = if String.eqb p q then (fun _ => v) <$> lockOf q app else lockOf p app.
Proof.
  unfold lockOf, setReceivingId.
  destruct (map_get q (connections app)) as [info|] eqn:Hq; simpl.
  - rewrite lockIn_set. destruct (String.eqb_spec p q) as [->|Hne]; [|done].
    unfold lockIn. by rewrite Hq.
  - destruct (String.eqb_spec p q) as [->|Hne]; [|done]. unfold lockIn. by rewrite Hq.
Qed.

Lemma transfers_setReceivingId q v app : transfers (setReceivingId q v app) = transfers app.
Proof. unfold setReceivingId. by destruct (map_get q (connections app)). Qed.

Lemma downloads_setReceivingId q v app : downloads (setReceivingId q v app) = downloads app.
Proof. unfold setReceivingId. by destruct (map_get q (connections app)). Qed.

Lemma start_turn q id nm sz app :
  transfers (receiveFileStart q id nm sz app)
  = <[id := {| name := nm; size := sz; chunks := []; received := 0 |}]> (transfers app) /\
  forall p, lockOf p (receiveFileStart q id nm sz app)
            = if String.eqb p q then (fun _ => Some id) <$> lockOf q app else lockOf p app.
Proof.
  unfold receiveFileStart. simpl. rewrite transfers_setReceivingId. split; [done|].
  intros p. apply (lockOf_setReceivingId p q (Some id) app).
Qed.

Lemma end_turn q id app :
  transfers (receiveFileEnd q id app) = delete id (transfers app) /\
  (forall p, lockOf p (receiveFileEnd q id app)
             = if String.eqb p q then (fun _ => None) <$> lockOf q app else lockOf p app) /\
  downloads (receiveFileEnd q id app)
  = downloads app ++ match transfers app !! id with
                     | Some t => [(name t, Blob (chunks t))]
                     | None => []
                     end.
Proof.
  unfold receiveFileEnd.
  pose proof (transfers_setReceivingId q None app) as Htr.
  pose proof (downloads_setReceivingId q None app) as Hd.
  pose proof (fun p => lockOf_setReceivingId p q None app) as Hl.
  set (app1 := setReceivingId q None app) in *. rewrite Htr.
  destruct (transfers app !! id) as [t|] eqn:Ht; simpl.
  - rewrite Hd. split; [done|]. split; [|done]. intros p. apply Hl.
  - rewrite Htr, Hd, app_nil_r, delete_id by done. split; [done|]. split; [|done].
    intros p. apply Hl.
Qed.

Lemma handshake_turn q nm app :
  transfers (handleData q (Handshake nm) app) = transfers app /\
  forall p, lockOf p (handleData q (Handshake nm) app) = lockOf p app.
Proof.
  simpl. destruct (map_get q (connections app)) as [info|] eqn:Hq; [|done].
  split; [done|]. intros p. unfold lockOf. simpl. by apply (lockIn_refile p q info).
Qed.

(** A raw chunk changes no lock, and no entry but the one its sender is
    locked to. *)
Lemma chunk_turn q data app :
  (forall p, lockOf p (receiveFileChunkRaw q data app) = lockOf p app) /\
  forall id, lockOf q app <> Some (Some id) ->
             transfers (receiveFileChunkRaw q data app) !! id = transfers app !! id.
Proof.
  unfold receiveFileChunkRaw, lockOf, lockIn.
  destruct (map_get q (connections app)) as [info|] eqn:Hq; [|done].
  destruct (receivingId info) as [j|] eqn:Hrid; [|done]. simpl.
  destruct (negb _); [done|].
  destruct (transfers app !! j) as [t|] eqn:Ht; [|done].
  simpl. split; [done|]. intros id Hid.
  rewrite lookup_insert_ne; [done|]. intros ->. apply Hid. by rewrite Hrid.
Qed.

Lemma apart_step q id ev app :
  apart q id app -> aside q id ev -> (forall d, ev <> Receive q d) ->
  apart q id (handle ev app).
Proof.
  intros [Hq Hothers] Haside Hnot.
  destruct ev as [file| |i|i|p n|p nm ch|p|p data].
  1-5: match goal with |- apart _ _ (handle ?e _) =>
         destruct (sending_turn e app I) as [_ Hl] end;
       split; [by rewrite Hl | intros p' Hp'; rewrite Hl; by apply Hothers].
  - simpl in *. destruct (open_turn p nm ch app) as [_ Hl]. split.
    + rewrite Hl. destruct (String.eqb_spec q p) as [->|_]; [done|done].
    + intros p' Hp'. rewrite Hl. destruct (String.eqb p' p); [done|by apply Hothers].
  - simpl in *. destruct (close_turn p app) as [_ Hl]. split.
    + rewrite Hl. destruct (String.eqb_spec q p) as [->|_]; [done|done].
    + intros p' Hp'. rewrite Hl. destruct (String.eqb p' p); [done|by apply Hothers].
  - assert (Hpq : p <> q) by (intros ->; by apply (Hnot data)).
    assert (Hqp : String.eqb q p = false) by (apply String.eqb_neq; congruence).
    destruct data as [bytes|nm|i nm sz|i]; simpl in *.
    + destruct (chunk_turn p bytes app) as [Hl _].
      split; [by rewrite Hl | intros p' Hp'; rewrite Hl; by apply Hothers].
    + destruct (handshake_turn p nm app) as [_ Hl]. simpl in Hl.
      split; [by rewrite Hl | intros p' Hp'; rewrite Hl; by apply Hothers].
    + destruct (start_turn p i nm sz app) as [_ Hl]. split.
      * by rewrite Hl, Hqp.
      * intros p' Hp'. rewrite Hl. destruct (String.eqb_spec p' p) as [->|_]; [|by apply Hothers].
        destruct (lockOf p app); simpl; [|done]. intros [= ->]. by destruct Haside.
    + destruct (end_turn p i app) as (_ & Hl & _). split.
      * by rewrite Hl, Hqp.
      * intros p' Hp'. rewrite Hl. destruct (String.eqb_spec p' p) as [->|_]; [|by apply Hothers].
        by destruct (lockOf p app).
Qed.

Lemma inbound_step q id nm sz cs ev app :
  inbound q id nm sz cs app -> aside q id ev -> (forall d, ev <> Receive q d) ->
  inbound q id nm sz cs (handle ev app).
Proof.
  intros (Hq & Ht & Hothers) Haside Hnot.
  destruct ev as [file| |i|i|p n|p nm' ch|p|p data].
  1-5: match goal with |- inbound _ _ _ _ _ (handle ?e _) =>
         destruct (sending_turn e app I) as [Htr Hl] end;
       split; [by rewrite Hl | split; [by rewrite Htr|]];
       intros p' Hp'; rewrite Hl; by apply Hothers.
  - simpl in *. destruct (open_turn p nm' ch app) as [Htr Hl].
    assert (Hqp : String.eqb q p = false) by (apply String.eqb_neq; congruence).
    split; [by rewrite Hl, Hqp | split; [by rewrite Htr|]].
    intros p' Hp'. rewrite Hl. destruct (String.eqb p' p); [done|by apply Hothers].
  - simpl in *. destruct (close_turn p app) as [Htr Hl].
    assert (Hqp : String.eqb q p = false) by (apply String.eqb_neq; congruence).
    split; [by rewrite Hl, Hqp | split; [by rewrite Htr|]].
    intros p' Hp'. rewrite Hl. destruct (String.eqb p' p); [done|by apply Hothers].
  - assert (Hpq : p <> q) by (intros ->; by apply (Hnot data)).
    assert (Hqp : String.eqb q p = false) by (apply String.eqb_neq; congruence).
    destruct data as [bytes|nm'|i nm' sz'|i]; simpl in *.
    + destruct (chunk_turn p bytes app) as [Hl Htr].
      split; [by rewrite Hl | split; [rewrite Htr; [done|by apply Hothers]|]].
      intros p' Hp'. rewrite Hl. by apply Hothers.
    + destruct (handshake_turn p nm' app) as [Htr Hl]. simpl in Htr, Hl.
      split; [by rewrite Hl | split; [by rewrite Htr|]].
      intros p' Hp'. rewrite Hl. by apply Hothers.
    + destruct (start_turn p i nm' sz' app) as [Htr Hl].
      assert (Hi : i <> id) by (by destruct Haside).
      split; [by rewrite Hl, Hqp | split; [by rewrite Htr, lookup_insert_ne|]].
      intros p' Hp'. rewrite Hl. destruct (String.eqb_spec p' p) as [->|_]; [|by apply Hothers].
      destruct (lockOf p app); simpl; [|done]. by intros [= ->].
    + destruct (end_turn p i app) as (Htr & Hl & _).
      assert (Hi : i <> id) by (by destruct Haside).
      split; [by rewrite Hl, Hqp | split; [by rewrite Htr, lookup_delete_ne|]].
      intros p' Hp'. rewrite Hl. destruct (String.eqb_spec p' p) as [->|_]; [|by apply Hothers].
      by destruct (lockOf p app).
Qed.

Lemma inbound_start q id nm sz app :
  apart q id app -> inbound q id nm sz [] (handleData q (FileStart id nm sz) app).
Proof.
  intros [[l Hq] Hothers]. simpl. destruct (start_turn q id nm sz app) as [Htr Hl].
  split; [by rewrite Hl, String.eqb_refl, Hq | split; [by rewrite Htr, lookup_insert_eq|]].
  intros p Hp. rewrite Hl. apply String.eqb_neq in Hp as Hpq. rewrite Hpq. by apply Hothers.
Qed.

Lemma inbound_chunk q id nm sz cs c app :
  id <> 0%Z -> inbound q id nm sz cs app ->
  inbound q id nm sz (cs ++ [c]) (handleData q (Binary c) app).
Proof.
  intros Hne (Hq & Ht & Hothers). simpl.
  destruct (chunk_turn q c app) as [Hl _].
  split; [by rewrite Hl | split; [|intros p Hp; rewrite Hl; by apply Hothers]].
  unfold lockOf, lockIn in Hq.
  destruct (map_get q (connections app)) as [info|] eqn:Hinfo; [|done].
  simpl in Hq. injection Hq as Hrid.
  destruct (receiveFileChunkRaw_active q c app info id _ Hinfo Hrid Hne Ht) as (_ & _ & ->).
  rewrite lookup_insert_eq. simpl. do 2 f_equal.
  unfold totalLength. rewrite concat_app, length_app. simpl. rewrite app_nil_r. lia.
Qed.

Lemma inbound_end q id nm sz cs app :
  inbound q id nm sz cs app ->
  downloads (handleData q (FileEnd id) app) = downloads app ++ [(nm, Blob cs)].
Proof.
  intros (_ & Ht & _). simpl. destruct (end_turn q id app) as (_ & _ & ->). by rewrite Ht.
Qed.

Lemma fromPeer_app q evs1 evs2 : fromPeer q (evs1 ++ evs2) = fromPeer q evs1 ++ fromPeer q evs2.
Proof. apply omap_app. Qed.

Lemma fromPeer_other q ev : (forall d, ev <> Receive q d) -> fromPeer q [ev] = [].
Proof.
  intros Hnot. destruct ev as [| | | | | | |p d]; try done. simpl.
  destruct (String.eqb_spec p q) as [->|_]; [|done]. by destruct (Hnot d).
Qed.

(** One turn is a message from [q] or is none. *)
Lemma turn_cases q ev :
  (exists d, ev = Receive q d /\ fromPeer q [ev] = [d]) \/
  ((forall d, ev <> Receive q d) /\ fromPeer q [ev] = []).
Proof.
  destruct ev as [| | | | | | |p d]; try (right; split; [by intros|done]).
  destruct (String.eqb_spec p q) as [->|Hne].
  - left. exists d. split; [done|]. simpl. by rewrite String.eqb_refl.
  - right. split; [intros d' [= ? ?]; done|]. simpl.
    apply String.eqb_neq in Hne. by rewrite Hne.
Qed.

Lemma apart_run q id evs : forall app,
  apart q id app -> Forall (aside q id) evs -> fromPeer q evs = [] ->
  apart q id (run evs app).
Proof.
  induction evs as [|ev evs IH]; intros app Ha Hall Hfrom; [done|].
  apply Forall_cons in Hall as [Hev Hall].
  change (ev :: evs) with ([ev] ++ evs) in Hfrom. rewrite fromPeer_app in Hfrom.
  destruct (turn_cases q ev) as [(d & -> & Hd) | [Hnot Hd]]; rewrite Hd in Hfrom; [done|].
  simpl. apply IH; [by apply apart_step | done | done].
Qed.

Lemma inbound_chunks q id nm sz evs : forall cs0 cs app,
  id <> 0%Z -> inbound q id nm sz cs0 app -> Forall (aside q id) evs ->
  fromPeer q evs = map Binary cs ->
  inbound q id nm sz (cs0 ++ cs) (run evs app).
Proof.
  induction evs as [|ev evs IH]; intros cs0 cs app Hne Hin Hall Hfrom.
  - destruct cs; [|done]. by rewrite app_nil_r.
  - apply Forall_cons in Hall as [Hev Hall].
    change (ev :: evs) with ([ev] ++ evs) in Hfrom. rewrite fromPeer_app in Hfrom.
    destruct (turn_cases q ev) as [(d & -> & Hd) | [Hnot Hd]]; rewrite Hd in Hfrom; simpl.
    + destruct cs as [|c cs]; [done|]. simpl in Hfrom. injection Hfrom as -> Hfrom.
      rewrite (cons_middle c cs0 cs), app_assoc.
      apply IH; [done | by apply inbound_chunk | done | done].
    + apply IH; [done | by apply inbound_step | done | done].
Qed.

(** From the announcement on: whatever else the receiver handles in
    between, as long as the connection stays and no other peer uses the
    id, the entry holds the chunks of [q] in the order of their arrival. *)
Lemma inbound_run q id nm sz cs evs : forall app,
  id <> 0%Z -> apart q id app -> Forall (aside q id) evs ->
  fromPeer q evs = FileStart id nm sz :: map Binary cs ->
  inbound q id nm sz cs (run evs app).
Proof.
  induction evs as [|ev evs IH]; intros app Hne Ha Hall Hfrom; [done|].
  apply Forall_cons in Hall as [Hev Hall].
  change (ev :: evs) with ([ev] ++ evs) in Hfrom. rewrite fromPeer_app in Hfrom.
  destruct (turn_cases q ev) as [(d & -> & Hd) | [Hnot Hd]]; rewrite Hd in Hfrom; simpl.
  - simpl in Hfrom. injection Hfrom as -> Hfrom.
    apply (inbound_chunks q id nm sz evs [] cs); [done | by apply inbound_start | done | done].
  - apply IH; [done | by apply apart_step | done | done].
Qed.

(** The counter along a transfer whose announced size is the total length
    of its chunks. *)
Lemma inbound_within_size q id nm cs k evs app :
  id <> 0%Z -> apart q id app -> Forall (aside q id) evs ->
  fromPeer q evs = FileStart id nm (totalLength cs) :: map Binary (take k cs) ->
  exists t, transfers (run evs app) !! id = Some t /\ size t = totalLength cs /\
            chunks t = take k cs /\
            received t = totalLength (take k cs) /\ (received t <= size t)%Z.
Proof.
  intros Hne Ha Hall Hfrom.
  destruct (inbound_run q id nm (totalLength cs) (take k cs) evs app Hne Ha Hall Hfrom)
    as (_ & Ht & _).
  eexists. split; [exact Ht|]. simpl. repeat split. apply totalLength_take.
Qed.

(** Two runs of raw chunks that end in the same end message are the same
    chunks. *)
Lemma chunks_then_end (a b : list (list byte)) (i j : Z) (m m' : list Data) :
  map Binary a ++ FileEnd i :: m = map Binary b ++ FileEnd j :: m' -> a = b.
Proof.
  revert b. induction a as [|x a IH]; intros [|y b] H; simpl in H; try done.
  injection H as -> H. f_equal. by apply IH.
Qed.

(** ** Backpressure *)

Lemma totalBuffered_sum cs : totalBuffered cs = sumOver buffered cs.
Proof.
  unfold totalBuffered.
  assert (H : forall a, foldl (fun total e => total + default 0 (dataChannel (conn e.2)))%Z a cs
                        = (a + sumOver buffered cs)%Z).
  { induction cs as [|e cs IH]; intros a; simpl; [lia|]. rewrite IH. unfold buffered. lia. }
  rewrite H. lia.
Qed.

Lemma sumOver_map (w : PeerInfo -> Z) (g : PeerInfo -> PeerInfo) cs :
  sumOver w (map (fun e => (e.1, g e.2)) cs) = sumOver (fun i => w (g i)) cs.
Proof. induction cs as [|e cs IH]; simpl; [done | by rewrite IH]. Qed.

Lemma sumOver_le (w w' : PeerInfo -> Z) cs :
  Forall (fun e => w e.2 <= w' e.2)%Z cs -> (sumOver w cs <= sumOver w' cs)%Z.
Proof. induction 1; simpl; lia. Qed.

Lemma sumOver_ext (w w' : PeerInfo -> Z) cs :
  (forall i, w i = w' i) -> sumOver w cs = sumOver w' cs.
Proof. intros H. induction cs as [|e cs IH]; simpl; [done | by rewrite IH, H]. Qed.

Lemma sumOver_plus (w : PeerInfo -> Z) (c : Z) cs :
  sumOver (fun i => w i + c)%Z cs = (sumOver w cs + Z.of_nat (length cs) * c)%Z.
Proof. induction cs as [|e cs IH]; simpl length; simpl sumOver; [lia | rewrite IH; lia]. Qed.

Lemma sumOver_nonneg (w : PeerInfo -> Z) cs :
  Forall (fun e => 0 <= w e.2)%Z cs -> (0 <= sumOver w cs)%Z.
Proof. induction 1; simpl; lia. Qed.

Lemma sumOver_map_set (w : PeerInfo -> Z) k v cs :
  sumOver w (map_set k v cs)
  = (sumOver w cs + w v - match map_get k cs with Some old => w old | None => 0 end)%Z.
Proof.
  induction cs as [|[k' v'] cs IH]; simpl; [lia|].
  destruct (String.eqb k k'); simpl; [lia | rewrite IH; destruct (map_get k cs); lia].
Qed.

Lemma sumOver_map_delete (w : PeerInfo -> Z) k cs :
  Forall (fun e => 0 <= w e.2)%Z cs -> (sumOver w (map_delete k cs) <= sumOver w cs)%Z.
Proof.
  induction 1 as [|[k' v'] cs Hv _ IH]; simpl; [lia|].
  destruct (String.eqb k k'); simpl in *; lia.
Qed.

Lemma Forall_map_set (P : PeerId * PeerInfo -> Prop) k v cs :
  (forall k', P (k', v)) -> Forall P cs -> Forall P (map_set k v cs).
Proof.
  intros Hv H. induction H as [|[k' v'] cs Hh Hcs IH]; simpl.
  - constructor; [apply Hv | constructor].
  - destruct (String.eqb k k'); constructor; done.
Qed.

Lemma Forall_map_delete (P : PeerId * PeerInfo -> Prop) k cs :
  Forall P cs -> Forall P (map_delete k cs).
Proof.
  induction 1 as [|[k' v'] cs Hh _ IH]; simpl; [constructor|].
  destruct (String.eqb k k'); [done | by constructor].
Qed.

Lemma map_get_Forall (P : PeerId * PeerInfo -> Prop) k v cs :
  Forall P cs -> map_get k cs = Some v -> exists k', P (k', v).
Proof.
  induction 1 as [|[k' v'] cs Hh _ IH]; simpl; [done|].
  destruct (String.eqb k k'); [intros [= <-]; eauto | done].
Qed.

Lemma buffered_sendTo d info :
  buffered (sendTo d info)
  = match dataChannel (conn info) with
    | Some b => (b + wireBytes d)%Z
    | None => 0%Z
    end.
Proof. unfold buffered, sendTo, connSend. simpl. by destruct (dataChannel (conn info)). Qed.

Lemma wireBytes_nonneg d : (0 <= wireBytes d)%Z.
Proof. destruct d; simpl; lia. Qed.

Lemma paced_bound app :
  paced app ->
  (totalBuffered (connections app)
   <= bufferThreshold + Z.of_nat (length (connections app)) * chunkSize)%Z.
Proof.
  intros [Hnn Hsur _]. rewrite totalBuffered_sum.
  transitivity (sumOver (fun i => surplus i + chunkSize)%Z (connections app)).
  - apply sumOver_le, Forall_forall. intros e _. unfold surplus. lia.
  - rewrite sumOver_plus. lia.
Qed.

Lemma paced_initial me : paced (initial me).
Proof. split; simpl; [constructor | done | done]. Qed.

(** Sending a message that weighs nothing changes no counter. *)
Lemma paced_sendAll_light d cs :
  wireBytes d = 0%Z ->
  Forall (fun e => 0 <= buffered e.2)%Z cs ->
  Forall (fun e => 0 <= buffered e.2)%Z (sendAll d cs) /\
  sumOver surplus (sendAll d cs) = sumOver surplus cs /\
  totalBuffered (sendAll d cs) = totalBuffered cs.
Proof.
  intros Hd Hnn.
  assert (Hb : forall i, buffered (sendTo d i) = buffered i).
  { intros i. rewrite buffered_sendTo, Hd. unfold buffered.
    destruct (dataChannel (conn i)); simpl; lia. }
  repeat split.
  - unfold sendAll. apply Forall_fmap. eapply Forall_impl; [exact Hnn|].
    intros e He. simpl. by rewrite Hb.
  - unfold sendAll. rewrite sumOver_map. apply sumOver_ext. intros i.
    unfold surplus. by rewrite Hb.
  - rewrite !totalBuffered_sum. unfold sendAll. rewrite sumOver_map.
    by apply sumOver_ext.
Qed.

(** Sending a chunk after a passed check keeps the surplus within the
    threshold. *)
Lemma paced_sendAll_chunk chunk cs :
  (Z.of_nat (length chunk) <= chunkSize)%Z ->
  Forall (fun e => 0 <= buffered e.2)%Z cs ->
  (totalBuffered cs <= bufferThreshold)%Z ->
  Forall (fun e => 0 <= buffered e.2)%Z (sendAll (Binary chunk) cs) /\
  (sumOver surplus (sendAll (Binary chunk) cs) <= bufferThreshold)%Z.
Proof.
  intros Hlen Hnn Htot. split.
  - unfold sendAll. apply Forall_fmap. eapply Forall_impl; [exact Hnn|].
    intros e He. simpl. rewrite buffered_sendTo. unfold buffered in He.
    destruct (dataChannel (conn e.2)); simpl in *; lia.
  - etransitivity; [|exact Htot]. rewrite totalBuffered_sum. unfold sendAll.
    rewrite sumOver_map. apply sumOver_le. eapply Forall_impl; [exact Hnn|].
    intros e He. simpl. unfold surplus. rewrite buffered_sendTo. unfold buffered in *.
    destruct (dataChannel (conn e.2)); simpl in *; lia.
Qed.

Lemma paced_sendNextChunk s s0 app :
  streams app = [s0] -> s_id s0 = s_id s ->
  Forall (fun e => 0 <= buffered e.2)%Z (connections app) ->
  (sumOver surplus (connections app) <= bufferThreshold)%Z ->
  paced (sendNextChunk s app).
Proof.
  intros Hs Hid Hnn Hsur. split; try done.
  rewrite streams_sendNextChunk, Hs, putStream_single by done.
  intros s1 [<-|[]]. simpl.
  destruct (Z.ltb_spec bufferThreshold (totalBuffered (connections app))); [done | lia].
Qed.

Lemma paced_same_connections app app' :
  paced app -> connections app' = connections app -> streams app' = streams app ->
  paced app'.
Proof. intros [H1 H2 H3] Hc Hs. split; rewrite ?Hc, ?Hs; done. Qed.

Lemma paced_processTransferQueue app :
  serial app -> paced app -> paced (processTransferQueue app).
Proof.
  intros Hs Hp. unfold processTransferQueue.
  destruct (isSending app) eqn:Hlock; [done|].
  destruct (sendingQueue app) as [|file rest]; [done|].
  assert (Hidle : streams app = []).
  { destruct (streams app) eqn:E; [done|].
    destruct Hs as [_ Hl _]. rewrite E in Hl. by rewrite Hl in Hlock. }
  destruct Hp as [Hnn Hsur _].
  destruct (paced_sendAll_light (FileStart (transferId app + 1) (f_name file) (f_size file))
              (connections app) eq_refl Hnn) as (Hnn' & Hsur' & _).
  unfold sendFile. eapply paced_sendNextChunk; simpl.
  - by rewrite Hidle.
  - done.
  - done.
  - by rewrite Hsur'.
Qed.

Lemma paced_onload s app :
  streams app = [s] -> s_phase s = Reading -> paced app -> paced (onload s app).
Proof.
  intros Hs Hph [Hnn Hsur Hread]. unfold onload.
  set (chunk := slice _ _ _).
  assert (Hlen : (Z.of_nat (length chunk) <= chunkSize)%Z).
  { unfold chunk. by apply length_slice_le. }
  assert (Htot : (totalBuffered (connections app) <= bufferThreshold)%Z).
  { apply (Hread s); [rewrite Hs; by left | done]. }
  destruct (paced_sendAll_chunk chunk (connections app) Hlen Hnn Htot) as [Hnn' Hsur'].
  destruct (_ <? _)%Z.
  - eapply paced_sendNextChunk; simpl; done.
  - destruct (paced_sendAll_light (FileEnd (s_id s)) (sendAll (Binary chunk) (connections app))
                eq_refl Hnn') as (Hnn'' & Hsur'' & _).
    split; simpl; [done | by rewrite Hsur'' |].
    rewrite Hs, dropStream_single. by intros ? [].
Qed.

Lemma paced_handleData q d app : paced app -> paced (handleData q d app).
Proof.
  intros Hp.
  assert (Hset : forall info v,
            map_get q (connections app) = Some info -> conn v = conn info ->
            forall app', connections app' = map_set q v (connections app) ->
                         streams app' = streams app -> paced app').
  { intros info v Hq Hconn app' Hc Hs. destruct Hp as [Hnn Hsur Hread].
    assert (Hb : buffered v = buffered info) by (unfold buffered; by rewrite Hconn).
    split; rewrite ?Hc, ?Hs.
    - apply Forall_map_set; [|done]. intros k'. simpl. rewrite Hb.
      by destruct (map_get_Forall _ _ _ _ Hnn Hq).
    - rewrite sumOver_map_set, Hq. unfold surplus at 2 3. rewrite Hb. lia.
    - intros s Hin Hph. rewrite totalBuffered_sum, sumOver_map_set, Hq, Hb.
      rewrite <- totalBuffered_sum. specialize (Hread s Hin Hph). lia. }
  destruct d as [bytes|nm|id nm sz|id]; simpl.
  - unfold receiveFileChunkRaw. destruct (map_get q _); [|done].
    destruct (negb _); [done|]. destruct (transfers app !! _); [|done].
    by eapply paced_same_connections.
  - destruct (map_get q _) eqn:E; [|done].
    (eapply (Hset _ _ eq_refl); [|reflexivity|reflexivity]; reflexivity).
  - unfold receiveFileStart, setReceivingId. destruct (map_get q _) eqn:E.
    + (eapply (Hset _ _ eq_refl); [|reflexivity|reflexivity]; reflexivity).
    + by eapply paced_same_connections.
  - unfold receiveFileEnd, setReceivingId. destruct (map_get q _) eqn:E; simpl.
    + destruct (transfers app !! id); (eapply (Hset _ _ eq_refl); [|reflexivity|reflexivity]; reflexivity).
    + destruct (transfers app !! id); by eapply paced_same_connections.
Qed.

Lemma paced_flush q n app : paced app -> paced (flush q n app).
Proof.
  intros [Hnn Hsur Hread]. unfold flush.
  destruct (map_get q (connections app)) as [info|] eqn:Hq; [|done].
  destruct (dataChannel (conn info)) as [b|] eqn:Hb; [|done].
  destruct (_ && _) eqn:Hn; [|done]. apply andb_true_iff in Hn as [Hn1 Hn2].
  apply Z.leb_le in Hn1, Hn2.
  assert (Hold : buffered info = b) by (unfold buffered; by rewrite Hb).
  split; simpl.
  - apply Forall_map_set; [|done]. intros k'. unfold buffered. simpl. lia.
  - rewrite sumOver_map_set, Hq. unfold surplus at 2 3, buffered. simpl. rewrite Hb. simpl.
    lia.
  - intros s Hin Hph. rewrite totalBuffered_sum, sumOver_map_set, Hq.
    rewrite <- totalBuffered_sum. specialize (Hread s Hin Hph).
    unfold buffered at 1 2. simpl. rewrite Hb. simpl. lia.
Qed.

Lemma paced_handle ev app : serial app -> paced app -> paced (handle ev app).
Proof.
  intros Hs Hp. destruct ev as [file| |id|id|q n|q nm ch|q|q data]; simpl.
  - apply paced_processTransferQueue; [by destruct Hs | by destruct Hp].
  - by apply paced_processTransferQueue.
  - destruct (findStream id (streams app)) as [s|] eqn:Hfind; [|done].
    destruct (s_phase s); [|done].
    destruct (serial_found _ _ _ Hs Hfind) as [Hsingle _].
    destruct Hp. by eapply paced_sendNextChunk.
  - destruct (findStream id (streams app)) as [s|] eqn:Hfind; [|done].
    destruct (s_phase s) eqn:Hph; [done|].
    destruct (serial_found _ _ _ Hs Hfind) as [Hsingle _].
    by apply paced_onload.
  - by apply paced_flush.
  - unfold connOpen. apply paced_processTransferQueue; [by destruct Hs|].
    destruct Hp as [Hnn Hsur Hread].
    set (v := {| conn := connSend (Handshake (myUsername app))
                           {| sentData := [];
                              dataChannel := if ch then Some 0%Z else None |};
                 username := nm; receivingId := None |}).
    assert (Hv : buffered v = 0%Z) by (unfold buffered, v; by destruct ch).
    assert (Hold : (0 <= match map_get q (connections app) with
                         | Some old => buffered old | None => 0 end)%Z).
    { destruct (map_get q (connections app)) eqn:E; [|done].
      by destruct (map_get_Forall _ _ _ _ Hnn E). }
    split; simpl.
    + apply Forall_map_set; [|done]. intros k'. simpl. by rewrite Hv.
    + rewrite sumOver_map_set. unfold surplus at 2. rewrite Hv.
      assert (0 <= match map_get q (connections app) with
                   | Some old => surplus old | None => 0 end)%Z
        by (destruct (map_get q (connections app)); unfold surplus; lia).
      change (Z.max (0 - chunkSize) 0) with 0%Z. lia.
    + intros s Hin Hph. rewrite totalBuffered_sum, sumOver_map_set, Hv.
      rewrite <- totalBuffered_sum. specialize (Hread s Hin Hph). lia.
  - destruct Hp as [Hnn Hsur Hread]. split; simpl.
    + by apply Forall_map_delete.
    + etransitivity; [apply sumOver_map_delete|done].
      apply Forall_forall. intros e _. unfold surplus. lia.
    + intros s Hin Hph. rewrite totalBuffered_sum.
      etransitivity; [by apply sumOver_map_delete|].
      rewrite <- totalBuffered_sum. by apply (Hread s).
  - by apply paced_handleData.
Qed.

Lemma paced_run evs app : serial app -> paced app -> paced (run evs app).
Proof.
  revert app. induction evs as [|ev evs IH]; intros app Hs Hp; [done|].
  apply IH; [by apply serial_handle | by apply paced_handle].
Qed.

(** *** A wide fan-out *)

Lemma length_peerName i : String.length (peerName i) = S i.
Proof. induction i as [|i IH]; simpl; [done | by rewrite IH]. Qed.

Lemma peerName_inj i j : peerName i = peerName j -> i = j.
Proof.
  intros H. apply (f_equal String.length) in H. rewrite !length_peerName in H. lia.
Qed.

Lemma map_set_fresh {V} (k : string) (v : V) (m : list (string * V)) :
  map_get k m = None -> map_set k v m = m ++ [(k, v)].
Proof.
  induction m as [|[k' v'] m IH]; simpl; [done|].
  destruct (String.eqb k k'); [done|]. intros H. by rewrite IH.
Qed.

Lemma map_get_peers (me : string) (n i : nat) :
  (n <= i)%nat ->
  map_get (peerName i) (map (fun j => (peerName j, idlePeer me)) (seq 0 n)) = None.
Proof.
  intros Hi. induction n as [|n IH]; [done|].
  rewrite seq_S, map_app. simpl.
  assert (Happ : forall (m1 m2 : list (string * PeerInfo)) k,
             map_get k m1 = None -> map_get k (m1 ++ m2) = map_get k m2).
  { intros m1 m2 k. induction m1 as [|[k' v'] m1 IHm]; simpl; [done|].
    destruct (String.eqb k k'); [done | apply IHm]. }
  rewrite Happ by (apply IH; lia). simpl.
  destruct (String.eqb_spec (peerName i) (peerName n)) as [E|]; [|done].
  apply peerName_inj in E. lia.
Qed.

Lemma run_app evs1 evs2 app : run (evs1 ++ evs2) app = run evs2 (run evs1 app).
Proof. apply foldl_app. Qed.

Lemma run_opens me n :
  run (map (fun i => Open (peerName i) "peer" true) (seq 0 n)) (initial me)
  = setConnections (map (fun j => (peerName j, idlePeer me)) (seq 0 n)) (initial me).
Proof.
  induction n as [|n IH]; [done|].
  rewrite seq_S, map_app, run_app, IH. simpl.
  unfold connOpen, processTransferQueue. simpl.
  rewrite map_set_fresh by (apply map_get_peers; lia).
  by rewrite map_app.
Qed.

Lemma chunkSize_pos : (0 < chunkSize)%Z.
Proof. reflexivity. Qed.

Lemma length_oneChunk : length (f_bytes oneChunk) = Z.to_nat chunkSize.
Proof. unfold oneChunk, f_bytes. apply length_replicate. Qed.

Lemma size_oneChunk : f_size oneChunk = chunkSize.
Proof. unfold f_size. rewrite length_oneChunk. pose proof chunkSize_pos. lia. Qed.

Lemma slice_oneChunk : slice (f_bytes oneChunk) 0 (0 + chunkSize) = f_bytes oneChunk.
Proof.
  pose proof chunkSize_pos. rewrite slice_inside by lia.
  change (Z.to_nat 0) with 0%nat. rewrite drop_0.
  apply take_ge. rewrite length_oneChunk. apply Nat.le_refl.
Qed.

Lemma connections_onload s app :
  let chunk := slice (f_bytes (s_file s)) (s_offset s) (s_offset s + chunkSize) in
  connections (onload s app)
  = if (s_offset s + Z.of_nat (length chunk) <? f_size (s_file s))%Z
    then sendAll (Binary chunk) (connections app)
    else sendAll (FileEnd (s_id s)) (sendAll (Binary chunk) (connections app)).
Proof. intros chunk. unfold onload. fold chunk. by destruct (_ <? _)%Z. Qed.

Lemma totalBuffered_sendAll d cs :
  Forall (fun e => is_Some (dataChannel (conn e.2))) cs ->
  Forall (fun e => is_Some (dataChannel (conn e.2))) (sendAll d cs) /\
  totalBuffered (sendAll d cs) = (totalBuffered cs + Z.of_nat (length cs) * wireBytes d)%Z.
Proof.
  intros Hall. split.
  - unfold sendAll. apply Forall_fmap. eapply Forall_impl; [exact Hall|].
    intros e [b Hb]. simpl. rewrite Hb. by eexists.
  - rewrite !totalBuffered_sum. unfold sendAll. rewrite sumOver_map.
    induction Hall as [|e cs [b Hb] _ IH]; simpl length; simpl sumOver; [lia|].
    rewrite IH, buffered_sendTo. unfold buffered. rewrite Hb. simpl. lia.
Qed.

Lemma totalBuffered_idle me d n :
  totalBuffered (sendAll d (map (fun j => (peerName j, idlePeer me)) (seq 0 n)))
  = (Z.of_nat n * wireBytes d)%Z.
Proof.
  rewrite totalBuffered_sum. unfold sendAll. rewrite sumOver_map.
  generalize 0%nat. induction n as [|n IH]; intros a; simpl seq; simpl map;
    simpl sumOver; [lia|].
  rewrite IH. rewrite buffered_sendTo. simpl. lia.
Qed.

Lemma totalBuffered_idlePeers me a n :
  totalBuffered (map (fun j => (peerName j, idlePeer me)) (seq a n)) = 0%Z.
Proof.
  rewrite totalBuffered_sum. revert a.
  induction n as [|n IH]; intros a; simpl; [done | by rewrite IH].
Qed.

Lemma totalBuffered_fanOut me width :
  totalBuffered (connections (run (fanOut width) (initial me)))
  = (Z.of_nat width * chunkSize)%Z.
Proof.
  unfold fanOut. rewrite run_app, run_opens.
  set (cs := map (fun j => (peerName j, idlePeer me)) (seq 0 width)).
  assert (Hall : Forall (fun e => is_Some (dataChannel (conn e.2))) cs).
  { unfold cs. apply Forall_fmap, Forall_forall. intros j _. by eexists. }
  assert (Hcs : totalBuffered cs = 0%Z /\ length cs = width).
  { unfold cs. rewrite length_map, length_seq. split; [|done].
    apply totalBuffered_idlePeers. }
  destruct Hcs as [Hzero Hlen].
  set (start := FileStart 1 "blob" (f_size oneChunk)).
  destruct (totalBuffered_sendAll start cs Hall) as [Hall1 Htot1].
  rewrite Hzero, Z.mul_0_r in Htot1.
  assert (Hq : handle (Enqueue oneChunk) (setConnections cs (initial me))
               = {| myUsername := me; connections := sendAll start cs;
                    transfers := ∅;
                    activeTransfers := {[ 1%Z := {| a_size := f_size oneChunk;
                                                   transferred := 0 |} ]};
                    transferId := 1; totalBytesTransferred := 0; isSending := true;
                    sendingQueue := [];
                    streams := [{| s_id := 1; s_file := oneChunk; s_offset := 0;
                                   s_phase := Reading |}];
                    downloads := [] |}).
  { unfold handle, queueFileForSending, processTransferQueue, sendFile, sendNextChunk.
    cbn [isSending sendingQueue initial setConnections app connections transferId
         streams myUsername transfers activeTransfers totalBytesTransferred downloads
         setStreams putStream map s_id Z.add Z.eqb Pos.eqb].
    change (0 + 1)%Z with 1%Z. change (f_name oneChunk) with "blob".
    fold start. rewrite Htot1. reflexivity. }
  unfold run. cbn [foldl]. rewrite Hq.
  cbn [handle streams findStream find s_id Z.eqb Pos.eqb s_phase].
  rewrite connections_onload.
  cbn [s_file s_offset s_id connections]. rewrite slice_oneChunk.
  rewrite size_oneChunk, length_oneChunk.
  pose proof chunkSize_pos as Hpos.
  destruct (Z.ltb_spec (0 + Z.of_nat (Z.to_nat chunkSize)) chunkSize); [lia|].
  destruct (totalBuffered_sendAll (Binary (f_bytes oneChunk)) _ Hall1) as [Hall2 Htot2].
  destruct (totalBuffered_sendAll (FileEnd 1) _ Hall2) as [_ Htot3].
  rewrite Htot3, Htot2, Htot1.
  unfold sendAll. rewrite !length_map. unfold cs. rewrite length_map, length_seq.
  cbn [wireBytes]. rewrite length_oneChunk. lia.
Qed.

(** *** One entry for each peer *)

Lemma keys_sendAll d cs : map fst (sendAll d cs) = map fst cs.
Proof. unfold sendAll. rewrite map_map. by apply map_ext. Qed.

Lemma tidy_sendFile file app : tidy app -> tidy (sendFile file app).
Proof. unfold tidy, sendFile. simpl. by rewrite keys_sendAll. Qed.

Lemma tidy_processTransferQueue app : tidy app -> tidy (processTransferQueue app).
Proof.
  intros H. unfold processTransferQueue. destruct (isSending app); [done|].
  destruct (sendingQueue app); [done|]. by apply tidy_sendFile.
Qed.

Lemma tidy_handle ev app : tidy app -> tidy (handle ev app).
Proof.
  intros H. destruct ev as [file| |id|id|q n|q nm ch|q|q data]; simpl.
  - by apply tidy_processTransferQueue.
  - by apply tidy_processTransferQueue.
  - destruct (findStream id (streams app)) as [s|]; [|done]. by destruct (s_phase s).
  - destruct (findStream id (streams app)) as [s|]; [|done].
    destruct (s_phase s); [done|]. unfold tidy. rewrite connections_onload.
    destruct (_ <? _)%Z; by rewrite ?keys_sendAll.
  - unfold flush. destruct (map_get q (connections app)) as [info|]; [|done].
    destruct (dataChannel (conn info)); [|done]. destruct (_ && _); [|done].
    by apply NoDup_map_set.
  - unfold connOpen. apply tidy_processTransferQueue. by apply NoDup_map_set.
  - by apply NoDup_map_delete.
  - destruct data as [bytes|nm|id nm sz|id]; simpl.
    + unfold receiveFileChunkRaw. destruct (map_get q (connections app)); [|done].
      destruct (negb _); [done|]. by destruct (transfers app !! _).
    + destruct (map_get q (connections app)); [|done]. by apply NoDup_map_set.
    + unfold receiveFileStart, setReceivingId, tidy. simpl.
      destruct (map_get q (connections app)); [|done]. by apply NoDup_map_set.
    + unfold receiveFileEnd, setReceivingId, tidy.
      destruct (map_get q (connections app)); simpl;
        destruct (transfers app !! id); simpl; try done; by apply NoDup_map_set.
Qed.

Lemma tidy_run evs app : tidy app -> tidy (run evs app).
Proof.
  revert app. induction evs as [|ev evs IH]; intros app H; [done|].
  simpl. apply IH. by apply tidy_handle.
Qed.

(** *** Emptying the buffers *)

Lemma sumOver_zero (cs : list (PeerId * PeerInfo)) :
  Forall (fun e => buffered e.2 = 0%Z) cs -> sumOver buffered cs = 0%Z.
Proof. induction 1 as [|e cs He _ IH]; simpl; lia. Qed.

Lemma run_drainAll (todo : list (PeerId * PeerInfo)) :
  forall (done : list (PeerId * PeerInfo)) (app : App),
    connections app = done ++ todo ->
    List.NoDup (map fst (done ++ todo)) ->
    Forall (fun e => 0 <= buffered e.2)%Z todo ->
    exists todo',
      connections (run (drainAll todo) app) = done ++ todo' /\
      Forall (fun e => buffered e.2 = 0%Z) todo' /\
      streams (run (drainAll todo) app) = streams app.
Proof.
  induction todo as [|[q info] todo IH]; intros done app Hc Hnd Hnn.
  { exists []. by repeat split. }
  inversion Hnn as [|? ? Hq Hrest]; subst. simpl in Hq.
  assert (Hfresh : ~ In q (map fst done)).
  { rewrite map_app in Hnd. simpl in Hnd. apply NoDup_remove_2 in Hnd.
    rewrite in_app_iff in Hnd. tauto. }
  assert (Hstep : exists info',
             connections (handle (Flush q (buffered info)) app) = done ++ (q, info') :: todo /\
             buffered info' = 0%Z /\
             streams (handle (Flush q (buffered info)) app) = streams app).
  { simpl. unfold flush. rewrite Hc, map_get_middle by done.
    unfold buffered in *. destruct (dataChannel (conn info)) as [b|] eqn:Ed; simpl in *.
    - destruct (Z.leb_spec 0 b); [|lia]. destruct (Z.leb_spec b b); [|lia]. simpl.
      eexists. rewrite map_set_middle by done. split; [done|]. simpl. split; [lia | done].
    - exists info. rewrite Hc. by rewrite Ed. }
  destruct Hstep as (info' & Hc' & Hzero & Hs').
  destruct (IH (done ++ [(q, info')]) (handle (Flush q (buffered info)) app)) as
    (todo' & Hc'' & Hall & Hs'').
  - by rewrite Hc', <- app_assoc.
  - rewrite <- app_assoc. simpl. rewrite map_app in *. done.
  - done.
  - exists ((q, info') :: todo').
    change (run (drainAll ((q, info) :: todo)) app)
      with (run (drainAll todo) (handle (Flush q (buffered info)) app)).
    rewrite Hc'', <- app_assoc. split; [done|].
    split; [by constructor | congruence].
Qed.

Lemma drained app :
  tidy app -> paced app ->
  totalBuffered (connections (run (drainAll (connections app)) app)) = 0%Z /\
  streams (run (drainAll (connections app)) app) = streams app.
Proof.
  intros Ht [Hnn _ _].
  destruct (run_drainAll (connections app) [] app eq_refl Ht Hnn) as (todo' & Hc & Hall & Hs).
  split; [|done]. rewrite Hc, totalBuffered_sum. simpl. by apply sumOver_zero.
Qed.

(** *** A schedule that ends the transfer *)

Lemma streams_drainAll cs app : streams (run (drainAll cs) app) = streams app.
Proof.
  revert app. induction cs as [|e cs IH]; intros app; [done|].
  change (run (drainAll (e :: cs)) app)
    with (run (drainAll cs) (handle (Flush e.1 (buffered e.2)) app)).
  rewrite IH. simpl. by destruct (flush_sender e.1 (buffered e.2) app) as [-> _].
Qed.

Lemma findStream_own s : findStream (s_id s) [s] = Some s.
Proof. unfold findStream. simpl. by rewrite Z.eqb_refl. Qed.

(** One round sends the next chunk: the transfer ends or its offset moves
    on. *)
Lemma one_round id app s :
  serial app -> paced app -> tidy app ->
  streams app = [s] -> s_id s = id -> (0 <= s_offset s)%Z ->
  let evs := drainAll (connections app) ++ [Retry id; Loaded id] in
  streams (run evs app) = [] \/
  exists s', streams (run evs app) = [s'] /\ s_id s' = id /\ s_file s' = s_file s /\
             (s_offset s < s_offset s' < f_size (s_file s))%Z.
Proof.
  intros Hser Hpaced Htidy Hs Hid Hoff evs. unfold evs. rewrite run_app.
  destruct (drained app Htidy Hpaced) as [Htot Hs1].
  set (app1 := run (drainAll (connections app)) app) in *.
  rewrite Hs in Hs1. subst id.
  assert (H2 : exists s2, streams (handle (Retry (s_id s)) app1) = [s2] /\
                          s_id s2 = s_id s /\ s_file s2 = s_file s /\
                          s_offset s2 = s_offset s /\ s_phase s2 = Reading).
  { simpl. rewrite Hs1, findStream_own. destruct (s_phase s) eqn:Hph.
    - rewrite streams_sendNextChunk, Hs1, putStream_single by done. rewrite Htot.
      eexists. split; [done|]. by repeat split.
    - exists s. by repeat split. }
  destruct H2 as (s2 & Hs2 & Hid2 & Hf2 & Ho2 & Hph2).
  change (run [Retry (s_id s); Loaded (s_id s)] app1)
    with (handle (Loaded (s_id s)) (handle (Retry (s_id s)) app1)).
  set (app2 := handle (Retry (s_id s)) app1) in *.
  simpl. rewrite Hs2, <- Hid2, findStream_own, Hph2.
  pose proof (streams_onload s2 app2 Hs2) as [_ Hc]. cbv zeta in Hc.
  rewrite Hf2, Ho2 in Hc.
  set (chunk := slice (f_bytes (s_file s)) (s_offset s) (s_offset s + chunkSize)) in *.
  destruct (Z.ltb_spec (s_offset s + Z.of_nat (length chunk)) (f_size (s_file s)))
    as [Hlt|Hge].
  - right. destruct Hc as [ph Hc]. eexists. split; [exact Hc|]. simpl.
    split; [done|]. split; [done|]. split; [|done].
    assert (Hlen : Z.of_nat (length chunk)
                   = Z.min chunkSize (Z.max (f_size (s_file s) - s_offset s) 0)).
    { unfold chunk. rewrite length_slice; [done | done | by pose proof chunkSize_pos; lia]. }
    pose proof chunkSize_pos. unfold f_size in *. lia.
  - left. by destruct Hc as [Hc _].
Qed.

Lemma rounds_idle n id : forall app,
  streams app = [] -> streams (run (rounds n id app) app) = [].
Proof.
  induction n as [|n IH]; intros app Hs; [done|].
  cbn [rounds]. rewrite run_app. apply IH.
  rewrite run_app. change (run [Retry id; Loaded id] ?a)
    with (handle (Loaded id) (handle (Retry id) a)).
  set (app1 := run (drainAll (connections app)) app).
  assert (Hs1 : streams app1 = []) by (unfold app1; by rewrite streams_drainAll).
  simpl. by rewrite Hs1; simpl; rewrite Hs1.
Qed.

Lemma rounds_end n id : forall app s,
  serial app -> paced app -> tidy app ->
  streams app = [s] -> s_id s = id ->
  (0 <= s_offset s <= f_size (s_file s))%Z ->
  (f_size (s_file s) - s_offset s < Z.of_nat n)%Z ->
  streams (run (rounds n id app) app) = [].
Proof.
  induction n as [|n IH]; intros app s Hser Hpaced Htidy Hs Hid Hoff Hn; [lia|].
  cbn [rounds]. rewrite run_app.
  set (evs := drainAll (connections app) ++ [Retry id; Loaded id]).
  destruct (one_round id app s Hser Hpaced Htidy Hs Hid) as [Hend|(s' & Hs' & Hid' & Hf' & Ho')];
    [lia | by apply rounds_idle |].
  fold evs in Hs'. apply (IH _ s'); try done.
  - by apply serial_run.
  - by apply paced_run.
  - by apply tidy_run.
  - rewrite Hf'. lia.
  - rewrite Hf'. lia.
Qed.

Lemma rounds_keep p n id : forall app, Forall (keeps p) (rounds n id app).
Proof.
  induction n as [|n IH]; intros app; [constructor|].
  cbn [rounds]. rewrite !Forall_app. split; [split|apply IH].
  - unfold drainAll. apply Forall_fmap, Forall_forall. by intros e _.
  - by repeat constructor.
Qed.

Lemma paced_sendFile file app :
  paced app -> streams app = [] -> paced (sendFile file app).
Proof.
  intros [Hnn Hsur _] Hidle.
  destruct (paced_sendAll_light (FileStart (transferId app + 1) (f_name file) (f_size file))
              (connections app) eq_refl Hnn) as (Hnn' & Hsur' & _).
  unfold sendFile. eapply paced_sendNextChunk; simpl.
  - by rewrite Hidle.
  - done.
  - done.
  - by rewrite Hsur'.
Qed.

(** X17. Whatever the file and the state of the buffers, some schedule takes
    the transfer to its end. *)
Lemma transfer_can_end (me : string) (evs0 : list Event) (f : File) (p : PeerId) :
  let sender := run evs0 (initial me) in
  isSending sender = false ->
  exists evs,
    Forall (keeps p) evs /\
    findStream (transferId sender + 1) (streams (run evs (sendFile f sender))) = None.
Proof.
  intros sender Hidle.
  assert (Hserial : serial sender) by apply serial_run, serial_initial.
  assert (Hpaced : paced sender)
    by (apply paced_run; [apply serial_initial | apply paced_initial]).
  assert (Htidy : tidy sender) by (apply tidy_run; constructor).
  assert (Hstreams : streams sender = []).
  { destruct (streams sender) eqn:E; [done|]. destruct Hserial as [_ Hl _].
    rewrite E in Hl. by rewrite Hl in Hidle. }
  destruct (streams_sendFile f sender Hstreams) as (s & Hs & Hid & Hf & Ho).
  exists (rounds (S (Z.to_nat (f_size f))) (transferId sender + 1) (sendFile f sender)).
  split; [apply rounds_keep|].
  rewrite (rounds_end _ _ _ s); try done.
  - by apply serial_sendFile.
  - by apply paced_sendFile.
  - by apply tidy_sendFile.
  - rewrite Hf, Ho. unfold f_size. lia.
  - rewrite Hf, Ho. unfold f_size. lia.
Qed.

(** ** The properties of the design document *)

(** X29. A file sent by [sendFile] over a connection that stays up
    reaches a receiver whole, whatever else the receiver handles in
    between, as long as the connection from the sender stays and no other
    peer has a transfer under the same id under way: once the transfer has
    ended, the connection has been sent the announcement, the chunks and
    the end message in this order, and on the end message the receiver
    hands over the chunks put together in the order of their arrival, which
    is the file byte for byte, of the announced size. *)
Theorem file_arrives_whole_among_other_peers (me : string) (evs0 evs : list Event)
    (f : File) (p q : PeerId) (pre : list Data) :
  let sender := run evs0 (initial me) in
  let id := (transferId sender + 1)%Z in
  let sender' := run evs (sendFile f sender) in
  isSending sender = false ->
  wire p sender = Some pre ->
  Forall (keeps p) evs ->
  findStream id (streams sender') = None ->
  (exists (cs : list (list byte)) (more : list Data),
      wire p sender' = Some (pre ++ FileStart id (f_name f) (f_size f)
                                 :: map Binary cs ++ FileEnd id :: more)) /\
  (forall (cs : list (list byte)) (more : list Data) (receiver : App) (revs : list Event),
      wire p sender' = Some (pre ++ FileStart id (f_name f) (f_size f)
                                 :: map Binary cs ++ FileEnd id :: more) ->
      apart q id receiver ->
      Forall (aside q id) revs ->
      fromPeer q revs = FileStart id (f_name f) (f_size f) :: map Binary cs ->
      downloads (handle (Receive q (FileEnd id)) (run revs receiver))
      = downloads (run revs receiver) ++ [(f_name f, Js.Blob cs)] /\
      Js.Blob cs = f_bytes f /\ Z.of_nat (length (Js.Blob cs)) = f_size f).
Proof.
  intros sender id sender' Hidle Hwire Hkeeps Hdone.
  assert (Hserial : serial sender) by apply serial_run, serial_initial.
  assert (Hstreams : streams sender = []).
  { destruct (streams sender) eqn:E; [done|]. destruct Hserial as [_ Hl _].
    rewrite E in Hl. by rewrite Hl in Hidle. }
  assert (Hid : id <> 0%Z).
  { destruct Hserial as [_ _ [Hpos _]]. unfold id. lia. }
  assert (Hfin : finished p pre f id sender').
  { destruct (progress_run p pre f id evs (sendFile f sender)) as [Hp|Hp];
      [by apply serial_sendFile | done | left; by apply inFlight_sendFile | | done].
    destruct Hp as (s & cs & Hs & Hsid & _). fold sender' in Hs.
    rewrite Hs in Hdone. unfold findStream in Hdone. simpl in Hdone.
    by rewrite Hsid, Z.eqb_refl in Hdone. }
  destruct Hfin as (cs0 & more0 & Hw0 & Hcs0 & _).
  split; [by exists cs0, more0|].
  intros cs more receiver revs Hw Ha Hall Hfrom.
  assert (cs = cs0) as ->.
  { rewrite Hw0 in Hw. injection Hw as Hw. apply app_inv_head in Hw.
    injection Hw as Hw. symmetry. by apply chunks_then_end in Hw. }
  pose proof (inbound_run q id (f_name f) (f_size f) cs0 revs receiver Hid Ha Hall Hfrom)
    as Hin.
  split; [by apply inbound_end in Hin|]. unfold Blob. rewrite Hcs0. by split.
Qed.

Lemma file_arrives_whole_among_other_peers_witness :
  let sender' := run [Loaded 1] (sendFile greeting (run [Open "bob" "Bob" true]
                                                        (initial "alice"))) in
  let receiver := run [Open "alice" "Alice" true; Open "carol" "Carol" true] (initial "bob") in
  let revs := [Receive "carol" (FileStart 2 "c.txt" 1);
               Receive "alice" (FileStart 1 "hello.txt" 2);
               Receive "carol" (Binary [x63]);
               Receive "alice" (Binary [x68; x69]);
               Receive "carol" (FileEnd 2)] in
  wire "bob" sender'
  = Some ([Handshake "alice"] ++ FileStart 1 "hello.txt" 2
            :: map Binary [[x68; x69]] ++ FileEnd 1 :: []) /\
  apart "alice" 1 receiver /\ Forall (aside "alice" 1) revs /\
  downloads (run revs receiver) = [("c.txt", [x63])] /\
  downloads (handle (Receive "alice" (FileEnd 1)) (run revs receiver))
  = downloads (run revs receiver) ++ [("hello.txt", Js.Blob [[x68; x69]])] /\
  Js.Blob [[x68; x69]] = [x68; x69] /\ Z.of_nat (length (Js.Blob [[x68; x69]])) = 2%Z.
Proof.
  intros sender' receiver revs.
  assert (Hkeeps : Forall (keeps "bob") [Loaded 1]) by (by repeat constructor).
  assert (Hw : wire "bob" sender'
               = Some ([Handshake "alice"] ++ FileStart 1 "hello.txt" 2
                         :: map Binary [[x68; x69]] ++ FileEnd 1 :: [])) by reflexivity.
  assert (Ha : apart "alice" 1 receiver).
  { split; [by eexists|]. intros p Hp. unfold lockOf, lockIn, receiver. simpl.
    destruct (String.eqb p "alice"); [done|]. by destruct (String.eqb p "carol"). }
  assert (Hall : Forall (aside "alice" 1) revs).
  { unfold revs. repeat (apply Forall_cons_2; [simpl; try done; (by left) || (right; lia)|]).
    apply Forall_nil_2. }
  split; [exact Hw|]. split; [exact Ha|]. split; [exact Hall|]. split; [reflexivity|].
  exact (proj2 (file_arrives_whole_among_other_peers "alice" [Open "bob" "Bob" true]
                  [Loaded 1] greeting "bob" "alice" [Handshake "alice"]
                  eq_refl eq_refl Hkeeps eq_refl)
           [[x68; x69]] [] receiver revs Hw Ha Hall eq_refl).
Defined.

(** C1. Two senders, one receiver. Ann and Bob each connect to the
    receiver and send their first file, one byte long, and each puts on its
    connection the announcement, the chunk and the end message under the
    transfer id 1, the first value of the counter of every sender. The
    receiver takes the messages of each connection in the order they were
    sent, those of the two connections alternating. It files the inbound
    transfer under the id alone: Bob's announcement replaces Ann's entry,
    both chunks go into it, and on Ann's end message the receiver hands
    over two bytes under the name of Bob's file; Bob's end message hands
    over nothing. Neither file arrives. *)
Theorem two_senders_under_one_id_mix_their_files :
  let ann := run [Open "me" "Me" true; Enqueue noteA; Loaded 1] (initial "Ann") in
  let bob := run [Open "me" "Me" true; Enqueue noteB; Loaded 1] (initial "Bob") in
  wire "me" ann = Some [Handshake "Ann"; FileStart 1 "a.txt" 1; Binary [x61]; FileEnd 1] /\
  wire "me" bob = Some [Handshake "Bob"; FileStart 1 "b.txt" 1; Binary [x62]; FileEnd 1] /\
  wire "me" ann = Some (fromPeer "ann" crossed) /\
  wire "me" bob = Some (fromPeer "bob" crossed) /\
  downloads (run (take 8 crossed) (initial "Me")) = [] /\
  downloads (run (take 9 crossed) (initial "Me")) = [("b.txt", [x61; x62])] /\
  downloads (run crossed (initial "Me")) = [("b.txt", [x61; x62])].
Proof. by vm_compute. Qed.

(** C2, as amended. In every state the application can reach:
    [sendNextChunk] over the threshold sends nothing and leaves its stream
    waiting for the timer that runs it again, and under the threshold it
    starts the next read; the mark is the constant [bufferThreshold]
    whatever the number of connections, and the bytes outstanding on all
    connections together are at most the mark plus one chunk for each
    connection. The framed manager likewise sends nothing and stays at the
    top of its loop when a recipient's channel is over its limit. *)
Theorem backpressure_waits_and_bounds (me : string) (evs : list Event) :
  let app := run evs (initial me) in
  (forall s,
      connections (sendNextChunk s app) = connections app /\
      streams (sendNextChunk s app)
      = putStream {| s_id := s_id s; s_file := s_file s; s_offset := s_offset s;
                     s_phase := if (bufferThreshold <? totalBuffered (connections app))%Z
                                then AwaitCheck else Reading |} (streams app)) /\
  (totalBuffered (connections app)
   <= bufferThreshold + Z.of_nat (length (connections app)) * chunkSize)%Z /\
  (forall (l : Framed.Loop) (t : Framed.Transfer) (m : Framed.Manager)
          (stringify : Framed.Header -> list byte),
      (Framed.offset l < Framed.f_size (Framed.t_file t))%Z ->
      Framed.overBuffer (Framed.dataChannels m) (Framed.recipients t) = true ->
      Framed.dataChannels (Framed.sendNextChunk l t m) = Framed.dataChannels m /\
      Framed.loops (Framed.sendNextChunk l t m)
      = Framed.setLoop {| Framed.l_transfer := Framed.l_transfer l;
                          Framed.offset := Framed.offset l;
                          Framed.chunkIndex := Framed.chunkIndex l;
                          Framed.l_phase := Framed.AtTop |} (Framed.loops m)).
Proof.
  intros app. split; [done|]. split.
  - apply paced_bound, paced_run; [apply serial_initial | apply paced_initial].
  - intros l t m _ Hoff Hover.
    by destruct (FramedFacts.sendNextChunk_waits l t m Hoff Hover) as (-> & _ & _ & ->).
Qed.

(** C2, as stated, fails: no ceiling holds for every number of
    connections. With [width] connections and a file of one full chunk, the
    first chunk alone puts [width] chunks into the buffers. *)
Lemma no_ceiling_independent_of_width :
  ~ exists ceiling : Z,
      forall (me : string) (evs : list Event),
        (totalBuffered (connections (run evs (initial me))) <= ceiling)%Z.
Proof.
  intros [ceiling H].
  specialize (H "me" (fanOut (Z.to_nat (ceiling / chunkSize) + 1))).
  rewrite totalBuffered_fanOut in H.
  pose proof chunkSize_pos as Hpos.
  pose proof (Z.mod_pos_bound ceiling chunkSize Hpos) as Hmod.
  pose proof (Z.div_mod ceiling chunkSize) as Hdiv.
  generalize dependent chunkSize. intros c H Hpos Hmod Hdiv.
  specialize (Hdiv ltac:(lia)). nia.
Qed.

(** C3, as amended. In every state the application can reach at most one
    chunk loop runs, and it runs under the lock; a file queued while one
    runs is only appended to the queue: nothing is sent for it and no loop
    starts. *)
Theorem one_transfer_streams_at_a_time (me : string) (evs : list Event) :
  let app := run evs (initial me) in
  (length (streams app) <= 1)%nat /\
  (streams app <> [] -> isSending app = true) /\
  (forall file,
      streams app <> [] ->
      streams (handle (Enqueue file) app) = streams app /\
      connections (handle (Enqueue file) app) = connections app /\
      sendingQueue (handle (Enqueue file) app) = sendingQueue app ++ [file]).
Proof.
  intros app.
  assert (Hs : serial app) by apply serial_run, serial_initial.
  destruct Hs as [Hone Hlock _]. repeat split; try done.
  all: simpl; unfold queueFileForSending, processTransferQueue; simpl;
    by rewrite (Hlock H).
Qed.

(** C9, as amended. The bytes-received counter of an inbound transfer is
    the number of bytes accumulated for it; a raw chunk leaves it as it is
    or adds its length to it, so it never decreases, and the declared size
    plays no part. The framed manager adds the length of every chunk it
    stores to its counter. In [VeloApp] the counter stays within the
    declared size while a sender that announced the total length of its
    chunks, as [sendFile] does, is sending them, whatever else the receiver
    handles in between, as long as the connection stays and no other peer
    has a transfer under the same id under way. *)
Theorem bytes_received_counts_chunks (me : string) (evs : list Event) (q : PeerId)
    (data : list byte) :
  let app := run evs (initial me) in
  let app' := handleData q (Binary data) app in
  (forall id t, transfers app !! id = Some t -> received t = totalLength (chunks t)) /\
  (forall id t,
      transfers app !! id = Some t ->
      exists t',
        transfers app' !! id = Some t' /\ size t' = size t /\ name t' = name t /\
        (received t <= received t')%Z /\
        (t' = t \/
         activeInbound q app = Some id /\
         received t' = (received t + Z.of_nat (length data))%Z /\
         chunks t' = chunks t ++ [data])) /\
  (forall (m : Framed.Manager) (header : Framed.Header) (r : Framed.Receiving),
      Framed.receivingFiles m !! Framed.h_transferId header = Some r ->
      exists r',
        Framed.receivingFiles (Framed.handleFileChunk q header data m)
          !! Framed.h_transferId header = Some r' /\
        Framed.bytesReceived r'
        = (Framed.bytesReceived r + Z.of_nat (length data))%Z /\
        Framed.r_size r' = Framed.r_size r) /\
  (forall (receiver : App) (revs : list Event) (id : Z) (nm : string)
          (cs : list (list byte)) (k : nat),
      id <> 0%Z -> apart q id receiver -> Forall (aside q id) revs ->
      fromPeer q revs = FileStart id nm (totalLength cs) :: map Binary (take k cs) ->
      exists t,
        transfers (run revs receiver) !! id = Some t /\
        size t = totalLength cs /\
        received t = totalLength (take k cs) /\ (received t <= size t)%Z).
Proof.
  intros app app'. split; [|split; [|split]].
  - apply counted_run. intros id t. simpl. by rewrite lookup_empty.
  - intros id t Ht. subst app'. simpl. unfold receiveFileChunkRaw.
    destruct (activeInbound q app) as [id0|] eqn:Ha.
    2: { pose proof (activeInbound_none_chunk q data app Ha) as Hn.
         unfold receiveFileChunkRaw in Hn. rewrite Hn.
         exists t. repeat split; try done; try lia; by left. }
    unfold activeInbound in Ha.
    destruct (Js.map_get q (connections app)) as [info|]; [|done].
    destruct (truthyId (receivingId info)) eqn:Htr; [|done]. simpl.
    destruct (transfers app !! default 0%Z (receivingId info)) as [t0|] eqn:Ht0; [|done].
    destruct (receivingId info) as [id1|] eqn:Hrid; [|done]. simpl in *.
    injection Ha as <-. destruct (decide (id = id1)) as [->|Hne].
    + rewrite lookup_insert_eq. assert (t0 = t) as -> by congruence.
      eexists. split; [done|]. simpl. repeat split; try lia. by right.
    + rewrite lookup_insert_ne by done. exists t. repeat split; try done; try lia; by left.
  - intros m header r Hr.
    destruct (FramedFacts.handleFileChunk_known q header data m r Hr)
      as (r' & H1 & H2 & _ & H4 & _).
    by exists r'.
  - intros receiver revs id nm cs k Hne Ha Hall Hfrom.
    destruct (inbound_within_size q id nm cs k revs receiver Hne Ha Hall Hfrom)
      as (t & Ht & Hs & _ & Hr & Hle).
    by exists t.
Qed.

(** C9, as stated, fails: nothing compares the counter with the declared
    size. A sender that announces one byte and sends two leaves the counter
    at two. *)
Lemma received_can_exceed_declared_size :
  ~ (forall (me : string) (evs : list Event) (id : Z) (t : Incoming),
        transfers (run evs (initial me)) !! id = Some t -> (received t <= size t)%Z).
Proof.
  intros H.
  specialize (H "me" [Open "q" "peer" true; Receive "q" (FileStart 1 "f" 1);
                      Receive "q" (Binary [x00; x00])] 1%Z
                {| name := "f"; size := 1; chunks := [[x00; x00]]; received := 2 |}).
  assert (Hle : (2 <= 1)%Z) by (by apply H). lia.
Qed.


(** ** The order of transfers *)

Lemma numbered_app (id : Z) (fs gs : list File) :
  numbered id (fs ++ gs) = numbered id fs ++ numbered (id + Z.of_nat (length fs)) gs.
Proof.
  revert id. induction fs as [|f fs IH]; intros id; simpl.
  - by rewrite Z.add_0_r.
  - rewrite IH. do 3 f_equal. lia.
Qed.

Lemma announced_app (ds ds' : list Data) :
  announced (ds ++ ds') = announced ds ++ announced ds'.
Proof. apply omap_app. Qed.

Lemma enqueued_cons (ev : Event) (evs : list Event) :
  enqueued (ev :: evs) = enqueued [ev] ++ enqueued evs.
Proof. exact (omap_app _ [ev] evs). Qed.

(** What one look at the queue does: nothing, or the file at the head of
    the queue is taken off and announced under the next id. *)
Lemma queue_processTransferQueue (p : PeerId) (pre : list Data) (app : App) :
  wire p app = Some pre ->
  exists (extra : list Data) (started : list File),
    wire p (processTransferQueue app) = Some (pre ++ extra) /\
    announced extra = numbered (transferId app + 1) started /\
    started ++ sendingQueue (processTransferQueue app) = sendingQueue app /\
    transferId (processTransferQueue app) = (transferId app + Z.of_nat (length started))%Z.
Proof.
  intros Hw. unfold processTransferQueue.
  destruct (isSending app).
  { exists [], []. rewrite app_nil_r, Z.add_0_r. done. }
  destruct (sendingQueue app) as [|file rest] eqn:Hq.
  { exists [], []. rewrite app_nil_r, Z.add_0_r. done. }
  exists [FileStart (transferId app + 1) (f_name file) (f_size file)], [file].
  rewrite wire_sendFile. unfold wire. simpl. fold (wire p app). rewrite Hw. done.
Qed.

Lemma queue_handle (p : PeerId) (pre : list Data) (ev : Event) (app : App) :
  wire p app = Some pre -> keeps p ev ->
  exists (extra : list Data) (started : list File),
    wire p (handle ev app) = Some (pre ++ extra) /\
    announced extra = numbered (transferId app + 1) started /\
    started ++ sendingQueue (handle ev app) = sendingQueue app ++ enqueued [ev] /\
    transferId (handle ev app) = (transferId app + Z.of_nat (length started))%Z.
Proof.
  intros Hw Hk.
  assert (Hsame : forall app',
            wire p app' = Some pre -> sendingQueue app' = sendingQueue app ->
            transferId app' = transferId app ->
            exists (extra : list Data) (started : list File),
              wire p app' = Some (pre ++ extra) /\
              announced extra = numbered (transferId app + 1) started /\
              started ++ sendingQueue app' = sendingQueue app ++ [] /\
              transferId app' = (transferId app + Z.of_nat (length started))%Z).
  { intros app' H1 H2 H3. exists [], []. rewrite !app_nil_r, Z.add_0_r. done. }
  destruct ev as [file| |id|id|q n|q nm ch|q|q data]; cbn [handle enqueued omap list_omap].
  - unfold queueFileForSending.
    match goal with |- context [processTransferQueue ?a] => set (app1 := a) end.
    destruct (queue_processTransferQueue p pre app1 Hw) as (extra & started & H1 & H2 & H3 & H4).
    exists extra, started. done.
  - destruct (queue_processTransferQueue p pre app Hw) as (extra & started & H1 & H2 & H3 & H4).
    exists extra, started. by rewrite app_nil_r.
  - destruct (findStream id (streams app)) as [s|]; [|by apply Hsame].
    destruct (s_phase s); by apply Hsame.
  - destruct (findStream id (streams app)) as [s|]; [|by apply Hsame].
    destruct (s_phase s); [by apply Hsame|].
    pose proof (wire_onload p s app) as Hload. cbv zeta in Hload. rewrite Hw in Hload.
    simpl in Hload. eexists _, []. split; [exact Hload|].
    rewrite app_nil_r, Z.add_0_r. split; [|split].
    + simpl. by destruct (_ <? _)%Z.
    + unfold onload. by destruct (_ <? _)%Z.
    + unfold onload. by destruct (_ <? _)%Z.
  - apply Hsame.
    + by rewrite wire_flush.
    + unfold flush. destruct (map_get q _) as [info|]; [|done].
      destruct (dataChannel (conn info)); [|done]. by destruct (_ && _).
    + by destruct (flush_sender q n app) as (_ & _ & ->).
  - simpl in Hk. unfold connOpen.
    match goal with |- context [processTransferQueue ?a] => set (app1 := a) end.
    assert (Hw1 : wire p app1 = Some pre).
    { unfold app1, wire. simpl. rewrite wireIn_set_ne by done. exact Hw. }
    destruct (queue_processTransferQueue p pre app1 Hw1)
      as (extra & started & H1 & H2 & H3 & H4).
    exists extra, started. by rewrite app_nil_r.
  - simpl in Hk. apply Hsame; [|done..].
    unfold connClose, wire. simpl. rewrite wireIn_delete_ne by done. exact Hw.
  - destruct (handleData_sender q data app) as (_ & _ & Ht & Hq).
    apply Hsame; [by rewrite wire_handleData | done | done].
Qed.

Lemma queue_run (p : PeerId) (evs : list Event) : forall (app : App) (pre : list Data),
  wire p app = Some pre -> Forall (keeps p) evs ->
  exists (w : list Data) (started : list File),
    wire p (run evs app) = Some (pre ++ w) /\
    announced w = numbered (transferId app + 1) started /\
    started ++ sendingQueue (run evs app) = sendingQueue app ++ enqueued evs /\
    transferId (run evs app) = (transferId app + Z.of_nat (length started))%Z.
Proof.
  intros app pre Hw Hk. revert app pre Hw.
  induction Hk as [|ev evs Hev Hevs IH]; intros app pre Hw.
  - exists [], []. rewrite !app_nil_r, Z.add_0_r. done.
  - destruct (queue_handle p pre ev app Hw Hev) as (extra & started & H1 & H2 & H3 & H4).
    destruct (IH _ _ H1) as (w' & started' & H1' & H2' & H3' & H4').
    exists (extra ++ w'), (started ++ started').
    change (run (ev :: evs) app) with (run evs (handle ev app)).
    split; [by rewrite H1', app_assoc|]. split; [|split].
    + rewrite announced_app, numbered_app, H2, H2', H4. do 2 f_equal. lia.
    + rewrite (enqueued_cons ev evs).
      rewrite <- app_assoc, H3', app_assoc, H3. by rewrite <- app_assoc.
    + rewrite H4', H4, length_app. lia.
Qed.

(** X19. Files go out in the order in which they were queued, under
    consecutive ids: whatever happens in between, as long as the
    connection to a peer is kept, the announcements the peer is sent are
    those of the files taken off the head of the queue one after the
    other, numbered from the next transfer id, and what is still queued
    is the rest of the files that were waiting followed by those queued
    since. *)
Theorem files_go_out_in_queue_order (app : App) (p : PeerId) (pre : list Data)
    (evs : list Event) :
  wire p app = Some pre -> Forall (keeps p) evs ->
  exists (w : list Data) (started : list File),
    wire p (run evs app) = Some (pre ++ w) /\
    announced w = numbered (transferId app + 1) started /\
    started ++ sendingQueue (run evs app) = sendingQueue app ++ enqueued evs.
Proof.
  intros Hw Hk. destruct (queue_run p evs app pre Hw Hk) as (w & started & H1 & H2 & H3 & _).
  by exists w, started.
Qed.

(** *** The queue runs empty *)

Lemma settled_initial (me : string) : settled (initial me).
Proof. split; [done | constructor]. Qed.

Lemma settled_same (app app' : App) :
  settled app -> streams app' = streams app -> isSending app' = isSending app -> settled app'.
Proof. intros [H1 H2] Hs Hi. split; by rewrite ?Hs, ?Hi. Qed.

Lemma settled_processTransferQueue (app : App) :
  serial app -> settled app -> settled (processTransferQueue app).
Proof.
  intros Hs Hset. unfold processTransferQueue.
  destruct (isSending app) eqn:Hlock; [done|].
  destruct (sendingQueue app) as [|file rest]; [done|].
  assert (Hidle : streams app = []).
  { destruct (streams app) eqn:E; [done|].
    destruct Hs as [_ Hl _]. rewrite E in Hl. by rewrite Hl in Hlock. }
  match goal with |- settled (sendFile file ?a) => set (app1 := a) end.
  destruct (streams_sendFile file app1 Hidle) as (s' & Hs' & _ & Hf & Ho).
  split; rewrite Hs'; [done|]. constructor; [|done]. rewrite Ho, Hf. unfold f_size. lia.
Qed.

Lemma settled_handle (ev : Event) (app : App) :
  serial app -> settled app -> settled (handle ev app).
Proof.
  intros Hs Hset. destruct ev as [file| |id|id|q n|q nm ch|q|q data]; simpl.
  - unfold queueFileForSending. apply settled_processTransferQueue.
    + by eapply serial_same.
    + by eapply settled_same.
  - by apply settled_processTransferQueue.
  - destruct (findStream id (streams app)) as [s|] eqn:Hfind; [|done].
    destruct (s_phase s); [|done].
    destruct (serial_found app id s Hs Hfind) as [Hone _].
    destruct Hset as [_ Hin]. rewrite Hone in Hin. inversion Hin as [|? ? Hb _]; subst.
    split; rewrite streams_sendNextChunk, Hone, putStream_single by done; [done|].
    by constructor.
  - destruct (findStream id (streams app)) as [s|] eqn:Hfind; [|done].
    destruct (s_phase s); [done|].
    destruct (serial_found app id s Hs Hfind) as [Hone _].
    destruct Hset as [_ Hin]. rewrite Hone in Hin. inversion Hin as [|? ? Hb _]; subst.
    pose proof (streams_onload s app Hone) as [_ Hc]. cbv zeta in Hc.
    set (chunk := slice (f_bytes (s_file s)) (s_offset s) (s_offset s + chunkSize)) in *.
    destruct (Z.ltb_spec (s_offset s + Z.of_nat (length chunk)) (f_size (s_file s))).
    + destruct Hc as [ph Hc]. split; rewrite Hc; [done|]. constructor; [|done]. simpl. lia.
    + destruct Hc as [Hc Hl]. split; rewrite Hc; [done | constructor].
  - destruct (flush_sender q n app) as (H1 & H2 & _). by eapply settled_same.
  - unfold connOpen. apply settled_processTransferQueue.
    + by eapply serial_same.
    + by eapply settled_same.
  - done.
  - destruct (handleData_sender q data app) as (H1 & H2 & _). by eapply settled_same.
Qed.

Lemma settled_run (evs : list Event) : forall app,
  serial app -> settled app -> settled (run evs app).
Proof.
  induction evs as [|ev evs IH]; intros app Hs Hset; [done|].
  simpl. apply IH; [by apply serial_handle | by apply settled_handle].
Qed.

Lemma rounds_quiet (n : nat) (id : Z) : forall app,
  enqueued (rounds n id app) = [] /\
  sendingQueue (run (rounds n id app) app) = sendingQueue app /\
  transferId (run (rounds n id app) app) = transferId app.
Proof.
  assert (Hdrain : forall cs app,
            enqueued (drainAll cs) = [] /\
            sendingQueue (run (drainAll cs) app) = sendingQueue app /\
            transferId (run (drainAll cs) app) = transferId app).
  { induction cs as [|e cs IHcs]; intros app; [done|].
    change (drainAll (e :: cs)) with (Flush e.1 (buffered e.2) :: drainAll cs).
    change (run (Flush e.1 (buffered e.2) :: drainAll cs) app)
      with (run (drainAll cs) (handle (Flush e.1 (buffered e.2)) app)).
    destruct (IHcs (handle (Flush e.1 (buffered e.2)) app)) as (H1 & H2 & H3).
    rewrite (enqueued_cons _ (drainAll cs)), H1, H2, H3. simpl.
    destruct (flush_sender e.1 (buffered e.2) app) as (_ & _ & ->).
    repeat split. unfold flush. destruct (map_get _ _) as [info|]; [|done].
    destruct (dataChannel (conn info)); [|done]. by destruct (_ && _). }
  assert (Hstep : forall ev app,
            match ev with Retry _ | Loaded _ => True | _ => False end ->
            sendingQueue (handle ev app) = sendingQueue app /\
            transferId (handle ev app) = transferId app).
  { intros ev app Hev. destruct ev as [| |i|i| | | |]; try done; simpl.
    - destruct (findStream i (streams app)) as [s|]; [|done]. by destruct (s_phase s).
    - destruct (findStream i (streams app)) as [s|]; [|done].
      destruct (s_phase s); [done|]. unfold onload. by destruct (_ <? _)%Z. }
  induction n as [|n IH]; intros app; [done|].
  cbn [rounds]. set (evs := drainAll (connections app) ++ [Retry id; Loaded id]).
  assert (Hevs : enqueued evs = [] /\ sendingQueue (run evs app) = sendingQueue app /\
                 transferId (run evs app) = transferId app).
  { unfold evs. rewrite run_app.
    set (app1 := run (drainAll (connections app)) app).
    change (run [Retry id; Loaded id] app1) with (handle (Loaded id) (handle (Retry id) app1)).
    destruct (Hdrain (connections app) app) as (D1 & D2 & D3). fold app1 in D2, D3.
    destruct (Hstep (Retry id) app1 I) as [R1 R2].
    destruct (Hstep (Loaded id) (handle (Retry id) app1) I) as [L1 L2].
    split; [|split; congruence].
    unfold enqueued in *. by rewrite omap_app, D1. }
  destruct Hevs as (E1 & E2 & E3). destruct (IH (run evs app)) as (H1 & H2 & H3).
  rewrite run_app. unfold enqueued in *. rewrite omap_app, E1, H1, H2, H3. done.
Qed.

(** Whatever is running can be brought to its end, by events that leave
    the queue alone. *)
Lemma running_can_end (p : PeerId) (app : App) :
  serial app -> paced app -> tidy app -> settled app ->
  exists evs,
    Forall (keeps p) evs /\ enqueued evs = [] /\
    streams (run evs app) = [] /\ sendingQueue (run evs app) = sendingQueue app.
Proof.
  intros Hs Hp Ht [_ Hin].
  destruct (streams app) as [|s rest] eqn:E.
  { exists []. by repeat split. }
  assert (Hone : streams app = [s]).
  { destruct Hs as [Hlen _ _]. rewrite E in Hlen. destruct rest; [done | simpl in Hlen; lia]. }
  rewrite Hone in E. injection E as <-. inversion Hin as [|? ? Hb _]; subst.
  exists (rounds (S (Z.to_nat (f_size (s_file s) - s_offset s))) (s_id s) app).
  destruct (rounds_quiet (S (Z.to_nat (f_size (s_file s) - s_offset s))) (s_id s) app)
    as (Hq & Hsq & _).
  split; [apply rounds_keep|]. split; [done|]. split; [|done].
  apply (rounds_end _ _ _ s); try done. lia.
Qed.

Lemma queue_drains (p : PeerId) (n : nat) : forall app,
  serial app -> paced app -> tidy app -> settled app ->
  length (sendingQueue app) = n ->
  exists evs,
    Forall (keeps p) evs /\ enqueued evs = [] /\
    sendingQueue (run evs app) = [] /\ streams (run evs app) = [] /\
    isSending (run evs app) = false.
Proof.
  induction n as [|n IH]; intros app Hs Hp Ht Hset Hlen.
  - destruct (running_can_end p app Hs Hp Ht Hset) as (evs & Hk & He & Hst & Hq).
    exists evs. split; [done|]. split; [done|]. split; [|split; [done|]].
    + rewrite Hq. by destruct (sendingQueue app).
    + by apply (settled_run evs app Hs Hset).
  - destruct (running_can_end p app Hs Hp Ht Hset) as (evs1 & Hk1 & He1 & Hst1 & Hq1).
    set (app1 := run evs1 app) in *.
    assert (Hs1 : serial app1) by by apply serial_run.
    assert (Hp1 : paced app1) by by apply paced_run.
    assert (Ht1 : tidy app1) by by apply tidy_run.
    assert (Hset1 : settled app1) by by apply settled_run.
    assert (Hlock1 : isSending app1 = false) by by apply Hset1.
    destruct (sendingQueue app) as [|file rest] eqn:Eq; [done|].
    destruct (IH (handle ProcessQueue app1)) as (evs2 & Hk2 & He2 & Hq2 & Hst2 & Hl2).
    + by apply serial_handle.
    + by apply paced_handle.
    + by apply tidy_handle.
    + by apply settled_handle.
    + simpl. unfold processTransferQueue. rewrite Hlock1, Hq1. simpl in *. lia.
    + exists (evs1 ++ ProcessQueue :: evs2). rewrite run_app.
      change (run (ProcessQueue :: evs2) (run evs1 app))
        with (run evs2 (handle ProcessQueue app1)).
      split; [|split; [|done]].
      * apply Forall_app. split; [done|]. by constructor.
      * unfold enqueued in *. rewrite omap_app, He1. simpl. exact He2.
Qed.

(** X18. The queue cannot get stuck: whatever has happened, some course of
    events (buffers emptied by the network, timers and readers finishing,
    nothing queued anew) leaves the queue empty, no transfer running and
    the lock released; by then a peer whose connection was kept has been
    sent the announcements of all the files that were waiting, in the order
    of the queue and under consecutive ids. *)
Theorem queue_runs_empty (me : string) (evs0 : list Event) (p : PeerId) :
  let sender := run evs0 (initial me) in
  exists evs,
    Forall (keeps p) evs /\ enqueued evs = [] /\
    sendingQueue (run evs sender) = [] /\ streams (run evs sender) = [] /\
    isSending (run evs sender) = false /\
    forall pre, wire p sender = Some pre ->
      exists w, wire p (run evs sender) = Some (pre ++ w) /\
                announced w = numbered (transferId sender + 1) (sendingQueue sender).
Proof.
  intros sender.
  assert (Hs : serial sender) by apply serial_run, serial_initial.
  assert (Hp : paced sender) by (apply paced_run; [apply serial_initial | apply paced_initial]).
  assert (Ht : tidy sender) by (apply tidy_run; constructor).
  assert (Hset : settled sender)
    by (apply settled_run; [apply serial_initial | apply settled_initial]).
  destruct (queue_drains p _ sender Hs Hp Ht Hset eq_refl) as (evs & Hk & He & Hq & Hst & Hl).
  exists evs. repeat split; try done.
  intros pre Hw. destruct (queue_run p evs sender pre Hw Hk) as (w & started & H1 & H2 & H3 & _).
  exists w. split; [done|]. rewrite Hq, He, !app_nil_r in H3. by rewrite <- H3.
Qed.

(** ** What a receiver is handed *)

Lemma downloads_sendNextChunk s app : downloads (sendNextChunk s app) = downloads app.
Proof. reflexivity. Qed.

Lemma downloads_processTransferQueue app :
  downloads (processTransferQueue app) = downloads app.
Proof.
  unfold processTransferQueue. destruct (isSending app); [done|].
  by destruct (sendingQueue app).
Qed.

Lemma downloads_handle ev app :
  exists new, downloads (handle ev app) = downloads app ++ new /\
              (length new <= ends [ev])%nat.
Proof.
  assert (Hsame : forall app', downloads app' = downloads app ->
            exists new, downloads app' = downloads app ++ new /\ (length new <= 0)%nat).
  { intros app' ->. exists []. by rewrite app_nil_r. }
  destruct ev as [file| |id|id|q n|q nm ch|q|q data]; cbn [handle ends List.filter length].
  - apply Hsame. unfold queueFileForSending. by rewrite downloads_processTransferQueue.
  - apply Hsame, downloads_processTransferQueue.
  - apply Hsame. destruct (findStream id (streams app)) as [s|]; [|done].
    by destruct (s_phase s).
  - apply Hsame. destruct (findStream id (streams app)) as [s|]; [|done].
    destruct (s_phase s); [done|]. unfold onload. by destruct (_ <? _)%Z.
  - apply Hsame. unfold flush. destruct (map_get q _) as [info|]; [|done].
    destruct (dataChannel (conn info)); [|done]. by destruct (_ && _).
  - apply Hsame. unfold connOpen. by rewrite downloads_processTransferQueue.
  - by apply Hsame.
  - destruct data as [bytes|nm|id nm sz|id]; simpl.
    + apply Hsame. unfold receiveFileChunkRaw. destruct (map_get q _) as [info|]; [|done].
      destruct (negb _); [done|]. by destruct (transfers app !! _).
    + apply Hsame. by destruct (map_get q _).
    + apply Hsame. unfold receiveFileStart, setReceivingId. by destruct (map_get q _).
    + unfold receiveFileEnd.
      assert (Hd : downloads (setReceivingId q None app) = downloads app).
      { unfold setReceivingId. by destruct (map_get q _). }
      destruct (transfers (setReceivingId q None app) !! id) as [t|].
      * eexists. simpl. rewrite Hd. split; [done|]. simpl. lia.
      * exists []. rewrite app_nil_r. split; [done|]. simpl. lia.
Qed.

(** X20. A file is handed to the browser only on a [file-end] message:
    whatever the events, the downloads made before stay, and at most one
    is added for each [file-end] received; no other event, neither a
    chunk that fills the announced size nor a connection that closes,
    adds one. *)
Theorem downloads_only_on_file_end (evs : list Event) (app : App) :
  exists new,
    downloads (run evs app) = downloads app ++ new /\ (length new <= ends evs)%nat.
Proof.
  revert app. induction evs as [|ev evs IH]; intros app.
  - exists []. by rewrite app_nil_r.
  - destruct (downloads_handle ev app) as (new1 & H1 & Hlen1).
    destruct (IH (handle ev app)) as (new2 & H2 & Hlen2).
    exists (new1 ++ new2). change (run (ev :: evs) app) with (run evs (handle ev app)).
    split; [by rewrite H2, H1, app_assoc|].
    rewrite length_app. change (ev :: evs) with ([ev] ++ evs).
    unfold ends in *. rewrite List.filter_app, length_app. lia.
Qed.

(** ** Two senders under one id *)

Lemma shared_start (p q : PeerId) (id : Z) (nm1 nm2 : string) (sz1 sz2 : Z) (app : App) :
  is_Some (map_get p (connections app)) -> is_Some (map_get q (connections app)) ->
  let app' := run [Receive p (FileStart id nm1 sz1); Receive q (FileStart id nm2 sz2)] app in
  shared p q id nm2 [] app' /\ downloads app' = downloads app.
Proof.
  intros [ip Hp] [iq Hq]. simpl.
  set (app1 := receiveFileStart p id nm1 sz1 app).
  assert (Hp1 : exists info, map_get p (connections app1) = Some info /\
                             receivingId info = Some id).
  { unfold app1, receiveFileStart, setReceivingId. rewrite Hp. simpl.
    eexists. split; [apply map_get_set_eq | done]. }
  assert (Hq1 : is_Some (map_get q (connections app1))).
  { destruct (decide (q = p)) as [->|Hne]; [destruct Hp1 as (i & -> & _); by eexists|].
    unfold app1, receiveFileStart, setReceivingId. rewrite Hp. simpl.
    rewrite map_get_set_ne by done. by eexists. }
  assert (Hd1 : downloads app1 = downloads app).
  { unfold app1, receiveFileStart, setReceivingId. by rewrite Hp. }
  destruct Hq1 as [iq1 Hq1]. destruct Hp1 as (ip1 & Hp1 & Hid1).
  split; [split; [|split]|].
  - unfold receiveFileStart, setReceivingId. rewrite Hq1. simpl.
    destruct (decide (p = q)) as [->|Hne].
    + eexists. split; [apply map_get_set_eq | done].
    + rewrite map_get_set_ne by done. by exists ip1.
  - unfold receiveFileStart, setReceivingId. rewrite Hq1. simpl.
    eexists. split; [apply map_get_set_eq | done].
  - unfold receiveFileStart. simpl. eexists. split; [apply lookup_insert_eq | done].
  - unfold receiveFileStart, setReceivingId. rewrite Hq1. simpl. exact Hd1.
Qed.

Lemma shared_chunks (p q : PeerId) (id : Z) (nm : string) (evs : list Event) :
  id <> 0%Z ->
  Forall (fun ev => exists bytes, ev = Receive p (Binary bytes) \/
                                  ev = Receive q (Binary bytes)) evs ->
  forall (cs : list (list byte)) (app : App),
    shared p q id nm cs app ->
    shared p q id nm (cs ++ binaries evs) (run evs app) /\
    downloads (run evs app) = downloads app.
Proof.
  intros Hne. induction 1 as [|ev evs (bytes & Hev) Hevs IH]; intros cs app Hsh.
  { simpl. by rewrite app_nil_r. }
  change (run (ev :: evs) app) with (run evs (handle ev app)).
  assert (Hstep : shared p q id nm (cs ++ [bytes]) (handle ev app) /\
                  downloads (handle ev app) = downloads app /\ binaries [ev] = [bytes]).
  { destruct Hsh as ((ip & Hp & Hpid) & (iq & Hq & Hqid) & (t & Ht & Hnm & Hcs)).
    assert (Hx : exists x info, (ev = Receive x (Binary bytes)) /\
                   map_get x (connections app) = Some info /\ receivingId info = Some id).
    { destruct Hev as [->| ->]; [by exists p, ip | by exists q, iq]. }
    destruct Hx as (x & info & -> & Hxi & Hxid). cbn [handle handleData].
    destruct (receiveFileChunkRaw_active x bytes app info id t Hxi Hxid Hne Ht)
      as (Hc & Hd & Htr).
    split; [|by split]. split; [|split].
    - exists ip. by rewrite Hc.
    - exists iq. by rewrite Hc.
    - rewrite Htr. eexists. split; [apply lookup_insert_eq|]. simpl. by rewrite Hcs. }
  destruct Hstep as (Hsh' & Hd' & Hb).
  destruct (IH _ _ Hsh') as [Hsh'' Hd'']. split; [|congruence].
  change (ev :: evs) with ([ev] ++ evs). unfold binaries in *. rewrite omap_app, Hb.
  by rewrite <- app_assoc in Hsh''.
Qed.

(** X21. Inbound transfers are filed under the id alone, and every sender
    numbers its transfers from one. When two connected peers announce a
    transfer under the same id, the second announcement starts the entry
    afresh under its own name, the chunks of both peers go into it in the
    order they arrive, and the first [file-end] of either peer hands the
    browser the mix under the second name; the [file-end] of the other
    peer then hands over nothing. *)
Theorem one_id_from_two_peers_mixes_the_files (app : App) (p q x y : PeerId) (id : Z)
    (nm1 nm2 : string) (sz1 sz2 : Z) (evs : list Event) :
  is_Some (map_get p (connections app)) -> is_Some (map_get q (connections app)) ->
  id <> 0%Z ->
  Forall (fun ev => exists bytes, ev = Receive p (Binary bytes) \/
                                  ev = Receive q (Binary bytes)) evs ->
  x = p \/ x = q ->
  let arrived := [Receive p (FileStart id nm1 sz1); Receive q (FileStart id nm2 sz2)]
                 ++ evs ++ [Receive x (FileEnd id)] in
  downloads (run arrived app) = downloads app ++ [(nm2, Blob (binaries evs))] /\
  downloads (run (arrived ++ [Receive y (FileEnd id)]) app) = downloads (run arrived app).
Proof.
  intros Hp Hq Hne Hevs Hx arrived.
  destruct (shared_start p q id nm1 nm2 sz1 sz2 app Hp Hq) as [Hsh Hd].
  set (app2 := run [Receive p (FileStart id nm1 sz1); Receive q (FileStart id nm2 sz2)] app)
    in *.
  destruct (shared_chunks p q id nm2 evs Hne Hevs [] app2 Hsh) as [Hsh3 Hd3].
  set (app3 := run evs app2) in *. simpl in Hsh3.
  assert (Hrun : run arrived app = receiveFileEnd x id app3).
  { unfold arrived, run. rewrite !foldl_app. done. }
  assert (Hend : downloads (receiveFileEnd x id app3)
                 = downloads app ++ [(nm2, Blob (binaries evs))] /\
                 transfers (receiveFileEnd x id app3) !! id = None).
  { destruct Hsh3 as (_ & _ & (t & Ht & Hnm & Hcs)).
    unfold receiveFileEnd.
    assert (Hset : transfers (setReceivingId x None app3) = transfers app3 /\
                   downloads (setReceivingId x None app3) = downloads app3).
    { unfold setReceivingId. by destruct (map_get x _). }
    destruct Hset as [Hst Hsd]. rewrite Hst, Ht. simpl. rewrite ?Hst, Hsd, Hnm, Hcs.
    split; [congruence | apply lookup_delete_eq]. }
  destruct Hend as [Hdl Hgone]. split; [by rewrite Hrun|].
  unfold run at 1. rewrite foldl_app. fold (run arrived app). rewrite Hrun. simpl.
  unfold receiveFileEnd at 1.
  assert (Hset : transfers (setReceivingId y None (receiveFileEnd x id app3))
                 = transfers (receiveFileEnd x id app3) /\
                 downloads (setReceivingId y None (receiveFileEnd x id app3))
                 = downloads (receiveFileEnd x id app3)).
  { unfold setReceivingId. by destruct (map_get y _). }
  destruct Hset as [Hst Hsd]. by rewrite Hst, Hgone.
Qed.

(** ** A receiver that missed the announcement *)

Lemma activeInbound_handshake q nm app :
  activeInbound q app = None -> activeInbound q (handleData q (Handshake nm) app) = None.
Proof.
  unfold activeInbound. simpl. destruct (map_get q (connections app)) as [info|] eqn:Hq; [|by rewrite Hq].
  simpl. by rewrite map_get_set_eq.
Qed.

(** X22. A peer that missed the announcement of a transfer downloads
    nothing of it: when no chunk of the peer has a transfer to go to, the
    raw chunks it sends and a [file-end] for an id that is not on file
    change neither the transfers on file nor the downloads. This is what
    a connection opened while a file is being sent is sent: the rest of
    the chunks and the end message, without the [file-start]. *)
Theorem chunks_without_announcement_download_nothing (q : PeerId) (w : list Data)
    (app : App) :
  activeInbound q app = None ->
  Forall (fun d => match d with
                   | Binary _ | Handshake _ => True
                   | FileEnd id => transfers app !! id = None
                   | FileStart _ _ _ => False
                   end) w ->
  transfers (deliver q w app) = transfers app /\
  downloads (deliver q w app) = downloads app /\
  activeInbound q (deliver q w app) = None.
Proof.
  intros Hidle Hall. revert app Hidle Hall.
  induction w as [|d w IH]; intros app Hidle Hall; [done|].
  inversion Hall as [|? ? Hd Hw]; subst.
  change (deliver q (d :: w) app) with (deliver q w (handleData q d app)).
  assert (Hstep : transfers (handleData q d app) = transfers app /\
                  downloads (handleData q d app) = downloads app /\
                  activeInbound q (handleData q d app) = None).
  { destruct d as [bytes|nm|id nm sz|id]; [| | done |].
    - simpl. by rewrite activeInbound_none_chunk.
    - split; [|split; [|by apply activeInbound_handshake]];
        simpl; by destruct (map_get q (connections app)).
    - simpl. split; [|split; [|apply activeInbound_after_end]].
      + unfold receiveFileEnd.
        assert (Hst : transfers (setReceivingId q None app) = transfers app).
        { unfold setReceivingId. by destruct (map_get q _). }
        rewrite Hst, Hd. done.
      + unfold receiveFileEnd.
        assert (Hst : transfers (setReceivingId q None app) = transfers app /\
                      downloads (setReceivingId q None app) = downloads app).
        { unfold setReceivingId. by destruct (map_get q _). }
        destruct Hst as [Hst Hsd]. by rewrite Hst, Hd. }
  destruct Hstep as (Ht & Hdl & Hidle').
  destruct (IH (handleData q d app) Hidle') as (Ht' & Hdl' & Hidle'').
  - eapply Forall_impl; [exact Hw|]. intros d' Hd'. destruct d'; try done. by rewrite Ht.
  - split; [congruence|]. split; [congruence | done].
Qed.

(** ** Peer ids *)

(** X23. A peer id made by [generatePeerId] is [VELO-] followed by exactly
    six characters, each an uppercase letter or a digit of the alphabet
    without the confusable [0], [O], [1] and [I], whatever [Math.random]
    returns in its range. *)
Theorem peer_ids_wellformed (random : nat -> Q) (pos : nat) :
  (forall n, (0 <= random n)%Q /\ (random n < 1)%Q) ->
  exists suffix,
    generatePeerId random pos = "VELO-" +:+ suffix /\
    String.length suffix = 6%nat /\
    String.length (generatePeerId random pos) = 11%nat /\
    Forall (fun a => Relay.unambiguous a = true /\ ~ In a Relay.confusable)
           (list_ascii_of_string suffix).
Proof.
  intros Hrange. unfold generatePeerId.
  destruct (RelayFacts.generateLoop_shape random Hrange 6 pos "VELO-")
    as (suffix & -> & Hlen & Hall).
  exists suffix. split; [done|]. split; [done|]. split.
  - change ("VELO-" +:+ suffix) with (String "V" (String "E" (String "L" (String "O"
             (String "-" suffix))))).
    simpl. by rewrite Hlen.
  - eapply Forall_impl; [exact Hall|]. intros a Ha. split.
    + by apply (proj1 (List.Forall_forall _ _) RelayFacts.chars_unambiguous).
    + by apply (proj1 (List.Forall_forall _ _) RelayFacts.chars_not_confusable).
Qed.

(** ** Concrete runs *)

Lemma files_go_out_in_queue_order_witness :
  wire "bob" (run [Open "bob" "Bob" true] (initial "alice")) = Some [Handshake "alice"] /\
  Forall (keeps "bob") [Enqueue greeting; Enqueue farewell; Loaded 1; ProcessQueue] /\
  exists (w : list Data) (started : list File),
    wire "bob" (run [Enqueue greeting; Enqueue farewell; Loaded 1; ProcessQueue]
                    (run [Open "bob" "Bob" true] (initial "alice")))
    = Some ([Handshake "alice"] ++ w) /\
    announced w
    = numbered (transferId (run [Open "bob" "Bob" true] (initial "alice")) + 1) started /\
    started ++ sendingQueue (run [Enqueue greeting; Enqueue farewell; Loaded 1; ProcessQueue]
                                 (run [Open "bob" "Bob" true] (initial "alice")))
    = sendingQueue (run [Open "bob" "Bob" true] (initial "alice"))
      ++ enqueued [Enqueue greeting; Enqueue farewell; Loaded 1; ProcessQueue].
Proof.
  assert (Hk : Forall (keeps "bob") [Enqueue greeting; Enqueue farewell; Loaded 1; ProcessQueue])
    by (by repeat constructor).
  split; [reflexivity|]. split; [exact Hk|].
  exact (files_go_out_in_queue_order (run [Open "bob" "Bob" true] (initial "alice")) "bob"
           [Handshake "alice"] _ eq_refl Hk).
Defined.

Lemma one_id_from_two_peers_mixes_the_files_witness :
  downloads (run ([Receive "ann" (FileStart 1 "a.txt" 1); Receive "bob" (FileStart 1 "b.txt" 1)]
                  ++ [Receive "ann" (Binary [x61]); Receive "bob" (Binary [x62])]
                  ++ [Receive "ann" (FileEnd 1)])
                 (run [Open "ann" "Ann" true; Open "bob" "Bob" true] (initial "me")))
  = [("b.txt", [x61; x62])].
Proof.
  assert (Hevs : Forall (fun ev => exists bytes, ev = Receive "ann" (Binary bytes) \/
                                                 ev = Receive "bob" (Binary bytes))
                   [Receive "ann" (Binary [x61]); Receive "bob" (Binary [x62])]).
  { constructor; [exists [x61]; by left|]. constructor; [exists [x62]; by right|]. constructor. }
  exact (proj1 (one_id_from_two_peers_mixes_the_files
                  (run [Open "ann" "Ann" true; Open "bob" "Bob" true] (initial "me"))
                  "ann" "bob" "ann" "bob" 1 "a.txt" "b.txt" 1 1 _
                  ltac:(by eexists) ltac:(by eexists) ltac:(discriminate) Hevs
                  (or_introl eq_refl))).
Defined.

Lemma chunks_without_announcement_download_nothing_witness :
  activeInbound "ann" (run [Open "ann" "Ann" true] (initial "me")) = None /\
  downloads (deliver "ann" [Handshake "Ann"; Binary [x61]; FileEnd 1]
                     (run [Open "ann" "Ann" true] (initial "me"))) = [].
Proof.
  split; [reflexivity|].
  assert (Hall : Forall (fun d => match d with
                   | Binary _ | Handshake _ => True
                   | FileEnd id => transfers (run [Open "ann" "Ann" true] (initial "me")) !! id
                                   = None
                   | FileStart _ _ _ => False
                   end) [Handshake "Ann"; Binary [x61]; FileEnd 1])
    by (by repeat constructor).
  exact (proj1 (proj2 (chunks_without_announcement_download_nothing "ann" _
                         (run [Open "ann" "Ann" true] (initial "me")) eq_refl Hall))).
Defined.

Lemma peer_ids_wellformed_witness :
  (forall n, (0 <= Relay.rnd n)%Q /\ (Relay.rnd n < 1)%Q) /\
  generatePeerId Relay.rnd 0 = "VELO-AAAAAA" /\
  exists suffix,
    generatePeerId Relay.rnd 0 = "VELO-" +:+ suffix /\
    String.length suffix = 6%nat /\
    String.length (generatePeerId Relay.rnd 0) = 11%nat /\
    Forall (fun a => Relay.unambiguous a = true /\ ~ In a Relay.confusable)
           (list_ascii_of_string suffix).
Proof.
  split; [apply RelayFacts.rnd_range|]. split; [reflexivity|].
  exact (peer_ids_wellformed Relay.rnd 0 RelayFacts.rnd_range).
Defined.

Lemma transfer_can_end_witness :
  isSending (run [Open "bob" "Bob" true] (initial "alice")) = false /\
  exists evs,
    Forall (keeps "bob") evs /\
    findStream (transferId (run [Open "bob" "Bob" true] (initial "alice")) + 1)
      (streams (run evs (sendFile greeting (run [Open "bob" "Bob" true] (initial "alice")))))
    = None.
Proof.
  split; [reflexivity|].
  exact (transfer_can_end "alice" [Open "bob" "Bob" true] greeting "bob" eq_refl).
Defined.

End VeloFacts.

(** * Properties of the adaptive sender *)

Module OptimizedFacts.
Import Js JsFacts Optimized.

Lemma gt_spec (a b : Q) : gt a b = true <-> (b < a)%Q.
Proof.
  unfold gt. rewrite negb_true_iff. split.
  - intros H. apply Qnot_le_lt. intros Hle. apply Qle_bool_iff in Hle. congruence.
  - intros H. destruct (Qle_bool a b) eqn:E; [|done].
    apply Qle_bool_iff in E. by apply Qlt_not_le in H.
Qed.

Lemma calculateOptimalChunkSize_sizes (speed : Q) :
  In (calculateOptimalChunkSize speed) chunkSizes.
Proof.
  unfold calculateOptimalChunkSize, chunkSizes.
  repeat (destruct (gt speed _); [simpl; tauto|]). simpl. tauto.
Qed.

Lemma chunkSizes_range (c : Z) :
  In c chunkSizes -> (minChunkSize <= c <= maxChunkSize)%Z.
Proof.
  unfold chunkSizes, minChunkSize, maxChunkSize. simpl.
  intros [<-|[<-|[<-|[<-|[<-|[]]]]]]; lia.
Qed.

(** The threshold takes two values only. *)
Lemma bufferThreshold_values (targets : nat) :
  (0 < targets)%nat ->
  (bufferThreshold targets
   == inject_Z (if (targets =? 1)%nat then 4 * 1024 * 1024 else 2 * 1024 * 1024))%Q.
Proof.
  intros Hpos. unfold bufferThreshold, max.
  destruct targets as [|[|n]]; [lia | |].
  - reflexivity.
  - change (S (S n) =? 1)%nat with false.
    destruct (Qle_bool 2 (4 / inject_Z (Z.of_nat (S (S n))))) eqn:E; [|reflexivity].
    apply Qle_bool_iff in E.
    assert (H : (4 / inject_Z (Z.of_nat (S (S n))) <= 2)%Q).
    { apply Qle_shift_div_r.
      - unfold Qlt. simpl. lia.
      - unfold Qle. simpl. lia. }
    assert (Heq : (4 / inject_Z (Z.of_nat (S (S n))) == 2)%Q) by by apply Qle_antisym.
    rewrite Heq. reflexivity.
Qed.

Lemma waits_iff (targets : nat) (buffered : Z) :
  (0 < targets)%nat ->
  gt (inject_Z buffered) (bufferThreshold targets)
  = ((if (targets =? 1)%nat then 4 * 1024 * 1024 else 2 * 1024 * 1024) <? buffered)%Z.
Proof.
  intros Hpos. pose proof (bufferThreshold_values targets Hpos) as Heq.
  set (limit := (if (targets =? 1)%nat then _ else _)%Z) in *.
  destruct (Z.ltb_spec limit buffered) as [Hlt|Hge].
  - apply gt_spec. rewrite Heq. by rewrite <- Zlt_Qlt.
  - destruct (gt _ _) eqn:E; [|done]. apply gt_spec in E.
    rewrite Heq in E. rewrite <- Zlt_Qlt in E. lia.
Qed.

(** X26. The threshold of the back pressure, which the source computes from
    the number of targets, has two values only: a transfer to one peer waits
    when more than four mebibytes are buffered, a transfer to two peers or
    more when more than two are, in total; a call of [sendNextChunk] that
    does not wait and is not cancelled reads and sends the next chunk. *)
Theorem backpressure_threshold_has_two_values (file : Velo.File) (id : Z) (targets : nat)
    (a : Attempt) (t : Transfer) :
  (0 < targets)%nat -> cancelled a = false ->
  sendNextChunk file id targets a t
  = if ((if (targets =? 1)%nat then 4 * 1024 * 1024 else 2 * 1024 * 1024) <? totalBuffered a)%Z
    then (touched (before a) t, Sending)
    else onload file id a (touched (before a) t).
Proof.
  intros Hpos Hc. unfold sendNextChunk. rewrite Hc. by rewrite waits_iff.
Qed.

(** *** The chunks of a transfer *)

Lemma underway_start (file : Velo.File) (id : Z) (speed : Q) :
  underway file id []
    {| offset := 0; measuredSpeed := speed; chunkSize := calculateOptimalChunkSize speed;
       entry := Some (Some (calculateOptimalChunkSize speed));
       sent := [Velo.FileStart id (Velo.f_name file) (Velo.f_size file)];
       isSending := true |}.
Proof.
  unfold underway. simpl. repeat split; try done.
  - by right.
  - apply calculateOptimalChunkSize_sizes.
  - intros size [= <-]. apply calculateOptimalChunkSize_sizes.
Qed.

Lemma underway_touched (file : Velo.File) (id : Z) (i : Inbound) (cs : list (list byte))
    (t : Transfer) :
  underway file id cs t -> underway file id cs (touched i t).
Proof.
  intros (Hsent & Hcat & Hoff & Hlt & Hfull & Hlock & Hsize & Hentry).
  unfold underway. simpl. repeat split; try done.
  destruct i; simpl; [done | done | done].
Qed.

(** The size a chunk is read with is one of the five, whatever has become
    of the entry. *)
Lemma currentChunk_sizes (file : Velo.File) (id : Z) (cs : list (list byte)) (t : Transfer) :
  underway file id cs t -> In (currentChunk t) chunkSizes.
Proof.
  intros (_ & _ & _ & _ & _ & _ & Hsize & Hentry). unfold currentChunk.
  destruct (entry t) as [[size|]|]; [|done..].
  destruct (size =? 0)%Z; [done|]. by apply Hentry.
Qed.

(** One chunk read and sent: the transfer goes on with a full chunk more,
    or ends with the rest of the file. *)
Lemma underway_onload (file : Velo.File) (id : Z) (a : Attempt) (cs : list (list byte))
    (t : Transfer) :
  underway file id cs t ->
  let chunk := slice (Velo.f_bytes file) (offset t) (offset t + currentChunk t) in
  (Z.of_nat (length chunk) <= maxChunkSize)%Z /\
  ((onload file id a t).2 = Sending /\ underway file id (cs ++ [chunk]) (onload file id a t).1 /\
   (offset t + minChunkSize <= offset (onload file id a t).1)%Z
   \/
   (onload file id a t).2 = Complete /\
   sent (onload file id a t).1
   = Velo.FileStart id (Velo.f_name file) (Velo.f_size file)
       :: map Velo.Binary (cs ++ [chunk]) ++ [Velo.FileEnd id] /\
   concat (cs ++ [chunk]) = Velo.f_bytes file /\
   offset (onload file id a t).1 = Velo.f_size file /\
   isSending (onload file id a t).1 = false).
Proof.
  intros Hu chunk. pose proof (currentChunk_sizes file id cs t Hu) as Hcur.
  destruct Hu as (Hsent & Hcat & Hoff & Hlt & Hfull & Hlock & Hsize & Hentry).
  pose proof (chunkSizes_range _ Hcur) as Hrange.
  assert (Hmin : (0 < minChunkSize)%Z) by (unfold minChunkSize; lia).
  assert (Hlen : Z.of_nat (length chunk)
                 = Z.min (currentChunk t) (Z.max (Velo.f_size file - offset t) 0)).
  { unfold chunk. rewrite length_slice by lia. done. }
  assert (Hle : (offset t <= Velo.f_size file)%Z).
  { destruct Hlt as [?|[_ ->]]; [lia|]. unfold Velo.f_size. lia. }
  assert (Hcat' : concat (cs ++ [chunk])
                  = take (Z.to_nat (offset t + Z.of_nat (length chunk))) (Velo.f_bytes file)).
  { rewrite concat_app. simpl. rewrite app_nil_r, Hcat. unfold chunk.
    apply take_slice; lia. }
  split; [lia|]. unfold onload. fold chunk.
  destruct (Z.ltb_spec (offset t + Z.of_nat (length chunk)) (Velo.f_size file)) as [Hmore|Hdone].
  - left. split; [done|]. simpl. split; [|lia].
    assert (Hwhole : Z.of_nat (length chunk) = currentChunk t) by lia.
    unfold underway. simpl. repeat split.
    + by rewrite Hsent, map_app.
    + done.
    + lia.
    + by left.
    + apply Forall_app. split; [done|]. constructor; [|done]. by rewrite Hwhole.
    + done.
    + intros size.
      assert (Hfound : forall size', touch (reading a) (entry t) = Some (Some size') ->
                                     In size' chunkSizes).
      { destruct (reading a); simpl; [done | done | done]. }
      destruct (measured a) as [speed|]; [|by apply Hfound].
      destruct (_ <? _)%Z; [|by apply Hfound].
      destruct (touch (reading a) (entry t)); [|done].
      intros [= <-]. apply calculateOptimalChunkSize_sizes.
  - right. split; [done|]. simpl.
    assert (Hend : (offset t + Z.of_nat (length chunk) = Velo.f_size file)%Z) by lia.
    repeat split.
    + rewrite Hsent. simpl. f_equal. rewrite !map_app. simpl. by rewrite <- app_assoc.
    + rewrite Hcat', Hend. unfold Velo.f_size. rewrite Nat2Z.id. apply firstn_all.
    + done.
Qed.

Lemma removelast_snoc {A : Type} (l : list A) (x : A) : removelast (l ++ [x]) = l.
Proof. rewrite removelast_app by done. simpl. apply app_nil_r. Qed.

(** What the loop leaves, in each of its three outcomes. *)
Lemma chunkLoop_outcome (file : Velo.File) (id : Z) (targets : nat) (attempts : list Attempt) :
  forall cs t, underway file id cs t ->
    Forall (fun c => Z.of_nat (length c) <= maxChunkSize)%Z cs ->
    let r := chunkLoop file id targets attempts t in
    exists cs',
      sent r.1 = Velo.FileStart id (Velo.f_name file) (Velo.f_size file)
                   :: map Velo.Binary cs'
                   ++ (match r.2 with Complete => [Velo.FileEnd id] | _ => [] end) /\
      concat cs' = take (Z.to_nat (offset r.1)) (Velo.f_bytes file) /\
      (r.2 = Complete -> offset r.1 = Velo.f_size file) /\
      Forall (fun c => Z.of_nat (length c) <= maxChunkSize)%Z cs' /\
      Forall (fun c => In (Z.of_nat (length c)) chunkSizes)
             (match r.2 with Complete => removelast cs' | _ => cs' end) /\
      isSending r.1 = (match r.2 with Sending => true | _ => false end).
Proof.
  induction attempts as [|a attempts IH]; intros cs t Hu Hmax; cbn [chunkLoop].
  { destruct Hu as (Hsent & Hcat & _ & _ & Hfull & Hlock & _). exists cs. simpl.
    rewrite app_nil_r. by repeat split. }
  unfold sendNextChunk. cbv zeta.
  pose proof (underway_touched file id (before a) cs t Hu) as Hu1.
  set (t1 := touched (before a) t) in *.
  destruct (cancelled a).
  { destruct Hu1 as (Hsent & Hcat & _ & _ & Hfull & Hlock & _). exists cs. simpl.
    rewrite app_nil_r. by repeat split. }
  destruct (gt _ _); [by apply (IH cs)|].
  destruct (underway_onload file id a cs t1 Hu1)
    as [Hlen [(Hph & Hu' & _)|(Hph & Hsent & Hcat & Hoff & Hlock)]].
  - destruct (onload file id a t1) as [t' ph]. simpl in *. subst ph.
    apply (IH _ t' Hu'). apply Forall_app. split; [done|]. by constructor.
  - destruct (onload file id a t1) as [t' ph]. simpl in *. subst ph. simpl.
    eexists. split; [exact Hsent|]. split.
    + rewrite Hcat, Hoff. unfold Velo.f_size. rewrite Nat2Z.id. symmetry. apply firstn_all.
    + split; [done|]. split; [|split; [|done]].
      * apply Forall_app. split; [done|]. by constructor.
      * rewrite removelast_snoc. by destruct Hu1 as (_ & _ & _ & _ & Hfull & _).
Qed.

Lemma sendFile_outcome (file : Velo.File) (id : Z) (targets : nat) (speed : Q)
    (attempts : list Attempt) (t : Transfer) (phase : Phase) :
  sendFile file id targets speed attempts = Some (t, phase) ->
  exists cs,
    sent t = Velo.FileStart id (Velo.f_name file) (Velo.f_size file)
               :: map Velo.Binary cs
               ++ (match phase with Complete => [Velo.FileEnd id] | _ => [] end) /\
    concat cs = take (Z.to_nat (offset t)) (Velo.f_bytes file) /\
    (phase = Complete -> concat cs = Velo.f_bytes file) /\
    Forall (fun c => Z.of_nat (length c) <= maxChunkSize)%Z cs /\
    Forall (fun c => In (Z.of_nat (length c)) chunkSizes)
           (match phase with Complete => removelast cs | _ => cs end) /\
    isSending t = (match phase with Sending => true | _ => false end).
Proof.
  unfold sendFile. destruct (targets =? 0)%nat; [done|].
  destruct (chunkLoop_outcome file id targets attempts [] _ (underway_start file id speed))
    as (cs & Hsent & Hcat & Hoff & Hmax & Hfull & Hlock); [constructor|].
  intros [= Hloop]. rewrite Hloop in *. simpl in *.
  exists cs. repeat split; try done.
  intros Hc. rewrite Hcat, (Hoff Hc). unfold Velo.f_size. rewrite Nat2Z.id. apply firstn_all.
Qed.

(** X25. The chunks of a transfer, whatever sizes the measured speeds lead to
    and whatever the receiving functions do to its entry in
    [activeTransfers]: after the announcement the targets are sent the file
    up to the current offset, cut into chunks of at most two mebibytes,
    each of them (but the last one of a complete transfer) of one of the
    five sizes of [calculateOptimalChunkSize]; [file-end] follows exactly
    when the whole file has been sent, and the lock is held exactly while
    the transfer is neither complete nor cancelled; without a target
    nothing is sent. *)
Theorem adaptive_chunks_give_the_file (file : Velo.File) (id : Z) (targets : nat) (speed : Q)
    (attempts : list Attempt) :
  match sendFile file id targets speed attempts with
  | None => targets = 0%nat
  | Some (t, phase) =>
      targets <> 0%nat /\
      exists cs,
        sent t = Velo.FileStart id (Velo.f_name file) (Velo.f_size file)
                   :: map Velo.Binary cs
                   ++ (match phase with Complete => [Velo.FileEnd id] | _ => [] end) /\
        concat cs = take (Z.to_nat (offset t)) (Velo.f_bytes file) /\
        (phase = Complete -> concat cs = Velo.f_bytes file) /\
        Forall (fun c => Z.of_nat (length c) <= maxChunkSize)%Z cs /\
        Forall (fun c => In (Z.of_nat (length c)) chunkSizes)
               (match phase with Complete => removelast cs | _ => cs end) /\
        isSending t = (match phase with Sending => true | _ => false end)
  end.
Proof.
  destruct (sendFile file id targets speed attempts) as [[t phase]|] eqn:Hs.
  - split; [|by apply (sendFile_outcome file id targets speed attempts)].
    intros ->. unfold sendFile in Hs. done.
  - unfold sendFile in Hs. by destruct (Nat.eqb_spec targets 0).
Qed.

(** *** Completion *)

Lemma chunkLoop_completes (file : Velo.File) (id : Z) (targets : nat)
    (attempts : list Attempt) :
  forall cs t, underway file id cs t ->
    Forall (fun a => cancelled a = false) attempts ->
    ((Velo.f_size file - offset t) / minChunkSize < Z.of_nat (reads targets attempts))%Z ->
    (chunkLoop file id targets attempts t).2 = Complete.
Proof.
  assert (Hmin : (0 < minChunkSize)%Z) by (unfold minChunkSize; lia).
  induction attempts as [|a attempts IH]; intros cs t Hu Hnc Hn.
  { destruct Hu as (_ & _ & Hoff & Hlt & _).
    assert (0 <= (Velo.f_size file - offset t) / minChunkSize)%Z.
    { apply Z.div_pos; [|done]. destruct Hlt as [?|[_ ->]]; [lia|]. unfold Velo.f_size. lia. }
    change (reads targets []) with 0%nat in Hn.
    set (d := ((Velo.f_size file - offset t) / minChunkSize)%Z) in *. lia. }
  inversion Hnc as [|? ? Ha Hrest]; subst. cbn [chunkLoop]. unfold sendNextChunk. cbv zeta.
  rewrite Ha.
  pose proof (underway_touched file id (before a) cs t Hu) as Hu1.
  change (offset t) with (offset (touched (before a) t)) in Hn.
  set (t1 := touched (before a) t) in *.
  unfold reads in Hn. cbn [List.filter] in Hn.
  destruct (gt _ _); cbn [negb length] in Hn.
  { by apply (IH cs). }
  fold (reads targets attempts) in Hn. rewrite Nat2Z.inj_succ in Hn.
  destruct (underway_onload file id a cs t1 Hu1) as [_ [(Hph & Hu' & Hadv)|(Hph & _)]].
  - destruct (onload file id a t1) as [t' ph]. simpl in Hph, Hu', Hadv. subst ph.
    apply (IH _ t' Hu' Hrest).
    assert (Hdiv : ((Velo.f_size file - offset t') / minChunkSize + 1
                    <= (Velo.f_size file - offset t1) / minChunkSize)%Z).
    { change (offset t1) with (offset t).
      rewrite <- (Z.div_add _ 1 minChunkSize) by lia. apply Z.div_le_mono; lia. }
    set (d := ((Velo.f_size file - offset t1) / minChunkSize)%Z) in *.
    set (d' := ((Velo.f_size file - offset t') / minChunkSize)%Z) in *. lia.
  - destruct (onload file id a t1) as [t' ph]. simpl in Hph. by subst ph.
Qed.

(** X27. A transfer that is not cancelled comes to its end: after enough
    attempts that find the buffers under the threshold, one for each 256
    KiB of the file and one more, the transfer is complete. *)
Theorem adaptive_transfer_completes (file : Velo.File) (id : Z) (targets : nat) (speed : Q)
    (attempts : list Attempt) :
  (0 < targets)%nat ->
  Forall (fun a => cancelled a = false) attempts ->
  (Velo.f_size file / minChunkSize < Z.of_nat (reads targets attempts))%Z ->
  exists t, sendFile file id targets speed attempts = Some (t, Complete) /\
            isSending t = false /\ offset t = Velo.f_size file.
Proof.
  intros Hpos Hnc Hn. unfold sendFile. destruct (Nat.eqb_spec targets 0) as [->|_]; [lia|].
  pose proof (chunkLoop_completes file id targets attempts [] _
                (underway_start file id speed) Hnc) as Hc.
  simpl in Hc. rewrite Z.sub_0_r in Hc. specialize (Hc Hn).
  destruct (chunkLoop_outcome file id targets attempts [] _ (underway_start file id speed))
    as (cs & _ & _ & Hoff & _ & _ & Hlock); [constructor|].
  destruct (chunkLoop _ _ _ _ _) as [t phase]. simpl in *. subst phase.
  exists t. split; [done|]. split; [done|]. by apply Hoff.
Qed.

(** *** At the receiver *)

(** X28. What the receiving functions make of an adaptive transfer: a
    complete one ends in the download of the file under its name, and
    leaves no entry behind; one that was cancelled, or is still under way,
    downloads nothing: the receiver keeps the part it was sent, and the
    sender of a cancelled transfer, which has released its lock, sends
    nothing that would end it. *)
Theorem receiver_downloads_a_complete_transfer_only (file : Velo.File) (id : Z)
    (targets : nat) (speed : Q) (attempts : list Attempt) (t : Transfer) (phase : Phase)
    (q : Velo.PeerId) (receiver : Velo.App) :
  sendFile file id targets speed attempts = Some (t, phase) ->
  is_Some (map_get q (Velo.connections receiver)) -> id <> 0%Z ->
  let receiver' := Velo.deliver q (sent t) receiver in
  match phase with
  | Complete =>
      Velo.downloads receiver'
      = Velo.downloads receiver ++ [(Velo.f_name file, Velo.f_bytes file)] /\
      Velo.transfers receiver' !! id = None /\ Velo.activeInbound q receiver' = None
  | _ =>
      Velo.downloads receiver' = Velo.downloads receiver /\
      Velo.activeInbound q receiver' = Some id /\
      exists e, Velo.transfers receiver' !! id = Some e /\
                Blob (Velo.chunks e) = take (Z.to_nat (offset t)) (Velo.f_bytes file)
  end.
Proof.
  intros Hs [info Hq] Hid receiver'.
  destruct (sendFile_outcome file id targets speed attempts t phase Hs)
    as (cs & Hsent & Hcat & Hall & _).
  assert (Hpart : phase <> Complete ->
            Velo.downloads receiver' = Velo.downloads receiver /\
            Velo.activeInbound q receiver' = Some id /\
            exists e, Velo.transfers receiver' !! id = Some e /\
                      Blob (Velo.chunks e) = take (Z.to_nat (offset t)) (Velo.f_bytes file)).
  { intros Hph. unfold receiver'. rewrite Hsent.
    replace (match phase with Complete => [Velo.FileEnd id] | _ => [] end)
      with (@nil Velo.Data) by by destruct phase.
    rewrite app_nil_r. unfold Velo.deliver. simpl.
    set (app1 := Velo.receiveFileStart q id (Velo.f_name file) (Velo.f_size file) receiver).
    assert (Hq1 : map_get q (Velo.connections app1)
                  = Some {| Velo.conn := Velo.conn info; Velo.username := Velo.username info;
                            Velo.receivingId := Some id |}).
    { unfold app1, Velo.receiveFileStart, Velo.setReceivingId. rewrite Hq. simpl.
      apply map_get_set_eq. }
    assert (Ht1 : Velo.transfers app1 !! id
                  = Some {| Velo.name := Velo.f_name file; Velo.size := Velo.f_size file;
                            Velo.chunks := []; Velo.received := 0 |}).
    { unfold app1, Velo.receiveFileStart. simpl. apply lookup_insert_eq. }
    assert (Hd1 : Velo.downloads app1 = Velo.downloads receiver).
    { unfold app1, Velo.receiveFileStart, Velo.setReceivingId. by rewrite Hq. }
    destruct (VeloFacts.deliver_chunks q id cs app1 _ _ Hq1 eq_refl Hid Ht1) as (Hc & Hd & Htr).
    fold (Velo.deliver q (map Velo.Binary cs) app1).
    split; [congruence|]. split.
    - unfold Velo.activeInbound. rewrite Hc, Hq1. simpl.
      destruct (Z.eqb_spec id 0); [done|]. simpl. by rewrite Htr.
    - eexists. split; [exact Htr|]. done. }
  destruct phase; [by apply Hpart | by apply Hpart |].
  unfold receiver'. rewrite Hsent.
  destruct (VeloFacts.deliver_transfer q id (Velo.f_name file) (Velo.f_size file) cs receiver
              info Hq Hid) as (Hd & Ht & Ha).
  rewrite Hd, Hall by done. done.
Qed.

(** *** Runs *)

Lemma backpressure_threshold_has_two_values_witness :
  sendNextChunk note 1 2 {| cancelled := false; totalBuffered := 3 * 1024 * 1024;
                            before := Untouched; reading := Untouched; measured := None |}
    {| offset := 0; measuredSpeed := 0; chunkSize := minChunkSize;
       entry := Some (Some minChunkSize);
       sent := [Velo.FileStart 1 "note.txt" 2]; isSending := true |}
  = ({| offset := 0; measuredSpeed := 0; chunkSize := minChunkSize;
        entry := Some (Some minChunkSize);
        sent := [Velo.FileStart 1 "note.txt" 2]; isSending := true |}, Sending).
Proof.
  rewrite backpressure_threshold_has_two_values; [reflexivity | lia | reflexivity].
Defined.

Lemma adaptive_transfer_completes_witness :
  exists t, sendFile note 1 1 0 [free 1] = Some (t, Complete) /\
            isSending t = false /\ offset t = Velo.f_size note.
Proof.
  apply adaptive_transfer_completes.
  - lia.
  - by repeat constructor.
  - vm_compute. reflexivity.
Defined.

Lemma receiver_downloads_a_complete_transfer_only_witness :
  Velo.downloads listener = [] /\
  Velo.downloads
    (Velo.deliver "alice"
       [Velo.FileStart 1 "note.txt" 2; Velo.Binary [x68; x69]; Velo.FileEnd 1] listener)
  = [("note.txt", [x68; x69])].
Proof.
  split; [reflexivity|].
  pose proof (receiver_downloads_a_complete_transfer_only note 1 1 0 [free 1]
                {| offset := 2; measuredSpeed := 1; chunkSize := minChunkSize;
                   entry := None;
                   sent := [Velo.FileStart 1 "note.txt" 2; Velo.Binary [x68; x69];
                            Velo.FileEnd 1];
                   isSending := false |} Complete "alice" listener) as H.
  simpl in H. apply H.
  - vm_compute. reflexivity.
  - vm_compute. eauto.
  - lia.
Defined.

End OptimizedFacts.

(** * Properties of the theme switch and of the history *)

Module ThemeFacts.
Import Theme.

(** After [init] and after every click the attribute and the storage hold
    the same theme, which is not the empty string. *)
Lemma setTheme_kept (theme : string) (p : Page) :
  dataTheme (setTheme theme p) = Some theme /\ stored (setTheme theme p) = Some theme /\
  transition (setTheme theme p) = transition p /\
  icons (setTheme theme p)
  = (fun _ => if String.eqb theme "dark" then ("block", "none") else ("none", "block")) <$> icons p.
Proof. unfold setTheme, updateIcons. simpl. by destruct (icons p). Qed.

Lemma init_theme (systemDark : bool) (p : Page) :
  exists theme, theme <> "" /\ dataTheme (init systemDark p) = Some theme /\
                stored (init systemDark p) = Some theme /\
                (forall saved, stored p = Some saved -> saved <> "" -> theme = saved).
Proof.
  unfold init. destruct (stored p) as [saved|] eqn:Es.
  - destruct (String.eqb_spec saved "") as [->|Hne].
    + exists (if systemDark then "dark" else "light").
      destruct (setTheme_kept (if systemDark then "dark" else "light") p) as (-> & -> & _).
      split; [by destruct systemDark|]. repeat split. by intros ? [= <-].
    + exists saved. destruct (setTheme_kept saved p) as (-> & -> & _).
      repeat split; [done|]. by intros ? [= <-].
  - exists (if systemDark then "dark" else "light").
    destruct (setTheme_kept (if systemDark then "dark" else "light") p) as (-> & -> & _).
    split; [by destruct systemDark|]. by repeat split.
Qed.

Lemma handle_theme (ev : Event) (p : Page) (theme : string) :
  theme <> "" -> dataTheme p = Some theme -> stored p = Some theme ->
  exists theme', theme' <> "" /\ dataTheme (handle ev p) = Some theme' /\
                 stored (handle ev p) = Some theme' /\
                 match ev with
                 | Click => theme' = if String.eqb theme "dark" then "light" else "dark"
                 | Timeout => theme' = theme
                 end.
Proof.
  intros Hne Hd Hs. destruct ev; simpl.
  - unfold toggle. rewrite Hd.
    set (next := if String.eqb theme "dark" then "light" else "dark").
    exists next. destruct (setTheme_kept next
      {| dataTheme := Some theme; stored := stored p; icons := icons p; transition := true |})
      as (-> & -> & _).
    split; [|done]. unfold next. by destruct (String.eqb theme "dark").
  - by exists theme.
Qed.

Lemma run_theme (evs : list Event) : forall (p : Page) (theme : string),
  theme <> "" -> dataTheme p = Some theme -> stored p = Some theme ->
  exists theme', theme' <> "" /\ dataTheme (run evs p) = Some theme' /\
                 stored (run evs p) = Some theme' /\
                 ((0 < clicks evs)%nat -> theme' = "dark" \/ theme' = "light") /\
                 (theme = "dark" \/ theme = "light" ->
                  theme' = if Nat.even (clicks evs) then theme
                           else if String.eqb theme "dark" then "light" else "dark").
Proof.
  induction evs as [|ev evs IH]; intros p theme Hne Hd Hs.
  { exists theme. repeat split; try done. unfold clicks. simpl. lia. }
  destruct (handle_theme ev p theme Hne Hd Hs) as (t1 & Hne1 & Hd1 & Hs1 & Hev).
  destruct (IH (handle ev p) t1 Hne1 Hd1 Hs1) as (t2 & Hne2 & Hd2 & Hs2 & Hcl & Hpar).
  exists t2. change (run (ev :: evs) p) with (run evs (handle ev p)).
  split; [done|]. split; [done|]. split; [done|].
  destruct ev.
  - change (clicks (Click :: evs)) with (S (clicks evs)).
    assert (Ht1 : t1 = "dark" \/ t1 = "light").
    { subst t1. destruct (String.eqb theme "dark"); tauto. }
    split.
    + intros _. rewrite (Hpar Ht1). destruct (Nat.even _); [done|].
      destruct Ht1 as [->| ->]; simpl; tauto.
    + intros Hth. rewrite (Hpar Ht1). rewrite Nat.even_succ, <- Nat.negb_even.
      destruct (Nat.even (clicks evs)); simpl.
      * done.
      * subst t1. by destruct Hth as [->| ->].
  - change (clicks (Timeout :: evs)) with (clicks evs). subst t1. done.
Qed.

(** X9. The theme is kept over a reload: after [init] and any number of
    clicks on the switch the attribute of the document and the storage hold
    the same theme, and an [init] on the page loaded again puts that theme
    back, whatever the document and the system say.  A click turns dark into
    light and everything else into dark, so that after the first click the
    theme is one of the two, and an even number of clicks on a dark or light
    theme changes nothing. *)
Theorem theme_survives_reload (systemDark systemDark' : bool) (p document : Page)
    (evs : list Event) :
  let shown := run evs (init systemDark p) in
  exists theme,
    dataTheme shown = Some theme /\ stored shown = Some theme /\
    dataTheme (init systemDark' (reload document shown)) = Some theme /\
    ((0 < clicks evs)%nat -> theme = "dark" \/ theme = "light") /\
    (forall first, dataTheme (init systemDark p) = Some first ->
       first = "dark" \/ first = "light" ->
       theme = if Nat.even (clicks evs) then first
               else if String.eqb first "dark" then "light" else "dark").
Proof.
  intros shown. destruct (init_theme systemDark p) as (t0 & Hne0 & Hd0 & Hs0 & _).
  destruct (run_theme evs _ t0 Hne0 Hd0 Hs0) as (t & Hne & Hd & Hs & Hcl & Hpar).
  exists t. fold shown in Hd, Hs. repeat split; try done.
  - destruct (init_theme systemDark' (reload document shown)) as (t' & _ & Hd' & _ & Hsaved).
    rewrite Hd'. f_equal. by apply Hsaved.
  - intros first Hf. rewrite Hd0 in Hf. injection Hf as <-. apply Hpar.
Qed.

(** X10. The icon that is shown goes with the theme: whenever both icons are
    in the page, after [init] and any clicks the sun is shown and the moon
    hidden under the dark theme, and the other way round under any other
    theme. *)
Theorem icons_follow_the_theme (systemDark : bool) (p : Page) (evs : list Event)
    (sun moon : string) :
  icons p = Some (sun, moon) ->
  let shown := run evs (init systemDark p) in
  icons shown = Some (if bool_decide (dataTheme shown = Some "dark")
                      then ("block", "none") else ("none", "block")).
Proof.
  intros Hi shown.
  assert (Hinit : forall q theme, is_Some (icons q) ->
            icons (setTheme theme q)
            = Some (if bool_decide (dataTheme (setTheme theme q) = Some "dark")
                    then ("block", "none") else ("none", "block"))).
  { intros q theme [i Hq]. destruct (setTheme_kept theme q) as (-> & _ & _ & ->).
    rewrite Hq. simpl. f_equal. destruct (String.eqb_spec theme "dark") as [->|Hne].
    - by rewrite bool_decide_eq_true_2.
    - rewrite bool_decide_eq_false_2; [done|]. by intros [= ->]. }
  assert (H0 : icons (init systemDark p)
               = Some (if bool_decide (dataTheme (init systemDark p) = Some "dark")
                       then ("block", "none") else ("none", "block"))).
  { unfold init. destruct (stored p) as [saved|]; [destruct (String.eqb saved "")|];
      apply Hinit; by rewrite Hi. }
  unfold shown. clear Hi. revert H0. generalize (init systemDark p). clear shown.
  induction evs as [|ev evs IH]; intros q Hq; [done|].
  change (run (ev :: evs) q) with (run evs (handle ev q)). apply IH.
  destruct ev; simpl.
  - unfold toggle. apply Hinit. simpl. by rewrite Hq.
  - done.
Qed.

Lemma icons_follow_the_theme_witness :
  icons (run [Click] (init false {| dataTheme := None; stored := None;
                                   icons := Some ("", ""); transition := false |}))
  = Some ("block", "none").
Proof.
  exact (icons_follow_the_theme false
           {| dataTheme := None; stored := None; icons := Some ("", ""); transition := false |}
           [Click] "" "" eq_refl).
Defined.

End ThemeFacts.

Module HistoryFacts.
Import History.

Lemma removelast_take {A : Type} (l : list A) : removelast l = take (length l - 1) l.
Proof.
  induction l as [|x [|y l] IH]; [done..|].
  change (removelast (x :: y :: l)) with (x :: removelast (y :: l)). rewrite IH. simpl.
  by rewrite Nat.sub_0_r.
Qed.

Lemma saveHistory_take (item : Item) (history : list Item) :
  (length history <= 50)%nat -> saveHistory item history = take 50 (item :: history).
Proof.
  intros Hle. unfold saveHistory. destruct (Nat.ltb_spec 50 (length (item :: history))) as [Hlt|Hge].
  - rewrite removelast_take. f_equal. simpl in *. lia.
  - symmetry. apply firstn_all2. lia.
Qed.

(** X24. The history keeps the fifty transfers that ended last, the latest
    first: from a history of fifty entries or fewer, any number of calls of
    [saveHistory] leave the first fifty of the new entries, in the reverse
    of the order of the calls, followed by the old ones. *)
Theorem history_keeps_the_latest_fifty (items history : list Item) :
  (length history <= 50)%nat ->
  saveAll items history = take 50 (rev items ++ history).
Proof.
  revert history. induction items as [|item items IH]; intros history Hle.
  - simpl. symmetry. by apply firstn_all2.
  - change (saveAll (item :: items) history) with (saveAll items (saveHistory item history)).
    rewrite IH.
    + rewrite saveHistory_take by done. simpl. rewrite <- app_assoc. simpl.
      destruct (Nat.le_gt_cases 50 (length (rev items))) as [Hbig|Hsmall].
      * rewrite !take_app_le by done. done.
      * rewrite !take_app_ge by lia. f_equal.
        assert (Hn : (50 - length (rev items) <= 50)%nat) by lia.
        destruct (50 - length (rev items))%nat as [|n]; [done|]. simpl. f_equal.
        rewrite take_take. f_equal. lia.
    + rewrite saveHistory_take by done. rewrite length_take. lia.
Qed.

Lemma history_keeps_the_latest_fifty_witness :
  saveAll [{| name := "a"; size := 1; date := 0; direction := "send"; peer := "Peers" |};
           {| name := "b"; size := 2; date := 1; direction := "receive"; peer := "VELO-1" |}] []
  = [{| name := "b"; size := 2; date := 1; direction := "receive"; peer := "VELO-1" |};
     {| name := "a"; size := 1; date := 0; direction := "send"; peer := "Peers" |}].
Proof.
  rewrite history_keeps_the_latest_fifty; [reflexivity | simpl; lia].
Defined.

End HistoryFacts.

(** * Properties of the client of the room server *)

Module ClientFacts.
Import Relay RelayFacts Client.

Lemma initiateConnection_keeps (q v : Handshake.PeerId) (m : Handshake.Manager) :
  (is_Some (Handshake.connections m !! v) ->
   is_Some (Handshake.connections (Handshake.initiateConnection q m) !! v)) /\
  (v ∈ Handshake.dataChannels m -> v ∈ Handshake.dataChannels (Handshake.initiateConnection q m)).
Proof.
  unfold Handshake.initiateConnection, Handshake.setupDataChannel. simpl. split.
  - intros H. unfold Handshake.createPeerConnection.
    destruct (Handshake.connections m !! q) eqn:E; [done|]. simpl.
    destruct (decide (v = q)) as [->|Hne].
    + by rewrite lookup_insert_eq.
    + by rewrite lookup_insert_ne.
  - intros H. apply elem_of_union_r. unfold Handshake.createPeerConnection.
    by destruct (Handshake.connections m !! q).
Qed.

Lemma initiateConnection_makes (q : Handshake.PeerId) (m : Handshake.Manager) :
  is_Some (Handshake.connections (Handshake.initiateConnection q m) !! q) /\
  q ∈ Handshake.dataChannels (Handshake.initiateConnection q m).
Proof.
  unfold Handshake.initiateConnection, Handshake.setupDataChannel. simpl. split.
  - unfold Handshake.createPeerConnection.
    destruct (Handshake.connections m !! q) eqn:E; [by rewrite E|]. simpl.
    by rewrite lookup_insert_eq.
  - apply elem_of_union_l. by apply elem_of_singleton.
Qed.

Lemma initiate_all (ps : list UserId) : forall (m : Handshake.Manager) (v : UserId),
  In v ps \/ (is_Some (Handshake.connections m !! v) /\ v ∈ Handshake.dataChannels m) ->
  is_Some (Handshake.connections
             (foldl (fun m' p => Handshake.initiateConnection p m') m ps) !! v) /\
  v ∈ Handshake.dataChannels (foldl (fun m' p => Handshake.initiateConnection p m') m ps).
Proof.
  induction ps as [|p ps IH]; intros m v H; simpl.
  - by destruct H as [[]|H].
  - apply IH. destruct H as [[->|Hin]|[Hc Hd]].
    + right. apply initiateConnection_makes.
    + by left.
    + right. destruct (initiateConnection_keeps p v m) as [H1 H2]. by split; [apply H1 | apply H2].
Qed.

Lemma isMember_In (v : UserId) (room : Room) :
  isMember v room = true -> exists member, Js.map_get v (users room) = Some member.
Proof. unfold isMember. destruct (Js.map_get v (users room)); [eauto | done]. Qed.

(** The peers a joiner turns to are the other members of the room. *)
Lemma initiated_members (u v : UserId) (room : Room) :
  indexed room ->
  In v (initiated u (userList room)) <-> v <> u /\ isMember v room = true.
Proof.
  intros [_ Hall]. unfold initiated, userList, Js.map_values.
  rewrite in_map_iff. split.
  - intros (info & <- & Hin). apply filter_In in Hin as [Hin Hne].
    apply in_map_iff in Hin as (member & <- & Hin). simpl in *.
    apply in_map_iff in Hin as ([k member'] & Hsnd & Hin). simpl in Hsnd. subst member'.
    pose proof (proj1 (List.Forall_forall _ _) Hall _ Hin) as Hid. simpl in Hid.
    split.
    + intros Heq. by rewrite Heq, String.eqb_refl in Hne.
    + rewrite Hid. by eapply In_isMember.
  - intros [Hne Hmem]. apply isMember_In in Hmem as [member Hget].
    apply JsFacts.map_get_In in Hget.
    pose proof (proj1 (List.Forall_forall _ _) Hall _ Hget) as Hid. simpl in Hid.
    exists {| id := m_userId member; username := m_username member |}. simpl.
    split; [done|]. apply filter_In. split.
    + apply in_map_iff. exists member. split; [done|].
      apply in_map_iff. by exists (v, member).
    + simpl. rewrite Hid. apply negb_true_iff. by apply String.eqb_neq.
Qed.

Section Joining.
Variable random : nat -> Q.
Variable toUpperCase : string -> string.

(** X8. A socket that joins a room it is not in is told who is there, turns
    to each of them, and the server takes its offers where they are meant
    to go: the list in [room-joined] is that of the room the socket is now
    in, the peers for which the client calls [initiateConnection] are the
    members of that room other than itself, the manager then holds a
    connection and a data channel for each of them, and the offer made for
    a peer is relayed by [relaySignaling] to that peer and to nobody else,
    under the id and the name of the joiner. *)
Theorem joiner_offers_reach_every_member (st : State) (u : UserId) (rc name : string)
    (r : nat) (m : Handshake.Manager) :
  reachable random toUpperCase st -> is_Some (sockets st !! u) ->
  rooms st !! toUpperCase rc = Some r ->
  roomCode (socketOf u st) <> Some (toUpperCase rc) ->
  let st1 := if Js.truthy (roomCode (socketOf u st)) then leaveRoom u st else st in
  let st' := joinRoom toUpperCase u rc name st in
  exists (room : Room) (notices : list (UserId * Msg)),
    roomOf u st' = Some room /\
    sent st' = sent st1 ++ (u, RoomJoined (toUpperCase rc) (userList room)) :: notices /\
    (forall v, In v (initiated u (userList room)) <-> v <> u /\ isMember v room = true) /\
    (forall v, In v (initiated u (userList room)) ->
       is_Some (Handshake.connections (roomJoined u (userList room) m) !! v) /\
       v ∈ Handshake.dataChannels (roomJoined u (userList room) m)) /\
    (forall v sdp, In v (initiated u (userList room)) ->
       relaySignaling u (offerTo v sdp) st'
       = [(v, withSender u (Some name) (offerTo v sdp))]).
Proof.
  intros Hreach Hsock Hr Hother st1 st'.
  assert (Hreach' : reachable random toUpperCase st') by by apply reach_join.
  assert (Hreach1 : reachable random toUpperCase st1).
  { unfold st1. destruct (Js.truthy _); [by apply reach_leave | done]. }
  assert (Hr1 : rooms st1 !! toUpperCase rc = Some r).
  { unfold st1. destruct (Js.truthy _); [|done].
    destruct (leaveRoom_cases u st) as [-> | (rc0 & r0 & room0 & Hrc & _ & _ & ->)]; [done|].
    simpl. destruct (Nat.eqb _ 0); [|done].
    rewrite lookup_delete_ne; [done | congruence]. }
  destruct (reachable_consistent random toUpperCase st1 Hreach1) as [Htab _].
  destruct (Htab _ _ Hr1) as (room1 & Hroom1 & _).
  pose proof (joinRoom_cases toUpperCase u rc name st r Hr) as Hj. cbv zeta in Hj.
  fold st1 in Hj. destruct Hj as [[Hnone _] | (room1' & Hroom1' & Hst')]; [congruence|].
  rewrite Hroom1 in Hroom1'. injection Hroom1' as <-. fold st' in Hst'.
  set (room := joinedRoom u name room1) in *.
  assert (Hstore : store st' !! r = Some room) by (rewrite Hst'; simpl; apply lookup_insert_eq).
  assert (Hix : indexed room) by by eapply (reachable_indexed random toUpperCase st').
  assert (Hsocket : socketOf u st' = {| roomCode := Some (toUpperCase rc);
                                        ws_username := Some name |}).
  { rewrite Hst'. unfold socketOf. simpl. by rewrite lookup_insert_eq. }
  assert (Hroom : roomOf u st' = Some room).
  { unfold roomOf. rewrite Hsocket. simpl.
    replace (rooms st' !! toUpperCase rc) with (Some r); [done|].
    rewrite Hst'. simpl. by rewrite Hr1. }
  clearbody room. exists room. eexists. split; [done|]. split.
  { rewrite Hst'. simpl. unfold joinNotices. reflexivity. }
  split; [intros v; by apply initiated_members|]. split.
  - intros v Hin. unfold roomJoined. apply initiate_all. by left.
  - intros v sdp Hin. apply (initiated_members u v room Hix) in Hin as [Hne Hmem].
    apply isMember_In in Hmem as [member Hget].
    assert (Hid : m_userId member = v).
    { destruct Hix as [_ Hall]. apply JsFacts.map_get_In in Hget.
      by pose proof (proj1 (List.Forall_forall _ _) Hall _ Hget) as Hid. }
    unfold relaySignaling. rewrite Hroom. unfold targetOf, offerTo. simpl.
    rewrite Hget, Hid, Hsocket. done.
Qed.

End Joining.

Lemma joiner_offers_reach_every_member_witness :
  exists (room : Room) (notices : list (UserId * Msg)),
    roomOf "b" twoInRoom = Some room /\
    sent twoInRoom
    = sent (connect "b" oneRoom) ++ ("b", RoomJoined "AAAAAA" (userList room)) :: notices /\
    (forall v, In v (initiated "b" (userList room)) <-> v <> "b" /\ isMember v room = true) /\
    (forall v, In v (initiated "b" (userList room)) ->
       is_Some (Handshake.connections
                  (roomJoined "b" (userList room) Handshake.initial) !! v) /\
       v ∈ Handshake.dataChannels (roomJoined "b" (userList room) Handshake.initial)) /\
    (forall v sdp, In v (initiated "b" (userList room)) ->
       relaySignaling "b" (offerTo v sdp) twoInRoom
       = [(v, withSender "b" (Some "Bob") (offerTo v sdp))]).
Proof.
  apply (joiner_offers_reach_every_member rnd upper (connect "b" oneRoom) "b" "AAAAAA" "Bob" 0%nat
           Handshake.initial).
  - apply reach_connect; [apply oneRoom_reachable | reflexivity].
  - vm_compute. eauto.
  - reflexivity.
  - vm_compute. congruence.
Defined.

End ClientFacts.
